(** * The resource manager of the robot runtime, and the lazily decoded image

    A shallow embedding of [robotimpl] (the resource manager: remote
    reconciliation, RPC API discovery, diff application, the complete-config
    pass, dial policy, the AppImage environment scrub) and of
    [rimage.LazyEncodedImage], followed by the properties proved about them.

    Conventions of the embedding.
    - A Go method that mutates its receiver becomes a function returning the
      new value; the manager is threaded explicitly through every call.
    - A Go [error] return is an [option error] ([None] is [nil]); a
      [(value, error)] return is a [result]; a [multierr] value is the flat
      list of its constituents ([[]] is [nil]).
    - A Go map ranged over by the code is an association list: the order of
      the list stands for the iteration order of that run.
    - What the manager logs, and the calls it makes on graph nodes and on
      remotes, are recorded in the manager's [trace], oldest first.
    - Collaborators that live outside the manager (drivers, the module
      manager, the dialer, the API registry) are the fields of a [World]. *)

From Stdlib Require Import List String Ascii Strings.Byte Bool Arith ZArith Lia.
From Stdlib Require Import Permutation Sorted.
Import ListNotations.
Local Open Scope string_scope.
Local Open Scope list_scope.
Local Open Scope bool_scope.

(* ================================================================== *)
(** ** Go's [strings] package, as far as the manager uses it *)

Module strings.

(** [strings.HasPrefix(s, prefix)]. *)
Definition HasPrefix (s prefix : string) : bool := String.prefix prefix s.

(** [strings.Contains(s, substr)]. *)
Fixpoint Contains (s substr : string) : bool :=
  String.prefix substr s ||
  match s with
  | EmptyString => false
  | String _ rest => Contains rest substr
  end.

(** [strings.Split(s, sep)] for a one-byte separator: the pieces of [s]
    between occurrences of [sep]; the empty string gives one empty piece. *)
Fixpoint Split (s : string) (sep : ascii) : list string :=
  match s with
  | EmptyString => [EmptyString]
  | String c rest =>
      if Ascii.eqb c sep then EmptyString :: Split rest sep
      else match Split rest sep with
           | [] => [String c EmptyString]
           | piece :: pieces => String c piece :: pieces
           end
  end.

(** [strings.Join(elems, sep)]. *)
Definition Join (elems : list string) (sep : string) : string :=
  String.concat sep elems.

End strings.

(** Equality test on lists of strings (remote paths). *)
Fixpoint strings_eqb (l1 l2 : list string) : bool :=
  match l1, l2 with
  | [], [] => true
  | a :: l1', b :: l2' => (a =? b) && strings_eqb l1' l2'
  | _, _ => false
  end.

(* ================================================================== *)
(** ** Resource names *)

Module API.

(** Modelled from the spec: the API taxonomy of the [resource] package (not
    part of the sources): an API is a namespace, a type and a subtype;
    [resource.APIType{Namespace, Name}]. *)
Record APIType := mkType { Namespace : string; TypeName : string }.

(** [resource.API{Type, SubtypeName}]. *)
Record t := mk { Type_ : APIType; SubtypeName : string }.

Definition eqb (a b : t) : bool :=
  (Namespace (Type_ a) =? Namespace (Type_ b))
  && (TypeName (Type_ a) =? TypeName (Type_ b))
  && (SubtypeName a =? SubtypeName b).

(** Modelled from the spec: the namespaces [rdk] and [rdk-internal], the
    types [component] and [service]. *)
Definition APINamespaceRDK : string := "rdk".
Definition APINamespaceRDKInternal : string := "rdk-internal".
Definition APITypeComponentName : string := "component".
Definition APITypeServiceName : string := "service".

Definition IsComponent (a : t) : bool := TypeName (Type_ a) =? APITypeComponentName.
Definition IsService (a : t) : bool := TypeName (Type_ a) =? APITypeServiceName.

End API.

Module Name.

(** Modelled from the spec: the resource name, a triple of API, remote path
    (a possibly empty ordered list of remote hops) and local name; the
    [resource] package that declares it is not part of the sources. *)
Record t := mk { api : API.t; remote : list string; name : string }.

Definition eqb (a b : t) : bool :=
  API.eqb (api a) (api b) && strings_eqb (remote a) (remote b) && (name a =? name b).

(** Modelled from the spec: a name built from an API and a local name has an
    empty remote path. *)
Definition NewName (a : API.t) (n : string) : t := mk a [] n.

(** Modelled from the spec: [Prepend(r, n)] puts the hop [r] in front of the
    remote path of [n]. *)
Definition PrependRemote (n : t) (remoteName : string) : t :=
  mk (api n) (remoteName :: remote n) (name n).

(** Modelled from the spec: a name is remote-scoped when its remote path has
    at least one hop. *)
Definition ContainsRemoteNames (n : t) : bool :=
  match remote n with
  | [] => false
  | _ :: _ => true
  end.

(** The printed form of a name, used to order names. *)
Definition String_ (n : t) : string :=
  API.Namespace (API.Type_ (api n)) ++ ":" ++ API.TypeName (API.Type_ (api n)) ++ ":"
  ++ API.SubtypeName (api n) ++ "/" ++ strings.Join (remote n ++ [name n]) ":".

End Name.

(** Modelled from the spec: [client.RemoteAPI], the API (of type [remote])
    under which a remote robot is a graph node. *)
Definition RemoteAPI : API.t := API.mk (API.mkType API.APINamespaceRDK "remote") "".

(** Modelled from the spec: [shell.API], the API of the shell service. *)
Definition shellAPI : API.t :=
  API.mk (API.mkType API.APINamespaceRDK API.APITypeServiceName) "shell".

(* ================================================================== *)
(** ** Errors *)

(** The error values the manager creates, wraps and tests. *)
Inductive error : Type :=
| errorString (msg : string)                      (* errors.New, errors.Errorf *)
| withMessage (cause : error) (msg : string)      (* errors.Wrap *)
| notAvailableError (n : Name.t) (cause : error)  (* resource.NewNotAvailableError *)
| notFoundError (n : Name.t)                      (* resource.NewNotFoundError *)
| remoteResourceClashError (short : string)       (* rutils.NewRemoteResourceClashError *)
| mustRebuildError (n : Name.t).                  (* resource.NewMustRebuildError *)

(** A call that returns [(value, error)]. *)
Inductive result (A : Type) : Type :=
| Ok (a : A)
| Err (e : error).
Arguments Ok {A} a.
Arguments Err {A} e.

Module errors.

Fixpoint eqb (a b : error) : bool :=
  match a, b with
  | errorString s1, errorString s2 => s1 =? s2
  | withMessage c1 m1, withMessage c2 m2 => eqb c1 c2 && (m1 =? m2)
  | notAvailableError n1 c1, notAvailableError n2 c2 => Name.eqb n1 n2 && eqb c1 c2
  | notFoundError n1, notFoundError n2 => Name.eqb n1 n2
  | remoteResourceClashError s1, remoteResourceClashError s2 => s1 =? s2
  | mustRebuildError n1, mustRebuildError n2 => Name.eqb n1 n2
  | _, _ => false
  end.

(** [err.Error()]. The texts of the errors of other packages are not given by
    the sources; only [errorString] and [withMessage] texts are relied on. *)
Fixpoint Error (e : error) : string :=
  match e with
  | errorString msg => msg
  | withMessage cause msg => msg ++ ": " ++ Error cause
  | notAvailableError n cause =>
      "resource " ++ Name.String_ n ++ " not available; reason=" ++ Error cause
  | notFoundError n => "resource " ++ Name.String_ n ++ " not found"
  | remoteResourceClashError short =>
      "more that one remote resources with name " ++ short ++ " exists"
  | mustRebuildError n => "cannot reconfigure " ++ Name.String_ n ++ "; must rebuild"
  end.

(** [errors.Is(err, target)]: [target] occurs on the unwrap chain of [err]. *)
Fixpoint Is (err target : error) : bool :=
  eqb err target ||
  match err with
  | withMessage cause _ => Is cause target
  | _ => false
  end.

Definition New (msg : string) : error := errorString msg.
Definition Wrap (err : error) (msg : string) : error := withMessage err msg.

End errors.

(** [multierr.Combine] on two values: the constituents of both, in order. *)
Definition multierr_Combine (a b : list error) : list error := a ++ b.

(** A single [error] return seen as a [multierr] operand. *)
Definition of_error (e : option error) : list error :=
  match e with
  | None => []
  | Some err => [err]
  end.

(* ================================================================== *)
(** ** The dialer's vocabulary ([rpc]) and the remote configuration ([config]) *)

Module rpc.

(** [rpc.Credentials{Type, Payload}]; [Credentials{}] is [emptyCredentials]. *)
Record Credentials := mkCredentials { CredType : string; Payload : string }.
Definition emptyCredentials : Credentials := mkCredentials "" "".

(** [rpc.DefaultWebRTCConfiguration], a constant of the dialer. *)
Inductive WebRTCConfiguration := DefaultWebRTCConfiguration.

(** [tls.Config], opaque to the manager. *)
Inductive TLSConfig := tlsConfig (id : nat).

Record DialWebRTCOptions := mkWebRTC {
  Config : WebRTCConfiguration;
  SignalingServerAddress : string;
  SignalingAuthEntity : string;
  SignalingCreds : Credentials }.

Record DialMulticastDNSOptions := mkMDNS { RemoveAuthCredentials : bool }.

(** The dial options the manager assembles, one constructor per [rpc.With...]. *)
Inductive DialOption :=
| WithDialDebug
| WithInsecure
| WithAllowInsecureWithCredentialsDowngrade
| WithTLSConfig (c : TLSConfig)
| WithCredentials (c : Credentials)
| WithEntityCredentials (entity : string) (c : Credentials)
| WithExternalAuth (addr toEntity : string)
| WithExternalAuthInsecure
| WithWebRTCOptions (o : DialWebRTCOptions)
| WithDialMulticastDNSOptions (o : DialMulticastDNSOptions).

(** [rpc.ErrInsecureWithCredentials], the dialer's sentinel. *)
Definition ErrInsecureWithCredentials : error :=
  errorString "requested address is insecure and will not send credentials".

End rpc.

Module config.

(** Modelled from the spec: the remote configuration of the [config]
    package (not part of the sources), with the fields [remoteDialOptions]
    reads. [config.Remote.Auth]; a nil [*rpc.Credentials] is [None]. *)
Record RemoteAuth := mkAuth {
  Credentials : option rpc.Credentials;
  Entity : string;
  ExternalAuthAddress : string;
  ExternalAuthInsecure : bool;
  ExternalAuthToEntity : string;
  SignalingServerAddress : string;
  SignalingAuthEntity : string;
  SignalingCreds : option rpc.Credentials;
  Managed : bool }.

(** [config.Remote]. *)
Record Remote := mkRemote {
  Name : string;
  Address : string;
  Insecure : bool;
  Auth : RemoteAuth }.

(** [pexec.ProcessConfig], identified by its ID. *)
Record ProcessConfig := mkProcess { ID : string; Command : string }.

End config.

(* ================================================================== *)
(** ** Resources, configurations and graph nodes *)

Module resource.

(** Modelled from the spec: [resource.Model], family and name of a driver
    implementation. *)
Record Model := mkModel { Family : string; ModelName : string }.

Definition Model_eqb (a b : Model) : bool :=
  (Family a =? Family b) && (ModelName a =? ModelName b).

(** Modelled from the spec: [resource.DefaultModelFamily.WithModel(name)];
    [builtin] and [unknown] are the two sentinel models. *)
Definition DefaultModelFamily_WithModel (n : string) : Model := mkModel "rdk:builtin" n.

(** A configuration's converted attributes: the manager only looks inside
    the attributes of a remote. *)
Inductive Attributes :=
| RemoteAttributes (r : config.Remote)
| NativeAttributes (payload : string).

(** Modelled from the spec: [resource.Config], the declarative description
    of one resource: name, API, model, symbolic dependencies, attributes. *)
Record Config := mkConfig {
  ConfName : string;
  ConfAPI : API.t;
  ConfModel : Model;
  DependsOn : list string;
  ConvertedAttributes : option Attributes }.

(** [resource.Config{}]. *)
Definition emptyConfig : Config :=
  mkConfig "" (API.mk (API.mkType "" "") "") (mkModel "" "") [] None.

(** Modelled from the spec: the name and the symbolic dependencies of a
    configuration. *)
Definition ResourceName (c : Config) : Name.t := Name.NewName (ConfAPI c) (ConfName c).
Definition Dependencies (c : Config) : list string := DependsOn c.

(** [resource.NativeConfig[*config.Remote](conf)]. *)
Definition NativeConfig_Remote (c : Config) : result config.Remote :=
  match ConvertedAttributes c with
  | Some (RemoteAttributes r) => Ok r
  | _ => Err (errorString "incorrect config type")
  end.

(** A service descriptor, known to the manager by its fully qualified name. *)
Record ServiceDescriptor := mkDesc { GetFullyQualifiedName : string }.

(** [resource.RPCAPI{API, Desc}]. *)
Record RPCAPI := mkRPCAPI { RPCAPI_API : API.t; Desc : ServiceDescriptor }.

(** [resource.APIRegistration], as far as API discovery reads it. *)
Record APIRegistration := mkRegistration { ReflectRPCServiceDesc : option ServiceDescriptor }.

(** A driver handle or client stub, opaque to the manager. *)
Definition Handle := nat.

(** What the manager asks of a connected remote ([robot.Robot]). *)
Record Robot := mkRobot {
  ResourceNames : list Name.t;
  ResourceByName : Name.t -> result Handle;
  ResourceRPCAPIs : list RPCAPI }.

(** [resource.Resource]: a plain driver or client, or a remote robot
    ([internalRemoteRobot] is the second case). *)
Inductive Resource :=
| Driver (h : Handle)
| RemoteRobot (rr : Robot).

End resource.

Module GraphNode.
Import resource.

(** Modelled from the spec: the graph node (the [resource] package is not
    part of the sources). It holds the live handle if any, the model it was
    built from, the configuration and its unresolved dependencies, the
    needs-reconfigure bit (own config changed), the needs-update bit (an
    ancestor changed), the last error and the removal mark. *)
Record t := mk {
  current : option Resource;
  currentModel : Model;
  config : Config;
  unresolvedDependencies : list string;
  needsReconfigure : bool;
  needsUpdate : bool;
  lastErr : option error;
  markedForRemoval : bool }.

Definition errNotInitialized : error := errorString "resource not initialized yet".
Definition errPendingRemoval : error := errorString "resource is pending removal".

(** Modelled from the spec: a node created by the first
    [markResourceForUpdate] is uninitialized and waits to be built. *)
Definition NewUnconfiguredGraphNode (conf : Config) (deps : list string) : t :=
  mk None (mkModel "" "") conf deps true false None false.

(** Modelled from the spec: a node that already holds a live resource. *)
Definition NewConfiguredGraphNode (conf : Config) (res : Resource) (model : Model) : t :=
  mk (Some res) model conf [] false false None false.

(** Modelled from the spec: [Resource()] returns the handle when and only
    when the node has been built and is not in a fatal state; when the last
    build failed it returns that failure. *)
Definition Resource (n : t) : result resource.Resource :=
  match lastErr n with
  | Some e => Err e
  | None =>
      match current n with
      | None => Err errNotInitialized
      | Some r => if markedForRemoval n then Err errPendingRemoval else Ok r
      end
  end.

(** Modelled from the spec: [UnsafeResource] returns the handle even if the
    node last failed. *)
Definition UnsafeResource (n : t) : result resource.Resource :=
  match current n with
  | None => Err errNotInitialized
  | Some r => Ok r
  end.

(** Modelled from the spec: the node holds a handle and is not marked for
    removal. *)
Definition HasResource (n : t) : bool :=
  match current n with
  | None => false
  | Some _ => negb (markedForRemoval n)
  end.

(** Modelled from the spec: the node holds no handle. *)
Definition IsUninitialized (n : t) : bool :=
  match current n with
  | None => true
  | Some _ => false
  end.

(** Modelled from the spec: the node is due in the next pass when either
    bit is set. *)
Definition NeedsReconfigure (n : t) : bool := needsReconfigure n || needsUpdate n.
Definition Config (n : t) : resource.Config := config n.
Definition ResourceModel (n : t) : Model := currentModel n.

(** Modelled from the spec: [SetNewConfig] sets the needs-reconfigure bit. *)
Definition SetNewConfig (n : t) (conf : resource.Config) (deps : list string) : t :=
  mk (current n) (currentModel n) conf deps true (needsUpdate n) (lastErr n)
     (markedForRemoval n).

(** Modelled from the spec: [SetNeedsUpdate] sets the needs-update bit. *)
Definition SetNeedsUpdate (n : t) : t :=
  mk (current n) (currentModel n) (config n) (unresolvedDependencies n)
     (needsReconfigure n) true (lastErr n) (markedForRemoval n).

(** Modelled from the spec: the last error is recorded on the node, which
    stays in the graph. *)
Definition SetLastError (n : t) (e : error) : t :=
  mk (current n) (currentModel n) (config n) (unresolvedDependencies n)
     (needsReconfigure n) (needsUpdate n) (Some e) (markedForRemoval n).

(** Modelled from the spec: a successful swap installs the handle and clears
    both bits, the last error and the removal mark. *)
Definition SwapResource (n : t) (res : resource.Resource) (model : Model) : t :=
  mk (Some res) model (config n) (unresolvedDependencies n) false false None false.

(** Modelled from the spec: [Close] drops the handle; it is idempotent. The
    second component is the handle whose driver [Close] is called. *)
Definition Close (n : t) : t * option resource.Resource :=
  (mk None (currentModel n) (config n) (unresolvedDependencies n)
      (needsReconfigure n) (needsUpdate n) (lastErr n) (markedForRemoval n),
   current n).

End GraphNode.

(* ================================================================== *)
(** ** The dependency graph *)

Module Graph.

(** Modelled from the spec: the typed dependency graph (the [resource]
    package is not part of the sources). [nodes] maps names to nodes; an
    edge [(u, v)] means that [u] depends on [v]: [u] is the child, [v] the
    parent. *)
Record t := mk {
  nodes : list (Name.t * GraphNode.t);
  edges : list (Name.t * Name.t) }.

Definition NewGraph : t := mk [] [].

(** Modelled from the spec: the read accessors [Names()] and [Node(name)]. *)
Definition Names (g : t) : list Name.t := map fst (nodes g).

Definition Node (g : t) (n : Name.t) : option GraphNode.t :=
  match find (fun e => Name.eqb (fst e) n) (nodes g) with
  | Some e => Some (snd e)
  | None => None
  end.

(** A write through the node pointer held under [n]: the graph keeps its
    names, its order and its edges. *)
Definition setNode (g : t) (n : Name.t) (nd : GraphNode.t) : t :=
  mk (map (fun e => if Name.eqb (fst e) n then (fst e, nd) else e) (nodes g)) (edges g).

(** Modelled from the spec: [AddNode] inserts a node and fails if the name is
    already present (a new node never has the identity of the old one). *)
Definition AddNode (g : t) (n : Name.t) (nd : GraphNode.t) : t * option error :=
  match Node g n with
  | Some _ => (g, Some (errorString ("resource already exists: " ++ Name.String_ n)))
  | None => (mk (nodes g ++ [(n, nd)]) (edges g), None)
  end.

Definition mem (n : Name.t) (l : list Name.t) : bool := existsb (Name.eqb n) l.

Definition hasEdge (g : t) (child parent : Name.t) : bool :=
  existsb (fun e => Name.eqb (fst e) child && Name.eqb (snd e) parent) (edges g).

(** Modelled from the spec: the direct children (dependents) of a node. *)
Definition GetAllChildrenOf (g : t) (n : Name.t) : list Name.t :=
  filter (fun k => hasEdge g k n) (Names g).

(** Modelled from the spec: the direct parents (dependencies) of a node. *)
Definition GetAllParentsOf (g : t) (n : Name.t) : list Name.t :=
  filter (fun k => hasEdge g n k) (Names g).

(** Modelled from the spec: [RemoveChild] removes the edge child -> parent. *)
Definition RemoveChild (g : t) (child parent : Name.t) : t :=
  mk (nodes g)
     (filter (fun e => negb (Name.eqb (fst e) child && Name.eqb (snd e) parent)) (edges g)).

(** One more generation of dependents of the names in [acc]. *)
Definition grow (g : t) (acc : list Name.t) : list Name.t :=
  acc ++ filter (fun k => negb (mem k acc) && existsb (fun p => hasEdge g k p) acc) (Names g).

Fixpoint closure (fuel : nat) (g : t) (acc : list Name.t) : list Name.t :=
  match fuel with
  | O => acc
  | S fuel' => closure fuel' g (grow g acc)
  end.

(** [root] and every node that depends on it, directly or not. *)
Definition dependents (g : t) (root : Name.t) : list Name.t :=
  closure (List.length (nodes g)) g [root].

(** Modelled from the spec: [AddChild] inserts the edge child -> parent and
    fails on a cycle. *)
Definition AddChild (g : t) (child parent : Name.t) : t * option error :=
  if Name.eqb child parent then
    (g, Some (errorString (Name.name child ++ " cannot depend on itself")))
  else if mem parent (dependents g child) then
    (g, Some (errorString ("circular dependency - " ++ Name.name parent
                           ++ " already depends on " ++ Name.name child)))
  else if hasEdge g child parent then (g, None)
  else (mk (nodes g) (edges g ++ [(child, parent)]), None).

(** Modelled from the spec: [SubGraphFrom(root)] is the graph restricted to
    [root] and its descendants; it fails when [root] is not a node. *)
Definition SubGraphFrom (g : t) (root : Name.t) : result t :=
  match Node g root with
  | None => Err (errorString ("cannot create sub-graph from non existing node "
                              ++ Name.name root))
  | Some _ =>
      let keep := dependents g root in
      Ok (mk (filter (fun e => mem (fst e) keep) (nodes g))
             (filter (fun e => mem (fst e) keep && mem (snd e) keep) (edges g)))
  end.

(** The name that prints first among [l]. *)
Fixpoint least (l : list Name.t) : option Name.t :=
  match l with
  | [] => None
  | n :: l' =>
      match least l' with
      | None => Some n
      | Some m => if String.leb (Name.String_ n) (Name.String_ m) then Some n else Some m
      end
  end.

(** A node is ready when none of the remaining nodes depends on it. *)
Definition ready (g : t) (remaining : list Name.t) (n : Name.t) : bool :=
  negb (existsb (fun k => hasEdge g k n) remaining).

Fixpoint kahn (fuel : nat) (g : t) (remaining : list Name.t) : list Name.t :=
  match fuel with
  | O => remaining
  | S fuel' =>
      match least (filter (ready g remaining) remaining) with
      | None => remaining
      | Some n => n :: kahn fuel' g (filter (fun k => negb (Name.eqb k n)) remaining)
      end
  end.

(** Modelled from the spec: Kahn's algorithm with ties broken by name;
    dependents come before what they depend on. *)
Definition TopologicalSort (g : t) : list Name.t :=
  kahn (List.length (nodes g)) g (Names g).

(** Modelled from the spec: dependencies come before their dependents. *)
Definition ReverseTopologicalSort (g : t) : list Name.t := rev (TopologicalSort g).

(** Modelled from the spec: the names of the graph with the API [a]. *)
Definition FindNodesByAPI (g : t) (a : API.t) : list Name.t :=
  filter (fun k => API.eqb (Name.api k) a) (Names g).

(** Modelled from the spec: the partial-match resolver: every name of the
    graph with the short name and the API of [n], whatever its remote path. *)
Definition FindNodesByShortNameAndAPI (g : t) (n : Name.t) : list Name.t :=
  filter (fun k => (Name.name k =? Name.name n) && API.eqb (Name.api k) (Name.api n))
         (Names g).

(** Resolution of one symbolic dependency of [n]: the edge is added when
    exactly one node carries that short name. *)
Definition resolveOne (g : t) (n : Name.t) (dep : string) : t * bool :=
  match filter (fun k => Name.name k =? dep) (Names g) with
  | [k] =>
      match AddChild g n k with
      | (g', None) => (g', true)
      | (_, Some _) => (g, false)
      end
  | _ => (g, false)
  end.

Definition resolveNode {L : Type} (logger : error -> L) (st : t * list error * list L)
  (n : Name.t) : t * list error * list L :=
  let '(g, errs, logged) := st in
  match Node g n with
  | None => st
  | Some nd =>
      let '(g', unresolved) :=
        fold_left
          (fun acc dep =>
             let '(g1, un) := acc in
             match resolveOne g1 n dep with
             | (g2, true) => (g2, un)
             | (_, false) => (g1, un ++ [dep])
             end)
          (GraphNode.unresolvedDependencies nd) (g, []) in
      let nd' :=
        GraphNode.mk (GraphNode.current nd) (GraphNode.currentModel nd)
          (GraphNode.config nd) unresolved (GraphNode.needsReconfigure nd)
          (GraphNode.needsUpdate nd) (GraphNode.lastErr nd)
          (GraphNode.markedForRemoval nd) in
      match unresolved with
      | [] => (setNode g' n nd', errs, logged)
      | _ :: _ =>
          let err := errorString ("unresolved dependencies of " ++ Name.name n) in
          (setNode g' n nd', errs ++ [err], logged ++ [logger err])
      end
  end.

(** Modelled from the spec: [ResolveDependencies(logger)] rewrites, for every
    node, its symbolic dependencies into edges; what cannot be resolved stays
    on the node and is reported, without aborting. The resolver logs on its
    own, through the logger it is given, what it could not resolve: [logger]
    is the entry which that logger makes of such a failure, and the third
    component holds the entries made. *)
Definition ResolveDependencies {L : Type} (logger : error -> L) (g : t)
  : t * list error * list L :=
  fold_left (resolveNode logger) (Names g) (g, [], []).

End Graph.

(* ================================================================== *)
(** ** The process environment ([os]) *)

Module os.

(** The state of the process that the manager touches at start-up: the
    environment (keys are unique, as Go's runtime keeps them), the working
    directory, and the directories one can change into. *)
Record t := mk {
  env : list (string * string);
  cwd : string;
  isDir : string -> bool }.

Definition LookupEnv (p : t) (key : string) : option string :=
  match find (fun e => fst e =? key) (env p) with
  | Some e => Some (snd e)
  | None => None
  end.

Definition Getenv (p : t) (key : string) : string :=
  match LookupEnv p key with
  | Some v => v
  | None => ""
  end.

(** [os.Environ()]: a copy of the environment, as "key=value" strings. *)
Definition Environ (p : t) : list string :=
  map (fun e : string * string => (fst e ++ "=" ++ snd e)%string) (env p).

(** Whether the byte [c] occurs in [s]. *)
Fixpoint mentions (c : ascii) (s : string) : bool :=
  match s with
  | EmptyString => false
  | String c' rest => Ascii.eqb c' c || mentions c rest
  end.

(** [os.Setenv]: an empty key, or a key with an equals sign, is refused. *)
Definition Setenv (p : t) (key value : string) : t * option error :=
  if (key =? "") || mentions "="%char key
  then (p, Some (errorString "setenv: invalid argument"))
  else
    match LookupEnv p key with
    | Some _ =>
        (mk (map (fun e => if fst e =? key then (fst e, value) else e) (env p))
            (cwd p) (isDir p), None)
    | None => (mk (env p ++ [(key, value)]) (cwd p) (isDir p), None)
    end.

(** [os.Unsetenv]. *)
Definition Unsetenv (p : t) (key : string) : t * option error :=
  (mk (filter (fun e => negb (fst e =? key)) (env p)) (cwd p) (isDir p), None).

(** [os.Chdir]. *)
Definition Chdir (p : t) (dir : string) : t * option error :=
  if isDir p dir then (mk (env p) dir (isDir p), None)
  else (p, Some (errorString ("chdir " ++ dir ++ ": no such file or directory"))).

End os.

(* ================================================================== *)
(** ** The resource manager ([robotimpl]) *)

Module robotimpl.
Import resource.

Definition errShellServiceDisabled : error :=
  errors.New "shell service disabled in an untrusted environment".
Definition errProcessesDisabled : error :=
  errors.New "processes disabled in an untrusted environment".

(** [client.ErrMissingClientRegistration], the client package's sentinel. *)
Definition ErrMissingClientRegistration : error :=
  errorString "resource client registration doesn't exist".

Record resourceManagerOptions := mkOptions {
  debug : bool;
  fromCommand : bool;
  allowInsecureCreds : bool;
  untrustedEnv : bool;
  tlsConfig : option rpc.TLSConfig }.

(** The values attached to a log entry. *)
Inductive LogValue :=
| VName (n : Name.t)
| VString (s : string)
| VError (e : error)
| VModel (model : Model)
| VType (res : Resource).   (* reflect.TypeOf(res) *)

(** What the manager does that the graph does not show: log entries, and the
    calls it makes on nodes and remotes. *)
Inductive Event :=
| Debugw (msg : string) (kv : list (string * LogValue))
| Errorw (msg : string) (kv : list (string * LogValue))
| LogError (errs : list error)
| ResolverLog (err : error)   (* a line [ResolveDependencies] logs on its own *)
| Called_updateRemoteResourceNames (remoteName : Name.t)
| Called_SetNeedsUpdate (n : Name.t)
| Called_Close (n : Name.t)
| Called_SetParentNotifier (remote : string).

(** [pexec.ProcessManager]: the no-op manager of an untrusted environment, or
    a manager holding the processes added to it. *)
Record ProcessManager := mkProcessManager {
  noop : bool;
  processes : list config.ProcessConfig }.

Record resourceManager := mkManager {
  resources : Graph.t;
  processManager : ProcessManager;
  opts : resourceManagerOptions;
  trace : list Event }.

(** The collaborators of the manager. *)
Record World := mkWorld {
  (* resource.RegisteredAPIs() *)
  RegisteredAPIs : API.t -> option APIRegistration;
  (* dialRobotClient(ctx, config, logger, dialOpts...) *)
  dialRobotClient : config.Remote -> list rpc.DialOption -> result Robot;
  (* config.Remote.Validate, resource.Config.Validate *)
  Remote_Validate : config.Remote -> option error;
  Config_Validate : Config -> string -> option error;
  (* the module manager *)
  Provides : Config -> bool;
  ValidateConfig : Config -> option error;
  IsModularResource : Name.t -> bool;
  RemoveResource : Name.t -> option error;
  ReconfigureResource : Config -> list Name.t -> option error;
  (* localRobot.newResource, localRobot.getDependencies *)
  newResource : Graph.t -> Config -> result Resource;
  getDependencies : Graph.t -> Name.t -> result (list Name.t);
  (* the drivers *)
  Resource_Reconfigure : Resource -> list Name.t -> Config -> option error;
  Resource_Close : Resource -> option error;
  Resource_Name : Resource -> Name.t;
  (* the process supervisor *)
  Process_Start : config.ProcessConfig -> option error;
  Process_Stop : config.ProcessConfig -> option error }.

Definition withResources (m : resourceManager) (g : Graph.t) : resourceManager :=
  mkManager g (processManager m) (opts m) (trace m).

Definition withProcessManager (m : resourceManager) (pm : ProcessManager) : resourceManager :=
  mkManager (resources m) pm (opts m) (trace m).

Definition record (m : resourceManager) (e : Event) : resourceManager :=
  mkManager (resources m) (processManager m) (opts m) (trace m ++ [e]).

Definition newProcessManager (o : resourceManagerOptions) : ProcessManager :=
  if untrustedEnv o then mkProcessManager true [] else mkProcessManager false [].

Definition newResourceManager (o : resourceManagerOptions) : resourceManager :=
  mkManager Graph.NewGraph (newProcessManager o) o [].

Definition fromRemoteNameToRemoteNodeName (n : string) : Name.t :=
  Name.NewName RemoteAPI n.

Definition unknownModel : Model := DefaultModelFamily_WithModel "unknown".
Definition builtinModel : Model := DefaultModelFamily_WithModel "builtin".

Definition remoteResourceNames (m : resourceManager) (remoteName : Name.t)
  : list Name.t * resourceManager :=
  let m1 :=
    match Graph.Node (resources m) remoteName with
    | Some _ => m
    | None => record m (Errorw "trying to get remote resources of a non existing remote"
                               [("remote", VName remoteName)])
    end in
  (filter Name.ContainsRemoteNames (Graph.GetAllChildrenOf (resources m) remoteName), m1).

(** The map [activeResourceNames], in insertion order. *)
Definition active_has (a : list (Name.t * bool)) (n : Name.t) : bool :=
  existsb (fun e => Name.eqb (fst e) n) a.

Definition active_set (a : list (Name.t * bool)) (n : Name.t) (v : bool)
  : list (Name.t * bool) :=
  if active_has a n
  then map (fun e => if Name.eqb (fst e) n then (fst e, v) else e) a
  else a ++ [(n, v)].

(** The body of the loop of [markChildrenForUpdate]: self and non-local
    resources are ignored. *)
Definition markChildrenForUpdate_step (rName : Name.t) (m : resourceManager) (n : Name.t)
  : resourceManager :=
  if Name.eqb n rName || Name.ContainsRemoteNames n then m
  else
    match Graph.Node (resources m) n with
    | None => m
    | Some gNode =>
        record (withResources m (Graph.setNode (resources m) n (GraphNode.SetNeedsUpdate gNode)))
               (Called_SetNeedsUpdate n)
    end.

Definition markChildrenForUpdate (m : resourceManager) (rName : Name.t)
  : resourceManager * option error :=
  match Graph.SubGraphFrom (resources m) rName with
  | Err err => (m, Some err)
  | Ok sg => (fold_left (markChildrenForUpdate_step rName) (Graph.TopologicalSort sg) m, None)
  end.

(** The body of the loop over [newResources]. *)
Definition updateRemoteResourceNames_new (remoteName : Name.t) (rr : Robot)
  (st : resourceManager * list (Name.t * bool) * bool) (resName : Name.t)
  : resourceManager * list (Name.t * bool) * bool :=
  let '(m, active, anythingChanged) := st in
  match ResourceByName rr resName with
  | Err err =>
      let kv := [("name", VName resName); ("reason", VError err)] in
      (record m (if errors.Is err ErrMissingClientRegistration
                 then Debugw "couldn't obtain remote resource interface" kv
                 else Errorw "couldn't obtain remote resource interface" kv),
       active, anythingChanged)
  | Ok res =>
      let resName := Name.PrependRemote resName (Name.name remoteName) in
      let gNode := Graph.Node (resources m) resName in
      let alreadyCurrent := active_has active resName in
      let active := if alreadyCurrent then active_set active resName true else active in
      if alreadyCurrent &&
         match gNode with
         | Some nd => negb (GraphNode.IsUninitialized nd)
         | None => false
         end
      then (m, active, anythingChanged)
      else
        let m :=
          match gNode with
          | Some nd =>
              withResources m (Graph.setNode (resources m) resName
                                 (GraphNode.SwapResource nd (Driver res) unknownModel))
          | None =>
              match Graph.AddNode (resources m) resName
                      (GraphNode.NewConfiguredGraphNode emptyConfig (Driver res) unknownModel) with
              | (g, None) => withResources m g
              | (g, Some err) =>
                  record (withResources m g)
                         (Errorw "failed to add remote resource node"
                                 [("name", VName resName); ("error", VError err)])
              end
          end in
        match Graph.AddChild (resources m) resName remoteName with
        | (g, Some _) =>
            (record (withResources m g)
                    (Errorw "error while trying add node as a dependency of remote"
                            [("node", VName resName); ("remote", VName remoteName)]),
             active, anythingChanged)
        | (g, None) => (withResources m g, active, true)
        end
  end.

(** The body of the loop over [activeResourceNames]. *)
Definition updateRemoteResourceNames_old (w : World)
  (st : resourceManager * bool) (entry : Name.t * bool) : resourceManager * bool :=
  let '(m, anythingChanged) := st in
  let '(resName, isActive) := entry in
  if isActive then st
  else
    let m := record m (Debugw "removing remote resource" [("name", VName resName)]) in
    match markChildrenForUpdate m resName with
    | (m, Some err) =>
        (record m (Errorw "failed to mark children of remote for update"
                          [("resource", VName resName); ("reason", VError err)]),
         anythingChanged)
    | (m, None) =>
        match Graph.Node (resources m) resName with
        | None =>
            (record m (Errorw "failed to find remote node for closure"
                              [("resource", VName resName)]),
             anythingChanged)
        | Some gNode =>
            let '(gNode', closed) := GraphNode.Close gNode in
            let m := record (withResources m (Graph.setNode (resources m) resName gNode'))
                            (Called_Close resName) in
            let m :=
              match closed with
              | None => m
              | Some res =>
                  match Resource_Close w res with
                  | None => m
                  | Some err =>
                      record m (Errorw "failed to close remote node"
                                       [("resource", VName resName); ("reason", VError err)])
                  end
              end in
            (m, true)
        end
    end.

Definition updateRemoteResourceNames (w : World) (m : resourceManager)
  (remoteName : Name.t) (rr : Robot) : resourceManager * bool :=
  let m := record m (Called_updateRemoteResourceNames remoteName) in
  let newResources := ResourceNames rr in
  let '(oldResources, m) := remoteResourceNames m remoteName in
  let activeResourceNames :=
    fold_left (fun a res => active_set a res false) oldResources [] in
  let '(m, activeResourceNames, anythingChanged) :=
    fold_left (updateRemoteResourceNames_new remoteName rr) newResources
              (m, activeResourceNames, false) in
  fold_left (updateRemoteResourceNames_old w) activeResourceNames (m, anythingChanged).

(** [addRemote]. The node pointer [gNode] is given by the name under which
    the node lives in the graph ([None] is the nil pointer). *)
Definition addRemote (w : World) (m : resourceManager) (rr : Robot)
  (gNode : option Name.t) (c : config.Remote) : resourceManager :=
  let rName := fromRemoteNameToRemoteNodeName (config.Name c) in
  match gNode with
  | None =>
      match Graph.AddNode (resources m) rName
              (GraphNode.NewConfiguredGraphNode
                 (mkConfig "" (API.mk (API.mkType "" "") "") (mkModel "" "") []
                           (Some (RemoteAttributes c)))
                 (RemoteRobot rr) builtinModel) with
      | (_, Some err) =>
          record m (Errorw "failed to add new node for remote"
                           [("name", VName rName); ("error", VError err)])
      | (g, None) => fst (updateRemoteResourceNames w (withResources m g) rName rr)
      end
  | Some key =>
      let m :=
        match Graph.Node (resources m) key with
        | Some nd =>
            withResources m (Graph.setNode (resources m) key
                               (GraphNode.SwapResource nd (RemoteRobot rr) builtinModel))
        | None => m
        end in
      fst (updateRemoteResourceNames w m rName rr)
  end.

(** The body of the loop of [updateRemotesResourceNames]. Go's [||] does
    not evaluate its right operand when the left one is true. *)
Definition updateRemotesResourceNames_step (w : World)
  (st : resourceManager * bool) (n : Name.t) : resourceManager * bool :=
  let '(m, anythingChanged) := st in
  if API.eqb (Name.api n) RemoteAPI then
    match Graph.Node (resources m) n with
    | None => st
    | Some gNode =>
        match GraphNode.Resource gNode with
        | Err _ => st
        | Ok (Driver _) => st
        | Ok (RemoteRobot rr) =>
            if anythingChanged then (m, true)
            else updateRemoteResourceNames w m n rr
        end
    end
  else st.

Definition updateRemotesResourceNames (w : World) (m : resourceManager)
  : resourceManager * bool :=
  fold_left (updateRemotesResourceNames_step w) (Graph.Names (resources m)) (m, false).

(** [RemoteNames]. *)
Definition RemoteNames (m : resourceManager) : list string :=
  map Name.name
      (filter (fun k => API.eqb (Name.api k) RemoteAPI &&
                        match Graph.Node (resources m) k with
                        | Some _ => true
                        | None => false
                        end)
              (Graph.Names (resources m))).

Definition anyResourcesNotConfigured (m : resourceManager) : bool :=
  existsb (fun n => match Graph.Node (resources m) n with
                    | None => false
                    | Some res => GraphNode.NeedsReconfigure res
                    end)
          (Graph.Names (resources m)).

Definition internalResourceNames (m : resourceManager) : list Name.t :=
  filter (fun k => API.Namespace (API.Type_ (Name.api k)) =? API.APINamespaceRDKInternal)
         (Graph.Names (resources m)).

(** [ResourceNames]: the loop appends [k] unless one of its two [continue]s
    is taken. *)
Definition ResourceNames (m : resourceManager) : list Name.t :=
  filter
    (fun k =>
       if API.eqb (Name.api k) RemoteAPI ||
          (API.Namespace (API.Type_ (Name.api k)) =? API.APINamespaceRDKInternal)
       then false
       else match Graph.Node (resources m) k with
            | None => false
            | Some gNode => GraphNode.HasResource gNode
            end)
    (Graph.Names (resources m)).

(** The map [types] of [ResourceRPCAPIs], in insertion order. Its values are
    never nil: a descriptor is stored only when there is one. *)
Definition types_get (types : list (API.t * ServiceDescriptor)) (a : API.t)
  : option ServiceDescriptor :=
  match find (fun e => API.eqb (fst e) a) types with
  | Some e => Some (snd e)
  | None => None
  end.

Definition types_set (types : list (API.t * ServiceDescriptor)) (a : API.t)
  (d : ServiceDescriptor) : list (API.t * ServiceDescriptor) :=
  match types_get types a with
  | Some _ => map (fun e => if API.eqb (fst e) a then (fst e, d) else e) types
  | None => types ++ [(a, d)]
  end.

(** The body of the loop of [mergeResourceRPCAPIsWithRemote]. *)
Definition mergeResourceRPCAPIsWithRemote_step
  (st : resourceManager * list (API.t * ServiceDescriptor)) (remoteType : RPCAPI)
  : resourceManager * list (API.t * ServiceDescriptor) :=
  let '(m, types) := st in
  match types_get types (RPCAPI_API remoteType) with
  | Some svcName =>
      if GetFullyQualifiedName svcName =? GetFullyQualifiedName (Desc remoteType)
      then st
      else (record m (Errorw "remote proto service name clashes with another of the same API"
                             [("existing", VString (GetFullyQualifiedName svcName));
                              ("remote", VString (GetFullyQualifiedName (Desc remoteType)))]),
            types)
  | None => (m, types_set types (RPCAPI_API remoteType) (Desc remoteType))
  end.

Definition mergeResourceRPCAPIsWithRemote (m : resourceManager) (r : Robot)
  (types : list (API.t * ServiceDescriptor))
  : resourceManager * list (API.t * ServiceDescriptor) :=
  fold_left mergeResourceRPCAPIsWithRemote_step (ResourceRPCAPIs r) (m, types).

(** The body of the loop of [ResourceRPCAPIs] over the names of the graph. *)
Definition ResourceRPCAPIs_step (w : World)
  (st : resourceManager * list (API.t * ServiceDescriptor)) (k : Name.t)
  : resourceManager * list (API.t * ServiceDescriptor) :=
  let '(m, types) := st in
  if API.Namespace (API.Type_ (Name.api k)) =? API.APINamespaceRDKInternal then st
  else if API.eqb (Name.api k) RemoteAPI then
    match Graph.Node (resources m) k with
    | None => st
    | Some gNode =>
        if negb (GraphNode.HasResource gNode) then st
        else
          match GraphNode.Resource gNode with
          | Err err =>
              (record m (Errorw "error getting remote from node"
                                [("remote", VString (Name.name k)); ("err", VError err)]),
               types)
          | Ok (Driver h) =>
              (record m (Debugw "remote does not implement robot interface"
                                [("remote", VString (Name.name k));
                                 ("type", VType (Driver h))]),
               types)
          | Ok (RemoteRobot rr) => mergeResourceRPCAPIsWithRemote m rr types
          end
    end
  else if Name.ContainsRemoteNames k then st
  else
    match types_get types (Name.api k) with
    | Some _ => st
    | None =>
        match RegisteredAPIs w (Name.api k) with
        | None => st
        | Some registration =>
            match ReflectRPCServiceDesc registration with
            | None => st
            | Some d => (m, types_set types (Name.api k) d)
            end
        end
    end.

Definition ResourceRPCAPIs (w : World) (m : resourceManager)
  : list RPCAPI * resourceManager :=
  let '(m', types) :=
    fold_left (ResourceRPCAPIs_step w) (Graph.Names (resources m)) (m, []) in
  (map (fun e => mkRPCAPI (fst e) (snd e)) types, m').

(** [closeResource]: the error of the driver's [Close] is replaced, not
    extended, when removing the modular resource fails. *)
Definition closeResource (w : World) (res : Resource) : list error :=
  let allErrs := of_error (Resource_Close w res) in
  let resName := Resource_Name w res in
  if IsModularResource w resName then
    match RemoveResource w resName with
    | Some err =>
        multierr_Combine [err] [errors.Wrap err "error removing modular resource for closure"]
    | None => allErrs
    end
  else allErrs.

(** [remoteDialOptions]. *)
Definition remoteDialOptions (c : config.Remote) (o : resourceManagerOptions)
  : list rpc.DialOption :=
  let dialOpts := [] in
  let dialOpts := if debug o then dialOpts ++ [rpc.WithDialDebug] else dialOpts in
  let dialOpts := if config.Insecure c then dialOpts ++ [rpc.WithInsecure] else dialOpts in
  let dialOpts :=
    if allowInsecureCreds o
    then dialOpts ++ [rpc.WithAllowInsecureWithCredentialsDowngrade] else dialOpts in
  let dialOpts :=
    match tlsConfig o with
    | Some tc => dialOpts ++ [rpc.WithTLSConfig tc]
    | None => dialOpts
    end in
  let dialOpts :=
    match config.Credentials (config.Auth c) with
    | Some creds =>
        if config.Entity (config.Auth c) =? ""
        then dialOpts ++ [rpc.WithCredentials creds]
        else dialOpts ++ [rpc.WithEntityCredentials (config.Entity (config.Auth c)) creds]
    | None => dialOpts ++ [rpc.WithEntityCredentials "" rpc.emptyCredentials]
    end in
  let dialOpts :=
    if config.ExternalAuthAddress (config.Auth c) =? "" then dialOpts
    else dialOpts ++ [rpc.WithExternalAuth (config.ExternalAuthAddress (config.Auth c))
                                           (config.ExternalAuthToEntity (config.Auth c))] in
  let dialOpts :=
    if config.ExternalAuthInsecure (config.Auth c)
    then dialOpts ++ [rpc.WithExternalAuthInsecure] else dialOpts in
  if config.SignalingServerAddress (config.Auth c) =? "" then dialOpts
  else
    let wrtcOpts :=
      rpc.mkWebRTC rpc.DefaultWebRTCConfiguration
        (config.SignalingServerAddress (config.Auth c))
        (config.SignalingAuthEntity (config.Auth c))
        match config.SignalingCreds (config.Auth c) with
        | Some creds => creds
        | None => rpc.emptyCredentials
        end in
    let dialOpts := dialOpts ++ [rpc.WithWebRTCOptions wrtcOpts] in
    if config.Managed (config.Auth c)
    then dialOpts ++ [rpc.WithDialMulticastDNSOptions (rpc.mkMDNS true)]
    else dialOpts.

(** [processRemote]. *)
Definition processRemote (w : World) (m : resourceManager) (c : config.Remote)
  : resourceManager * result Robot :=
  let dialOpts := remoteDialOptions c (opts m) in
  let m := record m (Debugw "connecting now to remote" [("remote", VString (config.Name c))]) in
  match dialRobotClient w c dialOpts with
  | Err err =>
      let err :=
        if errors.Is err rpc.ErrInsecureWithCredentials then
          if fromCommand (opts m)
          then errors.New "must use -allow-insecure-creds flag to connect to a non-TLS secured robot"
          else errors.New "must use Config.AllowInsecureCreds to connect to a non-TLS secured robot"
        else err in
      (m, Err (errorString ("couldn't connect to robot remote (" ++ config.Address c ++ "): "
                            ++ errors.Error err)))
  | Ok robotClient =>
      (record m (Debugw "connected now to remote" [("remote", VString (config.Name c))]),
       Ok robotClient)
  end.

(** [RemoteByName]. *)
Definition RemoteByName (m : resourceManager) (n : string)
  : option Robot * bool * resourceManager :=
  let rName := Name.NewName RemoteAPI n in
  match Graph.Node (resources m) rName with
  | Some gNode =>
      match GraphNode.Resource gNode with
      | Err err =>
          (None, false,
           record m (Errorw "error getting remote" [("remote", VString n); ("err", VError err)]))
      | Ok (RemoteRobot remRobot) => (Some remRobot, true, m)
      | Ok (Driver h) =>
          (None, false,
           record m (Errorw "tried to access remote but its not a robot interface"
                            [("remote", VString n); ("type", VType (Driver h))]))
      end
  | None => (None, false, m)
  end.

(** [ResourceByName]. *)
Definition ResourceByName (m : resourceManager) (n : Name.t) : result Resource :=
  match Graph.Node (resources m) n with
  | Some gNode =>
      match GraphNode.Resource gNode with
      | Err err => Err (notAvailableError n err)
      | Ok res => Ok res
      end
  | None =>
      if negb (Name.ContainsRemoteNames n) then
        let keys := Graph.FindNodesByShortNameAndAPI (resources m) n in
        if Nat.ltb 1 (List.length keys) then Err (remoteResourceClashError (Name.name n))
        else
          match keys with
          | [key] =>
              match Graph.Node (resources m) key with
              | Some gNode =>
                  match GraphNode.Resource gNode with
                  | Err err => Err (notAvailableError n err)
                  | Ok res => Ok res
                  end
              | None => Err (notFoundError n)
              end
          | _ => Err (notFoundError n)
          end
      else Err (notFoundError n)
  end.

(** A method call through the node pointer held under [key]. *)
Definition onNode (m : resourceManager) (key : Name.t) (f : GraphNode.t -> GraphNode.t)
  : resourceManager :=
  match Graph.Node (resources m) key with
  | Some nd => withResources m (Graph.setNode (resources m) key (f nd))
  | None => m
  end.

(** [resource.IsMustRebuildError]. *)
Fixpoint IsMustRebuildError (e : error) : bool :=
  match e with
  | mustRebuildError _ => true
  | withMessage cause _ => IsMustRebuildError cause
  | _ => false
  end.

(** A [multierr] value returned as one [error]. *)
Definition multierr_error (errs : list error) : option error :=
  match errs with
  | [] => None
  | [e] => Some e
  | _ :: _ :: _ => Some (errorString (strings.Join (map errors.Error errs) "; "))
  end.

(** The tail of [processResource]: close the old handle and build afresh. *)
Definition processResource_rebuild (w : World) (m : resourceManager) (conf : Config)
  (currentRes : Resource) : resourceManager * (option Resource * bool * option error) :=
  let m := record m (Debugw "rebuilding" [("name", VName (ResourceName conf))]) in
  let m :=
    match closeResource w currentRes with
    | [] => m
    | errs => record m (LogError errs)
    end in
  match newResource w (resources m) conf with
  | Err err => (m, (None, false, Some err))
  | Ok newRes => (m, (Some newRes, true, None))
  end.

(** [processResource]: the new handle, whether it was newly built, and the
    error. *)
Definition processResource (w : World) (m : resourceManager) (conf : Config)
  (gNode : GraphNode.t) : resourceManager * (option Resource * bool * option error) :=
  if GraphNode.IsUninitialized gNode then
    match newResource w (resources m) conf with
    | Err err => (m, (None, false, Some err))
    | Ok newRes => (m, (Some newRes, true, None))
    end
  else
    match GraphNode.UnsafeResource gNode with
    | Err err => (m, (None, false, Some err))
    | Ok currentRes =>
        let resName := ResourceName conf in
        match getDependencies w (resources m) resName with
        | Err err => (m, (None, false, multierr_error (err :: closeResource w currentRes)))
        | Ok deps =>
            let isModular := Provides w conf in
            if Model_eqb (GraphNode.ResourceModel gNode) (ConfModel conf) then
              if isModular then
                match ReconfigureResource w conf deps with
                | Some err => (m, (None, false, Some err))
                | None => (m, (Some currentRes, false, None))
                end
              else
                match Resource_Reconfigure w currentRes deps conf with
                | None => (m, (Some currentRes, false, None))
                | Some err =>
                    if IsMustRebuildError err
                    then processResource_rebuild w m conf currentRes
                    else (m, (None, false, Some err))
                end
            else
              processResource_rebuild w
                (record m (Debugw "resource models differ so it must be rebuilt"
                                  [("name", VName resName);
                                   ("old_model", VModel (GraphNode.ResourceModel gNode));
                                   ("new_model", VModel (ConfModel conf))]))
                conf currentRes
        end
    end.

(** [markResourceForUpdate]. *)
Definition markResourceForUpdate (m : resourceManager) (n : Name.t) (conf : Config)
  (deps : list string) : resourceManager * option error :=
  match Graph.Node (resources m) n with
  | Some gNode =>
      let g := Graph.setNode (resources m) n (GraphNode.SetNewConfig gNode conf deps) in
      let g := fold_left (fun g0 parent => Graph.RemoveChild g0 n parent)
                         (Graph.GetAllParentsOf g n) g in
      (withResources m g, None)
  | None =>
      match Graph.AddNode (resources m) n (GraphNode.NewUnconfiguredGraphNode conf deps) with
      | (g, None) => (withResources m g, None)
      | (_, Some err) =>
          (m, Some (errorString ("failed to add new node for unconfigured resource "
                                 ++ Name.String_ n ++ ": " ++ errors.Error err)))
      end
  end.

(** [config.Config], as far as the manager reads it, and [config.Diff]. *)
Record RobotConfig := mkRobotConfig {
  Components : list Config;
  Services : list Config;
  Remotes : list config.Remote;
  Processes : list config.ProcessConfig }.

Record Diff := mkDiff {
  Added : RobotConfig;
  Modified : RobotConfig;
  Removed : RobotConfig }.

(** [pexec.ProcessManager.AddProcessFromConfig]: the no-op manager accepts
    nothing and reports nothing. *)
Definition AddProcessFromConfig (w : World) (pm : ProcessManager) (p : config.ProcessConfig)
  : ProcessManager * option error :=
  if noop pm then (pm, None)
  else if existsb (fun q => config.ID q =? config.ID p) (processes pm)
  then (pm, Some (errorString ("process already exists: " ++ config.ID p)))
  else match Process_Start w p with
       | Some err => (pm, Some err)
       | None => (mkProcessManager false (processes pm ++ [p]), None)
       end.

(** [pexec.ProcessManager.RemoveProcessByID]. *)
Definition RemoveProcessByID (pm : ProcessManager) (id : string)
  : ProcessManager * option config.ProcessConfig :=
  if noop pm then (pm, None)
  else match find (fun q => config.ID q =? id) (processes pm) with
       | None => (pm, None)
       | Some q =>
           (mkProcessManager false
              (filter (fun q' => negb (config.ID q' =? id)) (processes pm)), Some q)
       end.

(** The body of the two loops of [updateResources] over services. *)
Definition updateResources_service (st : resourceManager * list error) (s : Config)
  : resourceManager * list error :=
  let '(m, allErrs) := st in
  let rName := ResourceName s in
  if untrustedEnv (opts m) && API.eqb (Name.api rName) shellAPI then
    (m, multierr_Combine allErrs [errShellServiceDisabled])
  else
    let '(m, err) := markResourceForUpdate m rName s (Dependencies s) in
    (m, multierr_Combine allErrs (of_error err)).

(** The body of the two loops over components. *)
Definition updateResources_component (st : resourceManager * list error) (c : Config)
  : resourceManager * list error :=
  let '(m, allErrs) := st in
  let rName := ResourceName c in
  let '(m, err) := markResourceForUpdate m rName c (Dependencies c) in
  (m, multierr_Combine allErrs (of_error err)).

(** The body of the two loops over remotes. *)
Definition updateResources_remote (st : resourceManager * list error) (r : config.Remote)
  : resourceManager * list error :=
  let '(m, allErrs) := st in
  let rName := fromRemoteNameToRemoteNodeName (config.Name r) in
  let '(m, err) :=
    markResourceForUpdate m rName
      (mkConfig "" (API.mk (API.mkType "" "") "") (mkModel "" "") []
                (Some (RemoteAttributes r)))
      [] in
  (m, multierr_Combine allErrs (of_error err)).

(** The loop over the added processes; in an untrusted environment it
    breaks at the first one. *)
Fixpoint updateResources_addProcesses (w : World) (m : resourceManager)
  (allErrs : list error) (ps : list config.ProcessConfig) : resourceManager * list error :=
  match ps with
  | [] => (m, allErrs)
  | p :: rest =>
      if untrustedEnv (opts m) then (m, multierr_Combine allErrs [errProcessesDisabled])
      else
        let '(pm, err) := AddProcessFromConfig w (processManager m) p in
        let m := withProcessManager m pm in
        let m :=
          match err with
          | Some e => record m (Errorw "error while adding process; skipping"
                                       [("process", VString (config.ID p)); ("error", VError e)])
          | None => m
          end in
        updateResources_addProcesses w m allErrs rest
  end.

(** The loop over the modified processes. *)
Fixpoint updateResources_modifyProcesses (w : World) (m : resourceManager)
  (allErrs : list error) (ps : list config.ProcessConfig) : resourceManager * list error :=
  match ps with
  | [] => (m, allErrs)
  | p :: rest =>
      if untrustedEnv (opts m) then (m, multierr_Combine allErrs [errProcessesDisabled])
      else
        let '(pm, old) := RemoveProcessByID (processManager m) (config.ID p) in
        let m := withProcessManager m pm in
        let m :=
          match old with
          | Some oldProc =>
              match Process_Stop w oldProc with
              | Some e => record m (Errorw "couldn't stop process"
                                           [("process", VString (config.ID p)); ("error", VError e)])
              | None => m
              end
          | None => record m (Errorw "couldn't find modified process"
                                     [("process", VString (config.ID p))])
          end in
        let '(pm, err) := AddProcessFromConfig w (processManager m) p in
        let m := withProcessManager m pm in
        let m :=
          match err with
          | Some e => record m (Errorw "error while changing process; skipping"
                                       [("process", VString (config.ID p)); ("error", VError e)])
          | None => m
          end in
        updateResources_modifyProcesses w m allErrs rest
  end.

(** [updateResources]: the manager after the diff is applied, and the
    combined error. *)
Definition updateResources (w : World) (m : resourceManager) (conf : Diff)
  : resourceManager * list error :=
  let st := (m, []) in
  let st := fold_left updateResources_service (Services (Added conf)) st in
  let st := fold_left updateResources_component (Components (Added conf)) st in
  let st := fold_left updateResources_remote (Remotes (Added conf)) st in
  let st := fold_left updateResources_component (Components (Modified conf)) st in
  let st := fold_left updateResources_service (Services (Modified conf)) st in
  let st := fold_left updateResources_remote (Remotes (Modified conf)) st in
  let st := updateResources_addProcesses w (fst st) (snd st) (Processes (Added conf)) in
  updateResources_modifyProcesses w (fst st) (snd st) (Processes (Modified conf)).

(** The body of the first loop of [completeConfig], over the remote nodes. *)
Definition completeConfig_remote (w : World) (m : resourceManager) (resName : Name.t)
  : resourceManager :=
  match Graph.Node (resources m) resName with
  | None => m
  | Some gNode =>
      if negb (GraphNode.NeedsReconfigure gNode) then m
      else
        let verb := if GraphNode.IsUninitialized gNode then "configuring" else "reconfiguring" in
        let m := record m (Debugw ("now " ++ verb ++ " a remote") [("resource", VName resName)]) in
        if API.eqb (Name.api resName) RemoteAPI then
          match NativeConfig_Remote (GraphNode.Config gNode) with
          | Err err => record m (Errorw "remote config error" [("error", VError err)])
          | Ok remConf =>
              match Remote_Validate w remConf with
              | Some err =>
                  let m := record m (Errorw "remote config validation error"
                                            [("remote", VString (config.Name remConf));
                                             ("error", VError err)]) in
                  onNode m resName
                    (fun nd => GraphNode.SetLastError nd
                                 (errors.Wrap err ("config validation error found in remote: "
                                                   ++ config.Name remConf)))
              | None =>
                  match processRemote w m remConf with
                  | (m, Err err) =>
                      let m := record m (Errorw "error connecting to remote"
                                                [("remote", VString (config.Name remConf));
                                                 ("error", VError err)]) in
                      onNode m resName
                        (fun nd => GraphNode.SetLastError nd
                                     (errors.Wrap err "remote connection error"))
                  | (m, Ok rr) =>
                      let m := addRemote w m rr (Some resName) remConf in
                      record m (Called_SetParentNotifier (config.Name remConf))
                  end
              end
          end
        else record m (Errorw "config is not a remote config" [("resource", VName resName)])
  end.

(** The body of the second loop of [completeConfig], over the names in
    reverse topological order. *)
Definition completeConfig_resource (w : World) (m : resourceManager) (resName : Name.t)
  : resourceManager :=
  match Graph.Node (resources m) resName with
  | None => m
  | Some gNode =>
      if negb (GraphNode.NeedsReconfigure gNode) then m
      else if negb (API.IsComponent (Name.api resName) || API.IsService (Name.api resName))
      then m
      else
        let verb := if GraphNode.IsUninitialized gNode then "configuring" else "reconfiguring" in
        let m := record m (Debugw ("now " ++ verb ++ " resource") [("resource", VName resName)]) in
        let conf := GraphNode.Config gNode in
        match Config_Validate w conf (API.TypeName (API.Type_ (Name.api resName))) with
        | Some err =>
            let m := record m (Errorw "resource config validation error"
                                      [("resource", VName (ResourceName conf));
                                       ("model", VModel (ConfModel conf));
                                       ("error", VError err)]) in
            onNode m resName
              (fun nd => GraphNode.SetLastError nd
                           (errors.Wrap err ("config validation error found in resource: "
                                             ++ Name.String_ (ResourceName conf))))
        | None =>
            match (if Provides w conf then ValidateConfig w conf else None) with
            | Some err =>
                let m := record m (Errorw "modular resource config validation error"
                                          [("resource", VName (ResourceName conf));
                                           ("model", VModel (ConfModel conf));
                                           ("error", VError err)]) in
                onNode m resName
                  (fun nd => GraphNode.SetLastError nd
                               (errors.Wrap err
                                  ("config validation error found in modular resource: "
                                   ++ Name.String_ (ResourceName conf))))
            | None =>
                let '(m, (newRes, newlyBuilt, err)) := processResource w m conf gNode in
                let m :=
                  if newlyBuilt || match err with Some _ => true | None => false end then
                    match markChildrenForUpdate m resName with
                    | (m, Some e) =>
                        record m (Errorw "failed to mark children of resource for update"
                                         [("resource", VName resName); ("reason", VError e)])
                    | (m, None) => m
                    end
                  else m in
                match err with
                | Some e =>
                    let m := record m (Errorw "error building resource"
                                              [("resource", VName (ResourceName conf));
                                               ("model", VModel (ConfModel conf));
                                               ("error", VError e)]) in
                    onNode m resName
                      (fun nd => GraphNode.SetLastError nd (errors.Wrap e "resource build error"))
                | None =>
                    match newRes with
                    | Some res =>
                        onNode m resName (fun nd => GraphNode.SwapResource nd res (ConfModel conf))
                    | None => m
                    end
                end
            end
        end
  end.

(** [completeConfig]: remotes first, then dependency resolution, then every
    other node in reverse topological order. *)
Definition completeConfig (w : World) (m : resourceManager) : resourceManager :=
  let m := fold_left (completeConfig_remote w)
                     (Graph.FindNodesByAPI (resources m) RemoteAPI) m in
  let '(g, errs, logged) := Graph.ResolveDependencies ResolverLog (resources m) in
  let m := mkManager g (processManager m) (opts m) (trace m ++ logged) in
  let m :=
    match multierr_error errs with
    | None => m
    | Some err => record m (Debugw "error resolving dependencies" [("error", VError err)])
    end in
  fold_left (completeConfig_resource w) (Graph.ReverseTopologicalSort (resources m)) m.

(** The body of the first loop of [cleanAppImageEnv]: reset the original
    value where one is available. *)
Definition cleanAppImageEnv_resetOne (p : os.t) (eVarStr : string) : os.t * option error :=
  let eVar := strings.Split eVarStr "="%char in
  let key := hd "" eVar in
  match os.LookupEnv p ("APPRUN_ORIGINAL_" ++ key) with
  | Some origV =>
      if negb (origV =? "") then os.Setenv p key origV else os.Unsetenv p key
  | None => (p, None)
  end.

(** The first loop; it returns at the first error. *)
Fixpoint cleanAppImageEnv_reset (p : os.t) (environ : list string) : os.t * option error :=
  match environ with
  | [] => (p, None)
  | eVarStr :: rest =>
      match cleanAppImageEnv_resetOne p eVarStr with
      | (p', Some e) => (p', Some e)
      | (p', None) => cleanAppImageEnv_reset p' rest
      end
  end.

Definition isAppImageVar (key : string) : bool :=
  strings.HasPrefix key "APPRUN" ||
  strings.HasPrefix key "APPDIR" ||
  strings.HasPrefix key "APPIMAGE" ||
  strings.HasPrefix key "AIX_".

(** The body of the second loop: remove all explicit appimage vars. *)
Definition cleanAppImageEnv_unset (st : os.t * list error) (eVarStr : string)
  : os.t * list error :=
  let '(p, err) := st in
  let eVar := strings.Split eVarStr "="%char in
  let key := hd "" eVar in
  if isAppImageVar key then
    let '(p', e) := os.Unsetenv p key in
    (p', multierr_Combine err (of_error e))
  else st.

Definition mountPrefix : string := "/tmp/.mount_".

(** The body of the third loop: remove AppImage paths from a path-like
    variable. *)
Definition cleanAppImageEnv_pathOne (p : os.t) (eVarStr : string) : os.t * option error :=
  let eVar := strings.Split eVarStr "="%char in
  let key := hd "" eVar in
  if Nat.leb 2 (List.length eVar) && strings.Contains (nth 1 eVar "") mountPrefix then
    let newPaths :=
      filter (fun path => negb (strings.HasPrefix path mountPrefix) && negb (path =? ""))
             (strings.Split (nth 1 eVar "") ":"%char) in
    if Nat.ltb 0 (List.length newPaths)
    then os.Setenv p key (strings.Join newPaths ":")
    else os.Unsetenv p key
  else (p, None).

(** The third loop; it returns at the first error. *)
Fixpoint cleanAppImageEnv_paths (p : os.t) (environ : list string) : os.t * option error :=
  match environ with
  | [] => (p, None)
  | eVarStr :: rest =>
      match cleanAppImageEnv_pathOne p eVarStr with
      | (p', Some e) => (p', Some e)
      | (p', None) => cleanAppImageEnv_paths p' rest
      end
  end.

(** [cleanAppImageEnv]: the process state afterwards, and the error. *)
Definition cleanAppImageEnv (p : os.t) : os.t * option error :=
  match os.LookupEnv p "APPIMAGE" with
  | None => (p, None)
  | Some _ =>
      match os.Chdir p (os.Getenv p "APPRUN_CWD") with
      | (p, Some err) => (p, Some err)
      | (p, None) =>
          match cleanAppImageEnv_reset p (os.Environ p) with
          | (p, Some err) => (p, Some err)
          | (p, None) =>
              let '(p, e1) := os.Unsetenv p "ARGV0" in
              let '(p, e2) := os.Unsetenv p "ORIGIN" in
              let '(p, err) :=
                fold_left cleanAppImageEnv_unset (os.Environ p)
                          (p, multierr_Combine (of_error e1) (of_error e2)) in
              match multierr_error err with
              | Some e => (p, Some e)
              | None => cleanAppImageEnv_paths p (os.Environ p)
              end
          end
      end
  end.


End robotimpl.

(* ================================================================== *)
(** ** The lazily decoded image ([rimage]) *)

Module rimage.

(** [image.Rectangle]. *)
Record Rectangle := mkRectangle { MinX : Z; MinY : Z; MaxX : Z; MaxY : Z }.

(** [image.Image]: what a decoded image answers. *)
Record Image := mkImage {
  Image_ColorModel : string;
  Image_Bounds : Rectangle;
  Image_At : Z -> Z -> Z }.

(** The value a panic carries ([interface{}]): the decoder's error, any
    other value recovered from a panic of the decoder, or the runtime's nil
    dereference. *)
Inductive PanicValue :=
| PanicError (e : error)
| PanicOther (v : string)
| NilDereference.

(** What one run of [DecodeImage] does: it returns an image and no error, or
    no image and an error, or it panics. [DecodeImage] itself is not part of
    the sources; it is a parameter of the methods below. *)
Inductive DecodeResult :=
| Decoded (img : Image)
| DecodeFailed (err : error)
| DecodePanicked (v : PanicValue).

Definition Decoder := list byte -> string -> DecodeResult.

(** [LazyEncodedImage]. [decodeOnce] tells whether the [sync.Once] has
    fired; [decodeCalls] counts the runs of [DecodeImage] on this image. *)
Record LazyEncodedImage := mk {
  imgBytes : list byte;
  mimeType : string;
  decodeOnce : bool;
  decodeErr : option PanicValue;
  decodedImage : option Image;
  decodeCalls : nat }.

(** The outcome of a method call. *)
Inductive outcome (A : Type) : Type :=
| Returns (a : A)
| Panics (v : PanicValue).
Arguments Returns {A} a.
Arguments Panics {A} v.

Definition NewLazyEncodedImage (imgBytes : list byte) (mimeType : string)
  : LazyEncodedImage :=
  mk imgBytes mimeType false None None 0.

(** [decode]: the image afterwards, and the value it panics with, if any. A
    panic of the decoder is recovered inside the [Once] and stored. *)
Definition decode (DecodeImage : Decoder) (lei : LazyEncodedImage)
  : LazyEncodedImage * option PanicValue :=
  let lei :=
    if decodeOnce lei then lei
    else
      match DecodeImage (imgBytes lei) (mimeType lei) with
      | Decoded img =>
          mk (imgBytes lei) (mimeType lei) true None (Some img) (S (decodeCalls lei))
      | DecodeFailed err =>
          mk (imgBytes lei) (mimeType lei) true (Some (PanicError err)) None
             (S (decodeCalls lei))
      | DecodePanicked v =>
          mk (imgBytes lei) (mimeType lei) true (Some v) (decodedImage lei)
             (S (decodeCalls lei))
      end in
  (lei, decodeErr lei).

Definition MIMEType (lei : LazyEncodedImage) : LazyEncodedImage * string :=
  (lei, mimeType lei).

Definition RawData (lei : LazyEncodedImage) : LazyEncodedImage * list byte :=
  (lei, imgBytes lei).

(** A method of the decoded image, called once [decode] has returned. *)
Definition onDecoded {A : Type} (lei : LazyEncodedImage) (f : Image -> A)
  : LazyEncodedImage * outcome A :=
  match decodedImage lei with
  | Some img => (lei, Returns (f img))
  | None => (lei, Panics NilDereference)
  end.

Definition ColorModel (DecodeImage : Decoder) (lei : LazyEncodedImage)
  : LazyEncodedImage * outcome string :=
  match decode DecodeImage lei with
  | (lei, Some v) => (lei, Panics v)
  | (lei, None) => onDecoded lei Image_ColorModel
  end.

Definition Bounds (DecodeImage : Decoder) (lei : LazyEncodedImage)
  : LazyEncodedImage * outcome Rectangle :=
  match decodedImage lei with
  | None =>
      match decode DecodeImage lei with
      | (lei, Some v) => (lei, Panics v)
      | (lei, None) => onDecoded lei Image_Bounds
      end
  | Some _ => onDecoded lei Image_Bounds
  end.

Definition At (DecodeImage : Decoder) (lei : LazyEncodedImage) (x y : Z)
  : LazyEncodedImage * outcome Z :=
  match decode DecodeImage lei with
  | (lei, Some v) => (lei, Panics v)
  | (lei, None) => onDecoded lei (fun img => Image_At img x y)
  end.

(** The methods of the image, to speak of sequences of calls. *)
Inductive Method :=
| mMIMEType
| mRawData
| mColorModel
| mBounds
| mAt (x y : Z).

(** The image after one call, whether the call returned or panicked. *)
Definition call (DecodeImage : Decoder) (lei : LazyEncodedImage) (c : Method)
  : LazyEncodedImage :=
  match c with
  | mMIMEType => fst (MIMEType lei)
  | mRawData => fst (RawData lei)
  | mColorModel => fst (ColorModel DecodeImage lei)
  | mBounds => fst (Bounds DecodeImage lei)
  | mAt x y => fst (At DecodeImage lei x y)
  end.

Definition run (DecodeImage : Decoder) (lei : LazyEncodedImage) (cs : list Method)
  : LazyEncodedImage :=
  fold_left (call DecodeImage) cs lei.

End rimage.

(* ================================================================== *)
(** ** Notions used by the statements *)

(** The invariant of a [LazyEncodedImage] made from [b] and [m]: before the
    [Once] fires nothing is stored; afterwards the decoder has run exactly
    once and its result is what is stored. *)
Definition lazy_inv (DecodeImage : rimage.Decoder) (b : list byte) (m : string)
  (lei : rimage.LazyEncodedImage) : Prop :=
  rimage.imgBytes lei = b /\ rimage.mimeType lei = m /\
  if rimage.decodeOnce lei then
    rimage.decodeCalls lei = 1 /\
    match DecodeImage b m with
    | rimage.Decoded img =>
        rimage.decodeErr lei = None /\ rimage.decodedImage lei = Some img
    | rimage.DecodeFailed err =>
        rimage.decodeErr lei = Some (rimage.PanicError err) /\ rimage.decodedImage lei = None
    | rimage.DecodePanicked v =>
        rimage.decodeErr lei = Some v /\ rimage.decodedImage lei = None
    end
  else
    rimage.decodeCalls lei = 0 /\ rimage.decodeErr lei = None /\ rimage.decodedImage lei = None.

(** ** Scenario: an image whose bytes no decoder understands *)

Module undecodable.

Definition failure : error := errorString "do not know how to decode MimeType image/unknown".

Definition DecodeImage : rimage.Decoder := fun _ _ => rimage.DecodeFailed failure.

Definition image : rimage.LazyEncodedImage :=
  rimage.NewLazyEncodedImage [x00; x01] "image/unknown".

End undecodable.

(* ================================================================== *)
(** ** Scenarios: a small robot with two remotes *)

Module scenario.
Import resource robotimpl.

Definition componentAPI (subtype : string) : API.t :=
  API.mk (API.mkType API.APINamespaceRDK API.APITypeComponentName) subtype.
Definition serviceAPI (subtype : string) : API.t :=
  API.mk (API.mkType API.APINamespaceRDK API.APITypeServiceName) subtype.
Definition armAPI : API.t := componentAPI "arm".
Definition cameraAPI : API.t := componentAPI "camera".
Definition baseAPI : API.t := componentAPI "base".
Definition webAPI : API.t :=
  API.mk (API.mkType API.APINamespaceRDKInternal API.APITypeServiceName) "web".

Definition armDesc : ServiceDescriptor := mkDesc "viam.component.arm.v1.ArmService".

(** A remote exposing [arm:a] and [camera:c]. *)
Definition robot1 : Robot :=
  mkRobot [Name.mk armAPI [] "a"; Name.mk cameraAPI [] "c"]
          (fun n => if Name.eqb n (Name.mk armAPI [] "a") then Ok 11
                    else if Name.eqb n (Name.mk cameraAPI [] "c") then Ok 12
                    else Err (notFoundError n))
          [mkRPCAPI armAPI (mkDesc "acme.arm.v1.ArmService")].

(** A remote exposing [arm:a] only, with yet another arm service. *)
Definition robot2 : Robot :=
  mkRobot [Name.mk armAPI [] "a"]
          (fun n => if Name.eqb n (Name.mk armAPI [] "a") then Ok 21
                    else Err (notFoundError n))
          [mkRPCAPI armAPI (mkDesc "other.arm.v2.ArmService")].

(** A world where the arm API is registered natively, dialing the address
    [10.0.0.7:8080] is refused as insecure, and drivers never fail. *)
Definition world : World :=
  mkWorld
    (fun a => if API.eqb a armAPI then Some (mkRegistration (Some armDesc)) else None)
    (fun c _ => if config.Address c =? "10.0.0.7:8080"
                then Err rpc.ErrInsecureWithCredentials else Ok robot1)
    (fun _ => None) (fun _ _ => None)
    (fun _ => false) (fun _ => None) (fun _ => false) (fun _ => None) (fun _ _ => None)
    (fun _ c => Ok (Driver (String.length (ConfName c))))
    (fun _ _ => Ok [])
    (fun _ _ _ => None) (fun _ => None)
    (fun _ => Name.mk baseAPI [] "unnamed")
    (fun _ => None) (fun _ => None).

Definition noAuth : config.RemoteAuth := config.mkAuth None "" "" false "" "" "" None false.
Definition insecureRemote : config.Remote := config.mkRemote "r9" "10.0.0.7:8080" true noAuth.

Definition commandOptions : resourceManagerOptions := mkOptions false true false false None.
Definition untrustedOptions : resourceManagerOptions := mkOptions false false false true None.

Definition remoteR1 : Name.t := fromRemoteNameToRemoteNodeName "r1".
Definition remoteR2 : Name.t := fromRemoteNameToRemoteNodeName "r2".
Definition r1arm : Name.t := Name.mk armAPI ["r1"] "a".
Definition r1camera : Name.t := Name.mk cameraAPI ["r1"] "c".
Definition r2arm : Name.t := Name.mk armAPI ["r2"] "a".
Definition base1 : Name.t := Name.mk baseAPI [] "base1".
Definition arm1 : Name.t := Name.mk armAPI [] "arm1".
Definition web : Name.t := Name.mk webAPI [] "web".

Definition built (h : Handle) (model : Model) : GraphNode.t :=
  GraphNode.NewConfiguredGraphNode emptyConfig (Driver h) model.
Definition connected (rr : Robot) : GraphNode.t :=
  GraphNode.NewConfiguredGraphNode emptyConfig (RemoteRobot rr) builtinModel.

(** Both remotes grafted; [base1] failed its last build. *)
Definition graftedGraph : Graph.t :=
  Graph.mk
    [(remoteR1, connected robot1); (r1arm, built 11 unknownModel);
     (r1camera, built 12 unknownModel);
     (remoteR2, connected robot2); (r2arm, built 21 unknownModel);
     (arm1, built 1 builtinModel);
     (base1, GraphNode.SetLastError (built 2 builtinModel) (errorString "no such device"));
     (web, built 3 builtinModel)]
    [(r1arm, remoteR1); (r1camera, remoteR1); (r2arm, remoteR2)].

Definition graftedManager : resourceManager :=
  mkManager graftedGraph (newProcessManager commandOptions) commandOptions [].

End scenario.

(** What a lookup answers once the node is found: the node's resource, or
    the reason why it is not available, under the name that was asked. *)
Definition answer (n : Name.t) (gNode : GraphNode.t) : result resource.Resource :=
  match GraphNode.Resource gNode with
  | Ok res => Ok res
  | Err cause => Err (notAvailableError n cause)
  end.

(** The graph after [markResourceForUpdate]. *)
Definition markedGraph (g : Graph.t) (n : Name.t) (conf : resource.Config)
  (deps : list string) : Graph.t :=
  match Graph.Node g n with
  | Some gNode =>
      let g1 := Graph.setNode g n (GraphNode.SetNewConfig gNode conf deps) in
      fold_left (fun g0 parent => Graph.RemoveChild g0 n parent) (Graph.GetAllParentsOf g1 n) g1
  | None =>
      Graph.mk (Graph.nodes g ++ [(n, GraphNode.NewUnconfiguredGraphNode conf deps)])
               (Graph.edges g)
  end.

(** One call of [markResourceForUpdate]: name, configuration, dependencies. *)
Definition Mark : Type := Name.t * resource.Config * list string.

Definition resourceMark (c : resource.Config) : Mark :=
  (resource.ResourceName c, c, resource.Dependencies c).

Definition remoteMark (r : config.Remote) : Mark :=
  (robotimpl.fromRemoteNameToRemoteNodeName (config.Name r),
   resource.mkConfig "" (API.mk (API.mkType "" "") "") (resource.mkModel "" "") []
                     (Some (resource.RemoteAttributes r)),
   []).

Definition applyMarks (ms : list Mark) (g : Graph.t) : Graph.t :=
  fold_left (fun g0 (x : Mark) => markedGraph g0 (fst (fst x)) (snd (fst x)) (snd x)) ms g.

(** A service configuration of the shell API. *)
Definition isShellService (s : resource.Config) : bool :=
  API.eqb (Name.api (resource.ResourceName s)) shellAPI.

Definition withoutShell (ss : list resource.Config) : list resource.Config :=
  filter (fun s => negb (isShellService s)) ss.

(** A configuration without what an untrusted environment forbids: the
    shell service and every process. *)
Definition permitted (c : robotimpl.RobotConfig) : robotimpl.RobotConfig :=
  robotimpl.mkRobotConfig (robotimpl.Components c) (withoutShell (robotimpl.Services c))
                          (robotimpl.Remotes c) [].

Definition permittedDiff (d : robotimpl.Diff) : robotimpl.Diff :=
  robotimpl.mkDiff (permitted (robotimpl.Added d)) (permitted (robotimpl.Modified d))
                   (robotimpl.Removed d).

(** The calls of [markResourceForUpdate] that a diff asks for, in the order
    of [updateResources]. *)
Definition marksOf (d : robotimpl.Diff) : list Mark :=
  map resourceMark (robotimpl.Services (robotimpl.Added d)) ++
  map resourceMark (robotimpl.Components (robotimpl.Added d)) ++
  map remoteMark (robotimpl.Remotes (robotimpl.Added d)) ++
  map resourceMark (robotimpl.Components (robotimpl.Modified d)) ++
  map resourceMark (robotimpl.Services (robotimpl.Modified d)) ++
  map remoteMark (robotimpl.Remotes (robotimpl.Modified d)).

(** The name a mark is for. *)
Definition markName (x : Mark) : Name.t := fst (fst x).

(** The last of the marks [asked] that is for the name [n]. *)
Definition lastMark (asked : list Mark) (n : Name.t) : option Mark :=
  find (fun x => Name.eqb (markName x) n) (rev asked).



(** The error an untrusted environment answers when processes are asked for. *)
Definition processesRefused (ps : list config.ProcessConfig) : list error :=
  match ps with
  | [] => []
  | _ :: _ => [robotimpl.errProcessesDisabled]
  end.

(** ** Scenario: a diff met in an untrusted environment *)

Module untrusted.
Import resource robotimpl.

Definition manager : resourceManager :=
  mkManager Graph.NewGraph (newProcessManager scenario.untrustedOptions)
            scenario.untrustedOptions [].

Definition shellConf : Config :=
  mkConfig "shell1" shellAPI builtinModel [] None.
Definition armConf : Config :=
  mkConfig "arm1" scenario.armAPI (DefaultModelFamily_WithModel "fake") ["base1"] None.
Definition remoteConf : config.Remote :=
  config.mkRemote "r1" "r1.local:8080" false scenario.noAuth.
Definition process : config.ProcessConfig := config.mkProcess "p1" "echo hello".
Definition motion1 : Name.t := Name.mk (scenario.serviceAPI "motion") [] "motion1".

Definition noConfig : RobotConfig := mkRobotConfig [] [] [] [].


End untrusted.

(** ** Scenario: two connected remotes whose resources are not grafted yet *)

Module pending.
Import resource robotimpl.

Definition graph : Graph.t :=
  Graph.mk [(scenario.remoteR1, scenario.connected scenario.robot1);
            (scenario.remoteR2, scenario.connected scenario.robot2)]
           [].

Definition manager : resourceManager :=
  mkManager graph (newProcessManager scenario.commandOptions) scenario.commandOptions [].

End pending.

(** Two graphs with the same names, in the same order, and the same edges:
    they differ at most in what their nodes hold. *)
Definition sameShape (g1 g2 : Graph.t) : Prop :=
  Graph.Names g1 = Graph.Names g2 /\ Graph.edges g1 = Graph.edges g2.

(** There is a node under [n] and its needs-update bit is set. *)
Definition markedForUpdate (m : robotimpl.resourceManager) (n : Name.t) : Prop :=
  exists nd, Graph.Node (robotimpl.resources m) n = Some nd /\ GraphNode.needsUpdate nd = true.

(** There is a node under [n] and it holds no handle. *)
Definition closedNode (m : robotimpl.resourceManager) (n : Name.t) : Prop :=
  exists nd, Graph.Node (robotimpl.resources m) n = Some nd /\ GraphNode.current nd = None.

(** The local descendants of [root]: the names of its subgraph other than
    [root] itself that carry no remote prefix. *)
Definition localDescendant (g : Graph.t) (root n : Name.t) : Prop :=
  exists sg, Graph.SubGraphFrom g root = Ok sg /\ In n (Graph.Names sg) /\
             n <> root /\ Name.ContainsRemoteNames n = false.

(** The edges of the graphs that the manager makes. A remote-scoped node
    depends on remote nodes only: it is made by [updateRemoteResourceNames]
    with an empty configuration, and the one edge it gets goes to the node
    of its remote. The node of a remote of this robot depends on nothing:
    [updateResources] marks a remote with no dependencies. *)
Definition remoteShaped (g : Graph.t) : Prop :=
  forall child parent, In (child, parent) (Graph.edges g) ->
    (Name.ContainsRemoteNames child = true -> Name.api parent = RemoteAPI) /\
    (Name.ContainsRemoteNames child = false -> Name.api child <> RemoteAPI).

(** The nodes that dependency resolution leaves alone in such a graph: a
    remote-scoped node and the node of a remote name no dependency that
    waits to be resolved. *)
Definition remotesResolved (g : Graph.t) : Prop :=
  forall k nd, Graph.Node g k = Some nd ->
    Name.ContainsRemoteNames k = true \/ Name.api k = RemoteAPI ->
    GraphNode.unresolvedDependencies nd = [].

(** ** Scenario: a base that is rebuilt, under an arm and beside a remote *)

Module rebuild.
Import resource robotimpl.

Definition baseConf : Config :=
  mkConfig "base1" scenario.baseAPI (DefaultModelFamily_WithModel "wheeled") [] None.

(** The same base with another model. *)
Definition tracked : Config :=
  mkConfig "base1" scenario.baseAPI (DefaultModelFamily_WithModel "tracked") [] None.

(** A new manager is given the base, an arm that depends on it and the
    remote [r1]: the three nodes wait to be built. *)
Definition planned : resourceManager :=
  fst (updateResources scenario.world (newResourceManager scenario.commandOptions)
         (mkDiff (mkRobotConfig [baseConf; untrusted.armConf] [] [untrusted.remoteConf] [])
                 untrusted.noConfig untrusted.noConfig)).

(** After a complete-config pass the three are built, the arm hangs on the
    base and the two resources of [r1] are grafted under it. *)
Definition configured : resourceManager := completeConfig scenario.world planned.

(** The base is then modified to the other model: its node is marked, and
    the next pass will rebuild it. *)
Definition manager : resourceManager :=
  fst (updateResources scenario.world configured
         (mkDiff untrusted.noConfig (mkRobotConfig [tracked] [] [] []) untrusted.noConfig)).

End rebuild.

(** [m'] is reached from [m] by calls that only mark nodes for update, close
    nodes and log: the graph keeps its shape, marks and closures stay, and
    the trace grows. *)
Definition keeps (m m' : robotimpl.resourceManager) : Prop :=
  sameShape (robotimpl.resources m) (robotimpl.resources m') /\
  (forall k, markedForUpdate m k -> markedForUpdate m' k) /\
  (forall k, closedNode m k -> closedNode m' k) /\
  exists t, robotimpl.trace m' = robotimpl.trace m ++ t.

(** ** Scenario: the remote [r1] has lost its arm, on which a local gripper depends *)

Module stale.
Import resource robotimpl.

Definition gripper1 : Name.t := Name.mk (scenario.componentAPI "gripper") [] "gripper1".

(** What [r1] answers now: the camera only. *)
Definition robotNow : Robot :=
  mkRobot [Name.mk scenario.cameraAPI [] "c"]
          (fun n => if Name.eqb n (Name.mk scenario.cameraAPI [] "c") then Ok 12
                    else Err (notFoundError n))
          [].

Definition graph : Graph.t :=
  Graph.mk [(scenario.remoteR1, scenario.connected robotNow);
            (scenario.r1arm, scenario.built 11 unknownModel);
            (scenario.r1camera, scenario.built 12 unknownModel);
            (gripper1, scenario.built 4 builtinModel)]
           [(scenario.r1arm, scenario.remoteR1); (scenario.r1camera, scenario.remoteR1);
            (gripper1, scenario.r1arm)].

Definition manager : resourceManager :=
  mkManager graph (newProcessManager scenario.commandOptions) scenario.commandOptions [].

End stale.

(** A key that [os.Setenv] accepts. *)
Definition okKey (k : string) : bool := negb ((k =? "") || os.mentions "="%char k).

(** The environment as Go's runtime keeps it: no key twice, every key non
    empty and free of equals signs. *)
Definition wellFormed (p : os.t) : Prop :=
  NoDup (map fst (os.env p)) /\ forall k, In k (map fst (os.env p)) -> okKey k = true.

(** The "key=value" string of an entry, as [os.Environ] gives it. *)
Definition kv (e : string * string) : string := (fst e ++ "=" ++ snd e)%string.

(** ** Scenario: a process started from an AppImage bundle *)

Module appimage.

Definition dirs (d : string) : bool := (d =? "/home/robot") || (d =? "/").

Definition bundled : os.t :=
  os.mk [("APPIMAGE", "/opt/viam-server.AppImage");
         ("APPDIR", "/tmp/.mount_x");
         ("APPRUN_CWD", "/home/robot");
         ("APPRUN_ORIGINAL_PATH", "/usr/bin");
         ("PATH", "/tmp/.mount_x/bin:/usr/bin");
         ("ARGV0", "viam-server");
         ("AIX_LOADER", "1");
         ("XDG_DATA_DIRS", "/tmp/.mount_x/share:/usr/share");
         ("HOME", "/home/robot")]
        "/tmp/.mount_x" dirs.

(** The same start without [APPRUN_CWD]. *)
Definition withoutCwd : os.t :=
  os.mk [("APPIMAGE", "/opt/viam-server.AppImage");
         ("APPRUN_ORIGINAL_PATH", "/usr/bin");
         ("PATH", "/tmp/.mount_x/bin:/usr/bin")]
        "/tmp/.mount_x" dirs.

End appimage.

(* ================================================================== *)
(** ** Frame system parts ([framesystemparts]) *)

Module referenceframe.

(** Modelled from the spec: [referenceframe.World], the name of the root
    frame. *)
Definition World : string := "world".

(** Modelled from the spec: a frame system part, as far as this package
    reads and writes it (the [referenceframe] package is not part of the
    sources): [FrameConfig.Name()] and [FrameConfig.Parent()] read the two
    fields that [SetName] and [SetParent] write; pose, geometry and model
    frame are [rest]. *)
Record FrameSystemPart := mkPart { Name : string; Parent : string; rest : nat }.

Definition SetName (p : FrameSystemPart) (n : string) : FrameSystemPart :=
  mkPart n (Parent p) (rest p).

Definition SetParent (p : FrameSystemPart) (n : string) : FrameSystemPart :=
  mkPart (Name p) n (rest p).

End referenceframe.

Module framesystemparts.

(** [Parts], a slice of pointers to parts. A function that only reads the
    parts is given the parts themselves, in the order of the slice. *)
Definition Parts := list referenceframe.FrameSystemPart.

(** [NewMissingParentError]. *)
Definition NewMissingParentError (partName parentName : string) : error :=
  errorString ("part with name " ++ partName ++ " references non-existent parent "
               ++ parentName).

(** A [map[string]bool] whose entries are all true, by its keys; a missing
    key reads as false. *)
Definition has (keys : list string) (k : string) : bool := existsb (String.eqb k) keys.

(** The map [existingParts] of [TopologicallySort]. *)
Definition existingParts (parts : Parts) : list string :=
  referenceframe.World :: map referenceframe.Name parts.

(** The map [children], in insertion order; a missing key reads as the nil
    slice. *)
Definition children_has (children : list (string * Parts)) (k : string) : bool :=
  existsb (fun e => fst e =? k) children.

Definition children_get (children : list (string * Parts)) (k : string) : Parts :=
  match find (fun e => fst e =? k) children with
  | Some e => snd e
  | None => []
  end.

(** [children[k] = append(children[k], part)]. *)
Definition children_append (children : list (string * Parts)) (k : string)
  (part : referenceframe.FrameSystemPart) : list (string * Parts) :=
  if children_has children k
  then map (fun e => if fst e =? k then (fst e, snd e ++ [part]) else e) children
  else children ++ [(k, [part])].

(** The loop that makes the map of children; it returns at the first part
    whose parent does not exist. *)
Fixpoint makeChildren (existing : list string) (parts : Parts)
  (children : list (string * Parts)) : result (list (string * Parts)) :=
  match parts with
  | [] => Ok children
  | part :: rest =>
      let parent := referenceframe.Parent part in
      if negb (has existing parent)
      then Err (NewMissingParentError (referenceframe.Name part) parent)
      else makeChildren existing rest (children_append children parent part)
  end.

(** The comparison handed to [sort.Slice]: by name, as Go orders strings. *)
Definition byName (a b : referenceframe.FrameSystemPart) : bool :=
  String.ltb (referenceframe.Name a) (referenceframe.Name b).

(** [sort.Slice(slice, less)]: the standard library's sort, which is not
    stable. It is a parameter of [TopologicallySort]. *)
Definition Sorter :=
  Parts -> (referenceframe.FrameSystemPart -> referenceframe.FrameSystemPart -> bool) -> Parts.

(** The loop over the stack, which is run at most [fuel] times; [None] says
    that the loop has not ended by then. The sorted slice shares its array
    with the entry of [children], which is not read again: a second visit of
    [parent] returns before. *)
Fixpoint visit (sort_Slice : Sorter) (fuel : nat) (children : list (string * Parts))
  (stack visited : list string) (topoSortedParts : Parts) : option (result Parts) :=
  match fuel with
  | O => None
  | S fuel' =>
      match stack with
      | [] => Some (Ok topoSortedParts)
      | parent :: stack =>
          if has visited parent
          then Some (Err (errorString
                            ("the system contains a cycle, have already visited frame "
                             ++ parent)))
          else
            let sorted := sort_Slice (children_get children parent) byName in
            visit sort_Slice fuel' children
                  (stack ++ map referenceframe.Name sorted) (parent :: visited)
                  (topoSortedParts ++ sorted)
      end
  end.

(** [TopologicallySort]. *)
Definition TopologicallySort (sort_Slice : Sorter) (parts : Parts) : option (result Parts) :=
  match makeChildren (existingParts parts) parts [] with
  | Err err => Some (Err err)
  | Ok children =>
      if Nat.eqb (List.length children) 0 then Some (Ok [])
      else if negb (children_has children referenceframe.World)
      then Some (Err (errors.New
                        "there are no robot parts that connect to a 'world' node. Root node must be named 'world'"))
      else visit sort_Slice (List.length parts + 2) children [referenceframe.World] [] []
  end.

(** The memory that holds the parts a slice points to: a pointer is an
    address, [None] is what a nil pointer reads. *)
Definition Memory := list referenceframe.FrameSystemPart.

Definition load (mem : Memory) (p : nat) : option referenceframe.FrameSystemPart :=
  nth_error mem p.

Fixpoint store (mem : Memory) (p : nat) (v : referenceframe.FrameSystemPart) : Memory :=
  match mem, p with
  | [], _ => []
  | _ :: mem', O => v :: mem'
  | x :: mem', S p' => x :: store mem' p' v
  end.

(** The body of the loop of [RenameRemoteParts], on the part [p] points to. *)
Definition renamePart (remoteName connectionName : string)
  (p : referenceframe.FrameSystemPart) : referenceframe.FrameSystemPart :=
  let p :=
    if referenceframe.Parent p =? referenceframe.World
    then referenceframe.SetParent p connectionName else p in
  let p := referenceframe.SetName p (remoteName ++ ":" ++ referenceframe.Name p) in
  if negb (referenceframe.Parent p =? connectionName)
  then referenceframe.SetParent p (remoteName ++ ":" ++ referenceframe.Parent p)
  else p.

(** [RenameRemoteParts]: the memory afterwards (the slice returned is the
    slice given); [None] is the panic of a nil pointer. *)
Fixpoint RenameRemoteParts (mem : Memory) (remoteParts : list nat)
  (remoteName connectionName : string) : option Memory :=
  match remoteParts with
  | [] => Some mem
  | p :: rest =>
      match load mem p with
      | None => None
      | Some part =>
          RenameRemoteParts (store mem p (renamePart remoteName connectionName part)) rest
                            remoteName connectionName
      end
  end.

(** [Names]. *)
Definition Names (parts : Parts) : list string := map referenceframe.Name parts.

End framesystemparts.

(** Sorting by insertion, one of the sorts [sort.Slice] may be. *)
Fixpoint insertSorted {A : Type} (less : A -> A -> bool) (x : A) (l : list A) : list A :=
  match l with
  | [] => [x]
  | y :: l' => if less x y then x :: y :: l' else y :: insertSorted less x l'
  end.

Definition insertionSort : framesystemparts.Sorter :=
  fun l less => fold_right (insertSorted less) [] l.

(** What [sort.Slice] promises for the comparison by name: the slice is
    rearranged, and afterwards no part is followed by one that is less. *)
Definition sortsByName (sort_Slice : framesystemparts.Sorter) : Prop :=
  forall l,
    Permutation l (sort_Slice l framesystemparts.byName) /\
    StronglySorted (fun a b => framesystemparts.byName b a = false)
                   (sort_Slice l framesystemparts.byName).

(** The frames that hang from the world frame: the world frame itself, and
    every part whose parent hangs from it. *)
Inductive connected (parts : framesystemparts.Parts) : string -> Prop :=
| connected_world : connected parts referenceframe.World
| connected_part : forall p,
    In p parts -> connected parts (referenceframe.Parent p) ->
    connected parts (referenceframe.Name p).

(** The parts of [parts] whose parent is [k], in the order of [parts]. *)
Definition childrenOf (parts : framesystemparts.Parts) (k : string) : framesystemparts.Parts :=
  filter (fun p => referenceframe.Parent p =? k) parts.

(** [remoteName] prefixed [n] times to [s]. *)
Fixpoint prefixed (n : nat) (remoteName s : string) : string :=
  match n with
  | O => s
  | S n' => remoteName ++ ":" ++ prefixed n' remoteName s
  end.

(** Every part of [l] has its parent among [seen] or before it in [l]. *)
Fixpoint parentsFirst (seen : list string) (l : framesystemparts.Parts) : Prop :=
  match l with
  | [] => True
  | p :: l' =>
      In (referenceframe.Parent p) seen /\ parentsFirst (referenceframe.Name p :: seen) l'
  end.

(** What the loop of [TopologicallySort] keeps true of its stack, its visited
    frames and its result: the frames met so far are the world frame and the
    names of the result, in that order, the visited ones first; no frame is
    visited twice; the parts of the result under a frame are the sorted
    children of that frame once it is visited, and none before; parents come
    first. *)
Definition visitInv (sort_Slice : framesystemparts.Sorter) (parts : framesystemparts.Parts)
  (stack visited : list string) (topo : framesystemparts.Parts) : Prop :=
  referenceframe.World :: map referenceframe.Name topo = rev visited ++ stack /\
  NoDup visited /\
  (forall k, filter (fun p => referenceframe.Parent p =? k) topo
             = if framesystemparts.has visited k
               then sort_Slice (childrenOf parts k) framesystemparts.byName else []) /\
  parentsFirst [referenceframe.World] topo.

(** ** Scenario: the frames of a small robot *)

Module frames.

Definition part (n parent : string) : referenceframe.FrameSystemPart :=
  referenceframe.mkPart n parent 0.

(** A base on the world frame, an arm and a camera on the base, a gripper on
    the arm, given out of order. *)
Definition robot : framesystemparts.Parts :=
  [part "gripper" "arm"; part "camera" "base"; part "base" "world"; part "arm" "base"].

(** The same robot, and two frames that name each other as parent. *)
Definition withLoop : framesystemparts.Parts :=
  robot ++ [part "left" "right"; part "right" "left"].

(** An arm whose parent is not among the parts. *)
Definition orphan : framesystemparts.Parts :=
  [part "base" "world"; part "arm" "shoulder"; part "gripper" "wrist"].

(** Two frames that name each other as parent, and nothing on the world
    frame. *)
Definition rootless : framesystemparts.Parts :=
  [part "left" "right"; part "right" "left"].

End frames.

(** ** Scenario: the parts of a remote, held in memory *)

Module remoteFrames.

(** The parts of the remote: a base on its world frame, an arm on the base,
    and a part hung on a frame that has the name the connection will get. *)
Definition memory : framesystemparts.Memory :=
  [frames.part "base" "world"; frames.part "arm" "base"; frames.part "lamp" "r1_conn"].

End remoteFrames.

(** The dial options that carry credentials. *)
Definition isCredentialsOption (o : rpc.DialOption) : bool :=
  match o with
  | rpc.WithCredentials _ | rpc.WithEntityCredentials _ _ => true
  | _ => false
  end.

(** The methods that need the decoded image. *)
Definition needsImage (c : rimage.Method) : bool :=
  match c with
  | rimage.mColorModel | rimage.mBounds | rimage.mAt _ _ => true
  | rimage.mMIMEType | rimage.mRawData => false
  end.

(** ** Scenario: an image that decodes *)

Module decodable.

Definition picture : rimage.Image :=
  rimage.mkImage "RGBA" (rimage.mkRectangle 0 0 4 3) (fun x y => (x + 4 * y)%Z).

Definition DecodeImage : rimage.Decoder := fun _ _ => rimage.Decoded picture.

End decodable.

(** The name of a remote's resource under the remote's prefix. *)
Definition underRemote (remoteName n : Name.t) : Name.t :=
  Name.PrependRemote n (Name.name remoteName).

(** Where an entry of the list of RPC APIs may come from: the registration
    of the API of a name of the graph that is neither internal, nor a remote
    node, nor remote-scoped; or the RPC APIs of a remote that is connected
    under a remote node of the graph. *)
Definition contributed (w : robotimpl.World) (g : Graph.t)
  (e : API.t * resource.ServiceDescriptor) : Prop :=
  (exists k reg,
     In k (Graph.Names g) /\ Name.api k = fst e /\
     (API.Namespace (API.Type_ (Name.api k)) =? API.APINamespaceRDKInternal) = false /\
     API.eqb (Name.api k) RemoteAPI = false /\
     Name.ContainsRemoteNames k = false /\
     robotimpl.RegisteredAPIs w (fst e) = Some reg /\
     resource.ReflectRPCServiceDesc reg = Some (snd e)) \/
  (exists k gNode rr,
     In k (Graph.Names g) /\ API.eqb (Name.api k) RemoteAPI = true /\
     Graph.Node g k = Some gNode /\
     GraphNode.Resource gNode = Ok (resource.RemoteRobot rr) /\
     In (resource.mkRPCAPI (fst e) (snd e)) (resource.ResourceRPCAPIs rr)).

(* ================================================================== *)
(** ** Marking what a configuration removes ([robotimpl], continued) *)

Module removal.
Import resource robotimpl.

(** Modelled from the spec: the removal mark of a node, the tombstone that
    the sweep looks for. *)
Definition markNode (n : GraphNode.t) : GraphNode.t :=
  GraphNode.mk (GraphNode.current n) (GraphNode.currentModel n) (GraphNode.config n)
    (GraphNode.unresolvedDependencies n) (GraphNode.needsReconfigure n)
    (GraphNode.needsUpdate n) (GraphNode.lastErr n) true.

(** Modelled from the spec: [MarkForRemoval(toMark)] puts the removal mark
    on every node of the graph whose name is a name of [toMark]. *)
Definition MarkForRemoval (g toMark : Graph.t) : Graph.t :=
  Graph.mk
    (map (fun e => if Graph.mem (fst e) (Graph.Names toMark)
                   then (fst e, markNode (snd e)) else e)
         (Graph.nodes g))
    (Graph.edges g).

(** [pexec.ProcessManager.AddProcess(ctx, proc, false)], of the process
    library: a parameter of [markRemoved]. *)
Definition AddProcess :=
  ProcessManager -> config.ProcessConfig -> ProcessManager * option error.

(** The set [markedResourceNames], in insertion order. *)
Definition addName (names : list Name.t) (n : Name.t) : list Name.t :=
  if Graph.mem n names then names else names ++ [n].

Definition addNames (names more : list Name.t) : list Name.t := fold_left addName more names.

(** What [markRemoved] builds up: the manager, the processes to close, the
    resources to close before the configuration is completed (each a
    close-only resource, known by the name of its node), and the names that
    are marked. *)
Record Marked := mkMarked {
  manager : resourceManager;
  processesToClose : ProcessManager;
  resourcesToCloseBeforeComplete : list Name.t;
  markedResourceNames : list Name.t }.

(** The body of the loop over the removed processes. *)
Definition markRemoved_process (addProcess : AddProcess) (st : Marked)
  (conf : config.ProcessConfig) : Marked :=
  let m := manager st in
  if untrustedEnv (opts m) then st
  else
    match RemoveProcessByID (processManager m) (config.ID conf) with
    | (pm, None) =>
        mkMarked (record (withProcessManager m pm)
                         (Errorw "couldn't remove process"
                                 [("process", VString (config.ID conf))]))
                 (processesToClose st) (resourcesToCloseBeforeComplete st)
                 (markedResourceNames st)
    | (pm, Some proc) =>
        let m := withProcessManager m pm in
        match addProcess (processesToClose st) proc with
        | (toClose, Some err) =>
            mkMarked (record m (Errorw "couldn't add process"
                                       [("process", VString (config.ID conf));
                                        ("error", VError err)]))
                     toClose (resourcesToCloseBeforeComplete st) (markedResourceNames st)
        | (toClose, None) =>
            mkMarked m toClose (resourcesToCloseBeforeComplete st) (markedResourceNames st)
        end
    end.

(** What the three loops over remotes, components and services do with the
    name of a removed resource. *)
Definition markRemoved_resource (st : Marked) (rName : Name.t) : Marked :=
  let m := manager st in
  match Graph.Node (resources m) rName with
  | None => st
  | Some _ =>
      let toClose := resourcesToCloseBeforeComplete st ++ [rName] in
      match Graph.SubGraphFrom (resources m) rName with
      | Err err =>
          mkMarked (record m (Errorw "error while getting a subgraph" [("error", VError err)]))
                   (processesToClose st) toClose (markedResourceNames st)
      | Ok subG =>
          mkMarked (withResources m (MarkForRemoval (resources m) subG))
                   (processesToClose st) toClose
                   (addNames (markedResourceNames st) (Graph.Names subG))
      end
  end.

(** The body of the loop over the removed services: changes to the shell
    service are disabled in an untrusted environment. *)
Definition markRemoved_service (st : Marked) (conf : Config) : Marked :=
  let rName := ResourceName conf in
  if untrustedEnv (opts (manager st)) && API.eqb (Name.api rName) shellAPI then st
  else markRemoved_resource st rName.

(** [markRemoved]. *)
Definition markRemoved (addProcess : AddProcess) (m : resourceManager) (conf : RobotConfig)
  : Marked :=
  let st := mkMarked m (newProcessManager (opts m)) [] [] in
  let st := fold_left (markRemoved_process addProcess) (Processes conf) st in
  let st :=
    fold_left (fun st0 r =>
                 markRemoved_resource st0 (fromRemoteNameToRemoteNodeName (config.Name r)))
              (Remotes conf) st in
  let st :=
    fold_left (fun st0 c => markRemoved_resource st0 (ResourceName c)) (Components conf) st in
  fold_left markRemoved_service (Services conf) st.

End removal.

(** The names of the resources that a configuration asks to remove and that
    [markRemoved] looks at in the environment of [m]. *)
Definition removedNames (m : robotimpl.resourceManager) (conf : robotimpl.RobotConfig)
  : list Name.t :=
  map (fun r => robotimpl.fromRemoteNameToRemoteNodeName (config.Name r))
      (robotimpl.Remotes conf) ++
  map resource.ResourceName (robotimpl.Components conf) ++
  map resource.ResourceName
      (filter (fun s => negb (robotimpl.untrustedEnv (robotimpl.opts m) && isShellService s))
              (robotimpl.Services conf)).

(** A process manager that accepts every process it is handed. *)
Definition acceptProcess : removal.AddProcess :=
  fun pm p =>
    (robotimpl.mkProcessManager (robotimpl.noop pm) (robotimpl.processes pm ++ [p]), None).

(** No node of the graph is due in the next pass. *)
Definition settled (g : Graph.t) : Prop :=
  forall n nd, Graph.Node g n = Some nd -> GraphNode.NeedsReconfigure nd = false.

(* ================================================================== *)
(** ** The graphs that the manager makes *)

(** A graph of the manager's making: its edges are [remoteShaped], and its
    remote-scoped nodes and the nodes of its remotes name no dependency that
    waits to be resolved. *)
Definition wellMade (g : Graph.t) : Prop := remoteShaped g /\ remotesResolved g.

(** A name that is remote-scoped or is the name of a remote. *)
Definition ofRemote (k : Name.t) : Prop :=
  Name.ContainsRemoteNames k = true \/ Name.api k = RemoteAPI.

(** A configuration whose components carry component APIs and whose
    services carry service APIs. *)
Definition typedConfig (c : robotimpl.RobotConfig) : Prop :=
  Forall (fun x => API.IsComponent (resource.ConfAPI x) = true) (robotimpl.Components c) /\
  Forall (fun x => API.IsService (resource.ConfAPI x) = true) (robotimpl.Services c).

(** The managers reached from a new one by applying diffs of typed
    configurations, by complete-config passes and by pulls from the
    remotes. *)
Inductive reachable (w : robotimpl.World) : robotimpl.resourceManager -> Prop :=
| reach_new : forall o, reachable w (robotimpl.newResourceManager o)
| reach_updateResources : forall m d,
    reachable w m ->
    typedConfig (robotimpl.Added d) -> typedConfig (robotimpl.Modified d) ->
    reachable w (fst (robotimpl.updateResources w m d))
| reach_completeConfig : forall m,
    reachable w m -> reachable w (robotimpl.completeConfig w m)
| reach_updateRemotesResourceNames : forall m,
    reachable w m -> reachable w (fst (robotimpl.updateRemotesResourceNames w m)).

(* ================================================================== *)
(** * Properties *)

(** ** Equality tests decide equality *)

Lemma strings_eqb_eq : forall l1 l2, strings_eqb l1 l2 = true <-> l1 = l2.
Proof.
  induction l1 as [|a l1 IH]; destruct l2 as [|b l2]; simpl; split; intro H;
    try reflexivity; try discriminate.
  - apply andb_true_iff in H. destruct H as [Hab Hl].
    apply String.eqb_eq in Hab. apply IH in Hl. congruence.
  - injection H as -> ->. rewrite String.eqb_refl. simpl. now apply IH.
Qed.

Lemma API_eqb_eq : forall a b, API.eqb a b = true <-> a = b.
Proof.
  intros [[na ta] sa] [[nb tb] sb]. unfold API.eqb. simpl.
  rewrite !andb_true_iff, !String.eqb_eq. split.
  - intros [[-> ->] ->]. reflexivity.
  - intros H. injection H as -> -> ->. auto.
Qed.

Lemma API_eqb_refl : forall a, API.eqb a a = true.
Proof. intro a. now apply API_eqb_eq. Qed.

Lemma API_eqb_neq : forall a b, API.eqb a b = false <-> a <> b.
Proof.
  intros a b. split.
  - intros H E. apply API_eqb_eq in E. congruence.
  - intros H. destruct (API.eqb a b) eqn:E; [apply API_eqb_eq in E; contradiction | reflexivity].
Qed.

Lemma Name_eqb_eq : forall a b, Name.eqb a b = true <-> a = b.
Proof.
  intros [aa ra na] [ab rb nb]. unfold Name.eqb. simpl.
  rewrite !andb_true_iff, API_eqb_eq, strings_eqb_eq, String.eqb_eq. split.
  - intros [[-> ->] ->]. reflexivity.
  - intros H. injection H as -> -> ->. auto.
Qed.

Lemma Name_eqb_refl : forall a, Name.eqb a a = true.
Proof. intro a. now apply Name_eqb_eq. Qed.

Lemma Name_eqb_neq : forall a b, Name.eqb a b = false <-> a <> b.
Proof.
  intros a b. split.
  - intros H E. apply Name_eqb_eq in E. congruence.
  - intros H. destruct (Name.eqb a b) eqn:E; [apply Name_eqb_eq in E; contradiction | reflexivity].
Qed.

Lemma Name_eqb_sym : forall a b, Name.eqb a b = Name.eqb b a.
Proof.
  intros a b. destruct (Name.eqb a b) eqn:E.
  - apply Name_eqb_eq in E. subst. now rewrite Name_eqb_refl.
  - symmetry. apply Name_eqb_neq. apply Name_eqb_neq in E. congruence.
Qed.

(* ================================================================== *)
(** ** The lazily decoded image *)

Section LazyImage.
Import rimage.
Variable DecodeImage : Decoder.
Variable b : list byte.
Variable m : string.

Lemma lazy_inv_new : lazy_inv DecodeImage b m (NewLazyEncodedImage b m).
Proof. unfold lazy_inv, NewLazyEncodedImage. simpl. auto. Qed.

Lemma lazy_inv_decode : forall lei,
  lazy_inv DecodeImage b m lei -> lazy_inv DecodeImage b m (fst (decode DecodeImage lei)).
Proof.
  intros lei (Hb & Hm & H). unfold decode. simpl.
  destruct (decodeOnce lei) eqn:Hd.
  - unfold lazy_inv. rewrite Hd. auto.
  - destruct H as (Hc & He & Hi). rewrite Hb, Hm.
    unfold lazy_inv.
    destruct (DecodeImage b m) eqn:HD; simpl; rewrite ?HD, ?Hc, ?Hi; auto.
Qed.

Lemma lazy_inv_call : forall lei c,
  lazy_inv DecodeImage b m lei -> lazy_inv DecodeImage b m (call DecodeImage lei c).
Proof.
  intros lei c H. pose proof (lazy_inv_decode lei H) as Hdec.
  destruct c; simpl; try assumption.
  - unfold ColorModel. destruct (decode DecodeImage lei) as [lei' [v|]] eqn:E;
      simpl in *; [assumption|]. unfold onDecoded. now destruct (decodedImage lei').
  - unfold Bounds. destruct (decodedImage lei) eqn:Ei.
    + unfold onDecoded. now rewrite Ei.
    + destruct (decode DecodeImage lei) as [lei' [v|]] eqn:E; simpl in *; [assumption|].
      unfold onDecoded. now destruct (decodedImage lei').
  - unfold At. destruct (decode DecodeImage lei) as [lei' [v|]] eqn:E;
      simpl in *; [assumption|]. unfold onDecoded. now destruct (decodedImage lei').
Qed.

Lemma lazy_inv_run : forall cs lei,
  lazy_inv DecodeImage b m lei -> lazy_inv DecodeImage b m (run DecodeImage lei cs).
Proof.
  unfold run. induction cs as [|c cs IH]; intros lei H; simpl; [assumption|].
  apply IH. now apply lazy_inv_call.
Qed.

(** Once an error is stored, [decode] leaves the image as it is and panics
    with that error. *)
Lemma decode_after_failure : forall lei v,
  lazy_inv DecodeImage b m lei -> decodeErr lei = Some v ->
  decode DecodeImage lei = (lei, Some v) /\ decodedImage lei = None.
Proof.
  intros lei v (Hb & Hm & H) Hv. unfold decode.
  destruct (decodeOnce lei) eqn:Hd.
  - split; [now rewrite Hv|].
    destruct H as [_ H]. destruct (DecodeImage b m); destruct H as [He Hi]; congruence.
  - destruct H as (_ & He & _). congruence.
Qed.

End LazyImage.

(** C10. For every lazily decoded image made from bytes [b] and MIME type [m],
    after any sequence of calls: [MIMEType] and [RawData] return [m] and [b]
    and leave the image (its decode count included) as it is; the decoder has
    run at most once; and if an error is stored (the decode failed), each of
    [ColorModel], [Bounds] and [At] panics with that same stored error and
    leaves it stored. *)
Theorem LazyEncodedImage_decodes_at_most_once :
  forall (DecodeImage : rimage.Decoder) (b : list byte) (m : string)
         (cs : list rimage.Method),
    let lei := rimage.run DecodeImage (rimage.NewLazyEncodedImage b m) cs in
    rimage.MIMEType lei = (lei, m) /\
    rimage.RawData lei = (lei, b) /\
    rimage.decodeCalls lei <= 1 /\
    (forall v, rimage.decodeErr lei = Some v ->
       rimage.ColorModel DecodeImage lei = (lei, rimage.Panics v) /\
       rimage.Bounds DecodeImage lei = (lei, rimage.Panics v) /\
       forall x y, rimage.At DecodeImage lei x y = (lei, rimage.Panics v)).
Proof.
  intros DecodeImage b m cs lei.
  assert (Hinv : lazy_inv DecodeImage b m lei)
    by (apply lazy_inv_run, lazy_inv_new).
  pose proof Hinv as (Hb & Hm & H).
  repeat split.
  - unfold rimage.MIMEType. now rewrite Hm.
  - unfold rimage.RawData. now rewrite Hb.
  - destruct (rimage.decodeOnce lei); destruct H as [Hc _]; rewrite Hc; auto.
  - destruct (decode_after_failure DecodeImage b m lei v Hinv H0) as [Hd _].
    unfold rimage.ColorModel. now rewrite Hd.
  - destruct (decode_after_failure DecodeImage b m lei v Hinv H0) as [Hd Hi].
    unfold rimage.Bounds. now rewrite Hi, Hd.
  - intros x y. destruct (decode_after_failure DecodeImage b m lei v Hinv H0) as [Hd _].
    unfold rimage.At. now rewrite Hd.
Qed.

Lemma LazyEncodedImage_decodes_at_most_once_witness :
  let lei := rimage.run undecodable.DecodeImage undecodable.image
               [rimage.mBounds; rimage.mMIMEType; rimage.mColorModel] in
  rimage.decodeCalls lei = 1 /\
  rimage.MIMEType lei = (lei, "image/unknown") /\
  rimage.At undecodable.DecodeImage lei 0%Z 0%Z
  = (lei, rimage.Panics (rimage.PanicError undecodable.failure)).
Proof.
  destruct (LazyEncodedImage_decodes_at_most_once undecodable.DecodeImage
              [x00; x01] "image/unknown"
              [rimage.mBounds; rimage.mMIMEType; rimage.mColorModel])
    as (Hmime & _ & _ & Hpanic).
  refine (conj eq_refl (conj Hmime _)).
  destruct (Hpanic (rimage.PanicError undecodable.failure) eq_refl) as (_ & _ & Hat).
  exact (Hat 0%Z 0%Z).
Defined.

(* ================================================================== *)
(** ** The graph: lookups and writes through a node pointer *)

Section GraphFacts.

Lemma Node_in_Names : forall g k nd, Graph.Node g k = Some nd -> In k (Graph.Names g).
Proof.
  intros g k nd. unfold Graph.Node, Graph.Names.
  destruct (find (fun e => Name.eqb (fst e) k) (Graph.nodes g)) as [e|] eqn:F; [|discriminate].
  intros _. apply find_some in F. destruct F as [Hin Heq].
  apply Name_eqb_eq in Heq. subst k. now apply in_map.
Qed.

Lemma Node_of_name : forall g k, In k (Graph.Names g) -> exists nd, Graph.Node g k = Some nd.
Proof.
  intros [ns es] k. unfold Graph.Node, Graph.Names. simpl.
  induction ns as [|[k0 nd0] ns IH]; simpl; intros H; [contradiction|].
  destruct (Name.eqb k0 k) eqn:E.
  - now exists nd0.
  - destruct H as [H|H]; [subst; rewrite Name_eqb_refl in E; discriminate|].
    now apply IH.
Qed.

Lemma Names_setNode : forall g n nd, Graph.Names (Graph.setNode g n nd) = Graph.Names g.
Proof.
  intros [ns es] n nd. unfold Graph.Names, Graph.setNode. simpl.
  rewrite map_map. apply map_ext. intros [k x]. simpl. now destruct (Name.eqb k n).
Qed.

Lemma edges_setNode : forall g n nd, Graph.edges (Graph.setNode g n nd) = Graph.edges g.
Proof. reflexivity. Qed.

Lemma Node_setNode_other : forall g n nd k,
  k <> n -> Graph.Node (Graph.setNode g n nd) k = Graph.Node g k.
Proof.
  intros [ns es] n nd k Hk. unfold Graph.Node, Graph.setNode. simpl.
  induction ns as [|[k0 nd0] ns IH]; simpl; [reflexivity|].
  destruct (Name.eqb k0 n) eqn:E; simpl.
  - apply Name_eqb_eq in E. subst k0.
    assert (Name.eqb n k = false) as -> by (apply Name_eqb_neq; congruence).
    exact IH.
  - destruct (Name.eqb k0 k); [reflexivity | exact IH].
Qed.

Lemma Node_setNode_same : forall g n nd,
  In n (Graph.Names g) -> Graph.Node (Graph.setNode g n nd) n = Some nd.
Proof.
  intros [ns es] n nd. unfold Graph.Node, Graph.setNode, Graph.Names. simpl.
  induction ns as [|[k0 nd0] ns IH]; simpl; intros H; [contradiction|].
  destruct (Name.eqb k0 n) eqn:E; simpl.
  - now rewrite E.
  - rewrite E. destruct H as [H|H]; [subst; rewrite Name_eqb_refl in E; discriminate|].
    now apply IH.
Qed.

End GraphFacts.

(* ================================================================== *)
(** ** Dial policy *)

Section DialPolicy.
Import robotimpl.

Lemma remoteDialOptions_no_credentials : forall c o,
  config.Credentials (config.Auth c) = None ->
  In (rpc.WithEntityCredentials "" rpc.emptyCredentials) (remoteDialOptions c o).
Proof.
  intros c o H. unfold remoteDialOptions. rewrite H.
  repeat match goal with
         | |- context [if ?x then _ else _] => destruct x
         | |- context [match ?x with Some _ => _ | None => _ end] => destruct x
         end;
    repeat rewrite in_app_iff; simpl; tauto.
Qed.

Lemma processRemote_insecure : forall w m c err,
  dialRobotClient w c (remoteDialOptions c (opts m)) = Err err ->
  errors.Is err rpc.ErrInsecureWithCredentials = true ->
  snd (processRemote w m c) =
    Err (errorString
           ("couldn't connect to robot remote (" ++ config.Address c ++ "): " ++
            (if fromCommand (opts m)
             then "must use -allow-insecure-creds flag to connect to a non-TLS secured robot"
             else "must use Config.AllowInsecureCreds to connect to a non-TLS secured robot"))).
Proof.
  intros w m c err Hdial His. unfold processRemote. simpl.
  rewrite Hdial, His. simpl. now destruct (fromCommand (opts m)).
Qed.

End DialPolicy.

(** C6. For a remote whose config has no credentials, the dial options contain
    the explicit empty entity-credentials entry; and when the dial fails with
    the insecure-with-credentials error while [allowInsecureCreds] is unset,
    [processRemote] returns the guidance error, naming [-allow-insecure-creds]
    for a command-line caller and [Config.AllowInsecureCreds] otherwise. *)
Theorem remote_dial_credential_isolation :
  forall (w : robotimpl.World) (m : robotimpl.resourceManager) (c : config.Remote),
    (config.Credentials (config.Auth c) = None ->
     In (rpc.WithEntityCredentials "" rpc.emptyCredentials)
        (robotimpl.remoteDialOptions c (robotimpl.opts m))) /\
    (forall err,
       robotimpl.dialRobotClient w c (robotimpl.remoteDialOptions c (robotimpl.opts m)) = Err err ->
       errors.Is err rpc.ErrInsecureWithCredentials = true ->
       robotimpl.allowInsecureCreds (robotimpl.opts m) = false ->
       snd (robotimpl.processRemote w m c) =
         Err (errorString
                ("couldn't connect to robot remote (" ++ config.Address c ++ "): " ++
                 (if robotimpl.fromCommand (robotimpl.opts m)
                  then "must use -allow-insecure-creds flag to connect to a non-TLS secured robot"
                  else "must use Config.AllowInsecureCreds to connect to a non-TLS secured robot")))).
Proof.
  intros w m c. split.
  - apply remoteDialOptions_no_credentials.
  - intros err Hdial His _. now apply processRemote_insecure with (err := err).
Qed.

Lemma remote_dial_credential_isolation_witness :
  In (rpc.WithEntityCredentials "" rpc.emptyCredentials)
     (robotimpl.remoteDialOptions scenario.insecureRemote scenario.commandOptions) /\
  snd (robotimpl.processRemote scenario.world scenario.graftedManager scenario.insecureRemote) =
    Err (errorString ("couldn't connect to robot remote (10.0.0.7:8080): " ++
                      "must use -allow-insecure-creds flag to connect to a non-TLS secured robot")).
Proof.
  destruct (remote_dial_credential_isolation
              scenario.world scenario.graftedManager scenario.insecureRemote) as [H1 H2].
  split.
  - apply H1. reflexivity.
  - apply (H2 rpc.ErrInsecureWithCredentials); reflexivity.
Defined.

(* ================================================================== *)
(** ** Queries *)

Section Queries.
Import robotimpl.

Lemma ResourceNames_sound : forall m k,
  In k (ResourceNames m) ->
  Name.api k <> RemoteAPI /\
  API.Namespace (API.Type_ (Name.api k)) <> API.APINamespaceRDKInternal /\
  exists gNode, Graph.Node (resources m) k = Some gNode /\ GraphNode.HasResource gNode = true.
Proof.
  intros m k H. unfold ResourceNames in H. apply filter_In in H. destruct H as [_ H].
  destruct (API.eqb (Name.api k) RemoteAPI) eqn:Ea; [discriminate|].
  destruct (API.Namespace (API.Type_ (Name.api k)) =? API.APINamespaceRDKInternal) eqn:En;
    [discriminate|]. simpl in H.
  destruct (Graph.Node (resources m) k) as [gNode|]; [|discriminate].
  repeat split.
  - now apply API_eqb_neq.
  - now apply String.eqb_neq.
  - now exists gNode.
Qed.

Lemma ResourceNames_complete : forall m k gNode,
  Graph.Node (resources m) k = Some gNode ->
  GraphNode.HasResource gNode = true ->
  Name.api k <> RemoteAPI ->
  API.Namespace (API.Type_ (Name.api k)) <> API.APINamespaceRDKInternal ->
  In k (ResourceNames m).
Proof.
  intros m k gNode Hn Hr Ha Hi. unfold ResourceNames. apply filter_In. split.
  - now apply Node_in_Names with (nd := gNode).
  - apply API_eqb_neq in Ha. apply String.eqb_neq in Hi. now rewrite Ha, Hi, Hn.
Qed.

End Queries.

(** C8. [ResourceNames] returns the names of the resources that the manager
    holds, the remote-node entries and the internal namespace apart: every
    returned name has neither the remote API nor the rdk-internal namespace
    and is the name of a node of the graph that holds a resource; and every
    name outside those two classes whose node holds a resource is returned. *)
Theorem ResourceNames_excludes_remote_nodes_and_internal :
  forall (m : robotimpl.resourceManager),
    (forall k, In k (robotimpl.ResourceNames m) ->
       Name.api k <> RemoteAPI /\
       API.Namespace (API.Type_ (Name.api k)) <> API.APINamespaceRDKInternal /\
       exists gNode, Graph.Node (robotimpl.resources m) k = Some gNode /\
                     GraphNode.HasResource gNode = true) /\
    (forall k gNode,
       Graph.Node (robotimpl.resources m) k = Some gNode ->
       GraphNode.HasResource gNode = true ->
       Name.api k <> RemoteAPI ->
       API.Namespace (API.Type_ (Name.api k)) <> API.APINamespaceRDKInternal ->
       In k (robotimpl.ResourceNames m)).
Proof.
  intro m. split.
  - apply ResourceNames_sound.
  - apply ResourceNames_complete.
Qed.

Lemma ResourceNames_excludes_remote_nodes_and_internal_witness :
  In scenario.arm1 (robotimpl.ResourceNames scenario.graftedManager) /\
  (Name.api scenario.arm1 <> RemoteAPI /\
   API.Namespace (API.Type_ (Name.api scenario.arm1)) <> API.APINamespaceRDKInternal /\
   exists gNode,
     Graph.Node (robotimpl.resources scenario.graftedManager) scenario.arm1 = Some gNode /\
     GraphNode.HasResource gNode = true) /\
  ~ In scenario.remoteR1 (robotimpl.ResourceNames scenario.graftedManager) /\
  ~ In scenario.web (robotimpl.ResourceNames scenario.graftedManager) /\
  In scenario.arm1 (Graph.Names (robotimpl.resources rebuild.planned)) /\
  ~ In scenario.arm1 (robotimpl.ResourceNames rebuild.planned).
Proof.
  destruct (ResourceNames_excludes_remote_nodes_and_internal scenario.graftedManager)
    as [Hsound Hcomplete].
  destruct (ResourceNames_excludes_remote_nodes_and_internal rebuild.planned)
    as [Hplanned _].
  assert (Harm : In scenario.arm1 (robotimpl.ResourceNames scenario.graftedManager)).
  { apply (Hcomplete scenario.arm1 (scenario.built 1 robotimpl.builtinModel));
      try reflexivity; discriminate. }
  split; [exact Harm|]. split; [exact (Hsound _ Harm)|]. split; [|split; [|split]].
  - intro H. apply Hsound in H. destruct H as [H _]. now apply H.
  - intro H. apply Hsound in H. destruct H as (_ & H & _). now apply H.
  - vm_compute. tauto.
  - intro H. apply Hplanned in H. destruct H as (_ & _ & gNode & Hn & Hr).
    vm_compute in Hn. injection Hn as <-. discriminate Hr.
Defined.

Section Lookup.
Import robotimpl.

Lemma ResourceByName_direct : forall m n gNode,
  Graph.Node (resources m) n = Some gNode -> ResourceByName m n = answer n gNode.
Proof.
  intros m n gNode H. unfold ResourceByName, answer. rewrite H.
  now destruct (GraphNode.Resource gNode).
Qed.

Lemma ResourceByName_qualified_missing : forall m n,
  Graph.Node (resources m) n = None -> Name.ContainsRemoteNames n = true ->
  ResourceByName m n = Err (notFoundError n).
Proof.
  intros m n H Hr. unfold ResourceByName. now rewrite H, Hr.
Qed.

Lemma ResourceByName_partial : forall m n,
  Graph.Node (resources m) n = None -> Name.ContainsRemoteNames n = false ->
  match Graph.FindNodesByShortNameAndAPI (resources m) n with
  | [] => ResourceByName m n = Err (notFoundError n)
  | [key] => exists gNode, Graph.Node (resources m) key = Some gNode /\
                           ResourceByName m n = answer n gNode
  | _ :: _ :: _ => ResourceByName m n = Err (remoteResourceClashError (Name.name n))
  end.
Proof.
  intros m n H Hr. unfold ResourceByName. rewrite H, Hr. simpl.
  destruct (Graph.FindNodesByShortNameAndAPI (resources m) n) as [|key [|key' keys]] eqn:F;
    simpl; try reflexivity.
  assert (Hin : In key (Graph.Names (resources m))).
  { assert (Hk : In key (Graph.FindNodesByShortNameAndAPI (resources m) n))
      by (rewrite F; now left).
    unfold Graph.FindNodesByShortNameAndAPI in Hk. now apply filter_In in Hk. }
  destruct (Node_of_name _ _ Hin) as [gNode Hg]. exists gNode. split; [assumption|].
  rewrite Hg. unfold answer. now destruct (GraphNode.Resource gNode).
Qed.

End Lookup.

(** C4. [ResourceByName(name)]: when the graph has a node under [name], the
    answer is that node's resource, or [NotAvailable(name, cause)] when the
    node's resource cannot be retrieved. When there is no such node and
    [name] has no remote part, the partial match decides: more than one match
    is a [RemoteResourceClash], exactly one match answers with that node's
    resource (or [NotAvailable]), no match is [NotFound]. When there is no
    such node and [name] is remote-qualified, the answer is [NotFound],
    whatever a partial match would have found. *)
Theorem ResourceByName_resolution :
  forall (m : robotimpl.resourceManager) (n : Name.t),
    (forall gNode, Graph.Node (robotimpl.resources m) n = Some gNode ->
       robotimpl.ResourceByName m n = answer n gNode) /\
    (Graph.Node (robotimpl.resources m) n = None ->
     Name.ContainsRemoteNames n = false ->
     let keys := Graph.FindNodesByShortNameAndAPI (robotimpl.resources m) n in
     (1 < List.length keys ->
      robotimpl.ResourceByName m n = Err (remoteResourceClashError (Name.name n))) /\
     (forall key, keys = [key] ->
        exists gNode, Graph.Node (robotimpl.resources m) key = Some gNode /\
                      robotimpl.ResourceByName m n = answer n gNode) /\
     (keys = [] -> robotimpl.ResourceByName m n = Err (notFoundError n))) /\
    (Graph.Node (robotimpl.resources m) n = None ->
     Name.ContainsRemoteNames n = true ->
     robotimpl.ResourceByName m n = Err (notFoundError n)).
Proof.
  intros m n. split; [|split].
  - intros gNode H. now apply ResourceByName_direct.
  - intros H Hr keys. pose proof (ResourceByName_partial m n H Hr) as P.
    fold keys in P. destruct keys as [|key [|key' rest]]; (split; [|split]).
    + simpl. lia.
    + discriminate.
    + intros _. exact P.
    + simpl. lia.
    + intros key0 E. injection E as <-. exact P.
    + discriminate.
    + intros _. exact P.
    + discriminate.
    + discriminate.
  - now apply ResourceByName_qualified_missing.
Qed.

Lemma ResourceByName_resolution_witness :
  robotimpl.ResourceByName scenario.graftedManager (Name.mk scenario.armAPI [] "a")
    = Err (remoteResourceClashError "a") /\
  robotimpl.ResourceByName scenario.graftedManager scenario.r1arm
    = Ok (resource.Driver 11) /\
  robotimpl.ResourceByName scenario.graftedManager scenario.base1
    = Err (notAvailableError scenario.base1 (errorString "no such device")) /\
  robotimpl.ResourceByName scenario.graftedManager (Name.mk scenario.cameraAPI [] "c")
    = Ok (resource.Driver 12) /\
  robotimpl.ResourceByName scenario.graftedManager (Name.mk scenario.cameraAPI [] "zoom")
    = Err (notFoundError (Name.mk scenario.cameraAPI [] "zoom")) /\
  robotimpl.ResourceByName scenario.graftedManager (Name.mk scenario.cameraAPI ["r2"] "c")
    = Err (notFoundError (Name.mk scenario.cameraAPI ["r2"] "c")).
Proof.
  refine (conj _ (conj _ (conj _ (conj _ (conj _ _))))).
  - destruct (ResourceByName_resolution scenario.graftedManager
                (Name.mk scenario.armAPI [] "a")) as (_ & H & _).
    destruct (H eq_refl eq_refl) as (Hclash & _). apply Hclash. simpl. lia.
  - destruct (ResourceByName_resolution scenario.graftedManager scenario.r1arm) as (H & _).
    exact (H _ eq_refl).
  - destruct (ResourceByName_resolution scenario.graftedManager scenario.base1) as (H & _).
    exact (H _ eq_refl).
  - destruct (ResourceByName_resolution scenario.graftedManager
                (Name.mk scenario.cameraAPI [] "c")) as (_ & H & _).
    destruct (H eq_refl eq_refl) as (_ & Hone & _).
    destruct (Hone scenario.r1camera eq_refl) as (gNode & Hg & Hr).
    rewrite Hr. injection Hg as <-. reflexivity.
  - destruct (ResourceByName_resolution scenario.graftedManager
                (Name.mk scenario.cameraAPI [] "zoom")) as (_ & H & _).
    destruct (H eq_refl eq_refl) as (_ & _ & Hnone). now apply Hnone.
  - destruct (ResourceByName_resolution scenario.graftedManager
                (Name.mk scenario.cameraAPI ["r2"] "c")) as (_ & _ & H).
    now apply H.
Defined.

(* ================================================================== *)
(** ** Diff application under the trust policy *)

Section DiffApplication.
Import resource robotimpl.

Lemma markResourceForUpdate_graph : forall m n conf deps,
  markResourceForUpdate m n conf deps
  = (withResources m (markedGraph (resources m) n conf deps), None).
Proof.
  intros m n conf deps. unfold markResourceForUpdate, markedGraph, Graph.AddNode.
  destruct (Graph.Node (resources m) n); reflexivity.
Qed.

Lemma fold_component : forall l m errs,
  fold_left updateResources_component l (m, errs)
  = (withResources m (applyMarks (map resourceMark l) (resources m)), errs).
Proof.
  induction l as [|c l IH]; intros m errs; simpl.
  - now destruct m.
  - rewrite markResourceForUpdate_graph. unfold multierr_Combine. simpl.
    rewrite app_nil_r, IH. reflexivity.
Qed.

Lemma fold_remote : forall l m errs,
  fold_left updateResources_remote l (m, errs)
  = (withResources m (applyMarks (map remoteMark l) (resources m)), errs).
Proof.
  induction l as [|c l IH]; intros m errs; simpl.
  - now destruct m.
  - rewrite markResourceForUpdate_graph. unfold multierr_Combine. simpl.
    rewrite app_nil_r, IH. reflexivity.
Qed.

Lemma fold_service_untrusted : forall l m errs,
  untrustedEnv (opts m) = true ->
  fold_left updateResources_service l (m, errs)
  = (withResources m (applyMarks (map resourceMark (withoutShell l)) (resources m)),
     errs ++ repeat errShellServiceDisabled (List.length (filter isShellService l))).
Proof.
  induction l as [|s l IH]; intros m errs Hu; simpl.
  - rewrite app_nil_r. now destruct m.
  - rewrite Hu. simpl. change (API.eqb (ConfAPI s) shellAPI) with (isShellService s).
    destruct (isShellService s) eqn:Es; simpl.
    + rewrite IH by assumption. unfold multierr_Combine.
      rewrite <- app_assoc. reflexivity.
    + rewrite markResourceForUpdate_graph. unfold multierr_Combine. simpl.
      rewrite app_nil_r, IH by assumption. reflexivity.
Qed.

Lemma fold_service_trusted : forall l m errs,
  untrustedEnv (opts m) = false ->
  fold_left updateResources_service l (m, errs)
  = (withResources m (applyMarks (map resourceMark l) (resources m)), errs).
Proof.
  induction l as [|s l IH]; intros m errs Hu; simpl.
  - now destruct m.
  - rewrite Hu. simpl. rewrite markResourceForUpdate_graph. unfold multierr_Combine. simpl.
    rewrite app_nil_r, IH by assumption. reflexivity.
Qed.

Lemma addProcesses_untrusted : forall w m errs ps,
  untrustedEnv (opts m) = true ->
  updateResources_addProcesses w m errs ps = (m, errs ++ processesRefused ps).
Proof.
  intros w m errs [|p ps] Hu; simpl.
  - now rewrite app_nil_r.
  - now rewrite Hu.
Qed.

Lemma modifyProcesses_untrusted : forall w m errs ps,
  untrustedEnv (opts m) = true ->
  updateResources_modifyProcesses w m errs ps = (m, errs ++ processesRefused ps).
Proof.
  intros w m errs [|p ps] Hu; simpl.
  - now rewrite app_nil_r.
  - now rewrite Hu.
Qed.

Lemma applyMarks_app : forall ms1 ms2 g,
  applyMarks (ms1 ++ ms2) g = applyMarks ms2 (applyMarks ms1 g).
Proof. intros. unfold applyMarks. apply fold_left_app. Qed.

(** What [updateResources] does in an untrusted environment, in one
    equation: the permitted marks are applied to the graph, nothing else of
    the manager changes, and the refusals are returned. *)
Lemma updateResources_untrusted : forall w m d,
  untrustedEnv (opts m) = true ->
  updateResources w m d
  = (withResources m (applyMarks (marksOf (permittedDiff d)) (resources m)),
     repeat errShellServiceDisabled (List.length (filter isShellService (Services (Added d))))
     ++ repeat errShellServiceDisabled
          (List.length (filter isShellService (Services (Modified d))))
     ++ processesRefused (Processes (Added d))
     ++ processesRefused (Processes (Modified d))).
Proof.
  intros w m d Hu. unfold updateResources.
  rewrite fold_service_untrusted by assumption.
  rewrite fold_component, fold_remote, fold_component.
  rewrite fold_service_untrusted by assumption.
  rewrite fold_remote. simpl fst. simpl snd.
  rewrite addProcesses_untrusted by assumption.
  rewrite modifyProcesses_untrusted by assumption.
  unfold marksOf, permittedDiff, permitted. simpl.
  rewrite !applyMarks_app. simpl. rewrite <- !app_assoc. reflexivity.
Qed.

(** What it does in a trusted environment when no process is asked for. *)
Lemma updateResources_trusted : forall w m d,
  untrustedEnv (opts m) = false ->
  Processes (Added d) = [] -> Processes (Modified d) = [] ->
  updateResources w m d = (withResources m (applyMarks (marksOf d) (resources m)), []).
Proof.
  intros w m d Hu Ha Hm. unfold updateResources.
  rewrite fold_service_trusted by assumption.
  rewrite fold_component, fold_remote, fold_component.
  rewrite fold_service_trusted by assumption.
  rewrite fold_remote. simpl fst. simpl snd. rewrite Ha, Hm. simpl.
  unfold marksOf. rewrite !applyMarks_app. reflexivity.
Qed.

Lemma find_over_app : forall (A : Type) (f : A -> bool) (l1 l2 : list A),
  find f (l1 ++ l2) = match find f l1 with
                      | Some x => Some x
                      | None => find f l2
                      end.
Proof.
  intros A f l1 l2. induction l1 as [|a l1 IH]; simpl; [reflexivity|].
  now destruct (f a).
Qed.

Lemma Node_RemoveChild : forall g c p k,
  Graph.Node (Graph.RemoveChild g c p) k = Graph.Node g k.
Proof. reflexivity. Qed.









Lemma lastMark_asked : forall ms n x,
  lastMark ms n = Some x -> In x ms /\ markName x = n.
Proof.
  intros ms n x H. unfold lastMark in H. apply find_some in H. destruct H as [Hin Hn].
  split; [now apply in_rev | now apply Name_eqb_eq].
Qed.

End DiffApplication.



(* ================================================================== *)
(** ** RPC API discovery: the first descriptor recorded for an API stays *)

Section RPCAPIs.
Import resource robotimpl.

Lemma types_get_set_keeps : forall types a d a' d',
  types_get types a = Some d -> types_get types a' = None ->
  types_get (types_set types a' d') a = Some d.
Proof.
  intros types a d a' d' H Ha'. unfold types_set. rewrite Ha'.
  unfold types_get in *. rewrite find_over_app.
  now destruct (find (fun e => API.eqb (fst e) a) types).
Qed.

Lemma types_get_In : forall types a d,
  types_get types a = Some d -> In (a, d) types.
Proof.
  intros types a d. unfold types_get.
  destruct (find (fun e => API.eqb (fst e) a) types) as [[a0 d0]|] eqn:F; [|discriminate].
  intros E. injection E as <-. apply find_some in F. destruct F as [Hin Heq].
  simpl in Heq. apply API_eqb_eq in Heq. now subst.
Qed.

Lemma merge_step_facts : forall m types rt,
  resources (fst (mergeResourceRPCAPIsWithRemote_step (m, types) rt)) = resources m /\
  (forall e, In e (trace m) ->
     In e (trace (fst (mergeResourceRPCAPIsWithRemote_step (m, types) rt)))) /\
  (forall a d, types_get types a = Some d ->
     types_get (snd (mergeResourceRPCAPIsWithRemote_step (m, types) rt)) a = Some d).
Proof.
  intros m types rt. unfold mergeResourceRPCAPIsWithRemote_step.
  destruct (types_get types (RPCAPI_API rt)) as [svc|] eqn:G.
  - destruct (GetFullyQualifiedName svc =? GetFullyQualifiedName (Desc rt)); simpl;
      repeat split; auto. intros e He. apply in_or_app. now left.
  - simpl. repeat split; auto. intros a d H. now apply types_get_set_keeps.
Qed.

Lemma merge_facts : forall l m types,
  resources (fst (fold_left mergeResourceRPCAPIsWithRemote_step l (m, types))) = resources m /\
  (forall e, In e (trace m) ->
     In e (trace (fst (fold_left mergeResourceRPCAPIsWithRemote_step l (m, types))))) /\
  (forall a d, types_get types a = Some d ->
     types_get (snd (fold_left mergeResourceRPCAPIsWithRemote_step l (m, types))) a = Some d).
Proof.
  induction l as [|rt l IH]; intros m types; cbn [fold_left fst snd]; [auto|].
  destruct (mergeResourceRPCAPIsWithRemote_step (m, types) rt) as [m1 types1] eqn:S.
  pose proof (merge_step_facts m types rt) as (Hr & Ht & Hk). rewrite S in Hr, Ht, Hk.
  simpl in Hr, Ht, Hk. destruct (IH m1 types1) as (Hr' & Ht' & Hk').
  split; [|split].
  - now transitivity (resources m1).
  - auto.
  - auto.
Qed.

(** A remote descriptor that meets a differently named one is reported. *)
Lemma merge_reports_clash : forall l m types rt existing,
  In rt l ->
  types_get types (RPCAPI_API rt) = Some existing ->
  GetFullyQualifiedName existing <> GetFullyQualifiedName (Desc rt) ->
  In (Errorw "remote proto service name clashes with another of the same API"
             [("existing", VString (GetFullyQualifiedName existing));
              ("remote", VString (GetFullyQualifiedName (Desc rt)))])
     (trace (fst (fold_left mergeResourceRPCAPIsWithRemote_step l (m, types)))).
Proof.
  induction l as [|rt0 l IH]; intros m types rt existing Hin Hget Hne; [contradiction|].
  cbn [fold_left]. destruct (mergeResourceRPCAPIsWithRemote_step (m, types) rt0) as [m1 types1] eqn:S.
  destruct Hin as [<-|Hin].
  - destruct (merge_facts l m1 types1) as (_ & Ht & _). apply Ht.
    unfold mergeResourceRPCAPIsWithRemote_step in S. rewrite Hget in S.
    apply String.eqb_neq in Hne. rewrite Hne in S. injection S as <- _.
    simpl. apply in_or_app. right. now left.
  - apply IH; [assumption | | assumption].
    pose proof (merge_step_facts m types rt0) as (_ & _ & Hk). rewrite S in Hk. now apply Hk.
Qed.

Lemma RPCAPIs_step_facts : forall w m types k,
  resources (fst (ResourceRPCAPIs_step w (m, types) k)) = resources m /\
  (forall e, In e (trace m) -> In e (trace (fst (ResourceRPCAPIs_step w (m, types) k)))) /\
  (forall a d, types_get types a = Some d ->
     types_get (snd (ResourceRPCAPIs_step w (m, types) k)) a = Some d).
Proof.
  intros w m types k. unfold ResourceRPCAPIs_step.
  destruct (API.Namespace (API.Type_ (Name.api k)) =? API.APINamespaceRDKInternal); [simpl; auto|].
  destruct (API.eqb (Name.api k) RemoteAPI).
  - destruct (Graph.Node (resources m) k) as [gNode|]; [|simpl; auto].
    destruct (negb (GraphNode.HasResource gNode)); [simpl; auto|].
    destruct (GraphNode.Resource gNode) as [[h|rr]|err]; simpl.
    + repeat split; auto. intros e He. apply in_or_app. now left.
    + apply merge_facts.
    + repeat split; auto. intros e He. apply in_or_app. now left.
  - destruct (Name.ContainsRemoteNames k); [simpl; auto|].
    destruct (types_get types (Name.api k)) eqn:G; [simpl; auto|].
    destruct (RegisteredAPIs w (Name.api k)) as [reg|]; [|simpl; auto].
    destruct (ReflectRPCServiceDesc reg); simpl; auto.
    repeat split; auto. intros a d0 H. now apply types_get_set_keeps.
Qed.

Lemma RPCAPIs_fold_facts : forall w l m types,
  resources (fst (fold_left (ResourceRPCAPIs_step w) l (m, types))) = resources m /\
  (forall e, In e (trace m) ->
     In e (trace (fst (fold_left (ResourceRPCAPIs_step w) l (m, types))))) /\
  (forall a d, types_get types a = Some d ->
     types_get (snd (fold_left (ResourceRPCAPIs_step w) l (m, types))) a = Some d).
Proof.
  induction l as [|k l IH]; intros m types; cbn [fold_left fst snd]; [auto|].
  destruct (ResourceRPCAPIs_step w (m, types) k) as [m1 types1] eqn:S.
  pose proof (RPCAPIs_step_facts w m types k) as (Hr & Ht & Hk). rewrite S in Hr, Ht, Hk.
  simpl in Hr, Ht, Hk. destruct (IH m1 types1) as (Hr' & Ht' & Hk').
  split; [|split].
  - now transitivity (resources m1).
  - auto.
  - auto.
Qed.

Lemma Resource_Ok_HasResource : forall gNode res,
  GraphNode.Resource gNode = Ok res -> GraphNode.HasResource gNode = true.
Proof.
  intros gNode res. unfold GraphNode.Resource, GraphNode.HasResource.
  destruct (GraphNode.lastErr gNode); [discriminate|].
  destruct (GraphNode.current gNode); [|discriminate].
  now destruct (GraphNode.markedForRemoval gNode).
Qed.

End RPCAPIs.

(** C2, as the code has it. In [ResourceRPCAPIs], whenever a connected remote
    contributes a service descriptor for an API for which a descriptor with a
    different fully qualified service name is already recorded when the loop
    reaches that remote, the conflict is logged and the returned list carries
    the descriptor that was recorded first, be it the one of the native
    registry or the one of a remote met earlier. *)
Theorem ResourceRPCAPIs_keeps_first_descriptor :
  forall (w : robotimpl.World) (m : robotimpl.resourceManager)
         (pre post : list Name.t) (k : Name.t) (gNode : GraphNode.t)
         (rr : resource.Robot) (remoteType : resource.RPCAPI)
         (existing : resource.ServiceDescriptor),
    Graph.Names (robotimpl.resources m) = pre ++ k :: post ->
    Name.api k = RemoteAPI ->
    Graph.Node (robotimpl.resources m) k = Some gNode ->
    GraphNode.Resource gNode = Ok (resource.RemoteRobot rr) ->
    In remoteType (resource.ResourceRPCAPIs rr) ->
    robotimpl.types_get
      (snd (fold_left (robotimpl.ResourceRPCAPIs_step w) pre (m, [])))
      (resource.RPCAPI_API remoteType) = Some existing ->
    resource.GetFullyQualifiedName existing
      <> resource.GetFullyQualifiedName (resource.Desc remoteType) ->
    In (robotimpl.Errorw "remote proto service name clashes with another of the same API"
          [("existing", robotimpl.VString (resource.GetFullyQualifiedName existing));
           ("remote", robotimpl.VString
                        (resource.GetFullyQualifiedName (resource.Desc remoteType)))])
       (robotimpl.trace (snd (robotimpl.ResourceRPCAPIs w m))) /\
    In (resource.mkRPCAPI (resource.RPCAPI_API remoteType) existing)
       (fst (robotimpl.ResourceRPCAPIs w m)).
Proof.
  intros w m pre post k gNode rr rt existing Hnames Hapi Hnode Hres Hin Hget Hne.
  unfold robotimpl.ResourceRPCAPIs. rewrite Hnames, fold_left_app. simpl fold_left.
  destruct (fold_left (robotimpl.ResourceRPCAPIs_step w) pre (m, [])) as [m1 types1] eqn:Spre.
  simpl in Hget.
  pose proof (RPCAPIs_fold_facts w pre m []) as (Hr1 & _ & _). rewrite Spre in Hr1.
  simpl in Hr1.
  assert (Sk : robotimpl.ResourceRPCAPIs_step w (m1, types1) k
               = robotimpl.mergeResourceRPCAPIsWithRemote m1 rr types1).
  { unfold robotimpl.ResourceRPCAPIs_step. rewrite Hapi, Hr1, Hnode, Hres.
    rewrite (Resource_Ok_HasResource _ _ Hres). reflexivity. }
  rewrite Sk. unfold robotimpl.mergeResourceRPCAPIsWithRemote.
  pose proof (merge_reports_clash (resource.ResourceRPCAPIs rr) m1 types1 rt existing
                Hin Hget Hne) as Hlog.
  pose proof (merge_facts (resource.ResourceRPCAPIs rr) m1 types1) as (_ & _ & Hkeep).
  specialize (Hkeep _ _ Hget).
  destruct (fold_left robotimpl.mergeResourceRPCAPIsWithRemote_step
              (resource.ResourceRPCAPIs rr) (m1, types1)) as [m2 types2].
  simpl in Hlog, Hkeep.
  pose proof (RPCAPIs_fold_facts w post m2 types2) as (_ & Ht & Hk).
  specialize (Ht _ Hlog). specialize (Hk _ _ Hkeep).
  destruct (fold_left (robotimpl.ResourceRPCAPIs_step w) post (m2, types2)) as [m3 types3].
  simpl in Ht, Hk |- *. split; [exact Ht|].
  apply types_get_In in Hk.
  change (resource.mkRPCAPI (resource.RPCAPI_API rt) existing)
    with ((fun e : API.t * resource.ServiceDescriptor => resource.mkRPCAPI (fst e) (snd e))
            (resource.RPCAPI_API rt, existing)).
  now apply in_map.
Qed.

Lemma ResourceRPCAPIs_keeps_first_descriptor_witness :
  In (robotimpl.Errorw "remote proto service name clashes with another of the same API"
        [("existing", robotimpl.VString "acme.arm.v1.ArmService");
         ("remote", robotimpl.VString "other.arm.v2.ArmService")])
     (robotimpl.trace (snd (robotimpl.ResourceRPCAPIs scenario.world scenario.graftedManager))) /\
  In (resource.mkRPCAPI scenario.armAPI (resource.mkDesc "acme.arm.v1.ArmService"))
     (fst (robotimpl.ResourceRPCAPIs scenario.world scenario.graftedManager)).
Proof.
  apply (ResourceRPCAPIs_keeps_first_descriptor
           scenario.world scenario.graftedManager
           [scenario.remoteR1; scenario.r1arm; scenario.r1camera]
           [scenario.r2arm; scenario.arm1; scenario.base1; scenario.web]
           scenario.remoteR2 (scenario.connected scenario.robot2) scenario.robot2
           (resource.mkRPCAPI scenario.armAPI (resource.mkDesc "other.arm.v2.ArmService"))
           (resource.mkDesc "acme.arm.v1.ArmService")).
  - reflexivity.
  - reflexivity.
  - reflexivity.
  - reflexivity.
  - simpl. now left.
  - reflexivity.
  - simpl. discriminate.
Defined.

(** C2, as stated, fails: with the remotes [r1] and [r2] met before the local
    arm, [r2] contributes an arm descriptor while a differently named one is
    known; the conflict is logged, but the returned list carries the
    descriptor of [r1] and not the one the native registry has for the arm
    API, although a local arm is in the graph. *)
Lemma ResourceRPCAPIs_not_local_definition :
  fst (robotimpl.ResourceRPCAPIs scenario.world scenario.graftedManager)
  = [resource.mkRPCAPI scenario.armAPI (resource.mkDesc "acme.arm.v1.ArmService")] /\
  robotimpl.trace (snd (robotimpl.ResourceRPCAPIs scenario.world scenario.graftedManager))
  = [robotimpl.Errorw "remote proto service name clashes with another of the same API"
       [("existing", robotimpl.VString "acme.arm.v1.ArmService");
        ("remote", robotimpl.VString "other.arm.v2.ArmService")]] /\
  robotimpl.RegisteredAPIs scenario.world scenario.armAPI
  = Some (resource.mkRegistration (Some scenario.armDesc)) /\
  In scenario.arm1 (robotimpl.ResourceNames scenario.graftedManager) /\
  ~ In (resource.mkRPCAPI scenario.armAPI scenario.armDesc)
       (fst (robotimpl.ResourceRPCAPIs scenario.world scenario.graftedManager)).
Proof.
  refine (conj eq_refl (conj eq_refl (conj eq_refl (conj _ _)))).
  - vm_compute. tauto.
  - vm_compute. intros [H|[]]. discriminate H.
Qed.

(* ================================================================== *)
(** ** The pull cycle over the remotes *)

(** C1, on the code: with two connected remotes [r1] and [r2], both with
    resources still to graft, one pull cycle updates [r1], which reports a
    change, and then never invokes [updateRemoteResourceNames] on [r2]: the
    right operand of [||] is not evaluated once the left one is true. The
    cycle returns true, [r1:arm:a] and [r1:camera:c] are in the graph, and
    [r2:arm:a] is not, although the node of [r2] holds a robot. *)
Lemma updateRemotesResourceNames_skips_after_change :
  let '(m', changed) :=
    robotimpl.updateRemotesResourceNames scenario.world pending.manager in
  changed = true /\
  GraphNode.Resource (scenario.connected scenario.robot2)
  = Ok (resource.RemoteRobot scenario.robot2) /\
  Graph.Node (robotimpl.resources pending.manager) scenario.remoteR2
  = Some (scenario.connected scenario.robot2) /\
  robotimpl.trace m' = [robotimpl.Called_updateRemoteResourceNames scenario.remoteR1] /\
  ~ In (robotimpl.Called_updateRemoteResourceNames scenario.remoteR2) (robotimpl.trace m') /\
  Graph.Names (robotimpl.resources m')
  = [scenario.remoteR1; scenario.remoteR2; scenario.r1arm; scenario.r1camera] /\
  Graph.Node (robotimpl.resources m') scenario.r2arm = None.
Proof.
  vm_compute.
  refine (conj eq_refl (conj eq_refl (conj eq_refl (conj eq_refl (conj _ (conj eq_refl eq_refl)))))).
  intros [H|[]]. discriminate H.
Qed.

(* ================================================================== *)
(** ** Subgraphs and topological order *)

Section Traversal.

Lemma least_In : forall l n, Graph.least l = Some n -> In n l.
Proof.
  induction l as [|a l IH]; simpl; intros n H; [discriminate|].
  destruct (Graph.least l) as [m|].
  - destruct (String.leb (Name.String_ a) (Name.String_ m)); injection H as <-.
    + now left.
    + right. now apply IH.
  - injection H as <-. now left.
Qed.

Lemma kahn_In : forall fuel g remaining x,
  In x (Graph.kahn fuel g remaining) <-> In x remaining.
Proof.
  induction fuel as [|fuel IH]; intros g remaining x; simpl; [tauto|].
  destruct (Graph.least (filter (Graph.ready g remaining) remaining)) as [n|] eqn:L; [|tauto].
  apply least_In in L. apply filter_In in L. destruct L as [Hn _].
  simpl. rewrite IH, filter_In. split.
  - intros [<-|[H _]]; assumption.
  - intros H. destruct (Name.eqb x n) eqn:E.
    + left. apply Name_eqb_eq in E. congruence.
    + right. now split.
Qed.

Lemma TopologicalSort_In : forall g x,
  In x (Graph.TopologicalSort g) <-> In x (Graph.Names g).
Proof. intros g x. unfold Graph.TopologicalSort. apply kahn_In. Qed.

Lemma sameShape_refl : forall g, sameShape g g.
Proof. intro g. now split. Qed.

Lemma sameShape_trans : forall g1 g2 g3, sameShape g1 g2 -> sameShape g2 g3 -> sameShape g1 g3.
Proof. intros g1 g2 g3 [H1 H2] [H3 H4]. split; congruence. Qed.

Lemma sameShape_setNode : forall g n nd, sameShape g (Graph.setNode g n nd).
Proof. intros g n nd. split; [symmetry; apply Names_setNode | reflexivity]. Qed.

Lemma hasEdge_shape : forall g1 g2 c p,
  sameShape g1 g2 -> Graph.hasEdge g1 c p = Graph.hasEdge g2 c p.
Proof. intros g1 g2 c p [_ He]. unfold Graph.hasEdge. now rewrite He. Qed.

Lemma grow_shape : forall g1 g2 acc,
  sameShape g1 g2 -> Graph.grow g1 acc = Graph.grow g2 acc.
Proof.
  intros g1 g2 acc H. unfold Graph.grow. destruct H as [Hn He]. rewrite Hn.
  f_equal. apply filter_ext. intro k. f_equal. unfold Graph.hasEdge. now rewrite He.
Qed.

Lemma closure_shape : forall fuel g1 g2 acc,
  sameShape g1 g2 -> Graph.closure fuel g1 acc = Graph.closure fuel g2 acc.
Proof.
  induction fuel as [|fuel IH]; intros g1 g2 acc H; simpl; [reflexivity|].
  rewrite (grow_shape g1 g2 acc H). now apply IH.
Qed.

Lemma dependents_shape : forall g1 g2 root,
  sameShape g1 g2 -> Graph.dependents g1 root = Graph.dependents g2 root.
Proof.
  intros g1 g2 root H. unfold Graph.dependents.
  assert (Hl : List.length (Graph.nodes g1) = List.length (Graph.nodes g2)).
  { destruct H as [Hn _]. unfold Graph.Names in Hn.
    rewrite <- (length_map fst (Graph.nodes g1)), <- (length_map fst (Graph.nodes g2)).
    now rewrite Hn. }
  rewrite Hl. now apply closure_shape.
Qed.

Lemma map_fst_filter : forall (A B : Type) (f : A -> bool) (l : list (A * B)),
  map fst (filter (fun e => f (fst e)) l) = filter f (map fst l).
Proof.
  intros A B f l. induction l as [|[a x] l IH]; simpl; [reflexivity|].
  destruct (f a); simpl; now rewrite IH.
Qed.

Lemma SubGraphFrom_Names : forall g root sg,
  Graph.SubGraphFrom g root = Ok sg ->
  Graph.Names sg = filter (fun k => Graph.mem k (Graph.dependents g root)) (Graph.Names g).
Proof.
  intros g root sg. unfold Graph.SubGraphFrom.
  destruct (Graph.Node g root); [|discriminate].
  intros H. injection H as <-. unfold Graph.Names. simpl.
  apply map_fst_filter with (f := fun k => Graph.mem k (Graph.dependents g root)).
Qed.

Lemma SubGraphFrom_of_name : forall g root,
  In root (Graph.Names g) -> exists sg, Graph.SubGraphFrom g root = Ok sg.
Proof.
  intros g root H. destruct (Node_of_name g root H) as [nd Hnd].
  unfold Graph.SubGraphFrom. rewrite Hnd. eauto.
Qed.

Lemma SubGraphFrom_shape : forall g1 g2 root sg1 sg2,
  sameShape g1 g2 ->
  Graph.SubGraphFrom g1 root = Ok sg1 -> Graph.SubGraphFrom g2 root = Ok sg2 ->
  Graph.Names sg1 = Graph.Names sg2.
Proof.
  intros g1 g2 root sg1 sg2 H H1 H2.
  rewrite (SubGraphFrom_Names _ _ _ H1), (SubGraphFrom_Names _ _ _ H2).
  rewrite (dependents_shape g1 g2 root H). destruct H as [Hn _]. now rewrite Hn.
Qed.

Lemma SubGraphFrom_subset : forall g root sg n,
  Graph.SubGraphFrom g root = Ok sg -> In n (Graph.Names sg) -> In n (Graph.Names g).
Proof.
  intros g root sg n H Hin. rewrite (SubGraphFrom_Names _ _ _ H) in Hin.
  now apply filter_In in Hin.
Qed.

Lemma localDescendant_shape : forall g1 g2 root n,
  sameShape g1 g2 -> localDescendant g2 root n -> localDescendant g1 root n.
Proof.
  intros g1 g2 root n H (sg2 & Hsg & Hin & Hne & Hl).
  assert (Hroot : In root (Graph.Names g1)).
  { destruct H as [Hn _]. rewrite Hn. unfold Graph.SubGraphFrom in Hsg.
    destruct (Graph.Node g2 root) as [nd|] eqn:E; [|discriminate].
    now apply Node_in_Names with (nd := nd). }
  destruct (SubGraphFrom_of_name g1 root Hroot) as [sg1 Hsg1].
  exists sg1. repeat split; try assumption.
  now rewrite (SubGraphFrom_shape g1 g2 root sg1 sg2 H Hsg1 Hsg).
Qed.

Lemma hasEdge_In : forall g c p,
  Graph.hasEdge g c p = true -> In (c, p) (Graph.edges g).
Proof.
  intros g c p H. unfold Graph.hasEdge in H. apply existsb_exists in H.
  destruct H as ([c' p'] & Hin & H). cbn [fst snd] in H.
  apply andb_true_iff in H. destruct H as [Hc Hp].
  apply Name_eqb_eq in Hc. apply Name_eqb_eq in Hp. now subst.
Qed.

Lemma kind_not_remote : forall n,
  API.IsComponent (Name.api n) || API.IsService (Name.api n) = true ->
  Name.api n <> RemoteAPI.
Proof. intros n H E. rewrite E in H. discriminate H. Qed.

(** In a graph of the manager's making, what depends on a node that is not a
    remote node is neither remote-scoped nor a remote node. *)
Lemma closure_local : forall g root,
  remoteShaped g -> Name.api root <> RemoteAPI ->
  forall fuel acc,
    (forall k, In k acc ->
       k = root \/ (Name.ContainsRemoteNames k = false /\ Name.api k <> RemoteAPI)) ->
    forall k, In k (Graph.closure fuel g acc) ->
      k = root \/ (Name.ContainsRemoteNames k = false /\ Name.api k <> RemoteAPI).
Proof.
  intros g root Hg Hroot. induction fuel as [|fuel IH]; intros acc Hacc k Hk; cbn in Hk.
  - now apply Hacc.
  - apply (IH (Graph.grow g acc)); [|exact Hk]. clear k Hk. intros k Hk.
    unfold Graph.grow in Hk. apply in_app_or in Hk. destruct Hk as [Hk|Hk]; [now apply Hacc|].
    apply filter_In in Hk. destruct Hk as [_ Hk]. apply andb_true_iff in Hk.
    destruct Hk as [_ Hk]. apply existsb_exists in Hk. destruct Hk as (p & Hp & He).
    apply hasEdge_In in He. destruct (Hg k p He) as [Hrem Hloc]. right.
    destruct (Name.ContainsRemoteNames k) eqn:Ek; [|split; [reflexivity | now apply Hloc]].
    specialize (Hrem eq_refl). destruct (Hacc p Hp) as [-> | [_ Hpa]]; contradiction.
Qed.

Lemma SubGraphFrom_local : forall g root sg n,
  remoteShaped g ->
  API.IsComponent (Name.api root) || API.IsService (Name.api root) = true ->
  Graph.SubGraphFrom g root = Ok sg -> In n (Graph.Names sg) -> n <> root ->
  localDescendant g root n.
Proof.
  intros g root sg n Hg Hkind Hsg Hin Hne. exists sg. split; [exact Hsg|].
  split; [exact Hin|]. split; [exact Hne|].
  rewrite (SubGraphFrom_Names _ _ _ Hsg) in Hin. apply filter_In in Hin.
  destruct Hin as [_ Hin]. unfold Graph.mem in Hin. apply existsb_exists in Hin.
  destruct Hin as (k & Hk & E). apply Name_eqb_eq in E. subst k.
  unfold Graph.dependents in Hk.
  destruct (closure_local g root Hg (kind_not_remote root Hkind) _ [root]
              ltac:(intros k [<-|[]]; now left) n Hk) as [->|[Hl _]];
    [contradiction | exact Hl].
Qed.

End Traversal.

(* ================================================================== *)
(** ** Marking the descendants of a node for update *)

Section Marking.
Import robotimpl.

(** A write through the pointer of an existing node, seen from any name. *)
Lemma Node_after_write : forall m n nd nd' k,
  Graph.Node (resources m) n = Some nd ->
  Graph.Node (resources (withResources m (Graph.setNode (resources m) n nd'))) k
  = if Name.eqb k n then Some nd' else Graph.Node (resources m) k.
Proof.
  intros m n nd nd' k H. simpl. destruct (Name.eqb k n) eqn:E.
  - apply Name_eqb_eq in E. subst k. apply Node_setNode_same.
    now apply Node_in_Names with (nd := nd).
  - apply Node_setNode_other. now apply Name_eqb_neq.
Qed.

Lemma markStep_shape : forall rName m n,
  sameShape (resources m) (resources (markChildrenForUpdate_step rName m n)).
Proof.
  intros rName m n. unfold markChildrenForUpdate_step.
  destruct (Name.eqb n rName || Name.ContainsRemoteNames n); [apply sameShape_refl|].
  destruct (Graph.Node (resources m) n); [|apply sameShape_refl].
  simpl. apply sameShape_setNode.
Qed.

Lemma markStep_marked_keep : forall rName m n k,
  markedForUpdate m k -> markedForUpdate (markChildrenForUpdate_step rName m n) k.
Proof.
  intros rName m n k (nd & Hk & Hu). unfold markChildrenForUpdate_step.
  destruct (Name.eqb n rName || Name.ContainsRemoteNames n); [now exists nd|].
  destruct (Graph.Node (resources m) n) as [gNode|] eqn:E; [|now exists nd].
  unfold markedForUpdate. cbn [resources record].
  rewrite (Node_after_write m n gNode _ k E).
  destruct (Name.eqb k n); [eexists; split; [reflexivity|reflexivity] | now exists nd].
Qed.

Lemma markStep_closed_keep : forall rName m n k,
  closedNode m k -> closedNode (markChildrenForUpdate_step rName m n) k.
Proof.
  intros rName m n k (nd & Hk & Hc). unfold markChildrenForUpdate_step.
  destruct (Name.eqb n rName || Name.ContainsRemoteNames n); [now exists nd|].
  destruct (Graph.Node (resources m) n) as [gNode|] eqn:E; [|now exists nd].
  unfold closedNode. cbn [resources record].
  rewrite (Node_after_write m n gNode _ k E).
  destruct (Name.eqb k n) eqn:Ek; [|now exists nd].
  apply Name_eqb_eq in Ek. subst k. rewrite E in Hk. injection Hk as ->.
  eexists. split; [reflexivity|]. exact Hc.
Qed.

Lemma markStep_marks : forall rName m n,
  n <> rName -> Name.ContainsRemoteNames n = false -> In n (Graph.Names (resources m)) ->
  markedForUpdate (markChildrenForUpdate_step rName m n) n /\
  trace (markChildrenForUpdate_step rName m n) = trace m ++ [Called_SetNeedsUpdate n].
Proof.
  intros rName m n Hne Hl Hin. unfold markChildrenForUpdate_step.
  apply Name_eqb_neq in Hne. rewrite Hne, Hl. simpl.
  destruct (Node_of_name _ _ Hin) as [gNode E]. rewrite E. split; [|reflexivity].
  unfold markedForUpdate. cbn [resources record].
  rewrite (Node_after_write m n gNode _ n E), Name_eqb_refl.
  eexists. split; reflexivity.
Qed.

Lemma markStep_trace : forall rName m n,
  exists t, trace (markChildrenForUpdate_step rName m n) = trace m ++ t.
Proof.
  intros rName m n. unfold markChildrenForUpdate_step.
  destruct (Name.eqb n rName || Name.ContainsRemoteNames n);
    [exists []; now rewrite app_nil_r|].
  destruct (Graph.Node (resources m) n); [|exists []; now rewrite app_nil_r].
  simpl. eauto.
Qed.

Lemma markFold_facts : forall rName l m,
  sameShape (resources m) (resources (fold_left (markChildrenForUpdate_step rName) l m)) /\
  (forall k, markedForUpdate m k ->
             markedForUpdate (fold_left (markChildrenForUpdate_step rName) l m) k) /\
  (forall k, closedNode m k ->
             closedNode (fold_left (markChildrenForUpdate_step rName) l m) k) /\
  exists t,
    trace (fold_left (markChildrenForUpdate_step rName) l m) = trace m ++ t /\
    forall n, In n l -> n <> rName -> Name.ContainsRemoteNames n = false ->
              In n (Graph.Names (resources m)) ->
              markedForUpdate (fold_left (markChildrenForUpdate_step rName) l m) n /\
              In (Called_SetNeedsUpdate n) t.
Proof.
  intros rName. induction l as [|a l IH]; intros m; cbn [fold_left].
  - split; [apply sameShape_refl|]. split; [auto|]. split; [auto|].
    exists []. rewrite app_nil_r. split; [reflexivity|]. intros n [].
  - destruct (IH (markChildrenForUpdate_step rName m a)) as (Hs & Hm & Hc & t & Ht & Hn).
    pose proof (markStep_shape rName m a) as Hs0.
    split; [eapply sameShape_trans; eassumption|].
    split; [intros k Hk; apply Hm; now apply markStep_marked_keep|].
    split; [intros k Hk; apply Hc; now apply markStep_closed_keep|].
    destruct (markStep_trace rName m a) as [t0 Ht0].
    exists (t0 ++ t). split; [rewrite Ht, Ht0; now rewrite app_assoc|].
    intros n [<-|Hin] Hne Hl HN.
    + destruct (markStep_marks rName m a Hne Hl HN) as [Hmk Htr].
      split; [now apply Hm|].
      rewrite Htr in Ht0. apply app_inv_head in Ht0. subst t0.
      apply in_or_app. left. now left.
    + destruct (Hn n Hin Hne Hl) as [Hmk Hev].
      { destruct Hs0 as [Hnames _]. now rewrite <- Hnames. }
      split; [assumption|]. apply in_or_app. now right.
Qed.

(** [markChildrenForUpdate] on an existing node: it succeeds, keeps the
    shape of the graph, and calls [SetNeedsUpdate] on every local descendant. *)
Lemma markChildrenForUpdate_facts : forall m rName,
  In rName (Graph.Names (resources m)) ->
  exists m' t,
    markChildrenForUpdate m rName = (m', None) /\
    sameShape (resources m) (resources m') /\
    (forall k, markedForUpdate m k -> markedForUpdate m' k) /\
    (forall k, closedNode m k -> closedNode m' k) /\
    trace m' = trace m ++ t /\
    forall n, localDescendant (resources m) rName n ->
              markedForUpdate m' n /\ In (Called_SetNeedsUpdate n) t.
Proof.
  intros m rName Hin. destruct (SubGraphFrom_of_name _ _ Hin) as [sg Hsg].
  unfold markChildrenForUpdate. rewrite Hsg.
  destruct (markFold_facts rName (Graph.TopologicalSort sg) m) as (Hs & Hm & Hc & t & Ht & Hn).
  eexists. exists t. split; [reflexivity|].
  repeat (split; [assumption|]).
  intros n (sg' & Hsg' & Hn' & Hne & Hl). rewrite Hsg in Hsg'. injection Hsg' as <-.
  apply Hn; try assumption.
  - now apply TopologicalSort_In.
  - now apply SubGraphFrom_subset with (root := rName) (sg := sg).
Qed.

(** Remote-scoped nodes are left as they are by the marking. *)
Lemma markStep_remote_frame : forall rName m n k,
  Name.ContainsRemoteNames k = true ->
  Graph.Node (resources (markChildrenForUpdate_step rName m n)) k = Graph.Node (resources m) k.
Proof.
  intros rName m n k Hk. unfold markChildrenForUpdate_step.
  destruct (Name.eqb n rName) eqn:E1; [reflexivity|].
  destruct (Name.ContainsRemoteNames n) eqn:E2; [reflexivity|]. cbn [orb].
  destruct (Graph.Node (resources m) n) as [gNode|] eqn:E; [|reflexivity].
  cbn [resources record]. rewrite (Node_after_write m n gNode _ k E).
  assert (Name.eqb k n = false) as -> by (apply Name_eqb_neq; congruence).
  reflexivity.
Qed.

Lemma markChildrenForUpdate_remote_frame : forall m rName k,
  Name.ContainsRemoteNames k = true ->
  Graph.Node (resources (fst (markChildrenForUpdate m rName))) k = Graph.Node (resources m) k.
Proof.
  intros m rName k Hk. unfold markChildrenForUpdate.
  destruct (Graph.SubGraphFrom (resources m) rName) as [sg|err]; [|reflexivity].
  cbn [fst]. generalize (Graph.TopologicalSort sg) as l. intro l. revert m.
  induction l as [|a l IH]; intro m; cbn [fold_left]; [reflexivity|].
  rewrite IH. now apply markStep_remote_frame.
Qed.

End Marking.

(* ================================================================== *)
(** ** The complete-config pass *)

Section CompleteConfig.
Import resource robotimpl.

Lemma processResource_rebuild_frame : forall w m conf currentRes,
  resources (fst (processResource_rebuild w m conf currentRes)) = resources m /\
  exists t, trace (fst (processResource_rebuild w m conf currentRes)) = trace m ++ t.
Proof.
  intros w m conf currentRes. unfold processResource_rebuild.
  destruct (closeResource w currentRes) as [|e errs]; cbn [resources record];
    destruct (newResource w (resources m) conf); cbn [fst resources record trace];
    (split; [reflexivity|]); rewrite <- ?app_assoc; eauto.
Qed.

Lemma processResource_frame : forall w m conf gNode,
  resources (fst (processResource w m conf gNode)) = resources m /\
  exists t, trace (fst (processResource w m conf gNode)) = trace m ++ t.
Proof.
  intros w m conf gNode. unfold processResource.
  assert (Hid : resources m = resources m /\ exists t, trace m = trace m ++ t)
    by (split; [reflexivity | exists []; now rewrite app_nil_r]).
  destruct (GraphNode.IsUninitialized gNode).
  { now destruct (newResource w (resources m) conf). }
  destruct (GraphNode.UnsafeResource gNode) as [currentRes|]; [|exact Hid].
  destruct (getDependencies w (resources m) (ResourceName conf)) as [deps|]; [|exact Hid].
  destruct (Model_eqb (GraphNode.ResourceModel gNode) (ConfModel conf)).
  - destruct (Provides w conf).
    + now destruct (ReconfigureResource w conf deps).
    + destruct (Resource_Reconfigure w currentRes deps conf) as [err|]; [|exact Hid].
      destruct (IsMustRebuildError err); [apply processResource_rebuild_frame | exact Hid].
  - destruct (processResource_rebuild_frame w
                (record m (Debugw "resource models differ so it must be rebuilt"
                                  [("name", VName (ResourceName conf));
                                   ("old_model", VModel (GraphNode.ResourceModel gNode));
                                   ("new_model", VModel (ConfModel conf))]))
                conf currentRes) as (Hr & t & Ht).
    split; [exact Hr|]. cbn [trace record] in Ht. rewrite <- app_assoc in Ht. eauto.
Qed.

Lemma processResource_rebuild_outcome : forall w m1 m2 conf currentRes,
  resources m1 = resources m2 ->
  snd (processResource_rebuild w m1 conf currentRes)
  = snd (processResource_rebuild w m2 conf currentRes).
Proof.
  intros w m1 m2 conf currentRes H. unfold processResource_rebuild.
  destruct (closeResource w currentRes) as [|e errs]; cbn [resources record]; rewrite H;
    now destruct (newResource w (resources m2) conf).
Qed.

(** The outcome of [processResource] depends on the graph, not on the trace. *)
Lemma processResource_outcome : forall w m1 m2 conf gNode,
  resources m1 = resources m2 ->
  snd (processResource w m1 conf gNode) = snd (processResource w m2 conf gNode).
Proof.
  intros w m1 m2 conf gNode H. unfold processResource. rewrite H.
  destruct (GraphNode.IsUninitialized gNode).
  { now destruct (newResource w (resources m2) conf). }
  destruct (GraphNode.UnsafeResource gNode) as [currentRes|]; [|reflexivity].
  destruct (getDependencies w (resources m2) (ResourceName conf)) as [deps|]; [|reflexivity].
  destruct (Model_eqb (GraphNode.ResourceModel gNode) (ConfModel conf)).
  - destruct (Provides w conf).
    + now destruct (ReconfigureResource w conf deps).
    + destruct (Resource_Reconfigure w currentRes deps conf) as [err|]; [|reflexivity].
      destruct (IsMustRebuildError err); [|reflexivity].
      now apply processResource_rebuild_outcome.
  - now apply processResource_rebuild_outcome.
Qed.

Lemma onNode_other : forall m key f k,
  k <> key -> Graph.Node (resources (onNode m key f)) k = Graph.Node (resources m) k.
Proof.
  intros m key f k Hk. unfold onNode.
  destruct (Graph.Node (resources m) key); [|reflexivity].
  simpl. now apply Node_setNode_other.
Qed.

Lemma onNode_trace : forall m key f, trace (onNode m key f) = trace m.
Proof.
  intros m key f. unfold onNode. now destruct (Graph.Node (resources m) key).
Qed.

End CompleteConfig.

(** C7. During a complete-config pass, whenever [processResource] reports a
    resource as newly built (first build, or rebuild after a model change or
    [MustRebuild]), [SetNeedsUpdate] is called on every descendant of that
    node (every node of its subgraph other than itself) within that
    iteration, hence before the pass continues, and the descendant has its
    needs-update bit set when the iteration ends. The graph is one of the
    manager's making: a remote-scoped node depends on remote nodes only, and
    the node of a remote of this robot depends on nothing. *)
Theorem completeConfig_marks_every_descendant :
  forall (w : robotimpl.World) (m : robotimpl.resourceManager) (resName : Name.t)
         (gNode : GraphNode.t) (newRes : resource.Resource),
    remoteShaped (robotimpl.resources m) ->
    Graph.Node (robotimpl.resources m) resName = Some gNode ->
    GraphNode.NeedsReconfigure gNode = true ->
    API.IsComponent (Name.api resName) || API.IsService (Name.api resName) = true ->
    robotimpl.Config_Validate w (GraphNode.Config gNode)
      (API.TypeName (API.Type_ (Name.api resName))) = None ->
    (if robotimpl.Provides w (GraphNode.Config gNode)
     then robotimpl.ValidateConfig w (GraphNode.Config gNode) else None) = None ->
    snd (robotimpl.processResource w m (GraphNode.Config gNode) gNode)
    = (Some newRes, true, None) ->
    exists sg t,
      Graph.SubGraphFrom (robotimpl.resources m) resName = Ok sg /\
      robotimpl.trace (robotimpl.completeConfig_resource w m resName)
      = robotimpl.trace m ++ t /\
      forall n, In n (Graph.Names sg) -> n <> resName ->
        markedForUpdate (robotimpl.completeConfig_resource w m resName) n /\
        In (robotimpl.Called_SetNeedsUpdate n) t.
Proof.
  intros w m resName gNode newRes Hshape Hnode Hneeds Hkind Hval Hmod Hbuilt.
  destruct (SubGraphFrom_of_name _ _ (Node_in_Names _ _ _ Hnode)) as [sg Hsg].
  unfold robotimpl.completeConfig_resource. rewrite Hnode, Hneeds, Hkind, Hval, Hmod. simpl negb.
  cbv iota.
  set (e0 := robotimpl.Debugw _ _).
  set (m0 := robotimpl.record m e0).
  assert (Hout : snd (robotimpl.processResource w m0 (GraphNode.Config gNode) gNode)
                 = (Some newRes, true, None)).
  { rewrite <- Hbuilt. now apply processResource_outcome. }
  destruct (processResource_frame w m0 (GraphNode.Config gNode) gNode) as (Hres & t1 & Ht1).
  destruct (robotimpl.processResource w m0 (GraphNode.Config gNode) gNode)
    as [m1 [[r nb] e]].
  cbn [fst snd] in Hout, Hres, Ht1. injection Hout as -> -> ->. cbn [orb].
  assert (Hg : robotimpl.resources m1 = robotimpl.resources m) by exact Hres.
  assert (Hin : In resName (Graph.Names (robotimpl.resources m1))).
  { rewrite Hg. now apply Node_in_Names with (nd := gNode). }
  destruct (markChildrenForUpdate_facts m1 resName Hin)
    as (m2 & t2 & Hmark & _ & _ & _ & Ht2 & Hdesc).
  rewrite Hmark. exists sg, (e0 :: t1 ++ t2). split; [exact Hsg|]. split.
  - rewrite onNode_trace, Ht2, Ht1. unfold m0. cbn [robotimpl.trace robotimpl.record].
    rewrite <- !app_assoc. reflexivity.
  - intros n Hn Hne.
    assert (Hd : localDescendant (robotimpl.resources m1) resName n).
    { rewrite Hg. now apply SubGraphFrom_local with (sg := sg). }
    destruct (Hdesc n Hd) as [(nd & Hnd & Hup) Hev]. split.
    + exists nd. split; [|exact Hup]. rewrite onNode_other by exact Hne. exact Hnd.
    + right. apply in_or_app. now right.
Qed.

Lemma completeConfig_marks_every_descendant_witness :
  remoteShaped (robotimpl.resources rebuild.manager) /\
  exists t,
    robotimpl.trace
      (robotimpl.completeConfig_resource scenario.world rebuild.manager scenario.base1)
    = robotimpl.trace rebuild.manager ++ t /\
    markedForUpdate
      (robotimpl.completeConfig_resource scenario.world rebuild.manager scenario.base1)
      scenario.arm1 /\
    In (robotimpl.Called_SetNeedsUpdate scenario.arm1) t.
Proof.
  assert (Hshape : remoteShaped (robotimpl.resources rebuild.manager)).
  { intros child parent H. vm_compute in H.
    destruct H as [H|[H|[H|[]]]]; injection H as <- <-;
      (split; intro E; first [reflexivity | discriminate]). }
  split; [exact Hshape|].
  destruct (completeConfig_marks_every_descendant scenario.world rebuild.manager
              scenario.base1
              (GraphNode.SetNewConfig
                 (GraphNode.SwapResource (GraphNode.NewUnconfiguredGraphNode rebuild.baseConf [])
                                         (resource.Driver 5)
                                         (resource.ConfModel rebuild.baseConf))
                 rebuild.tracked [])
              (resource.Driver 5) Hshape) as (sg & t & Hsg & Ht & Hall);
    try (vm_compute; reflexivity).
  exists t. split; [exact Ht|]. apply Hall; [|discriminate].
  vm_compute in Hsg. injection Hsg as <-. right. left. reflexivity.
Defined.

(* ================================================================== *)
(** ** Remote reconciliation: resources the remote no longer has *)

Section StaleRemoteResources.
Import resource robotimpl.

Lemma keeps_refl : forall m, keeps m m.
Proof.
  intro m. split; [apply sameShape_refl|]. split; [auto|]. split; [auto|].
  exists []. now rewrite app_nil_r.
Qed.

Lemma keeps_trans : forall m1 m2 m3, keeps m1 m2 -> keeps m2 m3 -> keeps m1 m3.
Proof.
  intros m1 m2 m3 (Hs & Hm & Hc & t & Ht) (Hs' & Hm' & Hc' & t' & Ht').
  split; [eapply sameShape_trans; eassumption|]. split; [auto|]. split; [auto|].
  exists (t ++ t'). rewrite Ht', Ht. now rewrite app_assoc.
Qed.

Lemma keeps_record : forall m e, keeps m (record m e).
Proof.
  intros m e. split; [apply sameShape_refl|]. split; [auto|]. split; [auto|].
  now exists [e].
Qed.

Lemma keeps_mark : forall m rName,
  keeps m (fst (markChildrenForUpdate m rName)).
Proof.
  intros m rName. unfold markChildrenForUpdate.
  destruct (Graph.SubGraphFrom (resources m) rName) as [sg|err]; [|apply keeps_refl].
  destruct (markFold_facts rName (Graph.TopologicalSort sg) m) as (Hs & Hm & Hc & t & Ht & _).
  cbn [fst]. split; [assumption|]. split; [assumption|]. split; [assumption|]. eauto.
Qed.

(** Closing the node under [k]: it ends up closed, and nothing else moves. *)
Lemma keeps_close : forall m k gNode,
  Graph.Node (resources m) k = Some gNode ->
  let m' := withResources m (Graph.setNode (resources m) k (fst (GraphNode.Close gNode))) in
  keeps m m' /\ closedNode m' k.
Proof.
  intros m k gNode H m'. split.
  - split; [apply sameShape_setNode|]. split; [|split].
    + intros j (nd & Hj & Hu). unfold markedForUpdate, m'.
      rewrite (Node_after_write m k gNode _ j H).
      destruct (Name.eqb j k) eqn:E; [|now exists nd].
      apply Name_eqb_eq in E. subst j. rewrite H in Hj. injection Hj as ->.
      eexists. split; [reflexivity|]. exact Hu.
    + intros j (nd & Hj & Hc). unfold closedNode, m'.
      rewrite (Node_after_write m k gNode _ j H).
      destruct (Name.eqb j k) eqn:E; [|now exists nd].
      eexists. split; reflexivity.
    + exists []. now rewrite app_nil_r.
  - unfold closedNode, m'. rewrite (Node_after_write m k gNode _ k H), Name_eqb_refl.
    eexists. split; reflexivity.
Qed.

(** Any iteration of the loop over [activeResourceNames]. *)
Lemma old_step_keeps : forall w m changed entry,
  keeps m (fst (updateRemoteResourceNames_old w (m, changed) entry)) /\
  (changed = true -> snd (updateRemoteResourceNames_old w (m, changed) entry) = true).
Proof.
  intros w m changed [k isActive]. unfold updateRemoteResourceNames_old.
  destruct isActive; [split; [apply keeps_refl | auto]|].
  set (m0 := record m _).
  pose proof (keeps_trans _ _ _ (keeps_record m _) (keeps_mark m0 k)) as K. fold m0 in K.
  destruct (markChildrenForUpdate m0 k) as [m1 [err|]]; cbn [fst] in K.
  { cbn [fst snd]. split; [|auto]. eapply keeps_trans; [exact K | apply keeps_record]. }
  destruct (Graph.Node (resources m1) k) as [gNode|] eqn:E.
  - cbn [GraphNode.Close]. destruct (keeps_close m1 k gNode E) as [Kc _].
    cbn [GraphNode.Close fst] in Kc.
    split; [|reflexivity].
    eapply keeps_trans; [exact K|]. eapply keeps_trans; [exact Kc|].
    destruct (GraphNode.current gNode) as [res|]; cbn [fst].
    + destruct (Resource_Close w res);
        [eapply keeps_trans; apply keeps_record | apply keeps_record].
    + apply keeps_record.
  - cbn [fst snd]. split; [|auto]. eapply keeps_trans; [exact K | apply keeps_record].
Qed.

Lemma old_fold_keeps : forall w l m changed,
  keeps m (fst (fold_left (updateRemoteResourceNames_old w) l (m, changed))) /\
  (changed = true ->
   snd (fold_left (updateRemoteResourceNames_old w) l (m, changed)) = true).
Proof.
  intros w. induction l as [|e l IH]; intros m changed; cbn [fold_left].
  - split; [apply keeps_refl | auto].
  - destruct (old_step_keeps w m changed e) as [K Hc].
    destruct (updateRemoteResourceNames_old w (m, changed) e) as [m1 c1].
    cbn [fst snd] in K, Hc. destruct (IH m1 c1) as [K' Hc'].
    split; [eapply keeps_trans; eassumption | auto].
Qed.

(** The iteration that meets a name which is no longer active. *)
Lemma old_step_stale : forall w m changed o,
  In o (Graph.Names (resources m)) ->
  exists m' t1 t2,
    updateRemoteResourceNames_old w (m, changed) (o, false) = (m', true) /\
    keeps m m' /\ closedNode m' o /\
    trace m' = trace m ++ t1 ++ Called_Close o :: t2 /\
    forall n, localDescendant (resources m) o n ->
              markedForUpdate m' n /\ In (Called_SetNeedsUpdate n) t1.
Proof.
  intros w m changed o Hin. unfold updateRemoteResourceNames_old.
  set (e0 := Debugw "removing remote resource" [("name", VName o)]).
  destruct (markChildrenForUpdate_facts (record m e0) o Hin)
    as (m1 & t & Hmark & Hs & Hm & Hc & Ht & Hdesc).
  rewrite Hmark.
  assert (Hin1 : In o (Graph.Names (resources m1))).
  { destruct Hs as [Hn _]. cbn [resources record] in Hn. now rewrite <- Hn. }
  destruct (Node_of_name _ _ Hin1) as [gNode E]. rewrite E.
  destruct (keeps_close m1 o gNode E) as [Kc Hclosed].
  cbn [GraphNode.Close fst] in Kc, Hclosed. cbn [GraphNode.Close].
  set (m2 := withResources m1 _) in *.
  assert (K12 : keeps (record m e0) m2).
  { eapply keeps_trans; [|exact Kc]. split; [assumption|]. split; [assumption|].
    split; [assumption|]. eauto. }
  assert (Hfinal : forall m3 t2,
            keeps (record m2 (Called_Close o)) m3 ->
            trace m3 = trace (record m2 (Called_Close o)) ++ t2 ->
            keeps m m3 /\ closedNode m3 o /\
            trace m3 = trace m ++ (e0 :: t) ++ Called_Close o :: t2 /\
            forall n, localDescendant (resources m) o n ->
                      markedForUpdate m3 n /\ In (Called_SetNeedsUpdate n) (e0 :: t)).
  { intros m3 t2 K3 Ht3.
    assert (K23 : keeps m2 m3) by (eapply keeps_trans; [apply keeps_record | exact K3]).
    split; [eapply keeps_trans; [apply keeps_record|]; eapply keeps_trans; eassumption|].
    split; [destruct K23 as (_ & _ & Hc3 & _); now apply Hc3|].
    split.
    - rewrite Ht3. cbn [trace record]. destruct Kc as (_ & _ & _ & tc & Htc).
      assert (Htm2 : trace m2 = trace m1) by reflexivity.
      rewrite Htm2, Ht. cbn [trace record]. rewrite <- !app_assoc. reflexivity.
    - intros n Hn. destruct (Hdesc n Hn) as [Hmk Hev]. split.
      + destruct K23 as (_ & Hm3 & _). apply Hm3.
        destruct Kc as (_ & Hm2 & _). now apply Hm2.
      + now right. }
  destruct (GraphNode.current gNode) as [res|].
  - destruct (Resource_Close w res) as [err|].
    + eexists. exists (e0 :: t). eexists. split; [reflexivity|].
      apply Hfinal; [apply keeps_record | reflexivity].
    + eexists. exists (e0 :: t). exists []. split; [reflexivity|].
      apply Hfinal; [apply keeps_refl | now rewrite app_nil_r].
  - eexists. exists (e0 :: t). exists []. split; [reflexivity|].
    apply Hfinal; [apply keeps_refl | now rewrite app_nil_r].
Qed.

End StaleRemoteResources.

Section FreshRemoteResources.
Import resource robotimpl.

Lemma AddNode_names : forall g n nd k,
  In k (Graph.Names g) -> In k (Graph.Names (fst (Graph.AddNode g n nd))).
Proof.
  intros g n nd k H. unfold Graph.AddNode. destruct (Graph.Node g n); [exact H|].
  unfold Graph.Names. simpl. rewrite map_app. apply in_or_app. now left.
Qed.

Lemma AddChild_names : forall g c p,
  Graph.Names (fst (Graph.AddChild g c p)) = Graph.Names g.
Proof.
  intros g c p. unfold Graph.AddChild.
  destruct (Name.eqb c p); [reflexivity|].
  destruct (Graph.mem p (Graph.dependents g c)); [reflexivity|].
  now destruct (Graph.hasEdge g c p).
Qed.

Lemma active_set_keeps : forall a k v o,
  In (o, false) a -> (o <> k \/ v = false) -> In (o, false) (active_set a k v).
Proof.
  intros a k v o H Hk. unfold active_set. destruct (active_has a k).
  - apply in_map_iff. exists (o, false). split; [|assumption]. simpl.
    destruct (Name.eqb o k) eqn:E; [|reflexivity].
    destruct Hk as [Hk| ->]; [|reflexivity].
    apply Name_eqb_eq in E. contradiction.
  - apply in_or_app. now left.
Qed.

Lemma active_set_has : forall a k,
  In (k, false) (active_set a k false).
Proof.
  intros a k. unfold active_set. destruct (active_has a k) eqn:E.
  - unfold active_has in E. apply existsb_exists in E. destruct E as ([k0 v0] & Hin & Heq).
    simpl in Heq. apply Name_eqb_eq in Heq. subst k0.
    apply in_map_iff. exists (k, v0). split; [|assumption]. simpl.
    now rewrite Name_eqb_refl.
  - apply in_or_app. right. now left.
Qed.

(** Every old name starts out inactive. *)
Lemma active_init : forall old a o,
  In o old \/ In (o, false) a ->
  In (o, false) (fold_left (fun a0 res => active_set a0 res false) old a).
Proof.
  induction old as [|r old IH]; intros a o H; simpl.
  - destruct H as [[]|H]; exact H.
  - apply IH. destruct H as [[E|H]|H].
    + subst r. right. apply active_set_has.
    + now left.
    + right. apply active_set_keeps; auto.
Qed.

(** One iteration of the loop over [newResources]: nodes are only added,
    only the entry of the name at hand may become active, the trace grows. *)
Lemma new_step_facts : forall remoteName rr m active changed resName,
  let st' := updateRemoteResourceNames_new remoteName rr (m, active, changed) resName in
  (forall k, In k (Graph.Names (resources m)) ->
             In k (Graph.Names (resources (fst (fst st'))))) /\
  (forall o, In (o, false) active ->
             o <> Name.PrependRemote resName (Name.name remoteName) ->
             In (o, false) (snd (fst st'))) /\
  exists t, trace (fst (fst st')) = trace m ++ t.
Proof.
  intros remoteName rr m active changed resName. unfold updateRemoteResourceNames_new.
  assert (Hid : forall t, exists t', trace m ++ t = trace m ++ t') by eauto.
  destruct (resource.ResourceByName rr resName) as [res|err].
  2:{ cbn [fst snd]. repeat split; auto.
      destruct (errors.Is err ErrMissingClientRegistration); simpl; eauto. }
  set (rn := Name.PrependRemote resName (Name.name remoteName)).
  assert (Hact : forall o, In (o, false) active -> o <> rn ->
                 In (o, false) (if active_has active rn then active_set active rn true
                                else active)).
  { intros o Ho Hne. destruct (active_has active rn); [|exact Ho].
    apply active_set_keeps; auto. }
  destruct (active_has active rn &&
            match Graph.Node (resources m) rn with
            | Some nd => negb (GraphNode.IsUninitialized nd)
            | None => false
            end).
  { cbn [fst snd]. repeat split; auto. exists []. now rewrite app_nil_r. }
  set (m1 := match Graph.Node (resources m) rn with
             | Some nd => _
             | None => _
             end).
  assert (H1 : (forall k, In k (Graph.Names (resources m)) ->
                          In k (Graph.Names (resources m1))) /\
               exists t, trace m1 = trace m ++ t).
  { unfold m1. destruct (Graph.Node (resources m) rn) as [nd|].
    - cbn [resources withResources trace]. split.
      + intros k Hk. now rewrite Names_setNode.
      + exists []. now rewrite app_nil_r.
    - pose proof (fun k => AddNode_names (resources m) rn
                    (GraphNode.NewConfiguredGraphNode emptyConfig (Driver res) unknownModel) k)
        as HA.
      destruct (Graph.AddNode (resources m) rn
                  (GraphNode.NewConfiguredGraphNode emptyConfig (Driver res) unknownModel))
        as [g [e|]]; cbn [fst] in HA; cbn [resources withResources record trace];
        (split; [exact HA|]); [eauto | exists []; now rewrite app_nil_r]. }
  destruct H1 as [Hn1 [t1 Ht1]].
  pose proof (AddChild_names (resources m1) rn remoteName) as HC.
  destruct (Graph.AddChild (resources m1) rn remoteName) as [g [e|]]; cbn [fst] in HC;
    cbn [fst snd resources withResources record trace].
  - split; [intros k Hk; rewrite HC; now apply Hn1|]. split; [exact Hact|].
    rewrite Ht1, <- app_assoc. eauto.
  - split; [intros k Hk; rewrite HC; now apply Hn1|]. split; [exact Hact|]. eauto.
Qed.

Lemma new_fold_facts : forall remoteName rr news m active changed,
  let st' := fold_left (updateRemoteResourceNames_new remoteName rr) news
                       (m, active, changed) in
  (forall k, In k (Graph.Names (resources m)) ->
             In k (Graph.Names (resources (fst (fst st'))))) /\
  (forall o, In (o, false) active ->
             ~ In o (map (fun n => Name.PrependRemote n (Name.name remoteName)) news) ->
             In (o, false) (snd (fst st'))) /\
  exists t, trace (fst (fst st')) = trace m ++ t.
Proof.
  intros remoteName rr. induction news as [|r news IH]; intros m active changed;
    cbn [fold_left].
  - cbn [fst snd]. repeat split; auto. exists []. now rewrite app_nil_r.
  - destruct (new_step_facts remoteName rr m active changed r) as (Hn & Ha & t & Ht).
    destruct (updateRemoteResourceNames_new remoteName rr (m, active, changed) r)
      as [[m1 a1] c1]. cbn [fst snd] in Hn, Ha, Ht.
    destruct (IH m1 a1 c1) as (Hn' & Ha' & t' & Ht'). cbv zeta.
    split; [auto|]. split.
    + intros o Ho Hnot. apply Ha'.
      * apply Ha; [assumption|]. intro E. apply Hnot. left. now rewrite E.
      * intro Hin. apply Hnot. now right.
    + exists (t ++ t'). rewrite Ht', Ht. now rewrite app_assoc.
Qed.

End FreshRemoteResources.

(** C3. In [updateRemoteResourceNames], for every name [o] of the old snapshot
    of remote-origin nodes under the remote that is absent from the remote's
    current [ResourceNames] (taken under the remote's prefix): [SetNeedsUpdate]
    is called on every local name of the subgraph of [o] other than [o]
    itself, and those nodes end up marked; after these calls the node of [o]
    is closed, and stays closed; and the function returns true. *)
Theorem updateRemoteResourceNames_removes_stale :
  forall (w : robotimpl.World) (m : robotimpl.resourceManager) (remoteName : Name.t)
         (rr : resource.Robot) (o : Name.t),
    In o (fst (robotimpl.remoteResourceNames m remoteName)) ->
    ~ In o (map (fun n => Name.PrependRemote n (Name.name remoteName))
                (resource.ResourceNames rr)) ->
    let m' := fst (robotimpl.updateRemoteResourceNames w m remoteName rr) in
    snd (robotimpl.updateRemoteResourceNames w m remoteName rr) = true /\
    closedNode m' o /\
    (forall n, localDescendant (robotimpl.resources m') o n -> markedForUpdate m' n) /\
    exists t1 t2,
      robotimpl.trace m' = robotimpl.trace m ++ t1 ++ robotimpl.Called_Close o :: t2 /\
      forall n, localDescendant (robotimpl.resources m') o n ->
                In (robotimpl.Called_SetNeedsUpdate n) t1.
Proof.
  intros w m remoteName rr o Hold Hnew m'. subst m'.
  unfold robotimpl.updateRemoteResourceNames.
  set (e0 := robotimpl.Called_updateRemoteResourceNames remoteName).
  assert (HoN : In o (Graph.Names (robotimpl.resources m))).
  { unfold robotimpl.remoteResourceNames in Hold. cbn [fst] in Hold.
    apply filter_In in Hold. destruct Hold as [Hc _].
    unfold Graph.GetAllChildrenOf in Hc. now apply filter_In in Hc. }
  assert (Hsnap : exists m0 t0,
            robotimpl.remoteResourceNames (robotimpl.record m e0) remoteName
            = (fst (robotimpl.remoteResourceNames m remoteName), m0) /\
            robotimpl.resources m0 = robotimpl.resources m /\
            robotimpl.trace m0 = robotimpl.trace m ++ e0 :: t0).
  { unfold robotimpl.remoteResourceNames. cbn [robotimpl.resources robotimpl.record fst].
    destruct (Graph.Node (robotimpl.resources m) remoteName).
    - eexists. exists []. repeat split.
    - eexists. eexists. split; [reflexivity|]. split; [reflexivity|].
      cbn [robotimpl.trace robotimpl.record]. rewrite <- app_assoc. reflexivity. }
  destruct Hsnap as (m0 & t0 & -> & Hg0 & Ht0).
  set (old := fst (robotimpl.remoteResourceNames m remoteName)) in *.
  set (active0 := fold_left (fun a res => robotimpl.active_set a res false) old []).
  assert (Ha0 : In (o, false) active0) by (apply active_init; now left).
  destruct (new_fold_facts remoteName rr (resource.ResourceNames rr) m0 active0 false)
    as (Hn1 & Ha1 & ta & Hta).
  destruct (fold_left (robotimpl.updateRemoteResourceNames_new remoteName rr)
              (resource.ResourceNames rr) (m0, active0, false)) as [[m1 active1] c1].
  cbn [fst snd] in Hn1, Ha1, Hta.
  specialize (Ha1 o Ha0 Hnew). rewrite Hg0 in Hn1. specialize (Hn1 o HoN).
  destruct (in_split _ _ Ha1) as (l1 & l2 & ->).
  rewrite fold_left_app. cbn [fold_left].
  destruct (old_fold_keeps w l1 m1 c1) as [K12 _].
  destruct (fold_left (robotimpl.updateRemoteResourceNames_old w) l1 (m1, c1)) as [m2 c2].
  cbn [fst] in K12.
  assert (Hn2 : In o (Graph.Names (robotimpl.resources m2))).
  { destruct K12 as ((Hnames & _) & _). now rewrite <- Hnames. }
  destruct (old_step_stale w m2 c2 o Hn2) as (m3 & t1 & t2 & -> & K23 & Hc3 & Ht3 & Hd3).
  destruct (old_fold_keeps w l2 m3 true) as [K34 Htrue].
  destruct (fold_left (robotimpl.updateRemoteResourceNames_old w) l2 (m3, true)) as [m4 c4].
  cbn [fst snd] in K34, Htrue |- *.
  assert (Hshape : sameShape (robotimpl.resources m2) (robotimpl.resources m4)).
  { destruct K23 as (S23 & _). destruct K34 as (S34 & _).
    eapply sameShape_trans; eassumption. }
  split; [now apply Htrue|]. split.
  { destruct K34 as (_ & _ & Hc & _). now apply Hc. }
  split.
  { intros n Hn. destruct K34 as (_ & Hm & _). apply Hm.
    apply Hd3. now apply (localDescendant_shape _ _ _ _ Hshape). }
  destruct K12 as (_ & _ & _ & t12 & Ht12). destruct K34 as (_ & _ & _ & t34 & Ht34).
  exists (e0 :: t0 ++ ta ++ t12 ++ t1). exists (t2 ++ t34). split.
  - rewrite Ht34, Ht3, Ht12, Hta, Ht0. rewrite <- !app_assoc. cbn [app].
    rewrite <- !app_assoc. reflexivity.
  - intros n Hn. right. apply in_or_app. right. apply in_or_app. right.
    apply in_or_app. right.
    apply Hd3. now apply (localDescendant_shape _ _ _ _ Hshape).
Qed.

Lemma updateRemoteResourceNames_removes_stale_witness :
  In scenario.r1arm (fst (robotimpl.remoteResourceNames stale.manager scenario.remoteR1)) /\
  snd (robotimpl.updateRemoteResourceNames scenario.world stale.manager
         scenario.remoteR1 stale.robotNow) = true /\
  closedNode (fst (robotimpl.updateRemoteResourceNames scenario.world stale.manager
                     scenario.remoteR1 stale.robotNow)) scenario.r1arm /\
  markedForUpdate (fst (robotimpl.updateRemoteResourceNames scenario.world stale.manager
                          scenario.remoteR1 stale.robotNow)) stale.gripper1.
Proof.
  assert (Hold : In scenario.r1arm
                    (fst (robotimpl.remoteResourceNames stale.manager scenario.remoteR1)))
    by (vm_compute; tauto).
  assert (Hnew : ~ In scenario.r1arm
                      (map (fun n => Name.PrependRemote n (Name.name scenario.remoteR1))
                           (resource.ResourceNames stale.robotNow)))
    by (vm_compute; intros [H|[]]; discriminate H).
  destruct (updateRemoteResourceNames_removes_stale scenario.world stale.manager
              scenario.remoteR1 stale.robotNow scenario.r1arm Hold Hnew)
    as (Hchanged & Hclosed & Hmarked & _).
  refine (conj Hold (conj Hchanged (conj Hclosed _))).
  apply Hmarked. eexists. split; [vm_compute; reflexivity|].
  split; [vm_compute; tauto|]. split; [discriminate | reflexivity].
Defined.

(* ================================================================== *)
(** ** The AppImage environment scrub *)

Section Environment.

Lemma Split_head : forall k v,
  os.mentions "="%char k = false ->
  exists pieces, strings.Split (k ++ String "="%char v) "="%char = k :: pieces.
Proof.
  induction k as [|c k IH]; intros v H.
  - simpl. eauto.
  - simpl in H. apply orb_false_iff in H. destruct H as [Hc Hk].
    destruct (IH v Hk) as [pieces Hp]. simpl. rewrite Hc, Hp. eauto.
Qed.

Lemma okKey_mentions : forall k, okKey k = true -> os.mentions "="%char k = false.
Proof.
  intros k H. unfold okKey in H. apply negb_true_iff in H.
  apply orb_false_iff in H. tauto.
Qed.

Lemma key_of_kv : forall e,
  okKey (fst e) = true -> hd "" (strings.Split (kv e) "="%char) = fst e.
Proof.
  intros [k v] H. simpl in H. unfold kv. simpl fst. simpl snd.
  destruct (Split_head k v (okKey_mentions k H)) as [pieces Hp].
  change ("=" ++ v)%string with (String "="%char v). now rewrite Hp.
Qed.

(** Lookup in a list of entries. *)
Lemma LookupEnv_In : forall p k,
  In k (map fst (os.env p)) <-> os.LookupEnv p k <> None.
Proof.
  intros [l c d] k. unfold os.LookupEnv. simpl.
  induction l as [|[a x] l IH]; simpl.
  - split; [tauto | congruence].
  - destruct (String.eqb_spec a k) as [->|Hne].
    + split; [discriminate | auto].
    + rewrite <- IH. split; [intros [H|H]; [contradiction | assumption] | auto].
Qed.

Lemma LookupEnv_NoDup : forall p k v,
  NoDup (map fst (os.env p)) -> In (k, v) (os.env p) -> os.LookupEnv p k = Some v.
Proof.
  intros [l c d] k v. unfold os.LookupEnv. simpl.
  induction l as [|[a x] l IH]; simpl; intros Hnd Hin; [contradiction|].
  inversion Hnd as [|? ? Hnotin Hnd']; subst.
  destruct Hin as [E|Hin].
  - injection E as -> ->. now rewrite String.eqb_refl.
  - destruct (String.eqb_spec a k) as [->|Hne]; [|now apply IH].
    exfalso. apply Hnotin. change k with (fst (k, v)). now apply in_map.
Qed.

Lemma LookupEnv_entry : forall p k v,
  os.LookupEnv p k = Some v -> In (k, v) (os.env p).
Proof.
  intros [l c d] k v. unfold os.LookupEnv. simpl.
  destruct (find (fun e => fst e =? k) l) as [[a x]|] eqn:F; [|discriminate].
  intros E. injection E as ->. apply find_some in F. destruct F as [Hin Heq].
  simpl in Heq. apply String.eqb_eq in Heq. now subst.
Qed.

Lemma NoDup_snoc : forall (A : Type) (l : list A) (a : A),
  NoDup l -> ~ In a l -> NoDup (l ++ [a]).
Proof.
  intros A l a. induction l as [|b l IH]; intros Hnd Hnot; simpl.
  - constructor; [tauto | constructor].
  - inversion Hnd as [|? ? Hb Hl]; subst. constructor.
    + intro Hin. apply in_app_or in Hin. destruct Hin as [Hin|[E|[]]]; [tauto|].
      subst. apply Hnot. now left.
    + apply IH; [assumption|]. intro Hin. apply Hnot. now right.
Qed.

Lemma NoDup_map_filter : forall (A B : Type) (f : A -> B) (g : A -> bool) (l : list A),
  NoDup (map f l) -> NoDup (map f (filter g l)).
Proof.
  intros A B f g l. induction l as [|a l IH]; simpl; intros H; [constructor|].
  inversion H as [|? ? Ha Hl]; subst. destruct (g a); simpl; [|now apply IH].
  constructor; [|now apply IH].
  intro Hin. apply Ha. apply in_map_iff in Hin. destruct Hin as (x & Hx & Hin).
  apply filter_In in Hin. rewrite <- Hx. apply in_map. tauto.
Qed.

(** [os.Setenv] on an acceptable key. *)
Lemma Setenv_facts : forall p k v,
  okKey k = true ->
  snd (os.Setenv p k v) = None /\
  os.cwd (fst (os.Setenv p k v)) = os.cwd p /\
  os.isDir (fst (os.Setenv p k v)) = os.isDir p /\
  (forall j, os.LookupEnv (fst (os.Setenv p k v)) j
             = if j =? k then Some v else os.LookupEnv p j) /\
  (NoDup (map fst (os.env p)) -> NoDup (map fst (os.env (fst (os.Setenv p k v))))).
Proof.
  intros p k v Hk. unfold os.Setenv. unfold okKey in Hk. apply negb_true_iff in Hk.
  rewrite Hk. destruct (os.LookupEnv p k) as [old|] eqn:L; cbn [fst snd os.cwd os.isDir os.env].
  - repeat split.
    + intro j. unfold os.LookupEnv in *. cbn [os.env]. destruct p as [l c d]. cbn [os.env] in *.
      clear Hk. revert L. induction l as [|[a x] l IH]; simpl; intro L; [discriminate|].
      destruct (String.eqb_spec a k) as [->|Hak]; simpl.
      * destruct (String.eqb_spec k j) as [->|Hkj].
        -- now rewrite String.eqb_refl.
        -- assert ((j =? k) = false) as Hjk by (apply String.eqb_neq; congruence).
           clear IH L. induction l as [|[a2 x2] l IH2]; simpl; [now rewrite Hjk|].
           destruct (String.eqb_spec a2 k) as [->|Ha2]; simpl.
           ++ assert ((k =? j) = false) as -> by (now apply String.eqb_neq). exact IH2.
           ++ destruct (a2 =? j); [now rewrite Hjk | exact IH2].
      * destruct (String.eqb_spec a j) as [->|Haj].
        -- assert ((j =? k) = false) as -> by (now apply String.eqb_neq). reflexivity.
        -- now apply IH.
    + intro Hnd. rewrite map_map.
      erewrite map_ext; [exact Hnd|]. intros [a x]. simpl. now destruct (a =? k).
  - repeat split.
    + intro j. unfold os.LookupEnv in *. cbn [os.env]. rewrite find_over_app.
      destruct (String.eqb_spec j k) as [->|Hjk].
      * destruct (find (fun e => fst e =? k) (os.env p)); [discriminate|].
        simpl. now rewrite String.eqb_refl.
      * destruct (find (fun e => fst e =? j) (os.env p)); [reflexivity|].
        simpl. assert ((k =? j) = false) as -> by (apply String.eqb_neq; congruence).
        reflexivity.
    + intro Hnd. rewrite map_app. simpl. apply NoDup_snoc; [assumption|].
      intro Hin. apply LookupEnv_In in Hin. contradiction.
Qed.

(** [os.Unsetenv]. *)
Lemma Unsetenv_facts : forall p k,
  snd (os.Unsetenv p k) = None /\
  os.cwd (fst (os.Unsetenv p k)) = os.cwd p /\
  os.isDir (fst (os.Unsetenv p k)) = os.isDir p /\
  (forall j, os.LookupEnv (fst (os.Unsetenv p k)) j
             = if j =? k then None else os.LookupEnv p j) /\
  (NoDup (map fst (os.env p)) -> NoDup (map fst (os.env (fst (os.Unsetenv p k))))).
Proof.
  intros p k. unfold os.Unsetenv. cbn [fst snd os.cwd os.isDir os.env]. repeat split.
  - intro j. unfold os.LookupEnv. cbn [os.env]. destruct p as [l c d]. cbn [os.env].
    induction l as [|[a x] l IH]; simpl; [now destruct (j =? k)|].
    destruct (String.eqb_spec a k) as [->|Hak]; simpl.
    + destruct (String.eqb_spec k j) as [->|Hkj].
      * rewrite String.eqb_refl in IH |- *. exact IH.
      * exact IH.
    + destruct (String.eqb_spec a j) as [->|Haj]; [|exact IH].
      assert ((j =? k) = false) as -> by (now apply String.eqb_neq). reflexivity.
  - apply NoDup_map_filter.
Qed.

Lemma wellFormed_after : forall p p' k,
  wellFormed p -> okKey k = true ->
  (NoDup (map fst (os.env p)) -> NoDup (map fst (os.env p'))) ->
  (forall j, os.LookupEnv p' j <> None -> j = k \/ os.LookupEnv p j <> None) ->
  wellFormed p'.
Proof.
  intros p p' k [Hnd Hok] Hk Hnd' Hl. split; [auto|].
  intros j Hj. apply LookupEnv_In in Hj. destruct (Hl j Hj) as [->|H]; [assumption|].
  apply Hok. now apply LookupEnv_In.
Qed.

Lemma wellFormed_Setenv : forall p k v,
  wellFormed p -> okKey k = true -> wellFormed (fst (os.Setenv p k v)).
Proof.
  intros p k v Hwf Hk. destruct (Setenv_facts p k v Hk) as (_ & _ & _ & Hl & Hnd).
  apply (wellFormed_after p _ k Hwf Hk Hnd). intros j Hj. rewrite Hl in Hj.
  destruct (String.eqb_spec j k); [now left | now right].
Qed.

Lemma wellFormed_Unsetenv : forall p k,
  wellFormed p -> wellFormed (fst (os.Unsetenv p k)).
Proof.
  intros p k [Hnd Hok]. destruct (Unsetenv_facts p k) as (_ & _ & _ & Hl & Hnd').
  split; [auto|]. intros j Hj. apply LookupEnv_In in Hj. rewrite Hl in Hj.
  destruct (j =? k); [congruence|]. apply Hok. now apply LookupEnv_In.
Qed.

End Environment.

Section Scrub.
Import robotimpl.

Lemma resetOne_facts : forall p e,
  okKey (fst e) = true -> wellFormed p ->
  snd (cleanAppImageEnv_resetOne p (kv e)) = None /\
  os.cwd (fst (cleanAppImageEnv_resetOne p (kv e))) = os.cwd p /\
  os.isDir (fst (cleanAppImageEnv_resetOne p (kv e))) = os.isDir p /\
  wellFormed (fst (cleanAppImageEnv_resetOne p (kv e))) /\
  (forall j, j <> fst e ->
     os.LookupEnv (fst (cleanAppImageEnv_resetOne p (kv e))) j = os.LookupEnv p j) /\
  (forall origV,
     os.LookupEnv p ("APPRUN_ORIGINAL_" ++ fst e) = Some origV -> origV <> "" ->
     os.LookupEnv (fst (cleanAppImageEnv_resetOne p (kv e))) (fst e) = Some origV) /\
  (os.LookupEnv p ("APPRUN_ORIGINAL_" ++ fst e) = None ->
   fst (cleanAppImageEnv_resetOne p (kv e)) = p).
Proof.
  intros p e Hk Hwf. unfold cleanAppImageEnv_resetOne. rewrite (key_of_kv e Hk).
  destruct (os.LookupEnv p ("APPRUN_ORIGINAL_" ++ fst e)) as [origV|] eqn:L.
  - destruct (String.eqb_spec origV "") as [->|Hne]; cbn [negb].
    + destruct (Unsetenv_facts p (fst e)) as (He & Hc & Hd & Hl & _).
      split; [exact He|]. split; [exact Hc|]. split; [exact Hd|].
      split; [now apply wellFormed_Unsetenv|]. split; [|split].
      * intros j Hj. rewrite Hl. apply String.eqb_neq in Hj. now rewrite Hj.
      * intros o Ho Hne. injection Ho as <-. contradiction.
      * discriminate.
    + destruct (Setenv_facts p (fst e) origV Hk) as (He & Hc & Hd & Hl & _).
      split; [exact He|]. split; [exact Hc|]. split; [exact Hd|].
      split; [now apply wellFormed_Setenv|]. split; [|split].
      * intros j Hj. rewrite Hl. apply String.eqb_neq in Hj. now rewrite Hj.
      * intros o Ho _. injection Ho as <-. rewrite Hl. now rewrite String.eqb_refl.
      * discriminate.
  - cbn [fst snd]. do 3 (split; [reflexivity|]). split; [exact Hwf|].
    split; [reflexivity|]. split; [intros o Ho; discriminate Ho | reflexivity].
Qed.

(** The first loop: the original path is put back, and nothing fails. *)
Lemma reset_facts : forall ents p,
  (forall e, In e ents -> okKey (fst e) = true) ->
  wellFormed p ->
  ~ In "APPRUN_ORIGINAL_APPRUN_ORIGINAL_PATH" (map fst ents) ->
  os.LookupEnv p "APPRUN_ORIGINAL_PATH" = Some "/usr/bin" ->
  os.LookupEnv p "APPRUN_ORIGINAL_APPRUN_ORIGINAL_PATH" = None ->
  exists p',
    cleanAppImageEnv_reset p (map kv ents) = (p', None) /\
    os.cwd p' = os.cwd p /\ os.isDir p' = os.isDir p /\ wellFormed p' /\
    (In "PATH" (map fst ents) \/ os.LookupEnv p "PATH" = Some "/usr/bin" ->
     os.LookupEnv p' "PATH" = Some "/usr/bin").
Proof.
  induction ents as [|e ents IH]; intros p Hok Hwf Hno Horig Hnone.
  - exists p. simpl. do 3 (split; [reflexivity|]). split; [exact Hwf|].
    intros [[]|H]; exact H.
  - assert (Hk : okKey (fst e) = true) by (apply Hok; now left).
    destruct (resetOne_facts p e Hk Hwf) as (He & Hc & Hd & Hwf1 & Hframe & Hset & Hsame).
    cbn [map cleanAppImageEnv_reset].
    destruct (cleanAppImageEnv_resetOne p (kv e)) as [p1 err1]. cbn [fst snd] in *.
    subst err1.
    assert (Hne2 : fst e <> "APPRUN_ORIGINAL_APPRUN_ORIGINAL_PATH").
    { intro E. apply Hno. simpl. now left. }
    assert (Horig1 : os.LookupEnv p1 "APPRUN_ORIGINAL_PATH" = Some "/usr/bin").
    { destruct (string_dec (fst e) "APPRUN_ORIGINAL_PATH") as [E|E].
      - rewrite Hsame; [assumption|]. rewrite E. exact Hnone.
      - rewrite Hframe; [assumption | congruence]. }
    assert (Hnone1 : os.LookupEnv p1 "APPRUN_ORIGINAL_APPRUN_ORIGINAL_PATH" = None).
    { rewrite Hframe; [assumption | congruence]. }
    destruct (IH p1) as (p' & Hrun & Hc' & Hd' & Hwf' & Hpath); try assumption.
    { intros e' He'. apply Hok. now right. }
    { intro Hin. apply Hno. simpl. now right. }
    exists p'. split; [exact Hrun|]. split; [congruence|]. split; [congruence|].
    split; [exact Hwf'|].
    intros Hp. apply Hpath.
    destruct (string_dec (fst e) "PATH") as [E|E].
    + right. rewrite <- E. apply Hset; [rewrite E; exact Horig | discriminate].
    + destruct Hp as [[Hp|Hp]|Hp]; [contradiction | now left |].
      right. rewrite Hframe; [assumption | congruence].
Qed.

(** The second loop: every variable of the bundle is unset, nothing else. *)
Lemma unset_facts : forall ents p errs,
  (forall e, In e ents -> okKey (fst e) = true) ->
  exists p',
    fold_left cleanAppImageEnv_unset (map kv ents) (p, errs) = (p', errs) /\
    os.cwd p' = os.cwd p /\ os.isDir p' = os.isDir p /\
    (wellFormed p -> wellFormed p') /\
    forall j, os.LookupEnv p' j
              = if existsb (fun e => (fst e =? j) && isAppImageVar (fst e)) ents
                then None else os.LookupEnv p j.
Proof.
  induction ents as [|e ents IH]; intros p errs Hok.
  - exists p. simpl. do 3 (split; [reflexivity|]). split; [tauto | reflexivity].
  - assert (Hk : okKey (fst e) = true) by (apply Hok; now left).
    cbn [map fold_left]. unfold cleanAppImageEnv_unset at 2. rewrite (key_of_kv e Hk).
    destruct (isAppImageVar (fst e)) eqn:Ha.
    + destruct (Unsetenv_facts p (fst e)) as (He & Hc & Hd & Hl & _).
      pose proof (wellFormed_Unsetenv p (fst e)) as Hwf1.
      destruct (os.Unsetenv p (fst e)) as [p1 err1]. cbn [fst snd] in *. subst err1.
      unfold multierr_Combine, of_error. rewrite app_nil_r.
      destruct (IH p1 errs) as (p' & Hrun & Hc' & Hd' & Hwf' & Hl').
      { intros e' He'. apply Hok. now right. }
      exists p'. split; [exact Hrun|]. split; [congruence|]. split; [congruence|].
      split; [auto|]. intro j. rewrite Hl', Hl. cbn [existsb]. rewrite Ha, andb_true_r.
      rewrite (String.eqb_sym (fst e) j).
      destruct (j =? fst e); cbn [orb]; [|reflexivity].
      now destruct (existsb _ ents).
    + destruct (IH p errs) as (p' & Hrun & Hc' & Hd' & Hwf' & Hl').
      { intros e' He'. apply Hok. now right. }
      exists p'. split; [exact Hrun|]. split; [exact Hc'|]. split; [exact Hd'|].
      split; [exact Hwf'|]. intro j. rewrite Hl'. cbn [existsb].
      now rewrite Ha, andb_false_r.
Qed.

Lemma pathOne_facts : forall p e,
  okKey (fst e) = true ->
  snd (cleanAppImageEnv_pathOne p (kv e)) = None /\
  os.cwd (fst (cleanAppImageEnv_pathOne p (kv e))) = os.cwd p /\
  os.isDir (fst (cleanAppImageEnv_pathOne p (kv e))) = os.isDir p /\
  (forall j, j <> fst e ->
     os.LookupEnv (fst (cleanAppImageEnv_pathOne p (kv e))) j = os.LookupEnv p j).
Proof.
  intros p e Hk. unfold cleanAppImageEnv_pathOne. rewrite (key_of_kv e Hk).
  destruct (Nat.leb 2 (List.length (strings.Split (kv e) "="%char)) &&
            strings.Contains (nth 1 (strings.Split (kv e) "="%char) "") mountPrefix).
  - destruct (Nat.ltb 0 _).
    + destruct (Setenv_facts p (fst e)
                  (strings.Join
                     (filter (fun path => negb (strings.HasPrefix path mountPrefix)
                                          && negb (path =? ""))
                             (strings.Split (nth 1 (strings.Split (kv e) "="%char) "")
                                            ":"%char)) ":") Hk)
        as (He & Hc & Hd & Hl & _).
      repeat split; try assumption.
      intros j Hj. rewrite Hl. apply String.eqb_neq in Hj. now rewrite Hj.
    + destruct (Unsetenv_facts p (fst e)) as (He & Hc & Hd & Hl & _).
      repeat split; try assumption.
      intros j Hj. rewrite Hl. apply String.eqb_neq in Hj. now rewrite Hj.
  - cbn [fst snd]. repeat split; auto.
Qed.

(** The third loop: a path that has no mount point in it stays, and so does
    every variable that is not in the environment. *)
Lemma paths_facts : forall ents p,
  (forall e, In e ents -> okKey (fst e) = true) ->
  (forall x, In ("PATH", x) ents -> x = "/usr/bin") ->
  exists p',
    cleanAppImageEnv_paths p (map kv ents) = (p', None) /\
    os.cwd p' = os.cwd p /\ os.isDir p' = os.isDir p /\
    os.LookupEnv p' "PATH" = os.LookupEnv p "PATH" /\
    forall j, ~ In j (map fst ents) -> os.LookupEnv p' j = os.LookupEnv p j.
Proof.
  induction ents as [|e ents IH]; intros p Hok Hpath.
  - exists p. simpl. repeat split; auto.
  - assert (Hk : okKey (fst e) = true) by (apply Hok; now left).
    destruct (pathOne_facts p e Hk) as (He & Hc & Hd & Hframe).
    assert (Hp1 : os.LookupEnv (fst (cleanAppImageEnv_pathOne p (kv e))) "PATH"
                  = os.LookupEnv p "PATH").
    { destruct e as [k x]. destruct (string_dec k "PATH") as [->|E].
      - rewrite (Hpath x) by now left. reflexivity.
      - apply Hframe. simpl. congruence. }
    cbn [map cleanAppImageEnv_paths].
    destruct (cleanAppImageEnv_pathOne p (kv e)) as [p1 err1]. cbn [fst snd] in *.
    subst err1.
    destruct (IH p1) as (p' & Hrun & Hc' & Hd' & Hp' & Hl').
    { intros e' He'. apply Hok. now right. }
    { intros x Hx. apply Hpath. now right. }
    exists p'. split; [exact Hrun|]. split; [congruence|]. split; [congruence|].
    split; [congruence|].
    intros j Hj. rewrite Hl'; [|intro Hin; apply Hj; simpl; now right].
    apply Hframe. intro E. apply Hj. simpl. now left.
Qed.

Lemma existsb_none : forall (A : Type) (f : A -> bool) (l : list A),
  (forall x, f x = false) -> existsb f l = false.
Proof.
  intros A f l H. induction l as [|a l IH]; simpl; [reflexivity|]. now rewrite H, IH.
Qed.

End Scrub.

(** C9, as the code has it. When [APPIMAGE] is unset, [cleanAppImageEnv]
    changes nothing and returns no error. When it is set, with
    [APPRUN_ORIGINAL_PATH] equal to "/usr/bin" and [PATH] equal to
    "/tmp/.mount_x/bin:/usr/bin", in a well-formed environment that has no
    variable [APPRUN_ORIGINAL_APPRUN_ORIGINAL_PATH], and provided that the
    change of directory to the value of [APPRUN_CWD] succeeds: no error is
    returned, [PATH] equals "/usr/bin", every variable whose name starts with
    [APPRUN], [APPDIR], [APPIMAGE] or [AIX_], and [ARGV0] and [ORIGIN], is
    unset, and the working directory is the former value of [APPRUN_CWD].
    When [APPIMAGE] is set and the change of directory fails, that error is
    returned and nothing is changed. *)
Theorem cleanAppImageEnv_scrubs :
  forall (p : os.t),
    (os.LookupEnv p "APPIMAGE" = None -> robotimpl.cleanAppImageEnv p = (p, None)) /\
    (wellFormed p ->
     os.LookupEnv p "APPIMAGE" <> None ->
     os.LookupEnv p "APPRUN_ORIGINAL_PATH" = Some "/usr/bin" ->
     os.LookupEnv p "PATH" = Some "/tmp/.mount_x/bin:/usr/bin" ->
     os.LookupEnv p "APPRUN_ORIGINAL_APPRUN_ORIGINAL_PATH" = None ->
     os.isDir p (os.Getenv p "APPRUN_CWD") = true ->
     let p' := fst (robotimpl.cleanAppImageEnv p) in
     snd (robotimpl.cleanAppImageEnv p) = None /\
     os.LookupEnv p' "PATH" = Some "/usr/bin" /\
     (forall k, robotimpl.isAppImageVar k = true \/ k = "ARGV0" \/ k = "ORIGIN" ->
                os.LookupEnv p' k = None) /\
     os.cwd p' = os.Getenv p "APPRUN_CWD") /\
    (os.LookupEnv p "APPIMAGE" <> None ->
     os.isDir p (os.Getenv p "APPRUN_CWD") = false ->
     exists err, robotimpl.cleanAppImageEnv p = (p, Some err)).
Proof.
  intro p. split.
  { intro H. unfold robotimpl.cleanAppImageEnv. now rewrite H. }
  split.
  2:{ intros Himg Hdir. unfold robotimpl.cleanAppImageEnv.
      destruct (os.LookupEnv p "APPIMAGE"); [|contradiction].
      unfold os.Chdir. rewrite Hdir. eauto. }
  intros Hwf Himg Horig Hpath Hnone Hdir p'. subst p'.
  unfold robotimpl.cleanAppImageEnv.
  destruct (os.LookupEnv p "APPIMAGE") as [img|]; [clear Himg | contradiction].
  unfold os.Chdir. rewrite Hdir.
  set (dir := os.Getenv p "APPRUN_CWD").
  set (pc := os.mk (os.env p) dir (os.isDir p)).
  assert (Hok : forall q, wellFormed q -> forall e, In e (os.env q) -> okKey (fst e) = true).
  { intros q [_ Hq] e He. apply Hq. now apply in_map. }
  (* first loop *)
  destruct (reset_facts (os.env p) pc) as (p1 & Hrun1 & Hc1 & _ & Hwf1 & Hp1).
  { now apply Hok. }
  { exact Hwf. }
  { intro Hin. apply (LookupEnv_In p) in Hin. contradiction. }
  { exact Horig. }
  { exact Hnone. }
  change (os.Environ pc) with (map kv (os.env p)). rewrite Hrun1.
  assert (Hpath1 : os.LookupEnv p1 "PATH" = Some "/usr/bin").
  { apply Hp1. left. apply (LookupEnv_In p). congruence. }
  (* ARGV0 and ORIGIN *)
  pose proof (Unsetenv_facts p1 "ARGV0") as (Hea & Hca & _ & Hla & _).
  pose proof (wellFormed_Unsetenv p1 "ARGV0" Hwf1) as Hwfa.
  destruct (os.Unsetenv p1 "ARGV0") as [pa ea]. cbn [fst snd] in Hea, Hca, Hla, Hwfa.
  pose proof (Unsetenv_facts pa "ORIGIN") as (Heb & Hcb & _ & Hlb & _).
  pose proof (wellFormed_Unsetenv pa "ORIGIN" Hwfa) as Hwfb.
  destruct (os.Unsetenv pa "ORIGIN") as [pb eb]. cbn [fst snd] in Heb, Hcb, Hlb, Hwfb.
  subst ea eb. cbn [of_error multierr_Combine app].
  (* second loop *)
  destruct (unset_facts (os.env pb) pb [] (Hok pb Hwfb)) as (p2 & Hrun2 & Hc2 & _ & Hwf2 & Hl2).
  change (os.Environ pb) with (map kv (os.env pb)). rewrite Hrun2.
  specialize (Hwf2 Hwfb). cbn [robotimpl.multierr_error].
  assert (Hgone : forall k, robotimpl.isAppImageVar k = true \/ k = "ARGV0" \/ k = "ORIGIN" ->
                            os.LookupEnv p2 k = None).
  { intros k Hk. rewrite Hl2.
    destruct (existsb (fun e => (fst e =? k) && robotimpl.isAppImageVar (fst e)) (os.env pb))
      eqn:Ex; [reflexivity|].
    destruct (os.LookupEnv pb k) as [v|] eqn:Lb; [|reflexivity]. exfalso.
    destruct Hk as [Hk|[->| ->]].
    - apply LookupEnv_entry in Lb.
      assert (Ht : existsb (fun e => (fst e =? k) && robotimpl.isAppImageVar (fst e))
                           (os.env pb) = true).
      { apply existsb_exists. exists (k, v). split; [assumption|]. simpl.
        now rewrite String.eqb_refl, Hk. }
      congruence.
    - rewrite Hlb, Hla in Lb. discriminate Lb.
    - rewrite Hlb in Lb. discriminate Lb. }
  assert (Hpath2 : os.LookupEnv p2 "PATH" = Some "/usr/bin").
  { rewrite Hl2, existsb_none.
    - now rewrite Hlb, Hla.
    - intros [k x]. simpl. destruct (String.eqb_spec k "PATH") as [->|]; reflexivity. }
  (* third loop *)
  destruct (paths_facts (os.env p2) p2 (Hok p2 Hwf2)) as (p3 & Hrun3 & Hc3 & _ & Hp3 & Hl3).
  { intros x Hx. destruct Hwf2 as [Hnd _].
    pose proof (LookupEnv_NoDup p2 "PATH" x Hnd Hx) as E. congruence. }
  change (os.Environ p2) with (map kv (os.env p2)). rewrite Hrun3. cbn [fst snd].
  split; [reflexivity|]. split; [congruence|]. split.
  - intros k Hk. rewrite Hl3; [now apply Hgone|].
    intro Hin. apply (LookupEnv_In p2) in Hin. apply Hin. now apply Hgone.
  - rewrite Hc3, Hc2, Hcb, Hca, Hc1. reflexivity.
Qed.

Lemma cleanAppImageEnv_scrubs_witness :
  robotimpl.cleanAppImageEnv
    (os.mk [("PATH", "/usr/bin"); ("HOME", "/home/robot")] "/" appimage.dirs)
  = (os.mk [("PATH", "/usr/bin"); ("HOME", "/home/robot")] "/" appimage.dirs, None) /\
  snd (robotimpl.cleanAppImageEnv appimage.bundled) = None /\
  os.LookupEnv (fst (robotimpl.cleanAppImageEnv appimage.bundled)) "PATH" = Some "/usr/bin" /\
  os.LookupEnv (fst (robotimpl.cleanAppImageEnv appimage.bundled)) "APPRUN_ORIGINAL_PATH"
  = None /\
  os.LookupEnv (fst (robotimpl.cleanAppImageEnv appimage.bundled)) "ARGV0" = None /\
  os.cwd (fst (robotimpl.cleanAppImageEnv appimage.bundled)) = "/home/robot".
Proof.
  destruct (cleanAppImageEnv_scrubs
              (os.mk [("PATH", "/usr/bin"); ("HOME", "/home/robot")] "/" appimage.dirs))
    as (Hoff & _).
  destruct (cleanAppImageEnv_scrubs appimage.bundled) as (_ & Hon & _).
  assert (Hwf : wellFormed appimage.bundled).
  { split.
    - simpl. repeat constructor; simpl; intuition discriminate.
    - intros k Hk. simpl in Hk.
      repeat (destruct Hk as [<-|Hk]; [reflexivity|]). contradiction. }
  destruct (Hon Hwf) as (Herr & Hpath & Hgone & Hcwd);
    try reflexivity; try discriminate.
  refine (conj (Hoff eq_refl) (conj Herr (conj Hpath (conj _ (conj _ Hcwd))))).
  - apply Hgone. left. reflexivity.
  - apply Hgone. right. left. reflexivity.
Defined.

(** C9, as stated, fails: [APPIMAGE] is set, [APPRUN_ORIGINAL_PATH] is
    "/usr/bin" and [PATH] is "/tmp/.mount_x/bin:/usr/bin", but [APPRUN_CWD]
    is not set; the change of directory fails, the error is returned, and
    neither [PATH] nor the variables of the bundle are touched. *)
Lemma cleanAppImageEnv_stops_at_chdir :
  os.LookupEnv appimage.withoutCwd "APPIMAGE" = Some "/opt/viam-server.AppImage" /\
  os.LookupEnv appimage.withoutCwd "APPRUN_ORIGINAL_PATH" = Some "/usr/bin" /\
  os.LookupEnv appimage.withoutCwd "PATH" = Some "/tmp/.mount_x/bin:/usr/bin" /\
  robotimpl.cleanAppImageEnv appimage.withoutCwd
  = (appimage.withoutCwd, Some (errorString "chdir : no such file or directory")) /\
  os.LookupEnv (fst (robotimpl.cleanAppImageEnv appimage.withoutCwd)) "PATH"
  <> Some "/usr/bin" /\
  os.LookupEnv (fst (robotimpl.cleanAppImageEnv appimage.withoutCwd)) "APPIMAGE" <> None.
Proof.
  refine (conj eq_refl (conj eq_refl (conj eq_refl (conj eq_refl (conj _ _)))));
    vm_compute; discriminate.
Qed.

Section FrameSort.
Import framesystemparts.

Lemma has_In : forall keys k, has keys k = true <-> In k keys.
Proof.
  intros keys k. unfold has. rewrite existsb_exists. split.
  - intros (x & Hx & E). apply String.eqb_eq in E. now subst.
  - intros H. exists k. split; [assumption | apply String.eqb_refl].
Qed.

Lemma has_not_In : forall keys k, has keys k = false <-> ~ In k keys.
Proof.
  intros keys k. rewrite <- has_In. destruct (has keys k); split; congruence.
Qed.

Lemma find_map_entries : forall (k j : string) (p : referenceframe.FrameSystemPart)
  (c : list (string * Parts)),
  find (fun e => fst e =? j)
       (map (fun e => if fst e =? k then (fst e, snd e ++ [p]) else e) c)
  = option_map (fun e => if fst e =? k then (fst e, snd e ++ [p]) else e)
               (find (fun e => fst e =? j) c).
Proof.
  intros k j p c. induction c as [|[a l] c IH]; simpl; [reflexivity|].
  destruct (a =? k) eqn:Eak; simpl; destruct (a =? j) eqn:Eaj; simpl;
    try rewrite Eak; auto.
Qed.

Lemma children_has_find : forall c k,
  children_has c k = match find (fun e => fst e =? k) c with Some _ => true | None => false end.
Proof.
  intros c k. unfold children_has. induction c as [|[a l] c IH]; simpl; [reflexivity|].
  destruct (a =? k); simpl; auto.
Qed.

Lemma children_get_append : forall c k p j,
  children_get (children_append c k p) j
  = if j =? k then children_get c k ++ [p] else children_get c j.
Proof.
  intros c k p j. unfold children_append, children_get. rewrite (children_has_find c k).
  destruct (find (fun e => fst e =? k) c) as [[a l]|] eqn:Fk.
  - rewrite find_map_entries.
    destruct (String.eqb_spec j k) as [->|Hjk].
    + rewrite Fk. simpl. apply find_some in Fk. destruct Fk as [_ E]. simpl in E.
      now rewrite E.
    + destruct (find (fun e => fst e =? j) c) as [[b l2]|] eqn:Fj; simpl; [|reflexivity].
      apply find_some in Fj. destruct Fj as [_ E]. simpl in E. apply String.eqb_eq in E.
      subst b. assert ((j =? k) = false) as -> by now apply String.eqb_neq. reflexivity.
  - rewrite find_over_app.
    destruct (String.eqb_spec j k) as [->|Hjk].
    + rewrite Fk. simpl. now rewrite String.eqb_refl.
    + destruct (find (fun e => fst e =? j) c) as [[b l2]|]; [reflexivity|].
      simpl. assert ((k =? j) = false) as -> by (apply String.eqb_neq; congruence).
      reflexivity.
Qed.

Lemma children_has_append : forall c k p j,
  children_has (children_append c k p) j = children_has c j || (j =? k).
Proof.
  intros c k p j. rewrite !children_has_find. unfold children_append.
  rewrite (children_has_find c k).
  destruct (find (fun e => fst e =? k) c) as [[a l]|] eqn:Fk.
  - rewrite find_map_entries.
    destruct (find (fun e => fst e =? j) c) as [[b l2]|] eqn:Fj; simpl; [reflexivity|].
    destruct (String.eqb_spec j k) as [->|Hjk]; [congruence | reflexivity].
  - rewrite find_over_app.
    destruct (find (fun e => fst e =? j) c) as [[b l2]|] eqn:Fj; simpl; [reflexivity|].
    rewrite (String.eqb_sym k j). now destruct (j =? k).
Qed.

Lemma children_append_length : forall c k p, 0 < List.length (children_append c k p).
Proof.
  intros c k p. unfold children_append. destruct (children_has c k) eqn:H.
  - rewrite length_map. destruct c; [discriminate | simpl; lia].
  - rewrite length_app. simpl. lia.
Qed.

(** The map of children, once made, gives for every key the parts with that
    parent, in the order of the slice. *)
Lemma makeChildren_facts : forall existing parts c c',
  makeChildren existing parts c = Ok c' ->
  (forall k, children_get c' k = children_get c k ++ childrenOf parts k) /\
  (forall k, children_has c' k
             = children_has c k || existsb (fun p => referenceframe.Parent p =? k) parts) /\
  (forall p, In p parts -> has existing (referenceframe.Parent p) = true) /\
  (List.length c' = 0 -> parts = []).
Proof.
  intros existing parts. induction parts as [|part rest IH]; intros c c' H; simpl in H.
  - injection H as <-. repeat split.
    + intro k. simpl. now rewrite app_nil_r.
    + intro k. simpl. now rewrite orb_false_r.
    + intros p [].
  - destruct (has existing (referenceframe.Parent part)) eqn:Hex; simpl in H; [|discriminate].
    destruct (IH _ _ H) as (Hget & Hhas & Hall & Hlen). repeat split.
    + intro k. rewrite Hget, children_get_append. unfold childrenOf. simpl.
      rewrite (String.eqb_sym k). 
      destruct (String.eqb_spec (referenceframe.Parent part) k) as [<-|Hne].
      * now rewrite <- app_assoc.
      * reflexivity.
    + intro k. rewrite Hhas, children_has_append. simpl.
      rewrite (String.eqb_sym k). now rewrite orb_assoc.
    + intros p [<-|Hp]; [assumption | now apply Hall].
    + intro L. exfalso. specialize (Hlen L). subst rest. simpl in H. injection H as <-.
      pose proof (children_append_length c (referenceframe.Parent part) part). lia.
Qed.

Lemma makeChildren_missing : forall existing l1 p l2 c,
  (forall q, In q l1 -> has existing (referenceframe.Parent q) = true) ->
  has existing (referenceframe.Parent p) = false ->
  makeChildren existing (l1 ++ p :: l2) c
  = Err (NewMissingParentError (referenceframe.Name p) (referenceframe.Parent p)).
Proof.
  intros existing l1 p l2. induction l1 as [|q l1 IH]; intros c Hall Hp; simpl.
  - now rewrite Hp.
  - rewrite (Hall q) by now left. simpl. apply IH; [|assumption].
    intros q' Hq'. apply Hall. now right.
Qed.

Lemma makeChildren_total : forall existing parts c,
  (forall q, In q parts -> has existing (referenceframe.Parent q) = true) ->
  exists c', makeChildren existing parts c = Ok c'.
Proof.
  intros existing parts. induction parts as [|q parts IH]; intros c Hall; simpl.
  - eauto.
  - rewrite (Hall q) by now left. simpl. apply IH. intros q' Hq'. apply Hall. now right.
Qed.

End FrameSort.

Section FrameLoop.
Import framesystemparts.
Variable sort_Slice : Sorter.
Hypothesis Hsort : sortsByName sort_Slice.
Variable parts : Parts.
Variable children : list (string * Parts).
Hypothesis Hchildren : forall k, children_get children k = childrenOf parts k.

Lemma sorted_children_In : forall k p,
  In p (sort_Slice (childrenOf parts k) byName)
  <-> In p parts /\ referenceframe.Parent p = k.
Proof.
  intros k p. destruct (Hsort (childrenOf parts k)) as [Hperm _]. split.
  - intro H. apply Permutation_sym in Hperm. apply (Permutation_in _ Hperm) in H.
    unfold childrenOf in H. apply filter_In in H. destruct H as [Hin E].
    apply String.eqb_eq in E. tauto.
  - intros [Hin E]. apply (Permutation_in _ Hperm). unfold childrenOf.
    apply filter_In. split; [assumption | now apply String.eqb_eq].
Qed.

Lemma filter_all : forall (A : Type) (f : A -> bool) (l : list A),
  (forall x, In x l -> f x = true) -> filter f l = l.
Proof.
  intros A f l. induction l as [|a l IH]; intro H; simpl; [reflexivity|].
  rewrite (H a) by now left. f_equal. apply IH. intros x Hx. apply H. now right.
Qed.

Lemma filter_none : forall (A : Type) (f : A -> bool) (l : list A),
  (forall x, In x l -> f x = false) -> filter f l = [].
Proof.
  intros A f l. induction l as [|a l IH]; intro H; simpl; [reflexivity|].
  rewrite (H a) by now left. apply IH. intros x Hx. apply H. now right.
Qed.

Lemma parentsFirst_weaken : forall l seen seen',
  (forall x, In x seen -> In x seen') -> parentsFirst seen l -> parentsFirst seen' l.
Proof.
  induction l as [|p l IH]; intros seen seen' Hincl H; simpl in *; [exact I|].
  destruct H as [Hp Hl]. split; [now apply Hincl|].
  apply (IH (referenceframe.Name p :: seen)); [|assumption].
  intros x [<-|Hx]; [now left | right; now apply Hincl].
Qed.

Lemma parentsFirst_all : forall l seen,
  (forall p, In p l -> In (referenceframe.Parent p) seen) -> parentsFirst seen l.
Proof.
  induction l as [|p l IH]; intros seen H; simpl; [exact I|].
  split; [apply H; now left|]. apply IH. intros q Hq. right. apply H. now right.
Qed.

Lemma parentsFirst_app : forall l1 l2 seen,
  parentsFirst seen l1 ->
  parentsFirst (rev (map referenceframe.Name l1) ++ seen) l2 ->
  parentsFirst seen (l1 ++ l2).
Proof.
  induction l1 as [|p l1 IH]; intros l2 seen H1 H2; simpl in *; [assumption|].
  destruct H1 as [Hp Hl]. split; [assumption|]. apply IH; [assumption|].
  now rewrite <- app_assoc in H2.
Qed.

Lemma parentsFirst_split : forall l seen l1 p l2,
  parentsFirst seen l -> l = l1 ++ p :: l2 ->
  In (referenceframe.Parent p) seen \/
  In (referenceframe.Parent p) (map referenceframe.Name l1).
Proof.
  induction l as [|q l IH]; intros seen l1 p l2 H E.
  - destruct l1; discriminate.
  - destruct l1 as [|q' l1]; simpl in E; injection E as -> ->.
    + left. exact (proj1 H).
    + destruct H as [_ Hl]. destruct (IH _ _ _ _ Hl eq_refl) as [[<-|Hs]|Hs].
      * right. now left.
      * now left.
      * right. now right.
Qed.

(** The result so far holds parts of the slice only. *)
Lemma visitInv_parts : forall stack visited topo p,
  visitInv sort_Slice parts stack visited topo -> 
  (In p topo <-> In p parts /\ In (referenceframe.Parent p) visited).
Proof.
  intros stack visited topo p (_ & _ & Hblocks & _).
  specialize (Hblocks (referenceframe.Parent p)). split.
  - intro Hin. 
    assert (Hf : In p (filter (fun q => referenceframe.Parent q =? referenceframe.Parent p) topo)).
    { apply filter_In. split; [assumption | apply String.eqb_refl]. }
    rewrite Hblocks in Hf. destruct (has visited (referenceframe.Parent p)) eqn:Hv; [|destruct Hf].
    apply sorted_children_In in Hf. split; [tauto | now apply has_In].
  - intros [Hin Hv]. apply has_In in Hv. rewrite Hv in Hblocks.
    assert (Hf : In p (filter (fun q => referenceframe.Parent q =? referenceframe.Parent p) topo)).
    { rewrite Hblocks. apply sorted_children_In. tauto. }
    apply filter_In in Hf. tauto.
Qed.

Lemma visitInv_step : forall parent stack visited topo,
  visitInv sort_Slice parts (parent :: stack) visited topo ->
  has visited parent = false ->
  visitInv sort_Slice parts
    (stack ++ map referenceframe.Name (sort_Slice (childrenOf parts parent) byName))
    (parent :: visited)
    (topo ++ sort_Slice (childrenOf parts parent) byName).
Proof.
  intros parent stack visited topo Hinv Hnew.
  pose proof Hinv as (Hseq & Hnd & Hblocks & Hfirst).
  set (sorted := sort_Slice (childrenOf parts parent) byName) in *.
  split; [|split; [|split]].
  - rewrite map_app, app_comm_cons, Hseq. simpl. now rewrite <- !app_assoc.
  - constructor; [now apply has_not_In | assumption].
  - intro k. rewrite filter_app, Hblocks. simpl.
    destruct (String.eqb_spec k parent) as [->|Hne].
    + rewrite Hnew. simpl. apply filter_all. intros x Hx.
      apply sorted_children_In in Hx. apply String.eqb_eq. tauto.
    + simpl. rewrite (filter_none _ _ sorted).
      * now rewrite app_nil_r.
      * intros x Hx. apply sorted_children_In in Hx. apply String.eqb_neq.
        destruct Hx as [_ ->]. congruence.
  - apply parentsFirst_app; [assumption|]. apply parentsFirst_all.
    intros p Hp. apply sorted_children_In in Hp. destruct Hp as [_ ->].
    assert (Hin : In parent (referenceframe.World :: map referenceframe.Name topo)).
    { rewrite Hseq. apply in_or_app. right. now left. }
    apply in_or_app. destruct Hin as [<-|Hin]; [right; now left | left].
    now apply in_rev in Hin.
Qed.

(** When the loop ends without an error, what it kept true holds of its
    result, the stack being empty. *)
Lemma visit_keeps : forall fuel stack visited topo out,
  visitInv sort_Slice parts stack visited topo ->
  visit sort_Slice fuel children stack visited topo = Some (Ok out) ->
  exists visited', visitInv sort_Slice parts [] visited' out.
Proof.
  induction fuel as [|fuel IH]; intros stack visited topo out Hinv H; simpl in H;
    [discriminate|].
  destruct stack as [|parent stack].
  - injection H as <-. eauto.
  - destruct (has visited parent) eqn:Hv; [discriminate|].
    rewrite Hchildren in H. apply (IH _ _ _ _ (visitInv_step _ _ _ _ Hinv Hv) H).
Qed.

Lemma visitInv_visited_bound : forall stack visited topo,
  visitInv sort_Slice parts stack visited topo ->
  List.length visited <= S (List.length parts).
Proof.
  intros stack visited topo Hinv. pose proof Hinv as (Hseq & Hnd & _ & _).
  rewrite <- (length_map referenceframe.Name parts).
  change (S (List.length (map referenceframe.Name parts)))
    with (List.length (referenceframe.World :: map referenceframe.Name parts)).
  apply NoDup_incl_length; [assumption|].
  intros x Hx.
  assert (Hin : In x (referenceframe.World :: map referenceframe.Name topo)).
  { rewrite Hseq. apply in_or_app. left. now apply -> in_rev. }
  destruct Hin as [<-|Hin]; [now left | right].
  apply in_map_iff in Hin. destruct Hin as (p & <- & Hp).
  apply in_map. apply (visitInv_parts _ _ _ _ Hinv) in Hp. tauto.
Qed.

(** The loop ends: every turn that does not return visits a frame that was
    not visited before, and there are no more frames than parts, and the
    world frame. *)
Lemma visit_ends : forall fuel stack visited topo,
  visitInv sort_Slice parts stack visited topo ->
  List.length parts + 2 <= fuel + List.length visited ->
  exists r, visit sort_Slice fuel children stack visited topo = Some r.
Proof.
  induction fuel as [|fuel IH]; intros stack visited topo Hinv Hfuel.
  - pose proof (visitInv_visited_bound _ _ _ Hinv). simpl in Hfuel. lia.
  - simpl. destruct stack as [|parent stack]; [eauto|].
    destruct (has visited parent) eqn:Hv; [eauto|].
    rewrite Hchildren. apply IH; [now apply visitInv_step|]. simpl. lia.
Qed.

End FrameLoop.

Section FrameResult.
Import framesystemparts.
Variable sort_Slice : Sorter.
Hypothesis Hsort : sortsByName sort_Slice.
Variable parts : Parts.

Lemma NoDup_map_injective : forall (A B : Type) (f : A -> B) (l : list A) (x y : A),
  NoDup (map f l) -> In x l -> In y l -> f x = f y -> x = y.
Proof.
  intros A B f l x y. induction l as [|a l IH]; intros Hnd Hx Hy E; [destruct Hx|].
  simpl in Hnd. inversion Hnd as [|? ? Ha Hl]; subst.
  destruct Hx as [->|Hx], Hy as [->|Hy].
  - reflexivity.
  - exfalso. apply Ha. rewrite E. now apply in_map.
  - exfalso. apply Ha. rewrite <- E. now apply in_map.
  - now apply IH.
Qed.

(** With distinct names, none of them the world frame's, no frame is met
    twice: the loop never reports a cycle. *)
Lemma visit_no_cycle : forall children,
  (forall k, children_get children k = childrenOf parts k) ->
  NoDup (map referenceframe.Name parts) ->
  ~ In referenceframe.World (map referenceframe.Name parts) ->
  forall fuel stack visited topo r,
    visitInv sort_Slice parts stack visited topo ->
    NoDup (referenceframe.World :: map referenceframe.Name topo) ->
    visit sort_Slice fuel children stack visited topo = Some r ->
    exists out, r = Ok out.
Proof.
  intros children Hchildren Hnames Hworld.
  induction fuel as [|fuel IH]; intros stack visited topo r Hinv Hnd H; simpl in H;
    [discriminate|].
  destruct stack as [|parent stack]; [injection H as <-; eauto|].
  pose proof Hinv as (Hseq & _ & _ & _).
  assert (Hv : has visited parent = false).
  { apply has_not_In. intro Hin. rewrite Hseq in Hnd.
    apply NoDup_remove_2 in Hnd. apply Hnd. apply in_or_app. left. now apply -> in_rev. }
  rewrite Hv, Hchildren in H.
  apply (IH _ _ _ _ (visitInv_step sort_Slice Hsort parts _ _ _ _ Hinv Hv)); [|exact H].
  set (sorted := sort_Slice (childrenOf parts parent) byName).
  assert (Hs : forall q, In q sorted <-> In q parts /\ referenceframe.Parent q = parent)
    by (intro q; apply (sorted_children_In sort_Slice Hsort)).
  inversion Hnd as [|? ? Hw Hn]; subst. rewrite map_app. constructor.
  - intro Hin. apply in_app_or in Hin. destruct Hin as [Hin|Hin]; [contradiction|].
    apply Hworld. apply in_map_iff in Hin. destruct Hin as (q & <- & Hq).
    apply in_map. now apply Hs.
  - apply NoDup_app; [assumption| |].
    + destruct (Hsort (childrenOf parts parent)) as [Hperm _].
      apply (Permutation_NoDup (Permutation_map referenceframe.Name Hperm)).
      unfold childrenOf. now apply NoDup_map_filter.
    + intros a Ha Hb. apply in_map_iff in Ha. destruct Ha as (p & <- & Hp).
      apply in_map_iff in Hb. destruct Hb as (q & E & Hq).
      apply (visitInv_parts sort_Slice Hsort parts _ _ _ _ Hinv) in Hp.
      apply Hs in Hq. destruct Hp as [Hp Hpv], Hq as [Hq Hqp].
      assert (q = p) by (apply (NoDup_map_injective _ _ referenceframe.Name parts); assumption).
      subst q. rewrite Hqp in Hpv. apply has_not_In in Hv. contradiction.
Qed.

Lemma sort_nil : sort_Slice [] byName = [].
Proof.
  destruct (Hsort []) as [Hperm _]. now apply Permutation_nil in Hperm.
Qed.

(** What holds of the result of [TopologicallySort] when there is one. *)
Lemma TopologicallySort_kept : forall out,
  TopologicallySort sort_Slice parts = Some (Ok out) ->
  exists visited, visitInv sort_Slice parts [] visited out.
Proof.
  intros out H. unfold TopologicallySort in H.
  destruct (makeChildren (existingParts parts) parts []) as [children|err] eqn:M;
    [|discriminate].
  destruct (makeChildren_facts _ _ _ _ M) as (Hget & _ & _ & Hlen).
  destruct (Nat.eqb (List.length children) 0) eqn:L.
  - injection H as <-. apply Nat.eqb_eq in L. specialize (Hlen L). 
    exists [referenceframe.World]. split; [reflexivity|].
    split; [repeat constructor; simpl; tauto|]. split; [|exact I].
    intro k. rewrite Hlen. simpl. unfold childrenOf. simpl. rewrite sort_nil.
    now destruct (orb _ _).
  - destruct (children_has children referenceframe.World); simpl in H; [|discriminate].
    apply (visit_keeps sort_Slice Hsort parts children Hget _ _ _ _ _) in H; [assumption|].
    split; [reflexivity|]. split; [constructor|]. split; [|exact I].
    intro k. reflexivity.
Qed.

Lemma visited_at_end : forall visited out k,
  visitInv sort_Slice parts [] visited out ->
  (In k visited <-> k = referenceframe.World \/ In k (map referenceframe.Name out)).
Proof.
  intros visited out k (Hseq & _ & _ & _). rewrite app_nil_r in Hseq.
  rewrite in_rev, <- Hseq. simpl. split; intros [H|H]; auto.
Qed.

Lemma names_at_end : forall visited out,
  visitInv sort_Slice parts [] visited out ->
  NoDup (referenceframe.World :: map referenceframe.Name out).
Proof.
  intros visited out (Hseq & Hnd & _ & _). rewrite app_nil_r in Hseq.
  rewrite Hseq. now apply NoDup_rev.
Qed.

Lemma connected_reaches_world : forall k,
  connected parts k ->
  k = referenceframe.World \/
  exists q, In q parts /\ referenceframe.Parent q = referenceframe.World.
Proof.
  intros k H. induction H as [|p Hp Hc IH]; [now left|]. right.
  destruct IH as [E|IH]; [exists p; tauto | exact IH].
Qed.

Lemma connected_exists : forall k,
  connected parts k -> has (existingParts parts) k = true.
Proof.
  intros k H. apply has_In. destruct H as [|p Hp _]; [now left|].
  right. now apply in_map.
Qed.

End FrameResult.

Lemma StronglySorted_after : forall (A : Type) (R : A -> A -> Prop) (l1 : list A) p l2,
  StronglySorted R (l1 ++ p :: l2) -> Forall (R p) l2.
Proof.
  intros A R l1 p l2. induction l1 as [|a l1 IH]; simpl; intro H.
  - now apply StronglySorted_inv in H.
  - apply StronglySorted_inv in H. now apply IH.
Qed.

(** Go's order on strings is a strict total order. *)
Lemma ascii_compare_lt_trans : forall a b c,
  Ascii.compare a b = Lt -> Ascii.compare b c = Lt -> Ascii.compare a c = Lt.
Proof.
  intros a b c. unfold Ascii.compare. rewrite !N.compare_lt_iff. apply N.lt_trans.
Qed.

Lemma string_compare_lt_trans : forall a b c,
  String.compare a b = Lt -> String.compare b c = Lt -> String.compare a c = Lt.
Proof.
  induction a as [|x a IH]; intros [|y b] [|z c]; simpl; try congruence.
  destruct (Ascii.compare x y) eqn:Exy; try discriminate;
    destruct (Ascii.compare y z) eqn:Eyz; try discriminate; intros H1 H2.
  - apply Ascii.compare_eq_iff in Exy, Eyz. subst. 
    assert (Ascii.compare z z = Eq) as ->.
    { unfold Ascii.compare. apply N.compare_refl. }
    now apply (IH b c).
  - apply Ascii.compare_eq_iff in Exy. subst. now rewrite Eyz.
  - apply Ascii.compare_eq_iff in Eyz. subst. now rewrite Exy.
  - now rewrite (ascii_compare_lt_trans _ _ _ Exy Eyz).
Qed.

Lemma string_ltb_trans : forall a b c,
  String.ltb a b = true -> String.ltb b c = true -> String.ltb a c = true.
Proof.
  intros a b c. unfold String.ltb.
  destruct (String.compare a b) eqn:E1; try discriminate.
  destruct (String.compare b c) eqn:E2; try discriminate.
  now rewrite (string_compare_lt_trans _ _ _ E1 E2).
Qed.

Lemma string_ltb_asym : forall a b, String.ltb a b = true -> String.ltb b a = false.
Proof.
  intros a b. unfold String.ltb. rewrite (String.compare_antisym b a).
  now destruct (String.compare a b).
Qed.

Lemma string_ltb_total : forall a b,
  String.ltb a b = false -> a <> b -> String.ltb b a = true.
Proof.
  intros a b. unfold String.ltb. rewrite (String.compare_antisym b a).
  destruct (String.compare a b) eqn:E; simpl; try congruence.
  intros _ Hne. apply String.compare_eq_iff in E. congruence.
Qed.

Lemma insertSorted_perm : forall (A : Type) (less : A -> A -> bool) x l,
  Permutation (x :: l) (insertSorted less x l).
Proof.
  intros A less x l. induction l as [|y l IH]; simpl; [apply Permutation_refl|].
  destruct (less x y); [apply Permutation_refl|].
  apply (perm_trans (perm_swap y x l)). now apply perm_skip.
Qed.

Lemma insertionSort_sortsByName : sortsByName insertionSort.
Proof.
  intro l. unfold insertionSort. induction l as [|x l [IHp IHs]]; simpl.
  - split; [apply perm_nil | constructor].
  - split.
    + apply (perm_trans (perm_skip x IHp)). apply insertSorted_perm.
    + set (s := fold_right (insertSorted framesystemparts.byName) [] l) in *.
      clearbody s. clear IHp. induction s as [|y s IH]; simpl.
      * repeat constructor.
      * destruct (framesystemparts.byName x y) eqn:E.
        -- constructor; [assumption|]. apply StronglySorted_inv in IHs.
           destruct IHs as [_ Hy]. constructor.
           ++ now apply string_ltb_asym.
           ++ rewrite Forall_forall in *. intros z Hz. specialize (Hy z Hz).
              unfold framesystemparts.byName in *.
              destruct (String.ltb (referenceframe.Name z) (referenceframe.Name x)) eqn:Ez;
                [|reflexivity].
              now rewrite (string_ltb_trans _ _ _ Ez E) in Hy.
        -- apply StronglySorted_inv in IHs. destruct IHs as [Hs Hy].
           constructor; [now apply IH|].
           rewrite Forall_forall in *. intros z Hz.
           apply (Permutation_in _ (Permutation_sym (insertSorted_perm _ _ x s))) in Hz.
           destruct Hz as [<-|Hz]; [assumption | now apply Hy].
Qed.

Section FrameReach.
Import framesystemparts.
Variable sort_Slice : Sorter.
Hypothesis Hsort : sortsByName sort_Slice.
Variable parts : Parts.

Lemma visited_connected : forall visited out,
  visitInv sort_Slice parts [] visited out ->
  forall p, In p out -> In p parts /\ connected parts (referenceframe.Parent p).
Proof.
  intros visited out Hinv.
  assert (Hparts : forall p, In p out -> In p parts).
  { intros p Hp. apply (visitInv_parts sort_Slice Hsort parts _ _ _ _ Hinv) in Hp. tauto. }
  destruct Hinv as (_ & _ & _ & Hfirst).
  assert (Hgen : forall l seen,
             parentsFirst seen l -> (forall k, In k seen -> connected parts k) ->
             (forall p, In p l -> In p parts) ->
             forall p, In p l -> connected parts (referenceframe.Parent p)).
  { induction l as [|q l IH]; intros seen Hpf Hseen Hl p Hp; [destruct Hp|].
    destruct Hpf as [Hq Hrest].
    assert (Hcq : connected parts (referenceframe.Parent q)) by now apply Hseen.
    destruct Hp as [<-|Hp]; [assumption|].
    apply (IH (referenceframe.Name q :: seen)); try assumption.
    - intros k [<-|Hk]; [|now apply Hseen].
      apply connected_part; [apply Hl; now left | assumption].
    - intros x Hx. apply Hl. now right. }
  intros p Hp. split; [now apply Hparts|].
  apply (Hgen out [referenceframe.World]); try assumption.
  intros k [<-|[]]. constructor.
Qed.

Lemma connected_visited : forall visited out,
  visitInv sort_Slice parts [] visited out ->
  forall k, connected parts k -> In k visited.
Proof.
  intros visited out Hinv k Hk. induction Hk as [|q Hq Hc IH].
  - apply (visited_at_end sort_Slice parts _ _ _ Hinv). now left.
  - apply (visited_at_end sort_Slice parts _ _ _ Hinv). right. apply in_map.
    apply (visitInv_parts sort_Slice Hsort parts _ _ _ _ Hinv). tauto.
Qed.

End FrameReach.

(** X1. [TopologicallySort] returns on every slice of parts, whatever the
    parents are: the loop over the stack ends, with a result or an error,
    within as many turns as there are parts, and two. *)
Theorem TopologicallySort_returns :
  forall (sort_Slice : framesystemparts.Sorter) (parts : framesystemparts.Parts),
    sortsByName sort_Slice ->
    exists r, framesystemparts.TopologicallySort sort_Slice parts = Some r.
Proof.
  intros sort_Slice parts Hsort. unfold framesystemparts.TopologicallySort.
  destruct (framesystemparts.makeChildren (framesystemparts.existingParts parts) parts [])
    as [children|err] eqn:M; [|eauto].
  destruct (makeChildren_facts _ _ _ _ M) as (Hget & _ & _ & _).
  destruct (Nat.eqb (List.length children) 0); [eauto|].
  destruct (framesystemparts.children_has children referenceframe.World); simpl; [|eauto].
  apply (visit_ends sort_Slice Hsort parts children Hget).
  - split; [reflexivity|]. split; [constructor|]. split; [|exact I]. intro k. reflexivity.
  - simpl. lia.
Qed.

Lemma TopologicallySort_returns_witness :
  exists r, framesystemparts.TopologicallySort insertionSort frames.withLoop = Some r.
Proof.
  exact (TopologicallySort_returns insertionSort frames.withLoop insertionSort_sortsByName).
Defined.

(** X2. When a part names a parent that is neither the world frame nor the
    name of a part of the slice, [TopologicallySort] returns the
    missing-parent error of the first such part of the slice, whatever else
    is wrong with the slice. *)
Theorem TopologicallySort_missing_parent :
  forall (sort_Slice : framesystemparts.Sorter) (l1 l2 : framesystemparts.Parts)
         (p : referenceframe.FrameSystemPart),
    (forall q, In q l1 ->
       In (referenceframe.Parent q)
          (referenceframe.World :: framesystemparts.Names (l1 ++ p :: l2))) ->
    ~ In (referenceframe.Parent p)
         (referenceframe.World :: framesystemparts.Names (l1 ++ p :: l2)) ->
    framesystemparts.TopologicallySort sort_Slice (l1 ++ p :: l2)
    = Some (Err (framesystemparts.NewMissingParentError
                   (referenceframe.Name p) (referenceframe.Parent p))).
Proof.
  intros sort_Slice l1 l2 p Hall Hp. unfold framesystemparts.TopologicallySort.
  rewrite makeChildren_missing; [reflexivity| |].
  - intros q Hq. apply has_In. now apply Hall.
  - now apply has_not_In.
Qed.

Lemma TopologicallySort_missing_parent_witness :
  framesystemparts.TopologicallySort insertionSort frames.orphan
  = Some (Err (errorString "part with name arm references non-existent parent shoulder")).
Proof.
  apply (TopologicallySort_missing_parent insertionSort [frames.part "base" "world"]
           [frames.part "gripper" "wrist"] (frames.part "arm" "shoulder")).
  - intros q [<-|[]]. now left.
  - simpl. intuition discriminate.
Defined.

(** X3. When the slice is not empty, every parent is the name of a part and
    no part has the world frame as its parent, [TopologicallySort] returns
    the error that no part connects to the world frame. *)
Theorem TopologicallySort_no_root :
  forall (sort_Slice : framesystemparts.Sorter) (parts : framesystemparts.Parts),
    parts <> [] ->
    (forall p, In p parts ->
       referenceframe.Parent p <> referenceframe.World /\
       In (referenceframe.Parent p) (framesystemparts.Names parts)) ->
    framesystemparts.TopologicallySort sort_Slice parts
    = Some (Err (errorString
         "there are no robot parts that connect to a 'world' node. Root node must be named 'world'")).
Proof.
  intros sort_Slice parts Hne Hall. unfold framesystemparts.TopologicallySort.
  destruct (makeChildren_total (framesystemparts.existingParts parts) parts [])
    as [children M].
  { intros q Hq. apply has_In. right. now apply Hall. }
  rewrite M. destruct (makeChildren_facts _ _ _ _ M) as (_ & Hhas & _ & Hlen).
  destruct (Nat.eqb (List.length children) 0) eqn:L.
  { apply Nat.eqb_eq in L. now apply Hlen in L. }
  rewrite Hhas. simpl.
  destruct (existsb (fun q => referenceframe.Parent q =? referenceframe.World) parts) eqn:E;
    [|reflexivity].
  apply existsb_exists in E. destruct E as (q & Hq & Eq). apply String.eqb_eq in Eq.
  destruct (Hall q Hq) as [Hw _]. contradiction.
Qed.

Lemma TopologicallySort_no_root_witness :
  framesystemparts.TopologicallySort insertionSort frames.rootless
  = Some (Err (errorString
       "there are no robot parts that connect to a 'world' node. Root node must be named 'world'")).
Proof.
  apply (TopologicallySort_no_root insertionSort frames.rootless).
  - discriminate.
  - intros p [<-|[<-|[]]]; simpl; split; try discriminate; tauto.
Defined.

(** X4. In a result of [TopologicallySort], every part is a part of the
    slice and comes after the part that is its parent, unless its parent is
    the world frame; no two parts of the result have the same name, and none
    is named as the world frame is. *)
Theorem TopologicallySort_parents_first :
  forall (sort_Slice : framesystemparts.Sorter) (parts out : framesystemparts.Parts),
    sortsByName sort_Slice ->
    framesystemparts.TopologicallySort sort_Slice parts = Some (Ok out) ->
    NoDup (framesystemparts.Names out) /\
    ~ In referenceframe.World (framesystemparts.Names out) /\
    (forall p, In p out -> In p parts) /\
    (forall l1 p l2, out = l1 ++ p :: l2 ->
       referenceframe.Parent p = referenceframe.World \/
       In (referenceframe.Parent p) (framesystemparts.Names l1)).
Proof.
  intros sort_Slice parts out Hsort H.
  destruct (TopologicallySort_kept sort_Slice Hsort parts out H) as [visited Hinv].
  pose proof (names_at_end sort_Slice parts _ _ Hinv) as Hnd.
  inversion Hnd as [|? ? Hw Hn]; subst.
  split; [exact Hn|]. split; [exact Hw|]. split.
  - intros p Hp. apply (visitInv_parts sort_Slice Hsort parts _ _ _ _ Hinv) in Hp. tauto.
  - intros l1 p l2 E. destruct Hinv as (_ & _ & _ & Hfirst).
    destruct (parentsFirst_split _ _ _ _ _ Hfirst E) as [[Hp|[]]|Hp]; auto.
Qed.

Lemma TopologicallySort_parents_first_witness :
  framesystemparts.TopologicallySort insertionSort frames.robot
  = Some (Ok [frames.part "base" "world"; frames.part "arm" "base";
              frames.part "camera" "base"; frames.part "gripper" "arm"]) /\
  NoDup ["base"; "arm"; "camera"; "gripper"] /\
  (forall l1 p l2,
     [frames.part "base" "world"; frames.part "arm" "base";
      frames.part "camera" "base"; frames.part "gripper" "arm"] = l1 ++ p :: l2 ->
     referenceframe.Parent p = "world" \/
     In (referenceframe.Parent p) (framesystemparts.Names l1)).
Proof.
  assert (E : framesystemparts.TopologicallySort insertionSort frames.robot
              = Some (Ok [frames.part "base" "world"; frames.part "arm" "base";
                          frames.part "camera" "base"; frames.part "gripper" "arm"]))
    by (vm_compute; reflexivity).
  destruct (TopologicallySort_parents_first insertionSort frames.robot _
              insertionSort_sortsByName E) as (Hnd & _ & _ & Hfirst).
  exact (conj E (conj Hnd Hfirst)).
Defined.

(** X5. A result of [TopologicallySort] holds exactly the parts of the slice
    whose chain of parents reaches the world frame: a part whose parents
    never reach it (a loop of frames beside the tree) is left out, and no
    error tells. *)
Theorem TopologicallySort_connected_parts :
  forall (sort_Slice : framesystemparts.Sorter) (parts out : framesystemparts.Parts),
    sortsByName sort_Slice ->
    framesystemparts.TopologicallySort sort_Slice parts = Some (Ok out) ->
    forall p, In p out <-> In p parts /\ connected parts (referenceframe.Parent p).
Proof.
  intros sort_Slice parts out Hsort H p.
  destruct (TopologicallySort_kept sort_Slice Hsort parts out H) as [visited Hinv]. split.
  - now apply (visited_connected sort_Slice Hsort parts visited out).
  - intros [Hp Hc]. apply (visitInv_parts sort_Slice Hsort parts _ _ _ _ Hinv).
    split; [assumption|]. now apply (connected_visited sort_Slice Hsort parts visited out).
Qed.

Lemma TopologicallySort_connected_parts_witness :
  framesystemparts.TopologicallySort insertionSort frames.withLoop
  = Some (Ok [frames.part "base" "world"; frames.part "arm" "base";
              frames.part "camera" "base"; frames.part "gripper" "arm"]) /\
  In (frames.part "left" "right") frames.withLoop /\
  ~ connected frames.withLoop "right".
Proof.
  assert (E : framesystemparts.TopologicallySort insertionSort frames.withLoop
              = Some (Ok [frames.part "base" "world"; frames.part "arm" "base";
                          frames.part "camera" "base"; frames.part "gripper" "arm"]))
    by (vm_compute; reflexivity).
  pose proof (TopologicallySort_connected_parts insertionSort frames.withLoop _
                insertionSort_sortsByName E (frames.part "left" "right")) as Hiff.
  refine (conj E (conj _ _)).
  - simpl. tauto.
  - intro Hc. assert (Hin : In (frames.part "left" "right") frames.withLoop) by (simpl; tauto).
    destruct Hiff as [_ Hback]. specialize (Hback (conj Hin Hc)).
    simpl in Hback. unfold frames.part in Hback.
    repeat (destruct Hback as [Hback|Hback]; [discriminate Hback|]). exact Hback.
Defined.

(** X6. In a result of [TopologicallySort], the parts that have the same
    parent come in the order of their names, the lesser name first. *)
Theorem TopologicallySort_siblings_by_name :
  forall (sort_Slice : framesystemparts.Sorter) (parts out : framesystemparts.Parts),
    sortsByName sort_Slice ->
    framesystemparts.TopologicallySort sort_Slice parts = Some (Ok out) ->
    forall l1 p l2 q l3,
      out = l1 ++ p :: l2 ++ q :: l3 ->
      referenceframe.Parent p = referenceframe.Parent q ->
      String.ltb (referenceframe.Name p) (referenceframe.Name q) = true.
Proof.
  intros sort_Slice parts out Hsort H l1 p l2 q l3 E Hpq.
  destruct (TopologicallySort_kept sort_Slice Hsort parts out H) as [visited Hinv].
  pose proof (names_at_end sort_Slice parts _ _ Hinv) as Hnd.
  destruct Hinv as (_ & _ & Hblocks & _).
  specialize (Hblocks (referenceframe.Parent p)). subst out.
  rewrite filter_app in Hblocks. simpl in Hblocks. rewrite String.eqb_refl in Hblocks.
  rewrite filter_app in Hblocks. simpl in Hblocks.
  rewrite <- Hpq, String.eqb_refl in Hblocks.
  destruct (framesystemparts.has visited (referenceframe.Parent p)).
  2:{ destruct (filter _ l1); discriminate Hblocks. }
  destruct (Hsort (childrenOf parts (referenceframe.Parent p))) as [_ Hs].
  rewrite <- Hblocks in Hs. apply StronglySorted_after in Hs.
  rewrite Forall_forall in Hs.
  assert (Hqp : framesystemparts.byName q p = false).
  { apply Hs. apply in_or_app. right. now left. }
  apply string_ltb_total; [exact Hqp|].
  intro Eq. inversion Hnd as [|? ? _ Hn]; subst. rewrite map_app in Hn. simpl in Hn.
  apply NoDup_remove_2 in Hn. apply Hn. apply in_or_app. right.
  rewrite map_app. apply in_or_app. right. simpl. now left.
Qed.

Lemma TopologicallySort_siblings_by_name_witness :
  framesystemparts.TopologicallySort insertionSort frames.robot
  = Some (Ok [frames.part "base" "world"; frames.part "arm" "base";
              frames.part "camera" "base"; frames.part "gripper" "arm"]) /\
  String.ltb "arm" "camera" = true.
Proof.
  assert (E : framesystemparts.TopologicallySort insertionSort frames.robot
              = Some (Ok [frames.part "base" "world"; frames.part "arm" "base";
                          frames.part "camera" "base"; frames.part "gripper" "arm"]))
    by (vm_compute; reflexivity).
  exact (conj E
           (TopologicallySort_siblings_by_name insertionSort frames.robot _
              insertionSort_sortsByName E
              [frames.part "base" "world"] (frames.part "arm" "base") []
              (frames.part "camera" "base") [frames.part "gripper" "arm"] eq_refl eq_refl)).
Defined.

(** X7. When the names of the parts are distinct, none is the name of the
    world frame, and the chain of parents of every part reaches the world
    frame, [TopologicallySort] returns a result and no error, and the result
    is a rearrangement of the slice. *)
Theorem TopologicallySort_sorts_a_tree :
  forall (sort_Slice : framesystemparts.Sorter) (parts : framesystemparts.Parts),
    sortsByName sort_Slice ->
    NoDup (framesystemparts.Names parts) ->
    ~ In referenceframe.World (framesystemparts.Names parts) ->
    (forall p, In p parts -> connected parts (referenceframe.Parent p)) ->
    exists out,
      framesystemparts.TopologicallySort sort_Slice parts = Some (Ok out) /\
      Permutation parts out.
Proof.
  intros sort_Slice parts Hsort Hnames Hworld Hconn.
  assert (Hres : exists out, framesystemparts.TopologicallySort sort_Slice parts = Some (Ok out)).
  { unfold framesystemparts.TopologicallySort.
    destruct (makeChildren_total (framesystemparts.existingParts parts) parts [])
      as [children M].
    { intros q Hq. apply connected_exists. now apply Hconn. }
    rewrite M. destruct (makeChildren_facts _ _ _ _ M) as (Hget & Hhas & _ & Hlen).
    destruct (Nat.eqb (List.length children) 0) eqn:L; [eauto|].
    assert (Hroot : framesystemparts.children_has children referenceframe.World = true).
    { rewrite Hhas. simpl. destruct parts as [|p0 rest] eqn:Ep.
      - simpl in M. injection M as <-. discriminate L.
      - rewrite <- Ep in *. apply existsb_exists.
        assert (Hp0 : In p0 parts) by (rewrite Ep; now left).
        destruct (connected_reaches_world parts _ (Hconn p0 Hp0)) as [Hw|(q & Hq & Hw)].
        + exists p0. split; [assumption | now apply String.eqb_eq].
        + exists q. split; [assumption | now apply String.eqb_eq]. }
    rewrite Hroot. simpl.
    assert (Hinit : visitInv sort_Slice parts [referenceframe.World] [] []).
    { split; [reflexivity|]. split; [constructor|]. split; [|exact I]. intro k. reflexivity. }
    destruct (visit_ends sort_Slice Hsort parts children Hget
                (List.length parts + 2) _ _ _ Hinit) as [r Hr]; [simpl; lia|].
    rewrite Hr.
    destruct (visit_no_cycle sort_Slice Hsort parts children Hget Hnames Hworld
                (List.length parts + 2) _ _ _ r Hinit) as [out ->]; [|assumption|eauto].
    repeat constructor. simpl. tauto. }
  destruct Hres as [out H]. exists out. split; [assumption|].
  destruct (TopologicallySort_kept sort_Slice Hsort parts out H) as [visited Hinv].
  apply NoDup_Permutation.
  - now apply NoDup_map_inv in Hnames.
  - pose proof (names_at_end sort_Slice parts _ _ Hinv) as Hnd.
    inversion Hnd as [|? ? _ Hn]; subst. now apply NoDup_map_inv in Hn.
  - intro p. split.
    + intro Hp. apply (visitInv_parts sort_Slice Hsort parts _ _ _ _ Hinv).
      split; [assumption|].
      apply (connected_visited sort_Slice Hsort parts visited out Hinv). now apply Hconn.
    + intro Hp. apply (visitInv_parts sort_Slice Hsort parts _ _ _ _ Hinv) in Hp. tauto.
Qed.

Lemma TopologicallySort_sorts_a_tree_witness :
  exists out,
    framesystemparts.TopologicallySort insertionSort frames.robot = Some (Ok out) /\
    Permutation frames.robot out.
Proof.
  apply (TopologicallySort_sorts_a_tree insertionSort frames.robot insertionSort_sortsByName).
  - simpl. repeat constructor; simpl; intuition discriminate.
  - simpl. intuition discriminate.
  - assert (Hbase : connected frames.robot "base").
    { apply (connected_part frames.robot (frames.part "base" "world")); [simpl; tauto|].
      constructor. }
    assert (Harm : connected frames.robot "arm").
    { apply (connected_part frames.robot (frames.part "arm" "base")); [simpl; tauto|].
      exact Hbase. }
    intros p [<-|[<-|[<-|[<-|[]]]]]; simpl; try assumption. constructor.
Defined.

Section Renaming.
Import framesystemparts.

Lemma load_store_same : forall mem p v part,
  load mem p = Some part -> load (store mem p v) p = Some v.
Proof.
  unfold load. induction mem as [|x mem IH]; intros [|p] v part H; simpl in *;
    try discriminate; [reflexivity | now apply (IH p v part)].
Qed.

Lemma load_store_other : forall mem p v a,
  a <> p -> load (store mem p v) a = load mem a.
Proof.
  unfold load. induction mem as [|x mem IH]; intros [|p] v [|a] H; simpl in *;
    try reflexivity; try congruence.
  apply IH. congruence.
Qed.

Lemma renamePart_Name : forall r c p,
  referenceframe.Name (renamePart r c p) = (r ++ ":" ++ referenceframe.Name p)%string.
Proof.
  intros r c p. unfold renamePart.
  destruct (referenceframe.Parent p =? referenceframe.World); simpl;
    match goal with |- context [negb ?b] => destruct b end; reflexivity.
Qed.

Lemma renamePart_rest : forall r c p,
  referenceframe.rest (renamePart r c p) = referenceframe.rest p.
Proof.
  intros r c p. unfold renamePart.
  destruct (referenceframe.Parent p =? referenceframe.World); simpl;
    match goal with |- context [negb ?b] => destruct b end; reflexivity.
Qed.

Lemma renamePart_Parent : forall r c p,
  referenceframe.Parent (renamePart r c p)
  = if (referenceframe.Parent p =? referenceframe.World) || (referenceframe.Parent p =? c)
    then c else (r ++ ":" ++ referenceframe.Parent p)%string.
Proof.
  intros r c p. unfold renamePart.
  destruct (referenceframe.Parent p =? referenceframe.World) eqn:Ew; simpl.
  - now rewrite String.eqb_refl.
  - destruct (String.eqb_spec (referenceframe.Parent p) c) as [E|E]; simpl; congruence.
Qed.

Lemma prefixed_shift : forall n r s,
  prefixed n r (r ++ ":" ++ s) = (r ++ ":" ++ prefixed n r s)%string.
Proof.
  induction n as [|n IH]; intros r s; cbn [prefixed]; [reflexivity|]. now rewrite IH.
Qed.

Lemma RenameRemoteParts_frame : forall remoteParts mem mem' r c a,
  RenameRemoteParts mem remoteParts r c = Some mem' ->
  ~ In a remoteParts -> load mem' a = load mem a.
Proof.
  induction remoteParts as [|p rest IH]; intros mem mem' r c a H Hnot; simpl in H.
  - now injection H as <-.
  - destruct (load mem p) as [part|] eqn:L; [|discriminate].
    rewrite (IH _ _ _ _ a H); [|intro Hin; apply Hnot; now right].
    apply load_store_other. intro E. apply Hnot. now left.
Qed.

End Renaming.

(** X8. After [RenameRemoteParts], the name of a part is its former name
    with the remote's name and a colon in front, once for every time the
    slice points to the part: a part the slice holds twice is prefixed
    twice, a part it does not hold keeps its name. *)
Theorem RenameRemoteParts_prefixes_names :
  forall (remoteParts : list nat) (mem mem' : framesystemparts.Memory)
         (remoteName connectionName : string) (a : nat)
         (part : referenceframe.FrameSystemPart),
    framesystemparts.RenameRemoteParts mem remoteParts remoteName connectionName = Some mem' ->
    framesystemparts.load mem a = Some part ->
    exists part',
      framesystemparts.load mem' a = Some part' /\
      referenceframe.Name part'
      = prefixed (count_occ Nat.eq_dec remoteParts a) remoteName (referenceframe.Name part) /\
      referenceframe.rest part' = referenceframe.rest part.
Proof.
  induction remoteParts as [|p rest IH]; intros mem mem' r c a part H L; simpl in H.
  - injection H as <-. exists part. auto.
  - destruct (framesystemparts.load mem p) as [part0|] eqn:L0; [|discriminate].
    simpl count_occ. destruct (Nat.eq_dec p a) as [->|Hne].
    + assert (part0 = part) by congruence. subst part0.
      destruct (IH _ _ _ _ a _ H (load_store_same mem a _ part L)) as (part' & L' & Hn & Hr).
      exists part'. split; [assumption|]. split.
      * rewrite Hn, renamePart_Name. cbn [prefixed]. apply prefixed_shift.
      * now rewrite Hr, renamePart_rest.
    + apply (IH _ _ _ _ a part H). rewrite load_store_other; [assumption | congruence].
Qed.

Lemma RenameRemoteParts_prefixes_names_witness :
  exists part',
    framesystemparts.load
      [frames.part "r1:r1:base" "r1_conn"; frames.part "r1:arm" "r1:base";
       frames.part "lamp" "r1_conn"] 0 = Some part' /\
    referenceframe.Name part' = "r1:r1:base" /\
    referenceframe.rest part' = 0.
Proof.
  exact (RenameRemoteParts_prefixes_names [0; 1; 0] remoteFrames.memory
           [frames.part "r1:r1:base" "r1_conn"; frames.part "r1:arm" "r1:base";
            frames.part "lamp" "r1_conn"]
           "r1" "r1_conn" 0 (frames.part "base" "world") eq_refl eq_refl).
Defined.

(** X9. When the slice holds no nil pointer and no part twice,
    [RenameRemoteParts] returns, and of every part of the slice: the name is
    the former name behind the remote's name and a colon; the parent is the
    connection's name when it was the world frame or already that name, and
    else the former parent behind the remote's name and a colon. The parts
    the slice does not hold are left as they were. *)
Theorem RenameRemoteParts_renames_each_part :
  forall (remoteParts : list nat) (mem : framesystemparts.Memory)
         (remoteName connectionName : string),
    NoDup remoteParts ->
    (forall a, In a remoteParts -> framesystemparts.load mem a <> None) ->
    exists mem',
      framesystemparts.RenameRemoteParts mem remoteParts remoteName connectionName = Some mem' /\
      (forall a part,
         In a remoteParts -> framesystemparts.load mem a = Some part ->
         exists part',
           framesystemparts.load mem' a = Some part' /\
           referenceframe.Name part' = (remoteName ++ ":" ++ referenceframe.Name part)%string /\
           referenceframe.Parent part'
           = (if (referenceframe.Parent part =? referenceframe.World)
                 || (referenceframe.Parent part =? connectionName)
              then connectionName
              else (remoteName ++ ":" ++ referenceframe.Parent part)%string) /\
           referenceframe.rest part' = referenceframe.rest part) /\
      (forall a, ~ In a remoteParts ->
         framesystemparts.load mem' a = framesystemparts.load mem a).
Proof.
  induction remoteParts as [|p rest IH]; intros mem r c Hnd Hvalid.
  - exists mem. split; [reflexivity|]. split; [intros a part []|reflexivity].
  - inversion Hnd as [|? ? Hp Hrest]; subst.
    destruct (framesystemparts.load mem p) as [part0|] eqn:L0;
      [|exfalso; apply (Hvalid p); [now left | assumption]].
    destruct (IH (framesystemparts.store mem p (framesystemparts.renamePart r c part0)) r c Hrest)
      as (mem' & Hrun & Hin & Hout).
    { intros a Ha. rewrite load_store_other; [apply Hvalid; now right|].
      intro E. subst a. contradiction. }
    exists mem'. split; [simpl; now rewrite L0|]. split.
    + intros a part [->|Ha] La.
      * assert (part0 = part) by congruence. subst part0.
        exists (framesystemparts.renamePart r c part). split.
        -- rewrite (Hout a Hp). now apply (load_store_same mem a _ part).
        -- split; [apply renamePart_Name|]. split; [apply renamePart_Parent|].
           apply renamePart_rest.
      * apply Hin; [assumption|]. rewrite load_store_other; [assumption|].
        intro E. subst a. contradiction.
    + intros a Ha. rewrite Hout; [|intro Hin'; apply Ha; now right].
      apply load_store_other. intro E. apply Ha. now left.
Qed.

Lemma RenameRemoteParts_renames_each_part_witness :
  exists mem',
    framesystemparts.RenameRemoteParts remoteFrames.memory [1; 0; 2] "r1" "r1_conn" = Some mem' /\
    (exists part', framesystemparts.load mem' 1 = Some part' /\
                   referenceframe.Name part' = "r1:arm" /\
                   referenceframe.Parent part' = "r1:base") /\
    (exists part', framesystemparts.load mem' 0 = Some part' /\
                   referenceframe.Name part' = "r1:base" /\
                   referenceframe.Parent part' = "r1_conn") /\
    (exists part', framesystemparts.load mem' 2 = Some part' /\
                   referenceframe.Name part' = "r1:lamp" /\
                   referenceframe.Parent part' = "r1_conn").
Proof.
  destruct (RenameRemoteParts_renames_each_part [1; 0; 2] remoteFrames.memory "r1" "r1_conn")
    as (mem' & Hrun & Hin & _).
  - repeat constructor; simpl; intuition discriminate.
  - intros a [<-|[<-|[<-|[]]]]; discriminate.
  - exists mem'. split; [exact Hrun|].
    destruct (Hin 1 (frames.part "arm" "base")) as (p1 & L1 & N1 & P1 & _);
      [simpl; tauto | reflexivity |].
    destruct (Hin 0 (frames.part "base" "world")) as (p0 & L0 & N0 & P0 & _);
      [simpl; tauto | reflexivity |].
    destruct (Hin 2 (frames.part "lamp" "r1_conn")) as (p2 & L2 & N2 & P2 & _);
      [simpl; tauto | reflexivity |].
    split; [exists p1; auto|]. split; [exists p0; auto | exists p2; auto].
Defined.

Section ScrubAnyEnvironment.
Import robotimpl.

Lemma Split_pieces : forall k v,
  os.mentions "="%char k = false ->
  strings.Split (k ++ String "="%char v) "="%char = k :: strings.Split v "="%char.
Proof.
  induction k as [|c k IH]; intros v H.
  - reflexivity.
  - simpl in H. apply orb_false_iff in H. destruct H as [Hc Hk].
    simpl. rewrite Hc, (IH v Hk). reflexivity.
Qed.

Lemma prefix_trans : forall a b c,
  String.prefix a b = true -> String.prefix b c = true -> String.prefix a c = true.
Proof.
  induction a as [|x a IH]; intros [|y b] [|z c]; simpl; try congruence.
  destruct (Ascii.ascii_dec x y) as [->|]; [|discriminate].
  destruct (Ascii.ascii_dec y z) as [->|]; [|discriminate].
  destruct (Ascii.ascii_dec z z); [apply IH | congruence].
Qed.

Lemma Split_nonempty : forall s sep, strings.Split s sep <> [].
Proof.
  induction s as [|c s IH]; intro sep; simpl; [discriminate|].
  destruct (Ascii.eqb c sep); [discriminate|].
  destruct (strings.Split s sep); discriminate.
Qed.

Lemma Split_first_prefix : forall s sep,
  String.prefix (hd "" (strings.Split s sep)) s = true.
Proof.
  induction s as [|c s IH]; intro sep; simpl; [reflexivity|].
  destruct (Ascii.eqb c sep); [reflexivity|].
  specialize (IH sep). destruct (strings.Split s sep) as [|piece pieces] eqn:E.
  - now apply Split_nonempty in E.
  - simpl in *. destruct (Ascii.ascii_dec c c); [assumption | congruence].
Qed.

Lemma Contains_prefix : forall a s m,
  String.prefix a s = true -> strings.Contains a m = true -> strings.Contains s m = true.
Proof.
  induction a as [|x a IH]; intros s m Hp Hc.
  - simpl in Hc. rewrite orb_false_r in Hc. destruct m; [|discriminate Hc].
    destruct s; reflexivity.
  - destruct s as [|y s]; [discriminate Hp|]. simpl in Hp.
    destruct (Ascii.ascii_dec x y) as [->|]; [|discriminate].
    cbn [strings.Contains] in Hc |- *. apply orb_true_iff in Hc. apply orb_true_iff.
    destruct Hc as [Hc|Hc].
    + left. apply (prefix_trans m (String y a)); [assumption|].
      simpl. destruct (Ascii.ascii_dec y y); [assumption | congruence].
    + right. now apply (IH s m).
Qed.

(** The third loop leaves alone a variable whose value has no mount point
    in it. *)
Lemma pathOne_idle : forall p e,
  okKey (fst e) = true ->
  strings.Contains (snd e) mountPrefix = false ->
  cleanAppImageEnv_pathOne p (kv e) = (p, None).
Proof.
  intros p [k v] Hk Hv. simpl in Hk, Hv. unfold cleanAppImageEnv_pathOne, kv. simpl fst. simpl snd.
  change ("=" ++ v)%string with (String "="%char v).
  rewrite (Split_pieces k v (okKey_mentions k Hk)).
  cbn [List.length nth hd].
  destruct (strings.Contains (nth 0 (strings.Split v "="%char) "") mountPrefix) eqn:C.
  - exfalso.
    assert (Hc : strings.Contains v mountPrefix = true).
    { apply (Contains_prefix (hd "" (strings.Split v "="%char))).
      - apply Split_first_prefix.
      - destruct (strings.Split v "="%char); exact C. }
    congruence.
  - now rewrite andb_false_r.
Qed.

(** What one turn of the third loop may do to the environment: it sets or
    unsets the variable of its entry, and nothing else. *)
Lemma pathOne_keys : forall p e,
  okKey (fst e) = true -> wellFormed p ->
  wellFormed (fst (cleanAppImageEnv_pathOne p (kv e))) /\
  (forall j, os.LookupEnv (fst (cleanAppImageEnv_pathOne p (kv e))) j <> None ->
             j = fst e \/ os.LookupEnv p j <> None).
Proof.
  intros p e Hk Hwf. unfold cleanAppImageEnv_pathOne. rewrite (key_of_kv e Hk).
  destruct (Nat.leb 2 (List.length (strings.Split (kv e) "="%char)) &&
            strings.Contains (nth 1 (strings.Split (kv e) "="%char) "") mountPrefix).
  - destruct (Nat.ltb 0 _).
    + split; [now apply wellFormed_Setenv|].
      destruct (Setenv_facts p (fst e)
                  (strings.Join
                     (filter (fun path => negb (strings.HasPrefix path mountPrefix)
                                          && negb (path =? ""))
                             (strings.Split (nth 1 (strings.Split (kv e) "="%char) "")
                                            ":"%char)) ":") Hk)
        as (_ & _ & _ & Hl & _).
      intros j Hj. rewrite Hl in Hj.
      destruct (String.eqb_spec j (fst e)); [now left | now right].
    + split; [now apply wellFormed_Unsetenv|].
      destruct (Unsetenv_facts p (fst e)) as (_ & _ & _ & Hl & _).
      intros j Hj. rewrite Hl in Hj.
      destruct (String.eqb_spec j (fst e)); [now left | now right].
  - cbn [fst]. split; [assumption | intros j Hj; now right].
Qed.

(** The first loop on any well-formed environment: nothing fails, no
    variable is created, and a variable that has no original value recorded
    keeps its value. [p0] is the environment the loop started from. *)
Lemma reset_general : forall ents p0 p,
  (forall e, In e ents -> okKey (fst e) = true) ->
  (forall e, In e ents -> os.LookupEnv p0 (fst e) <> None) ->
  wellFormed p ->
  (forall j, os.LookupEnv p j <> None -> os.LookupEnv p0 j <> None) ->
  exists p',
    cleanAppImageEnv_reset p (map kv ents) = (p', None) /\
    os.cwd p' = os.cwd p /\ os.isDir p' = os.isDir p /\ wellFormed p' /\
    (forall j, os.LookupEnv p' j <> None -> os.LookupEnv p0 j <> None) /\
    (forall k, os.LookupEnv p0 ("APPRUN_ORIGINAL_" ++ k) = None ->
               os.LookupEnv p' k = os.LookupEnv p k).
Proof.
  induction ents as [|e ents IH]; intros p0 p Hok Hsnap Hwf Hsub.
  - exists p. simpl. do 3 (split; [reflexivity|]). split; [exact Hwf|].
    split; [exact Hsub | reflexivity].
  - assert (Hk : okKey (fst e) = true) by (apply Hok; now left).
    destruct (resetOne_facts p e Hk Hwf) as (He & Hc & Hd & Hwf1 & Hframe & _ & Hsame).
    cbn [map cleanAppImageEnv_reset].
    destruct (cleanAppImageEnv_resetOne p (kv e)) as [p1 err1]. cbn [fst snd] in *.
    subst err1.
    destruct (IH p0 p1) as (p' & Hrun & Hc' & Hd' & Hwf' & Hsub' & Hkeep); try assumption.
    { intros e' He'. apply Hok. now right. }
    { intros e' He'. apply Hsnap. now right. }
    { intros j Hj. destruct (string_dec j (fst e)) as [->|Hne].
      - apply Hsnap. now left.
      - rewrite Hframe in Hj by assumption. now apply Hsub. }
    exists p'. split; [exact Hrun|]. split; [congruence|]. split; [congruence|].
    split; [exact Hwf'|]. split; [exact Hsub'|].
    intros k Hnone. rewrite (Hkeep k Hnone).
    destruct (string_dec k (fst e)) as [->|Hne]; [|now apply Hframe].
    assert (L : os.LookupEnv p ("APPRUN_ORIGINAL_" ++ fst e)%string = None).
    { destruct (os.LookupEnv p ("APPRUN_ORIGINAL_" ++ fst e)%string) eqn:L; [|reflexivity].
      exfalso. apply (Hsub ("APPRUN_ORIGINAL_" ++ fst e)%string); [rewrite L; discriminate|].
      exact Hnone. }
    now rewrite (Hsame L).
Qed.

(** The third loop on any well-formed environment: nothing fails, only the
    variables of its entries are touched, and a variable whose value has no
    mount point in it keeps its value. *)
Lemma paths_general : forall ents p,
  (forall e, In e ents -> okKey (fst e) = true) ->
  wellFormed p ->
  exists p',
    cleanAppImageEnv_paths p (map kv ents) = (p', None) /\
    os.cwd p' = os.cwd p /\ os.isDir p' = os.isDir p /\ wellFormed p' /\
    (forall j, ~ In j (map fst ents) -> os.LookupEnv p' j = os.LookupEnv p j) /\
    (forall k, (forall v, In (k, v) ents -> strings.Contains v mountPrefix = false) ->
               os.LookupEnv p' k = os.LookupEnv p k).
Proof.
  induction ents as [|e ents IH]; intros p Hok Hwf.
  - exists p. simpl. do 3 (split; [reflexivity|]). split; [exact Hwf|].
    split; reflexivity.
  - assert (Hk : okKey (fst e) = true) by (apply Hok; now left).
    destruct (pathOne_facts p e Hk) as (He & Hc & Hd & Hframe).
    destruct (pathOne_keys p e Hk Hwf) as (Hwf1 & _).
    pose proof (pathOne_idle p e Hk) as Hidle.
    cbn [map cleanAppImageEnv_paths].
    destruct (cleanAppImageEnv_pathOne p (kv e)) as [p1 err1]. cbn [fst snd] in *.
    subst err1.
    destruct (IH p1) as (p' & Hrun & Hc' & Hd' & Hwf' & Hl' & Hkeep); try assumption.
    { intros e' He'. apply Hok. now right. }
    exists p'. split; [exact Hrun|]. split; [congruence|]. split; [congruence|].
    split; [exact Hwf'|]. split.
    + intros j Hj. rewrite Hl'; [|intro Hin; apply Hj; simpl; now right].
      apply Hframe. intro E. apply Hj. simpl. now left.
    + intros k Hv. rewrite Hkeep; [|intros v Hin; apply Hv; now right].
      destruct (string_dec k (fst e)) as [->|Hne]; [|now apply Hframe].
      assert (E : (p1, @None error) = (p, None)).
      { apply Hidle. apply Hv. left. now destruct e. }
      now injection E as ->.
Qed.

(** A run of [cleanAppImageEnv] in a well-formed environment of a bundle,
    when the change of directory succeeds. *)
Lemma cleanAppImageEnv_run : forall p,
  wellFormed p ->
  os.LookupEnv p "APPIMAGE" <> None ->
  os.isDir p (os.Getenv p "APPRUN_CWD") = true ->
  exists p',
    cleanAppImageEnv p = (p', None) /\
    os.cwd p' = os.Getenv p "APPRUN_CWD" /\
    os.isDir p' = os.isDir p /\
    wellFormed p' /\
    (forall k, isAppImageVar k = true \/ k = "ARGV0" \/ k = "ORIGIN" ->
               os.LookupEnv p' k = None) /\
    (forall k, os.LookupEnv p' k <> None -> os.LookupEnv p k <> None) /\
    (forall k v,
       os.LookupEnv p k = Some v ->
       isAppImageVar k = false -> k <> "ARGV0" -> k <> "ORIGIN" ->
       os.LookupEnv p ("APPRUN_ORIGINAL_" ++ k) = None ->
       strings.Contains v mountPrefix = false ->
       os.LookupEnv p' k = Some v).
Proof.
  intros p Hwf Himg Hdir. unfold cleanAppImageEnv.
  destruct (os.LookupEnv p "APPIMAGE") as [img|]; [clear Himg | contradiction].
  unfold os.Chdir. rewrite Hdir.
  set (dir := os.Getenv p "APPRUN_CWD").
  set (pc := os.mk (os.env p) dir (os.isDir p)).
  assert (Hok : forall q, wellFormed q -> forall e, In e (os.env q) -> okKey (fst e) = true).
  { intros q [_ Hq] e He. apply Hq. now apply in_map. }
  (* first loop *)
  destruct (reset_general (os.env p) pc pc) as (p1 & Hrun1 & Hc1 & Hd1 & Hwf1 & Hsub1 & Hkeep1).
  { now apply Hok. }
  { intros e He. apply (LookupEnv_In pc). change (os.env pc) with (os.env p).
    now apply in_map. }
  { exact Hwf. }
  { auto. }
  change (os.Environ pc) with (map kv (os.env p)). rewrite Hrun1.
  (* ARGV0 and ORIGIN *)
  pose proof (Unsetenv_facts p1 "ARGV0") as (Hea & Hca & Hda & Hla & _).
  pose proof (wellFormed_Unsetenv p1 "ARGV0" Hwf1) as Hwfa.
  destruct (os.Unsetenv p1 "ARGV0") as [pa ea]. cbn [fst snd] in Hea, Hca, Hda, Hla, Hwfa.
  pose proof (Unsetenv_facts pa "ORIGIN") as (Heb & Hcb & Hdb & Hlb & _).
  pose proof (wellFormed_Unsetenv pa "ORIGIN" Hwfa) as Hwfb.
  destruct (os.Unsetenv pa "ORIGIN") as [pb eb]. cbn [fst snd] in Heb, Hcb, Hdb, Hlb, Hwfb.
  subst ea eb. cbn [of_error multierr_Combine app].
  (* second loop *)
  destruct (unset_facts (os.env pb) pb [] (Hok pb Hwfb)) as (p2 & Hrun2 & Hc2 & Hd2 & Hwf2 & Hl2).
  change (os.Environ pb) with (map kv (os.env pb)). rewrite Hrun2.
  specialize (Hwf2 Hwfb). cbn [multierr_error].
  assert (Hgone : forall k, isAppImageVar k = true \/ k = "ARGV0" \/ k = "ORIGIN" ->
                            os.LookupEnv p2 k = None).
  { intros k Hk. rewrite Hl2.
    destruct (existsb (fun e => (fst e =? k) && isAppImageVar (fst e)) (os.env pb))
      eqn:Ex; [reflexivity|].
    destruct (os.LookupEnv pb k) as [v|] eqn:Lb; [|reflexivity]. exfalso.
    destruct Hk as [Hk|[->| ->]].
    - apply LookupEnv_entry in Lb.
      assert (Ht : existsb (fun e => (fst e =? k) && isAppImageVar (fst e))
                           (os.env pb) = true).
      { apply existsb_exists. exists (k, v). split; [assumption|]. simpl.
        now rewrite String.eqb_refl, Hk. }
      congruence.
    - rewrite Hlb, Hla in Lb. discriminate Lb.
    - rewrite Hlb in Lb. discriminate Lb. }
  assert (Hsub2 : forall k, os.LookupEnv p2 k <> None -> os.LookupEnv p k <> None).
  { intros k Hk. rewrite Hl2 in Hk.
    destruct (existsb _ (os.env pb)); [congruence|].
    rewrite Hlb in Hk. destruct (k =? "ORIGIN"); [congruence|].
    rewrite Hla in Hk. destruct (k =? "ARGV0"); [congruence|].
    now apply (Hsub1 k). }
  (* third loop *)
  destruct (paths_general (os.env p2) p2 (Hok p2 Hwf2) Hwf2)
    as (p3 & Hrun3 & Hc3 & Hd3 & Hwf3 & Hl3 & Hkeep3).
  change (os.Environ p2) with (map kv (os.env p2)). rewrite Hrun3.
  exists p3. split; [reflexivity|].
  split; [rewrite Hc3, Hc2, Hcb, Hca, Hc1; reflexivity|].
  split; [rewrite Hd3, Hd2, Hdb, Hda, Hd1; reflexivity|].
  split; [exact Hwf3|].
  assert (Hout : forall k, os.LookupEnv p2 k = None -> os.LookupEnv p3 k = None).
  { intros k Hk. rewrite Hl3; [assumption|].
    intro Hin. apply (LookupEnv_In p2) in Hin. contradiction. }
  split; [intros k Hk; apply Hout; now apply Hgone|].
  split.
  - intros k Hk. apply Hsub2. intro Hn. apply Hk. now apply Hout.
  - intros k v Lk Hnot Ha Ho Horig Hv.
    assert (L2 : os.LookupEnv p2 k = Some v).
    { rewrite Hl2.
      assert (existsb (fun e => (fst e =? k) && isAppImageVar (fst e)) (os.env pb) = false)
        as ->.
      { apply not_true_is_false. intro Ex. apply existsb_exists in Ex.
        destruct Ex as (e & _ & Ee). apply andb_true_iff in Ee. destruct Ee as [E1 E2].
        apply String.eqb_eq in E1. congruence. }
      rewrite Hlb. apply String.eqb_neq in Ho. rewrite Ho.
      rewrite Hla. apply String.eqb_neq in Ha. rewrite Ha.
      rewrite (Hkeep1 k Horig). exact Lk. }
    rewrite Hkeep3; [exact L2|].
    intros v' Hin. destruct Hwf2 as [Hnd2 _].
    pose proof (LookupEnv_NoDup p2 k v' Hnd2 Hin) as E. congruence.
Qed.

End ScrubAnyEnvironment.

Lemma wellFormed_bundled : wellFormed appimage.bundled.
Proof.
  split.
  - simpl. repeat constructor; simpl; intuition discriminate.
  - intros k Hk. simpl in Hk.
    repeat (destruct Hk as [<-|Hk]; [reflexivity|]). contradiction.
Qed.

Lemma wellFormed_withoutCwd : wellFormed appimage.withoutCwd.
Proof.
  split.
  - simpl. repeat constructor; simpl; intuition discriminate.
  - intros k Hk. simpl in Hk.
    repeat (destruct Hk as [<-|Hk]; [reflexivity|]). contradiction.
Qed.

(** X10. In a well-formed environment, the only error that
    [cleanAppImageEnv] returns is the error of the change of directory: when
    it returns an error, [APPIMAGE] is set, the error is the one that
    [os.Chdir] gives for the value of [APPRUN_CWD], and neither the
    environment nor the working directory has changed. *)
Theorem cleanAppImageEnv_fails_only_at_chdir :
  forall (p p' : os.t) (err : error),
    wellFormed p ->
    robotimpl.cleanAppImageEnv p = (p', Some err) ->
    os.LookupEnv p "APPIMAGE" <> None /\
    os.Chdir p (os.Getenv p "APPRUN_CWD") = (p, Some err) /\
    p' = p.
Proof.
  intros p p' err Hwf H.
  destruct (os.LookupEnv p "APPIMAGE") as [img|] eqn:Himg.
  2:{ unfold robotimpl.cleanAppImageEnv in H. rewrite Himg in H. discriminate H. }
  split; [discriminate|].
  destruct (os.isDir p (os.Getenv p "APPRUN_CWD")) eqn:Hdir.
  - destruct (cleanAppImageEnv_run p Hwf) as (q & Hrun & _); [congruence | assumption |].
    rewrite Hrun in H. discriminate H.
  - unfold robotimpl.cleanAppImageEnv in H. rewrite Himg in H.
    unfold os.Chdir in *. rewrite Hdir in *. injection H as <- <-. auto.
Qed.

Lemma cleanAppImageEnv_fails_only_at_chdir_witness :
  os.LookupEnv appimage.withoutCwd "APPIMAGE" <> None /\
  os.Chdir appimage.withoutCwd (os.Getenv appimage.withoutCwd "APPRUN_CWD")
  = (appimage.withoutCwd, Some (errorString "chdir : no such file or directory")) /\
  appimage.withoutCwd = appimage.withoutCwd.
Proof.
  exact (cleanAppImageEnv_fails_only_at_chdir appimage.withoutCwd appimage.withoutCwd
           (errorString "chdir : no such file or directory")
           wellFormed_withoutCwd eq_refl).
Defined.

(** X11. In any well-formed environment where [APPIMAGE] is set and the
    directory of [APPRUN_CWD] can be entered, [cleanAppImageEnv] returns no
    error, the working directory is that directory, no variable whose name
    starts with [APPRUN], [APPDIR], [APPIMAGE] or [AIX_] is left, nor
    [ARGV0], nor [ORIGIN]; and a second run changes nothing and returns no
    error. *)
Theorem cleanAppImageEnv_scrubs_once :
  forall (p : os.t),
    wellFormed p ->
    os.LookupEnv p "APPIMAGE" <> None ->
    os.isDir p (os.Getenv p "APPRUN_CWD") = true ->
    snd (robotimpl.cleanAppImageEnv p) = None /\
    os.cwd (fst (robotimpl.cleanAppImageEnv p)) = os.Getenv p "APPRUN_CWD" /\
    (forall k, robotimpl.isAppImageVar k = true \/ k = "ARGV0" \/ k = "ORIGIN" ->
               os.LookupEnv (fst (robotimpl.cleanAppImageEnv p)) k = None) /\
    robotimpl.cleanAppImageEnv (fst (robotimpl.cleanAppImageEnv p))
    = (fst (robotimpl.cleanAppImageEnv p), None).
Proof.
  intros p Hwf Himg Hdir.
  destruct (cleanAppImageEnv_run p Hwf Himg Hdir) as (p' & Hrun & Hcwd & _ & _ & Hgone & _).
  rewrite Hrun. cbn [fst snd]. split; [reflexivity|]. split; [exact Hcwd|].
  split; [exact Hgone|].
  unfold robotimpl.cleanAppImageEnv. rewrite (Hgone "APPIMAGE"); [reflexivity|].
  left. reflexivity.
Qed.

Lemma cleanAppImageEnv_scrubs_once_witness :
  snd (robotimpl.cleanAppImageEnv appimage.bundled) = None /\
  os.cwd (fst (robotimpl.cleanAppImageEnv appimage.bundled)) = "/home/robot" /\
  os.LookupEnv (fst (robotimpl.cleanAppImageEnv appimage.bundled)) "AIX_LOADER" = None /\
  robotimpl.cleanAppImageEnv (fst (robotimpl.cleanAppImageEnv appimage.bundled))
  = (fst (robotimpl.cleanAppImageEnv appimage.bundled), None).
Proof.
  destruct (cleanAppImageEnv_scrubs_once appimage.bundled wellFormed_bundled)
    as (Herr & Hcwd & Hgone & Hagain).
  - discriminate.
  - reflexivity.
  - refine (conj Herr (conj Hcwd (conj _ Hagain))). apply Hgone. left. reflexivity.
Defined.

(** X12. In a well-formed environment, a run of [cleanAppImageEnv] that
    returns no error creates no variable; and a variable keeps its value when
    its name is none of those the bundle owns, no original value is recorded
    for it under [APPRUN_ORIGINAL_], and its value has no mount point of a
    bundle in it. *)
Theorem cleanAppImageEnv_keeps_other_variables :
  forall (p p' : os.t),
    wellFormed p ->
    robotimpl.cleanAppImageEnv p = (p', None) ->
    (forall k, os.LookupEnv p' k <> None -> os.LookupEnv p k <> None) /\
    (forall k v,
       os.LookupEnv p k = Some v ->
       robotimpl.isAppImageVar k = false -> k <> "ARGV0" -> k <> "ORIGIN" ->
       os.LookupEnv p ("APPRUN_ORIGINAL_" ++ k)%string = None ->
       strings.Contains v robotimpl.mountPrefix = false ->
       os.LookupEnv p' k = Some v).
Proof.
  intros p p' Hwf H.
  destruct (os.LookupEnv p "APPIMAGE") as [img|] eqn:Himg.
  2:{ unfold robotimpl.cleanAppImageEnv in H. rewrite Himg in H. injection H as <-.
      split; auto. }
  destruct (os.isDir p (os.Getenv p "APPRUN_CWD")) eqn:Hdir.
  - destruct (cleanAppImageEnv_run p Hwf) as (q & Hrun & _ & _ & _ & _ & Hsub & Hkeep);
      [congruence | assumption |].
    rewrite Hrun in H. injection H as <-. split; assumption.
  - unfold robotimpl.cleanAppImageEnv in H. rewrite Himg in H.
    unfold os.Chdir in H. rewrite Hdir in H. discriminate H.
Qed.

Lemma cleanAppImageEnv_keeps_other_variables_witness :
  os.LookupEnv (fst (robotimpl.cleanAppImageEnv appimage.bundled)) "HOME"
  = Some "/home/robot" /\
  (os.LookupEnv (fst (robotimpl.cleanAppImageEnv appimage.bundled)) "LD_LIBRARY_PATH" <> None ->
   os.LookupEnv appimage.bundled "LD_LIBRARY_PATH" <> None).
Proof.
  destruct (cleanAppImageEnv_keeps_other_variables appimage.bundled
              (fst (robotimpl.cleanAppImageEnv appimage.bundled)) wellFormed_bundled)
    as (Hsub & Hkeep).
  - vm_compute. reflexivity.
  - split; [|apply Hsub].
    apply Hkeep; try reflexivity; discriminate.
Defined.

Section DialOptions.
Import robotimpl.

(** The dial options, laid out group by group in the order of the appends. *)
Lemma remoteDialOptions_groups : forall c o,
  remoteDialOptions c o
  = (if debug o then [rpc.WithDialDebug] else []) ++
    (if config.Insecure c then [rpc.WithInsecure] else []) ++
    (if allowInsecureCreds o then [rpc.WithAllowInsecureWithCredentialsDowngrade] else []) ++
    (match tlsConfig o with Some tc => [rpc.WithTLSConfig tc] | None => [] end) ++
    [match config.Credentials (config.Auth c) with
     | Some creds =>
         if config.Entity (config.Auth c) =? "" then rpc.WithCredentials creds
         else rpc.WithEntityCredentials (config.Entity (config.Auth c)) creds
     | None => rpc.WithEntityCredentials "" rpc.emptyCredentials
     end] ++
    (if config.ExternalAuthAddress (config.Auth c) =? "" then []
     else [rpc.WithExternalAuth (config.ExternalAuthAddress (config.Auth c))
                                (config.ExternalAuthToEntity (config.Auth c))]) ++
    (if config.ExternalAuthInsecure (config.Auth c) then [rpc.WithExternalAuthInsecure] else []) ++
    (if config.SignalingServerAddress (config.Auth c) =? "" then []
     else rpc.WithWebRTCOptions
            (rpc.mkWebRTC rpc.DefaultWebRTCConfiguration
               (config.SignalingServerAddress (config.Auth c))
               (config.SignalingAuthEntity (config.Auth c))
               match config.SignalingCreds (config.Auth c) with
               | Some creds => creds
               | None => rpc.emptyCredentials
               end)
          :: (if config.Managed (config.Auth c)
              then [rpc.WithDialMulticastDNSOptions (rpc.mkMDNS true)] else [])).
Proof.
  intros [n a i [cr en ea eai ete ssa sae sc mg]] [d f ai u t].
  unfold remoteDialOptions.
  cbn [config.Auth config.Credentials config.Entity config.ExternalAuthAddress
       config.ExternalAuthInsecure config.ExternalAuthToEntity config.SignalingServerAddress
       config.SignalingAuthEntity config.SignalingCreds config.Managed config.Insecure
       debug allowInsecureCreds tlsConfig].
  destruct d, i, ai, t, cr, (en =? ""), (ea =? ""), eai, (ssa =? ""), mg; reflexivity.
Qed.

End DialOptions.

(** X13. The dial options of a remote hold exactly one option that carries
    credentials, whatever the configuration and the manager's options are;
    when credentials are configured it carries them, with the entity when
    one is configured and without it when the entity is empty. *)
Theorem remoteDialOptions_one_credentials_option :
  forall (c : config.Remote) (o : robotimpl.resourceManagerOptions),
    List.length (filter isCredentialsOption (robotimpl.remoteDialOptions c o)) = 1 /\
    (forall creds,
       config.Credentials (config.Auth c) = Some creds ->
       In (if config.Entity (config.Auth c) =? ""
           then rpc.WithCredentials creds
           else rpc.WithEntityCredentials (config.Entity (config.Auth c)) creds)
          (robotimpl.remoteDialOptions c o)).
Proof.
  intros c o. rewrite remoteDialOptions_groups. split.
  - rewrite !filter_app, !length_app.
    destruct (robotimpl.debug o), (config.Insecure c), (robotimpl.allowInsecureCreds o),
      (robotimpl.tlsConfig o), (config.Credentials (config.Auth c)),
      (config.Entity (config.Auth c) =? ""),
      (config.ExternalAuthAddress (config.Auth c) =? ""),
      (config.ExternalAuthInsecure (config.Auth c)),
      (config.SignalingServerAddress (config.Auth c) =? ""),
      (config.Managed (config.Auth c)); reflexivity.
  - intros creds E. rewrite E. rewrite !in_app_iff.
    do 4 right. left. now left.
Qed.

Lemma In_if_one : forall (A : Type) (b : bool) (y x : A),
  In x (if b then [y] else []) <-> b = true /\ y = x.
Proof. intros A [|] y x; simpl; intuition discriminate. Qed.

Lemma In_unless_one : forall (A : Type) (b : bool) (y x : A),
  In x (if b then [] else [y]) <-> b = false /\ y = x.
Proof. intros A [|] y x; simpl; intuition discriminate. Qed.

(** X14. What the dial options of a remote say about security follows the
    configuration and nothing else: the transport is asked to be insecure
    exactly when the remote's configuration says so, the downgrade of
    credentials on an insecure transport is allowed exactly when the manager
    allows insecure credentials, external authentication is insecure exactly
    when it is configured so; and the multicast-DNS option is there exactly
    when the remote is managed and has a signaling server (a managed remote
    without one gets none), and it asks to remove the credentials. *)
Theorem remoteDialOptions_security_options :
  forall (c : config.Remote) (o : robotimpl.resourceManagerOptions),
    (In rpc.WithInsecure (robotimpl.remoteDialOptions c o) <-> config.Insecure c = true) /\
    (In rpc.WithAllowInsecureWithCredentialsDowngrade (robotimpl.remoteDialOptions c o)
     <-> robotimpl.allowInsecureCreds o = true) /\
    (In rpc.WithExternalAuthInsecure (robotimpl.remoteDialOptions c o)
     <-> config.ExternalAuthInsecure (config.Auth c) = true) /\
    (forall m, In (rpc.WithDialMulticastDNSOptions m) (robotimpl.remoteDialOptions c o)
               <-> (config.Managed (config.Auth c) = true /\
                    config.SignalingServerAddress (config.Auth c) <> "" /\
                    m = rpc.mkMDNS true)).
Proof.
  intros c o. rewrite remoteDialOptions_groups.
  assert (Hc : isCredentialsOption
                 match config.Credentials (config.Auth c) with
                 | Some creds =>
                     if config.Entity (config.Auth c) =? "" then rpc.WithCredentials creds
                     else rpc.WithEntityCredentials (config.Entity (config.Auth c)) creds
                 | None => rpc.WithEntityCredentials "" rpc.emptyCredentials
                 end = true).
  { destruct (config.Credentials (config.Auth c)); [|reflexivity].
    now destruct (config.Entity (config.Auth c) =? ""). }
  set (cred := match config.Credentials (config.Auth c) with
               | Some creds =>
                   if config.Entity (config.Auth c) =? "" then rpc.WithCredentials creds
                   else rpc.WithEntityCredentials (config.Entity (config.Auth c)) creds
               | None => rpc.WithEntityCredentials "" rpc.emptyCredentials
               end) in *.
  clearbody cred.
  assert (Htls : forall x, (forall tc, x <> rpc.WithTLSConfig tc) ->
                           ~ In x match robotimpl.tlsConfig o with
                                  | Some tc => [rpc.WithTLSConfig tc]
                                  | None => []
                                  end).
  { intros x Hx. destruct (robotimpl.tlsConfig o); simpl; [|tauto].
    intros [E|[]]. now apply (Hx t). }
  assert (Hcr : forall x, isCredentialsOption x = false -> cred <> x).
  { intros x Hx E. congruence. }
  destruct (String.eqb_spec (config.SignalingServerAddress (config.Auth c)) "") as [Es|Es].
  - split; [|split; [|split]]; try intro m; rewrite !in_app_iff, !In_if_one, ?In_unless_one.
    + pose proof (Htls rpc.WithInsecure ltac:(intros tc E; discriminate E)) as H1. pose proof (Hcr rpc.WithInsecure eq_refl) as H2.
      simpl. intuition (try discriminate).
    + pose proof (Htls rpc.WithAllowInsecureWithCredentialsDowngrade ltac:(intros tc E; discriminate E)) as H1.
      pose proof (Hcr rpc.WithAllowInsecureWithCredentialsDowngrade eq_refl) as H2.
      simpl. intuition (try discriminate).
    + pose proof (Htls rpc.WithExternalAuthInsecure ltac:(intros tc E; discriminate E)) as H1.
      pose proof (Hcr rpc.WithExternalAuthInsecure eq_refl) as H2.
      simpl. intuition (try discriminate).
    + pose proof (Htls (rpc.WithDialMulticastDNSOptions m) ltac:(intros tc E; discriminate E)) as H1.
      pose proof (Hcr (rpc.WithDialMulticastDNSOptions m) eq_refl) as H2.
      simpl. intuition (try discriminate).
  - split; [|split; [|split]]; try intro m; rewrite !in_app_iff, !In_if_one, ?In_unless_one;
      cbn [In]; rewrite ?In_if_one.
    + pose proof (Htls rpc.WithInsecure ltac:(intros tc E; discriminate E)) as H1. pose proof (Hcr rpc.WithInsecure eq_refl) as H2.
      intuition (try discriminate).
    + pose proof (Htls rpc.WithAllowInsecureWithCredentialsDowngrade ltac:(intros tc E; discriminate E)) as H1.
      pose proof (Hcr rpc.WithAllowInsecureWithCredentialsDowngrade eq_refl) as H2.
      intuition (try discriminate).
    + pose proof (Htls rpc.WithExternalAuthInsecure ltac:(intros tc E; discriminate E)) as H1.
      pose proof (Hcr rpc.WithExternalAuthInsecure eq_refl) as H2.
      intuition (try discriminate).
    + pose proof (Htls (rpc.WithDialMulticastDNSOptions m) ltac:(intros tc E; discriminate E)) as H1.
      pose proof (Hcr (rpc.WithDialMulticastDNSOptions m) eq_refl) as H2.
      intuition (try discriminate; try congruence).
Qed.

Section LazyUse.
Import rimage.
Variable DecodeImage : Decoder.
Variable b : list byte.
Variable m : string.

Lemma decode_fires : forall lei, decodeOnce (fst (decode DecodeImage lei)) = true.
Proof.
  intro lei. unfold decode. cbn [fst]. destruct (decodeOnce lei) eqn:E; [assumption|].
  now destruct (DecodeImage (imgBytes lei) (mimeType lei)).
Qed.

Lemma decode_state : forall lei,
  decode DecodeImage lei
  = (fst (decode DecodeImage lei), decodeErr (fst (decode DecodeImage lei))).
Proof. intro lei. reflexivity. Qed.

Lemma decodedImage_fired : forall lei img,
  lazy_inv DecodeImage b m lei -> decodedImage lei = Some img -> decodeOnce lei = true.
Proof.
  intros lei img (_ & _ & H) Hi. destruct (decodeOnce lei); [reflexivity|].
  destruct H as (_ & _ & Hn). congruence.
Qed.

Lemma decodeOnce_call : forall lei c,
  lazy_inv DecodeImage b m lei ->
  decodeOnce (call DecodeImage lei c) = decodeOnce lei || needsImage c.
Proof.
  intros lei c Hinv. destruct c; cbn [call needsImage MIMEType RawData fst];
    rewrite ?orb_false_r, ?orb_true_r; try reflexivity.
  - unfold ColorModel. rewrite decode_state.
    destruct (decodeErr (fst (decode DecodeImage lei))); cbn [fst]; [apply decode_fires|].
    unfold onDecoded. destruct (decodedImage (fst (decode DecodeImage lei))); apply decode_fires.
  - unfold Bounds. destruct (decodedImage lei) as [img|] eqn:Ei.
    + unfold onDecoded. rewrite Ei. cbn [fst]. now apply (decodedImage_fired lei img).
    + rewrite decode_state.
      destruct (decodeErr (fst (decode DecodeImage lei))); cbn [fst]; [apply decode_fires|].
      unfold onDecoded.
      destruct (decodedImage (fst (decode DecodeImage lei))); apply decode_fires.
  - unfold At. rewrite decode_state.
    destruct (decodeErr (fst (decode DecodeImage lei))); cbn [fst]; [apply decode_fires|].
    unfold onDecoded. destruct (decodedImage (fst (decode DecodeImage lei))); apply decode_fires.
Qed.

Lemma decodeOnce_run : forall cs lei,
  lazy_inv DecodeImage b m lei ->
  decodeOnce (run DecodeImage lei cs) = decodeOnce lei || existsb needsImage cs.
Proof.
  unfold run. induction cs as [|c cs IH]; intros lei Hinv; cbn [fold_left existsb].
  - now rewrite orb_false_r.
  - rewrite (IH _ (lazy_inv_call DecodeImage b m lei c Hinv)), (decodeOnce_call lei c Hinv).
    now rewrite orb_assoc.
Qed.

(** Once the decoder has accepted the bytes, [decode] returns and the image
    is the decoder's. *)
Lemma decode_after_success : forall lei img,
  lazy_inv DecodeImage b m lei -> DecodeImage b m = Decoded img ->
  decode DecodeImage lei = (fst (decode DecodeImage lei), None) /\
  decodedImage (fst (decode DecodeImage lei)) = Some img /\
  (forall i, decodedImage lei = Some i -> fst (decode DecodeImage lei) = lei /\ i = img).
Proof.
  intros lei img Hinv HD.
  pose proof (lazy_inv_decode DecodeImage b m lei Hinv) as (_ & _ & H').
  rewrite decode_fires, HD in H'. destruct H' as (_ & He & Hi).
  split; [rewrite decode_state at 1; now rewrite He|]. split; [exact Hi|].
  intros i Ei. pose proof (decodedImage_fired lei i Hinv Ei) as Hf.
  assert (Hsame : fst (decode DecodeImage lei) = lei).
  { unfold decode. cbn [fst]. now rewrite Hf. }
  split; [exact Hsame|]. rewrite Hsame in Hi. congruence.
Qed.

End LazyUse.

(** X15. The bytes of a lazily decoded image are decoded at the first call
    of [ColorModel], [Bounds] or [At] and not before: after any sequence of
    calls the decoder has run once if one of these is among the calls, and
    not at all if the calls are of [MIMEType] and [RawData] only. *)
Theorem LazyEncodedImage_decodes_on_first_use :
  forall (DecodeImage : rimage.Decoder) (b : list byte) (m : string)
         (cs : list rimage.Method),
    rimage.decodeCalls (rimage.run DecodeImage (rimage.NewLazyEncodedImage b m) cs)
    = if existsb needsImage cs then 1 else 0.
Proof.
  intros DecodeImage b m cs.
  pose proof (lazy_inv_run DecodeImage b m cs _ (lazy_inv_new DecodeImage b m)) as Hinv.
  pose proof (decodeOnce_run DecodeImage b m cs _ (lazy_inv_new DecodeImage b m)) as Hd.
  cbn [rimage.NewLazyEncodedImage rimage.decodeOnce orb] in Hd.
  destruct Hinv as (_ & _ & H). rewrite Hd in H.
  destruct (existsb needsImage cs); tauto.
Qed.

(** X16. When the decoder accepts the bytes of a lazily decoded image, then
    after any sequence of calls [ColorModel], [Bounds] and [At] return what
    the decoded image answers and do not panic, and they leave the image
    decoded. *)
Theorem LazyEncodedImage_answers_as_decoded :
  forall (DecodeImage : rimage.Decoder) (b : list byte) (m : string)
         (img : rimage.Image) (cs : list rimage.Method),
    DecodeImage b m = rimage.Decoded img ->
    exists lei',
      rimage.decodedImage lei' = Some img /\
      rimage.ColorModel DecodeImage
        (rimage.run DecodeImage (rimage.NewLazyEncodedImage b m) cs)
      = (lei', rimage.Returns (rimage.Image_ColorModel img)) /\
      rimage.Bounds DecodeImage
        (rimage.run DecodeImage (rimage.NewLazyEncodedImage b m) cs)
      = (lei', rimage.Returns (rimage.Image_Bounds img)) /\
      (forall x y,
         rimage.At DecodeImage
           (rimage.run DecodeImage (rimage.NewLazyEncodedImage b m) cs) x y
         = (lei', rimage.Returns (rimage.Image_At img x y))).
Proof.
  intros DecodeImage b m img cs HD.
  set (lei := rimage.run DecodeImage (rimage.NewLazyEncodedImage b m) cs).
  assert (Hinv : lazy_inv DecodeImage b m lei) by (apply lazy_inv_run, lazy_inv_new).
  destruct (decode_after_success DecodeImage b m lei img Hinv HD) as (Hdec & Hi & Hkept).
  exists (fst (rimage.decode DecodeImage lei)). split; [exact Hi|]. split; [|split].
  - unfold rimage.ColorModel. rewrite Hdec. unfold rimage.onDecoded. now rewrite Hi.
  - unfold rimage.Bounds. destruct (rimage.decodedImage lei) as [i|] eqn:Ei.
    + destruct (Hkept i eq_refl) as [-> ->]. unfold rimage.onDecoded. now rewrite Ei.
    + rewrite Hdec. unfold rimage.onDecoded. now rewrite Hi.
  - intros x y. unfold rimage.At. rewrite Hdec. unfold rimage.onDecoded. now rewrite Hi.
Qed.

Lemma LazyEncodedImage_answers_as_decoded_witness :
  exists lei',
    rimage.decodedImage lei' = Some decodable.picture /\
    rimage.ColorModel decodable.DecodeImage
      (rimage.run decodable.DecodeImage (rimage.NewLazyEncodedImage [x89; x50] "image/png")
                  [rimage.mRawData; rimage.mAt 1 1])
    = (lei', rimage.Returns "RGBA") /\
    rimage.Bounds decodable.DecodeImage
      (rimage.run decodable.DecodeImage (rimage.NewLazyEncodedImage [x89; x50] "image/png")
                  [rimage.mRawData; rimage.mAt 1 1])
    = (lei', rimage.Returns (rimage.mkRectangle 0 0 4 3)) /\
    (forall x y,
       rimage.At decodable.DecodeImage
         (rimage.run decodable.DecodeImage (rimage.NewLazyEncodedImage [x89; x50] "image/png")
                     [rimage.mRawData; rimage.mAt 1 1]) x y
       = (lei', rimage.Returns (x + 4 * y)%Z)).
Proof.
  exact (LazyEncodedImage_answers_as_decoded decodable.DecodeImage [x89; x50] "image/png"
           decodable.picture [rimage.mRawData; rimage.mAt 1 1] eq_refl).
Defined.

Section SteadyRemote.
Import resource robotimpl.

Lemma active_set_entries : forall a k v e,
  In e (active_set a k v) -> (fst e = k /\ snd e = v) \/ (In e a /\ fst e <> k).
Proof.
  intros a k v e. unfold active_set. destruct (active_has a k) eqn:Hk.
  - intro H. apply in_map_iff in H. destruct H as ([k0 v0] & E & Hin). simpl in E.
    destruct (Name.eqb k0 k) eqn:Ek.
    + apply Name_eqb_eq in Ek. subst. left. auto.
    + subst e. right. split; [assumption|]. simpl. now apply Name_eqb_neq.
  - intro H. apply in_app_or in H. destruct H as [H|[<-|[]]].
    + right. split; [assumption|]. intro E. subst k.
      assert (active_has a (fst e) = true); [|congruence].
      unfold active_has. apply existsb_exists. exists e. split; [assumption|].
      apply Name_eqb_refl.
    + left. auto.
Qed.

Lemma active_has_In : forall a k, active_has a k = true <-> exists v, In (k, v) a.
Proof.
  intros a k. unfold active_has. rewrite existsb_exists. split.
  - intros ([k0 v0] & Hin & E). simpl in E. apply Name_eqb_eq in E. subst. eauto.
  - intros [v Hin]. exists (k, v). split; [assumption | apply Name_eqb_refl].
Qed.

Lemma active_has_set : forall a k v j,
  active_has a j = true -> active_has (active_set a k v) j = true.
Proof.
  intros a k v j H. apply active_has_In in H. destruct H as [x Hx].
  apply active_has_In. unfold active_set. destruct (active_has a k).
  - destruct (Name.eqb j k) eqn:E.
    + exists v. apply in_map_iff. exists (j, x). simpl. rewrite E. auto.
    + exists x. apply in_map_iff. exists (j, x). simpl. rewrite E. auto.
  - exists x. apply in_or_app. now left.
Qed.

Lemma active_init_keys : forall old a e,
  In e (fold_left (fun a0 res => active_set a0 res false) old a) ->
  In (fst e) old \/ In e a.
Proof.
  induction old as [|r old IH]; intros a e H; simpl in H; [now right|].
  destruct (IH _ _ H) as [Ho|Ha]; [left; now right|].
  apply active_set_entries in Ha. destruct Ha as [[E _]|[Ha _]]; [left; now left | now right].
Qed.

Variable w : World.
Variable remoteName : Name.t.
Variable rr : Robot.

(** The loop over the new names, when each of them is already grafted and
    live: the manager stays as it is, each name is ticked as active. *)
Lemma new_fold_steady : forall news m active changed,
  (forall n, In n news -> exists h, resource.ResourceByName rr n = Ok h) ->
  (forall n, In n news ->
     active_has active (underRemote remoteName n) = true /\
     exists nd, Graph.Node (resources m) (underRemote remoteName n) = Some nd /\
                GraphNode.IsUninitialized nd = false) ->
  fold_left (updateRemoteResourceNames_new remoteName rr) news (m, active, changed)
  = (m, fold_left (fun a n => active_set a (underRemote remoteName n) true) news active, changed).
Proof.
  induction news as [|n news IH]; intros m active changed Hby Hnode; [reflexivity|].
  cbn [fold_left]. destruct (Hby n) as [h Hh]; [now left|].
  destruct (Hnode n) as (Ha & nd & Hn & Hi); [now left|].
  assert (Hstep : updateRemoteResourceNames_new remoteName rr (m, active, changed) n
                  = (m, active_set active (underRemote remoteName n) true, changed)).
  { unfold updateRemoteResourceNames_new. rewrite Hh.
    change (Name.PrependRemote n (Name.name remoteName)) with (underRemote remoteName n).
    rewrite Ha, Hn, Hi. reflexivity. }
  rewrite Hstep. apply IH.
  - intros n' Hn'. apply Hby. now right.
  - intros n' Hn'. destruct (Hnode n') as (Ha' & Hnd'); [now right|].
    split; [now apply active_has_set | exact Hnd'].
Qed.

Lemma ticked_entries : forall news a e,
  In e (fold_left (fun a0 n => active_set a0 (underRemote remoteName n) true) news a) ->
  snd e = true \/ (In e a /\ ~ In (fst e) (map (underRemote remoteName) news)).
Proof.
  induction news as [|n news IH]; intros a e H; simpl in H; [right; auto|].
  destruct (IH _ _ H) as [Ht|[Ha Hnot]]; [now left|].
  apply active_set_entries in Ha. destruct Ha as [[_ Ht]|[Ha Hne]]; [now left|].
  right. split; [assumption|]. simpl. intros [E|Hin]; [congruence | contradiction].
Qed.

(** The loop over the old names does nothing when all of them are active. *)
Lemma old_fold_idle : forall active m changed,
  (forall e, In e active -> snd e = true) ->
  fold_left (updateRemoteResourceNames_old w) active (m, changed) = (m, changed).
Proof.
  induction active as [|[k v] active IH]; intros m changed H; [reflexivity|].
  cbn [fold_left]. assert (v = true) by (apply (H (k, v)); now left). subst v.
  cbn [updateRemoteResourceNames_old]. apply IH. intros e He. apply H. now right.
Qed.

End SteadyRemote.

(** X17. A pull from a remote that finds what is already there changes
    nothing: when the remote's node exists, every name the remote gives can
    be obtained from it and is already under the remote's node with a live
    node of its own, and every remote-scoped name under the remote's node is
    one of those, [updateRemoteResourceNames] leaves the graph and the
    process manager as they are, calls neither [SetNeedsUpdate] nor [Close],
    logs nothing, and returns false. *)
Theorem updateRemoteResourceNames_steady :
  forall (w : robotimpl.World) (m : robotimpl.resourceManager) (remoteName : Name.t)
         (rr : resource.Robot),
    Graph.Node (robotimpl.resources m) remoteName <> None ->
    (forall n, In n (resource.ResourceNames rr) ->
       (exists h, resource.ResourceByName rr n = Ok h) /\
       In (Name.PrependRemote n (Name.name remoteName))
          (fst (robotimpl.remoteResourceNames m remoteName)) /\
       exists nd,
         Graph.Node (robotimpl.resources m) (Name.PrependRemote n (Name.name remoteName))
         = Some nd /\
         GraphNode.IsUninitialized nd = false) ->
    (forall o, In o (fst (robotimpl.remoteResourceNames m remoteName)) ->
       In o (map (fun n => Name.PrependRemote n (Name.name remoteName))
                 (resource.ResourceNames rr))) ->
    robotimpl.updateRemoteResourceNames w m remoteName rr
    = (robotimpl.record m (robotimpl.Called_updateRemoteResourceNames remoteName), false).
Proof.
  intros w m remoteName rr Hnode Hnew Hold.
  unfold robotimpl.updateRemoteResourceNames.
  set (m0 := robotimpl.record m (robotimpl.Called_updateRemoteResourceNames remoteName)).
  assert (Hsnap : robotimpl.remoteResourceNames m0 remoteName
                  = (fst (robotimpl.remoteResourceNames m remoteName), m0)).
  { unfold robotimpl.remoteResourceNames. cbn [robotimpl.resources robotimpl.record m0 fst].
    destruct (Graph.Node (robotimpl.resources m) remoteName); [reflexivity | contradiction]. }
  rewrite Hsnap. set (old := fst (robotimpl.remoteResourceNames m remoteName)) in *.
  set (active0 := fold_left (fun a res => robotimpl.active_set a res false) old []).
  rewrite (new_fold_steady remoteName rr (resource.ResourceNames rr) m0 active0 false).
  - apply old_fold_idle. intros e He.
    destruct (ticked_entries remoteName _ _ _ He) as [Ht|[Ha Hnot]]; [assumption|].
    exfalso. apply Hnot. apply Hold.
    destruct (active_init_keys _ _ _ Ha) as [Ho|[]]. exact Ho.
  - intros n Hn. now apply Hnew.
  - intros n Hn. destruct (Hnew n Hn) as (_ & Hin & Hnd). split; [|exact Hnd].
    apply active_has_In. exists false. apply active_init. now left.
Qed.

Lemma updateRemoteResourceNames_steady_witness :
  robotimpl.updateRemoteResourceNames scenario.world scenario.graftedManager
    scenario.remoteR1 scenario.robot1
  = (robotimpl.record scenario.graftedManager
       (robotimpl.Called_updateRemoteResourceNames scenario.remoteR1), false).
Proof.
  apply (updateRemoteResourceNames_steady scenario.world scenario.graftedManager
           scenario.remoteR1 scenario.robot1).
  - discriminate.
  - intros n [<-|[<-|[]]].
    + split; [exists 11; reflexivity|]. split; [vm_compute; tauto|].
      eexists. split; [vm_compute; reflexivity | reflexivity].
    + split; [exists 12; reflexivity|]. split; [vm_compute; tauto|].
      eexists. split; [vm_compute; reflexivity | reflexivity].
  - intros o Ho. vm_compute in Ho. destruct Ho as [<-|[<-|[]]]; vm_compute; tauto.
Defined.

Section Discovery.
Import resource robotimpl.

Lemma types_get_None : forall types a,
  types_get types a = None -> ~ In a (map fst types).
Proof.
  intros types a H Hin. apply in_map_iff in Hin. destruct Hin as ([a0 d0] & E & Hin).
  simpl in E. subst a0. unfold types_get in H.
  destruct (find (fun e => API.eqb (fst e) a) types) eqn:F; [discriminate|].
  apply (find_none _ _ F) in Hin. simpl in Hin. now rewrite API_eqb_refl in Hin.
Qed.

(** What the map [types] keeps true: no API twice, and every entry has a
    contributor. *)
Lemma types_set_new : forall (P : API.t * ServiceDescriptor -> Prop) types a d,
  NoDup (map fst types) -> (forall e, In e types -> P e) ->
  types_get types a = None -> P (a, d) ->
  NoDup (map fst (types_set types a d)) /\ (forall e, In e (types_set types a d) -> P e).
Proof.
  intros P types a d Hnd Hall Hnone Hp. unfold types_set. rewrite Hnone. split.
  - rewrite map_app. simpl. apply NoDup_snoc; [assumption | now apply types_get_None].
  - intros e He. apply in_app_or in He. destruct He as [He|[<-|[]]]; auto.
Qed.

Lemma merge_fold_origin : forall (P : API.t * ServiceDescriptor -> Prop) l m types,
  NoDup (map fst types) -> (forall e, In e types -> P e) ->
  (forall rt, In rt l -> P (RPCAPI_API rt, Desc rt)) ->
  NoDup (map fst (snd (fold_left mergeResourceRPCAPIsWithRemote_step l (m, types)))) /\
  (forall e, In e (snd (fold_left mergeResourceRPCAPIsWithRemote_step l (m, types))) -> P e).
Proof.
  intros P. induction l as [|rt l IH]; intros m types Hnd Hall Hl; cbn [fold_left snd];
    [auto|].
  unfold mergeResourceRPCAPIsWithRemote_step at 2 4.
  destruct (types_get types (RPCAPI_API rt)) as [svc|] eqn:G.
  - destruct (GetFullyQualifiedName svc =? GetFullyQualifiedName (Desc rt));
      apply IH; auto; intros rt' Hrt'; apply Hl; now right.
  - destruct (types_set_new P types (RPCAPI_API rt) (Desc rt) Hnd Hall G) as [Hnd' Hall'].
    { apply Hl. now left. }
    apply IH; auto. intros rt' Hrt'. apply Hl. now right.
Qed.

Lemma RPCAPIs_fold_origin : forall w g l m types,
  resources m = g ->
  (forall k, In k l -> In k (Graph.Names g)) ->
  NoDup (map fst types) -> (forall e, In e types -> contributed w g e) ->
  NoDup (map fst (snd (fold_left (ResourceRPCAPIs_step w) l (m, types)))) /\
  (forall e, In e (snd (fold_left (ResourceRPCAPIs_step w) l (m, types))) ->
             contributed w g e).
Proof.
  intros w g. induction l as [|k l IH]; intros m types Hg Hl Hnd Hall;
    cbn [fold_left snd]; [auto|].
  assert (Hk : In k (Graph.Names g)) by (apply Hl; now left).
  assert (Hl' : forall k', In k' l -> In k' (Graph.Names g)) by (intros; apply Hl; now right).
  pose proof (RPCAPIs_step_facts w m types k) as (Hres & _ & _).
  assert (Hstep : NoDup (map fst (snd (ResourceRPCAPIs_step w (m, types) k))) /\
                  (forall e, In e (snd (ResourceRPCAPIs_step w (m, types) k)) ->
                             contributed w g e)).
  { unfold ResourceRPCAPIs_step.
    destruct (API.Namespace (API.Type_ (Name.api k)) =? API.APINamespaceRDKInternal) eqn:Ei;
      [auto|].
    destruct (API.eqb (Name.api k) RemoteAPI) eqn:Er.
    - destruct (Graph.Node (resources m) k) as [gNode|] eqn:Hn; [|auto].
      destruct (negb (GraphNode.HasResource gNode)); [auto|].
      destruct (GraphNode.Resource gNode) as [[h|rr]|err] eqn:Hr; [auto| |auto].
      apply merge_fold_origin; auto.
      intros rt Hrt. right. exists k, gNode, rr. rewrite <- Hg. cbn [fst snd].
      rewrite Hg. repeat split; auto; try congruence. now destruct rt.
    - destruct (Name.ContainsRemoteNames k) eqn:Ec; [auto|].
      destruct (types_get types (Name.api k)) eqn:G; [auto|].
      destruct (RegisteredAPIs w (Name.api k)) as [reg|] eqn:Hreg; [|auto].
      destruct (ReflectRPCServiceDesc reg) as [d|] eqn:Hd; [|auto].
      apply types_set_new; auto. left. exists k, reg. cbn [fst snd]. repeat split; auto. }
  destruct (ResourceRPCAPIs_step w (m, types) k) as [m1 types1]. cbn [fst snd] in *.
  destruct Hstep as [Hnd1 Hall1]. apply IH; auto. congruence.
Qed.

End Discovery.

(** X18. [ResourceRPCAPIs] leaves the graph and the process manager as they
    are, lists no API twice, and every entry of its list has a contributor:
    the registration of the API of a name of the graph that is neither
    internal, nor a remote node, nor remote-scoped, or the RPC APIs of a
    remote that is connected under a remote node of the graph. *)
Theorem ResourceRPCAPIs_entries_are_contributed :
  forall (w : robotimpl.World) (m : robotimpl.resourceManager),
    robotimpl.resources (snd (robotimpl.ResourceRPCAPIs w m)) = robotimpl.resources m /\
    NoDup (map resource.RPCAPI_API (fst (robotimpl.ResourceRPCAPIs w m))) /\
    (forall e, In e (fst (robotimpl.ResourceRPCAPIs w m)) ->
               contributed w (robotimpl.resources m)
                           (resource.RPCAPI_API e, resource.Desc e)).
Proof.
  intros w m. unfold robotimpl.ResourceRPCAPIs.
  destruct (RPCAPIs_fold_facts w (Graph.Names (robotimpl.resources m)) m []) as (Hres & _ & _).
  destruct (RPCAPIs_fold_origin w (robotimpl.resources m)
              (Graph.Names (robotimpl.resources m)) m [] eq_refl)
    as (Hnd & Hall); [auto | constructor | intros e [] |].
  destruct (fold_left (robotimpl.ResourceRPCAPIs_step w)
                      (Graph.Names (robotimpl.resources m)) (m, [])) as [m' types].
  cbn [fst snd] in *. split; [exact Hres|]. split.
  - rewrite map_map. exact Hnd.
  - intros e He. apply in_map_iff in He. destruct He as ([a d] & <- & Hin).
    now apply Hall.
Qed.

(** X19. A remote that [RemoteByName] finds is one that [RemoteNames] lists,
    and finding it logs nothing and changes nothing; the second result of
    [RemoteByName] is true exactly when the first is a robot. *)
Theorem RemoteByName_is_listed :
  forall (m : robotimpl.resourceManager) (n : string),
    (snd (fst (robotimpl.RemoteByName m n)) = true <->
     fst (fst (robotimpl.RemoteByName m n)) <> None) /\
    (forall rr, fst (fst (robotimpl.RemoteByName m n)) = Some rr ->
       In n (robotimpl.RemoteNames m) /\ snd (robotimpl.RemoteByName m n) = m).
Proof.
  intros m n. unfold robotimpl.RemoteByName.
  destruct (Graph.Node (robotimpl.resources m) (Name.NewName RemoteAPI n)) as [gNode|] eqn:Hn.
  2:{ cbn [fst snd]. split; [split; [discriminate | congruence] | discriminate]. }
  destruct (GraphNode.Resource gNode) as [[h|rr]|err]; cbn [fst snd];
    (split; [split; [try discriminate | try congruence]|]); try discriminate; auto.
  intros rr' _. split; [|reflexivity].
  unfold robotimpl.RemoteNames. apply in_map_iff.
  exists (Name.NewName RemoteAPI n). split; [reflexivity|].
  apply filter_In. split; [now apply (Node_in_Names _ _ gNode)|].
  rewrite Hn. cbn [Name.NewName Name.api]. now rewrite API_eqb_refl.
Qed.

Section Grafting.
Import resource robotimpl.
Variable w : World.
Variable remoteName : Name.t.
Variable rr : Robot.

Lemma underRemote_injective : forall a b,
  underRemote remoteName a = underRemote remoteName b -> a = b.
Proof.
  intros [aa ra na] [ab rb nb]. unfold underRemote, Name.PrependRemote. simpl.
  intro E. injection E as -> -> ->. reflexivity.
Qed.

Lemma underRemote_scoped : forall n, Name.ContainsRemoteNames (underRemote remoteName n) = true.
Proof. reflexivity. Qed.

Lemma Node_AddNode : forall g n nd k,
  Graph.Node g n = None ->
  Graph.AddNode g n nd = (Graph.mk (Graph.nodes g ++ [(n, nd)]) (Graph.edges g), None) /\
  Graph.Node (fst (Graph.AddNode g n nd)) k
  = if Name.eqb k n then Some nd else Graph.Node g k.
Proof.
  intros g n nd k H. unfold Graph.AddNode. rewrite H. split; [reflexivity|].
  cbn [fst]. unfold Graph.Node in *. cbn [Graph.nodes]. rewrite find_over_app.
  destruct (Name.eqb k n) eqn:E.
  - apply Name_eqb_eq in E. subst k.
    destruct (find (fun e => Name.eqb (fst e) n) (Graph.nodes g)); [discriminate|].
    simpl. now rewrite Name_eqb_refl.
  - destruct (find (fun e => Name.eqb (fst e) k) (Graph.nodes g)); [reflexivity|].
    simpl. rewrite Name_eqb_sym, E. reflexivity.
Qed.

Lemma Node_AddChild : forall g c p k,
  Graph.Node (fst (Graph.AddChild g c p)) k = Graph.Node g k.
Proof.
  intros g c p k. unfold Graph.AddChild.
  destruct (Name.eqb c p); [reflexivity|].
  destruct (Graph.mem p (Graph.dependents g c)); [reflexivity|].
  now destruct (Graph.hasEdge g c p).
Qed.

(** One turn of the loop over the new names, seen from any name of the
    graph and from the entries of the map of active names. *)
Lemma new_step_nodes : forall m active changed n,
  let st' := updateRemoteResourceNames_new remoteName rr (m, active, changed) n in
  let k := underRemote remoteName n in
  processManager (fst (fst st')) = processManager m /\
  (forall e, In e (snd (fst st')) -> In e active \/ (fst e = k /\ snd e = true)) /\
  (forall e, In e (snd (fst st')) -> exists v, In (fst e, v) active) /\
  (forall j, j <> k -> forall v, In (j, v) (snd (fst st')) -> In (j, v) active) /\
  (forall j, j <> k ->
     Graph.Node (resources (fst (fst st'))) j = Graph.Node (resources m) j) /\
  (forall h, resource.ResourceByName rr n = Ok h ->
     (forall v, In (k, v) (snd (fst st')) -> v = true) /\
     exists nd,
       Graph.Node (resources (fst (fst st'))) k = Some nd /\
       GraphNode.IsUninitialized nd = false /\
       ((GraphNode.current nd = Some (Driver h) /\ GraphNode.ResourceModel nd = unknownModel) \/
        (active_has active k = true /\ Graph.Node (resources m) k = Some nd))).
Proof.
  intros m active changed n st' k. subst st'. unfold updateRemoteResourceNames_new.
  destruct (resource.ResourceByName rr n) as [res|err] eqn:Hby.
  2:{ cbn [fst snd].
      split; [now destruct (errors.Is err ErrMissingClientRegistration)|].
      split; [auto|]. split; [intros [j v] He; eauto|]. split; [auto|].
      split; [intros j _; now destruct (errors.Is err ErrMissingClientRegistration)|].
      intros h Hh. discriminate Hh. }
  change (Name.PrependRemote n (Name.name remoteName)) with k.
  set (active' := if active_has active k then active_set active k true else active).
  assert (Ha1 : forall e, In e active' -> In e active \/ (fst e = k /\ snd e = true)).
  { intros e He. unfold active' in He. destruct (active_has active k); [|now left].
    apply active_set_entries in He. tauto. }
  assert (Ha2 : forall e, In e active' -> exists v, In (fst e, v) active).
  { intros [j v] He. destruct (Ha1 _ He) as [H|[Hk _]]; [eauto|].
    simpl in Hk. subst j. unfold active' in He.
    destruct (active_has active k) eqn:Hk; [|eauto]. now apply active_has_In. }
  assert (Ha3 : forall j, j <> k -> forall v, In (j, v) active' -> In (j, v) active).
  { intros j Hj v He. destruct (Ha1 _ He) as [H|[Hk _]]; [assumption | contradiction]. }
  assert (Ha4 : forall v, In (k, v) active' -> v = true).
  { intros v He. unfold active' in He. destruct (active_has active k) eqn:Hk.
    - apply active_set_entries in He. simpl in He. destruct He as [[_ E]|[_ E]]; congruence.
    - exfalso. assert (active_has active k = true); [|congruence].
      apply active_has_In. eauto. }
  destruct (active_has active k &&
            match Graph.Node (resources m) k with
            | Some nd => negb (GraphNode.IsUninitialized nd)
            | None => false
            end) eqn:Hskip.
  { cbn [fst snd]. split; [reflexivity|]. do 3 (split; [assumption|]).
    split; [reflexivity|]. intros h Hh. split; [assumption|].
    apply andb_true_iff in Hskip. destruct Hskip as [Hk Hn].
    destruct (Graph.Node (resources m) k) as [nd|]; [|discriminate].
    exists nd. split; [reflexivity|]. apply negb_true_iff in Hn. split; [assumption|].
    right. auto. }
  set (m1 := match Graph.Node (resources m) k with
             | Some nd => _
             | None => _
             end).
  assert (H1 : processManager m1 = processManager m /\
               (forall j, j <> k -> Graph.Node (resources m1) j = Graph.Node (resources m) j) /\
               exists nd, Graph.Node (resources m1) k = Some nd /\
                          GraphNode.IsUninitialized nd = false /\
                          GraphNode.current nd = Some (Driver res) /\
                          GraphNode.ResourceModel nd = unknownModel).
  { unfold m1. destruct (Graph.Node (resources m) k) as [nd|] eqn:Hn.
    - split; [reflexivity|]. split.
      + intros j Hj. rewrite (Node_after_write m k nd _ j Hn).
        apply Name_eqb_neq in Hj. now rewrite Hj.
      + eexists. rewrite (Node_after_write m k nd _ k Hn), Name_eqb_refl.
        split; [reflexivity|]. repeat split.
    - destruct (Node_AddNode (resources m) k
                  (GraphNode.NewConfiguredGraphNode emptyConfig (Driver res) unknownModel) k Hn)
        as [Eadd Hsame].
      pose proof (fun j => proj2 (Node_AddNode (resources m) k
                    (GraphNode.NewConfiguredGraphNode emptyConfig (Driver res) unknownModel)
                    j Hn)) as Hnode.
      rewrite Eadd in *. cbn [fst] in *. cbn [resources withResources processManager].
      split; [reflexivity|]. split.
      + intros j Hj. rewrite Hnode. apply Name_eqb_neq in Hj. now rewrite Hj.
      + eexists. rewrite Hnode, Name_eqb_refl. split; [reflexivity|]. repeat split. }
  destruct H1 as (Hp1 & Hframe1 & nd1 & Hn1 & Hlive1 & Hcur1 & Hmod1).
  pose proof (Node_AddChild (resources m1) k remoteName) as HC.
  assert (Hres : forall h, Ok res = Ok h -> Driver res = Driver h)
    by (intros h E; now injection E as ->).
  destruct (Graph.AddChild (resources m1) k remoteName) as [g [e|]]; cbn [fst] in HC;
    cbn [fst snd resources withResources record processManager].
  - split; [exact Hp1|]. do 3 (split; [assumption|]).
    split; [intros j Hj; rewrite HC; now apply Hframe1|].
    intros h Hh. split; [assumption|]. exists nd1. rewrite HC.
    split; [assumption|]. split; [assumption|]. left. split; [|assumption].
    rewrite Hcur1. f_equal. now apply Hres.
  - split; [exact Hp1|]. do 3 (split; [assumption|]).
    split; [intros j Hj; rewrite HC; now apply Hframe1|].
    intros h Hh. split; [assumption|]. exists nd1. rewrite HC.
    split; [assumption|]. split; [assumption|]. left. split; [|assumption].
    rewrite Hcur1. f_equal. now apply Hres.
Qed.

End Grafting.

Section GraftingLoops.
Import resource robotimpl.
Variable w : World.
Variable remoteName : Name.t.
Variable rr : Robot.
Variable n0 : Name.t.
Variable h0 : Handle.
Hypothesis Hobtained : resource.ResourceByName rr n0 = Ok h0.
Variable before : Graph.t.
Variable active0 : list (Name.t * bool).

(** The node of [n0] under the remote is live, and it is the node grafted
    in this pull or the node that was there. *)
Lemma new_fold_live : forall news m active changed,
  (forall e, In e active -> exists v, In (fst e, v) active0) ->
  (Graph.Node (resources m) (underRemote remoteName n0)
   = Graph.Node before (underRemote remoteName n0) /\ In n0 news) \/
  ((forall v, In (underRemote remoteName n0, v) active -> v = true) /\
   exists nd,
     Graph.Node (resources m) (underRemote remoteName n0) = Some nd /\
     GraphNode.IsUninitialized nd = false /\
     ((GraphNode.current nd = Some (Driver h0) /\ GraphNode.ResourceModel nd = unknownModel) \/
      (active_has active0 (underRemote remoteName n0) = true /\
       Graph.Node before (underRemote remoteName n0) = Some nd))) ->
  let st' := fold_left (updateRemoteResourceNames_new remoteName rr) news
                       (m, active, changed) in
  (forall v, In (underRemote remoteName n0, v) (snd (fst st')) -> v = true) /\
  exists nd,
    Graph.Node (resources (fst (fst st'))) (underRemote remoteName n0) = Some nd /\
    GraphNode.IsUninitialized nd = false /\
    ((GraphNode.current nd = Some (Driver h0) /\ GraphNode.ResourceModel nd = unknownModel) \/
     (active_has active0 (underRemote remoteName n0) = true /\
      Graph.Node before (underRemote remoteName n0) = Some nd)).
Proof.
  set (k0 := underRemote remoteName n0).
  induction news as [|n news IH]; intros m active changed Hkeys H; cbn [fold_left].
  - destruct H as [[_ []]|H]. exact H.
  - pose proof (new_step_nodes remoteName rr m active changed n)
      as (_ & Hent & Hk & Hother & Hframe & Hgood).
    destruct (updateRemoteResourceNames_new remoteName rr (m, active, changed) n)
      as [[m1 a1] c1]. cbn [fst snd] in Hent, Hk, Hother, Hframe, Hgood.
    apply IH.
    + intros e He. destruct (Hk e He) as [v Hv]. apply (Hkeys (fst e, v) Hv).
    + destruct (Name.eqb k0 (underRemote remoteName n)) eqn:E.
      * apply Name_eqb_eq in E. unfold k0 in E. apply underRemote_injective in E. subst n.
        right. destruct (Hgood h0 Hobtained) as (Ht & nd & Hn & Hl & Horigin).
        split; [exact Ht|]. exists nd. split; [exact Hn|]. split; [exact Hl|].
        destruct Horigin as [Hd|[Hact Hsame]]; [now left|].
        destruct H as [[Huntouched _]|(_ & nd' & Hn' & Hl' & Horigin')].
        -- right. split; [|fold k0 in Hsame; fold k0 in Huntouched; congruence].
           apply active_has_In in Hact. destruct Hact as [v Hv].
           destruct (Hkeys _ Hv) as [v' Hv']. apply active_has_In. eauto.
        -- fold k0 in Hsame, Hn'. assert (nd' = nd) by congruence. subst nd'. exact Horigin'.
      * apply Name_eqb_neq in E.
        destruct H as [[Huntouched Hin]|(Ht & nd & Hn & Hrest)].
        -- left. split; [rewrite (Hframe k0 E); exact Huntouched|].
           destruct Hin as [->|Hin]; [contradiction | exact Hin].
        -- right. split.
           ++ intros v Hv. apply Ht. now apply (Hother k0 E).
           ++ exists nd. rewrite (Hframe k0 E). auto.
Qed.

(** The loop over the old names leaves alone a remote-scoped node whose
    name is active. *)
Lemma old_fold_frame : forall active m changed k,
  Name.ContainsRemoteNames k = true ->
  (forall v, In (k, v) active -> v = true) ->
  Graph.Node (resources (fst (fold_left (updateRemoteResourceNames_old w) active (m, changed)))) k
  = Graph.Node (resources m) k.
Proof.
  induction active as [|[o v] active IH]; intros m changed k Hk Ht; [reflexivity|].
  cbn [fold_left].
  assert (Hstep : Graph.Node (resources (fst (updateRemoteResourceNames_old w (m, changed) (o, v)))) k
                  = Graph.Node (resources m) k).
  { unfold updateRemoteResourceNames_old. destruct v; [reflexivity|].
    assert (Hne : k <> o).
    { intro E. subst o. specialize (Ht false (or_introl eq_refl)). discriminate Ht. }
    set (m0 := record m _).
    pose proof (markChildrenForUpdate_remote_frame m0 o k Hk) as Hmark.
    destruct (markChildrenForUpdate m0 o) as [m1 [err|]]; cbn [fst] in Hmark.
    { cbn [fst resources record]. exact Hmark. }
    destruct (Graph.Node (resources m1) o) as [gNode|] eqn:Ho.
    - cbn [GraphNode.Close].
      assert (Hclose : Graph.Node
                         (resources
                            (record
                               (withResources m1
                                  (Graph.setNode (resources m1) o
                                     (GraphNode.mk None (GraphNode.currentModel gNode)
                                        (GraphNode.config gNode)
                                        (GraphNode.unresolvedDependencies gNode)
                                        (GraphNode.needsReconfigure gNode)
                                        (GraphNode.needsUpdate gNode)
                                        (GraphNode.lastErr gNode)
                                        (GraphNode.markedForRemoval gNode))))
                               (Called_Close o))) k
                       = Graph.Node (resources m) k).
      { cbn [resources record]. rewrite (Node_after_write m1 o gNode _ k Ho).
        apply Name_eqb_neq in Hne. rewrite Hne. exact Hmark. }
      destruct (GraphNode.current gNode) as [res|]; cbn [fst].
      + destruct (Resource_Close w res); exact Hclose.
      + exact Hclose.
    - cbn [fst resources record]. exact Hmark. }
  destruct (updateRemoteResourceNames_old w (m, changed) (o, v)) as [m1 c1].
  cbn [fst] in Hstep. rewrite IH; [exact Hstep | exact Hk |].
  intros v' Hv'. apply Ht. now right.
Qed.

End GraftingLoops.

(** X20. After a pull from a remote, every name that the remote gives and
    can hand out has a live node in the graph under the remote's prefix:
    either the node holds the handle obtained in this pull, with the unknown
    model, or the name was already under the remote's node with a live node,
    and the node is that node, untouched. *)
Theorem updateRemoteResourceNames_grafts :
  forall (w : robotimpl.World) (m : robotimpl.resourceManager) (remoteName : Name.t)
         (rr : resource.Robot) (n : Name.t) (h : resource.Handle),
    In n (resource.ResourceNames rr) ->
    resource.ResourceByName rr n = Ok h ->
    exists nd,
      Graph.Node (robotimpl.resources (fst (robotimpl.updateRemoteResourceNames w m remoteName rr)))
                 (underRemote remoteName n) = Some nd /\
      GraphNode.IsUninitialized nd = false /\
      ((GraphNode.current nd = Some (resource.Driver h) /\
        GraphNode.ResourceModel nd = robotimpl.unknownModel) \/
       (In (underRemote remoteName n) (fst (robotimpl.remoteResourceNames m remoteName)) /\
        Graph.Node (robotimpl.resources m) (underRemote remoteName n) = Some nd)).
Proof.
  intros w m remoteName rr n h Hin Hby.
  unfold robotimpl.updateRemoteResourceNames.
  set (m0 := robotimpl.record m (robotimpl.Called_updateRemoteResourceNames remoteName)).
  assert (Hsnap : exists m0',
            robotimpl.remoteResourceNames m0 remoteName
            = (fst (robotimpl.remoteResourceNames m remoteName), m0') /\
            robotimpl.resources m0' = robotimpl.resources m).
  { unfold robotimpl.remoteResourceNames. cbn [robotimpl.resources robotimpl.record m0 fst].
    destruct (Graph.Node (robotimpl.resources m) remoteName); eexists; split; reflexivity. }
  destruct Hsnap as (m0' & -> & Hg0).
  set (old := fst (robotimpl.remoteResourceNames m remoteName)) in *.
  set (active0 := fold_left (fun a res => robotimpl.active_set a res false) old []).
  destruct (new_fold_live remoteName rr n h Hby (robotimpl.resources m) active0
              (resource.ResourceNames rr) m0' active0 false)
    as (Ht & nd & Hn & Hl & Horigin).
  { intros [k v] He. eauto. }
  { left. split; [now rewrite Hg0 | exact Hin]. }
  destruct (fold_left (robotimpl.updateRemoteResourceNames_new remoteName rr)
                      (resource.ResourceNames rr) (m0', active0, false))
    as [[m1 active1] c1]. cbn [fst snd] in Ht, Hn.
  exists nd. rewrite (old_fold_frame w active1 m1 c1 (underRemote remoteName n) eq_refl Ht).
  split; [exact Hn|]. split; [exact Hl|].
  destruct Horigin as [Hd|[Hact Hsame]]; [now left | right].
  split; [|exact Hsame].
  apply active_has_In in Hact. destruct Hact as [v Hv].
  destruct (active_init_keys _ _ _ Hv) as [Ho|[]]. exact Ho.
Qed.

Lemma updateRemoteResourceNames_grafts_witness :
  exists nd,
    Graph.Node (robotimpl.resources
                  (fst (robotimpl.updateRemoteResourceNames scenario.world pending.manager
                          scenario.remoteR1 scenario.robot1)))
               scenario.r1camera = Some nd /\
    GraphNode.IsUninitialized nd = false /\
    ((GraphNode.current nd = Some (resource.Driver 12) /\
      GraphNode.ResourceModel nd = robotimpl.unknownModel) \/
     (In scenario.r1camera (fst (robotimpl.remoteResourceNames pending.manager scenario.remoteR1)) /\
      Graph.Node (robotimpl.resources pending.manager) scenario.r1camera = Some nd)).
Proof.
  apply (updateRemoteResourceNames_grafts scenario.world pending.manager scenario.remoteR1
           scenario.robot1 (Name.mk scenario.cameraAPI [] "c") 12).
  - simpl. tauto.
  - reflexivity.
Defined.

Section Removal.
Import resource robotimpl removal.

Lemma mem_In : forall k l, Graph.mem k l = true <-> In k l.
Proof.
  intros k l. unfold Graph.mem. rewrite existsb_exists. split.
  - intros (x & Hx & E). apply Name_eqb_eq in E. now subst.
  - intros H. exists k. split; [assumption | apply Name_eqb_refl].
Qed.

Lemma Name_eq_dec : forall a b : Name.t, {a = b} + {a <> b}.
Proof.
  intros a b. destruct (Name.eqb a b) eqn:E.
  - left. now apply Name_eqb_eq.
  - right. now apply Name_eqb_neq.
Qed.

Lemma addName_In : forall names n k, In k (addName names n) <-> In k names \/ k = n.
Proof.
  intros names n k. unfold addName. destruct (Graph.mem n names) eqn:E.
  - apply mem_In in E. split; [auto|]. intros [H| ->]; assumption.
  - rewrite in_app_iff. simpl. intuition congruence.
Qed.

Lemma addNames_In : forall more names k,
  In k (addNames names more) <-> In k names \/ In k more.
Proof.
  unfold addNames. induction more as [|n more IH]; intros names k; simpl.
  - tauto.
  - rewrite IH, addName_In. intuition congruence.
Qed.

Lemma Names_MarkForRemoval : forall g sg, Graph.Names (MarkForRemoval g sg) = Graph.Names g.
Proof.
  intros [ns es] sg. unfold Graph.Names, MarkForRemoval. simpl. rewrite map_map.
  apply map_ext. intros [k x]. simpl. now destruct (Graph.mem k (Graph.Names sg)).
Qed.

Lemma Node_MarkForRemoval : forall g sg k,
  Graph.Node (MarkForRemoval g sg) k
  = match Graph.Node g k with
    | Some nd => Some (if Graph.mem k (Graph.Names sg) then markNode nd else nd)
    | None => None
    end.
Proof.
  intros [ns es] sg k. unfold Graph.Node, MarkForRemoval. simpl.
  induction ns as [|[k0 nd0] ns IH]; simpl; [reflexivity|].
  destruct (Graph.mem k0 (Graph.Names sg)) eqn:Em; simpl;
    destruct (Name.eqb k0 k) eqn:E; simpl; try exact IH.
  - apply Name_eqb_eq in E. subst k0. now rewrite Em.
  - apply Name_eqb_eq in E. subst k0. now rewrite Em.
Qed.

Lemma closure_keeps : forall fuel g acc x, In x acc -> In x (Graph.closure fuel g acc).
Proof.
  induction fuel as [|fuel IH]; intros g acc x H; simpl; [assumption|].
  apply IH. unfold Graph.grow. apply in_or_app. now left.
Qed.

Lemma SubGraphFrom_root : forall g root sg,
  Graph.SubGraphFrom g root = Ok sg -> In root (Graph.Names sg).
Proof.
  intros g root sg H. rewrite (SubGraphFrom_Names _ _ _ H). apply filter_In.
  unfold Graph.SubGraphFrom in H. destruct (Graph.Node g root) as [nd|] eqn:E; [|discriminate].
  split; [now apply (Node_in_Names _ _ nd)|].
  apply mem_In. unfold Graph.dependents. apply closure_keeps. now left.
Qed.

(** What a turn on the name of a removed resource keeps of the state: the
    options, the process managers, the names and the edges of the graph; the
    lists only grow, and a node is as it was or has got the mark. *)
Lemma markRemoved_resource_facts : forall st n,
  let st' := markRemoved_resource st n in
  opts (manager st') = opts (manager st) /\
  processManager (manager st') = processManager (manager st) /\
  processesToClose st' = processesToClose st /\
  sameShape (resources (manager st)) (resources (manager st')) /\
  (forall k, In k (resourcesToCloseBeforeComplete st) -> In k (resourcesToCloseBeforeComplete st')) /\
  (forall k, In k (markedResourceNames st) -> In k (markedResourceNames st')) /\
  (forall k, exists marks : bool,
     Graph.Node (resources (manager st')) k
     = option_map (fun nd => if marks then markNode nd else nd)
                  (Graph.Node (resources (manager st)) k) /\
     (In k (markedResourceNames st') -> ~ In k (markedResourceNames st) -> marks = true)) /\
  (Graph.Node (resources (manager st)) n <> None ->
   In n (resourcesToCloseBeforeComplete st') /\ In n (markedResourceNames st')).
Proof.
  intros st n st'. subst st'. unfold markRemoved_resource.
  destruct (Graph.Node (resources (manager st)) n) as [nd|] eqn:Hn.
  2:{ do 3 (split; [reflexivity|]). split; [apply sameShape_refl|].
      do 2 (split; [auto|]). split; [|congruence].
      intro k. exists false. split; [now destruct (Graph.Node _ k)|]. contradiction. }
  destruct (SubGraphFrom_of_name (resources (manager st)) n (Node_in_Names _ _ _ Hn))
    as [sg Hsg].
  rewrite Hsg. cbn [manager processesToClose resourcesToCloseBeforeComplete markedResourceNames
                    opts processManager resources withResources].
  do 3 (split; [reflexivity|]).
  split; [split; [symmetry; apply Names_MarkForRemoval | reflexivity]|].
  split; [intros k Hk; apply in_or_app; now left|].
  split; [intros k Hk; apply addNames_In; now left|].
  split.
  - intro k. exists (Graph.mem k (Graph.Names sg)). split.
    + rewrite Node_MarkForRemoval. now destruct (Graph.Node _ k).
    + intros Hin Hnot. apply addNames_In in Hin. destruct Hin as [Hin|Hin];
        [contradiction | now apply mem_In].
  - intros _. split; [apply in_or_app; right; now left|].
    apply addNames_In. right. now apply (SubGraphFrom_root _ _ _ Hsg).
Qed.

Lemma markNode_marked : forall nd, GraphNode.markedForRemoval (markNode nd) = true.
Proof. reflexivity. Qed.

Lemma markNode_twice : forall nd, markNode (markNode nd) = markNode nd.
Proof. reflexivity. Qed.

(** What a run of turns on names keeps true, from a state where every
    marked name has a marked node. *)
Lemma markRemoved_names_facts : forall names st,
  (forall k, In k (markedResourceNames st) ->
     exists nd, Graph.Node (resources (manager st)) k = Some nd /\
                GraphNode.markedForRemoval nd = true) ->
  let st' := fold_left markRemoved_resource names st in
  opts (manager st') = opts (manager st) /\
  processManager (manager st') = processManager (manager st) /\
  processesToClose st' = processesToClose st /\
  sameShape (resources (manager st)) (resources (manager st')) /\
  (forall k, In k (resourcesToCloseBeforeComplete st) -> In k (resourcesToCloseBeforeComplete st')) /\
  (forall k, In k (markedResourceNames st) -> In k (markedResourceNames st')) /\
  (forall k, In k (markedResourceNames st') ->
     exists nd, Graph.Node (resources (manager st')) k = Some nd /\
                GraphNode.markedForRemoval nd = true) /\
  (forall k nd, Graph.Node (resources (manager st)) k = Some nd ->
     exists nd', Graph.Node (resources (manager st')) k = Some nd' /\
                 (nd' = nd \/ nd' = markNode nd)) /\
  (forall k, In k names -> Graph.Node (resources (manager st)) k <> None ->
     In k (resourcesToCloseBeforeComplete st') /\ In k (markedResourceNames st')).
Proof.
  induction names as [|n names IH]; intros st Hmarked; cbn [fold_left].
  - do 3 (split; [reflexivity|]). split; [apply sameShape_refl|].
    do 2 (split; [auto|]). split; [exact Hmarked|]. split; [eauto|]. intros k [].
  - pose proof (markRemoved_resource_facts st n)
      as (Ho & Hp & Hc & Hs & Hclose & Hnames & Hnode & Hn).
    set (st1 := markRemoved_resource st n) in *.
    assert (Hmarked1 : forall k, In k (markedResourceNames st1) ->
              exists nd, Graph.Node (resources (manager st1)) k = Some nd /\
                         GraphNode.markedForRemoval nd = true).
    { intros k Hk. destruct (Hnode k) as (marks & Hk1 & Hnew).
      destruct (in_dec Name_eq_dec k (markedResourceNames st)) as [Hold|Hold].
      - destruct (Hmarked k Hold) as (nd & Hnd & Hm). rewrite Hnd in Hk1. simpl in Hk1.
        eexists. split; [exact Hk1|]. now destruct marks.
      - specialize (Hnew Hk Hold). subst marks.
        destruct (Graph.Node (resources (manager st)) k) as [nd|] eqn:E.
        + simpl in Hk1. eexists. split; [exact Hk1 | reflexivity].
        + exfalso. simpl in Hk1.
          assert (Hin : In k (Graph.Names (resources (manager st1)))).
          { destruct Hs as [Hs _]. rewrite <- Hs.
            (* a marked name is a name of the graph *)
            unfold st1, markRemoved_resource in Hk.
            destruct (Graph.Node (resources (manager st)) n) as [ndn|] eqn:En;
              [|contradiction].
            destruct (Graph.SubGraphFrom (resources (manager st)) n) as [sg|err] eqn:Esg;
              cbn [markedResourceNames] in Hk; [|contradiction].
            apply addNames_In in Hk. destruct Hk as [Hk|Hk]; [contradiction|].
            now apply (SubGraphFrom_subset _ _ _ _ Esg). }
          destruct (Node_of_name _ _ Hin) as [nd Hnd]. congruence. }
    destruct (IH st1 Hmarked1) as (Ho' & Hp' & Hc' & Hs' & Hclose' & Hnames' & Hm' & Hnode' & Hn').
    split; [congruence|]. split; [congruence|]. split; [congruence|].
    split; [eapply sameShape_trans; eassumption|].
    split; [auto|]. split; [auto|]. split; [exact Hm'|]. split.
    + intros k nd Hk. destruct (Hnode k) as (marks & Hk1 & _). rewrite Hk in Hk1. simpl in Hk1.
      destruct (Hnode' k _ Hk1) as (nd' & Hnd' & Hor). exists nd'. split; [exact Hnd'|].
      destruct marks; destruct Hor as [->| ->]; auto.
    + intros k [<-|Hk] Hnone.
      * destruct (Hn Hnone) as [H1 H2]. split; auto.
      * apply Hn'; [assumption|].
        destruct (Graph.Node (resources (manager st)) k) as [nd|] eqn:E; [|contradiction].
        destruct (Hnode k) as (marks & Hk1 & _). rewrite E in Hk1. simpl in Hk1. congruence.
Qed.

Lemma process_fold_untrusted : forall ap ps st,
  untrustedEnv (opts (manager st)) = true ->
  fold_left (markRemoved_process ap) ps st = st.
Proof.
  intros ap. induction ps as [|p ps IH]; intros st Hu; [reflexivity|].
  cbn [fold_left]. unfold markRemoved_process at 2. rewrite Hu. now apply IH.
Qed.

Lemma service_fold_names : forall ss st,
  fold_left markRemoved_service ss st
  = fold_left markRemoved_resource
      (map ResourceName
           (filter (fun s => negb (untrustedEnv (opts (manager st)) && isShellService s)) ss))
      st.
Proof.
  induction ss as [|s ss IH]; intros st; [reflexivity|].
  cbn [fold_left filter]. unfold markRemoved_service at 2. unfold isShellService at 1.
  destruct (untrustedEnv (opts (manager st)) &&
            API.eqb (Name.api (ResourceName s)) shellAPI) eqn:E; cbn [negb].
  - apply IH.
  - cbn [map fold_left]. rewrite IH.
    destruct (markRemoved_resource_facts st (ResourceName s)) as (Ho & _). now rewrite Ho.
Qed.

Lemma fold_names_map : forall (A : Type) (f : A -> Name.t) l st,
  fold_left (fun st0 x => markRemoved_resource st0 (f x)) l st
  = fold_left markRemoved_resource (map f l) st.
Proof.
  intros A f. induction l as [|x l IH]; intro st; [reflexivity|]. simpl. apply IH.
Qed.

End Removal.

Section RemovalRun.
Import resource robotimpl removal.

Lemma markRemoved_process_facts : forall ap ps st,
  let st' := fold_left (markRemoved_process ap) ps st in
  opts (manager st') = opts (manager st) /\
  resources (manager st') = resources (manager st) /\
  resourcesToCloseBeforeComplete st' = resourcesToCloseBeforeComplete st /\
  markedResourceNames st' = markedResourceNames st.
Proof.
  intros ap. induction ps as [|p ps IH]; intros st; cbn [fold_left]; [auto|].
  assert (Hstep : opts (manager (markRemoved_process ap st p)) = opts (manager st) /\
                  resources (manager (markRemoved_process ap st p)) = resources (manager st) /\
                  resourcesToCloseBeforeComplete (markRemoved_process ap st p)
                  = resourcesToCloseBeforeComplete st /\
                  markedResourceNames (markRemoved_process ap st p) = markedResourceNames st).
  { unfold markRemoved_process. destruct (untrustedEnv (opts (manager st))); [auto|].
    destruct (RemoveProcessByID (processManager (manager st)) (config.ID p)) as [pm [proc|]];
      [|cbn; auto].
    destruct (ap (processesToClose st) proc) as [toClose [err|]]; cbn; auto. }
  destruct Hstep as (H1 & H2 & H3 & H4).
  destruct (IH (markRemoved_process ap st p)) as (H1' & H2' & H3' & H4').
  repeat split; congruence.
Qed.

(** [markRemoved], as one run of turns on names after the loop over the
    processes. *)
Lemma markRemoved_as_names : forall ap m conf,
  markRemoved ap m conf
  = fold_left markRemoved_resource (removedNames m conf)
      (fold_left (markRemoved_process ap) (Processes conf)
                 (mkMarked m (newProcessManager (opts m)) [] [])).
Proof.
  intros ap m conf. unfold markRemoved, removedNames.
  set (st0 := fold_left (markRemoved_process ap) (Processes conf) _).
  rewrite !fold_left_app.
  rewrite (fold_names_map _ (fun r => fromRemoteNameToRemoteNodeName (config.Name r))
                          (Remotes conf)).
  rewrite (fold_names_map _ ResourceName (Components conf)).
  rewrite service_fold_names.
  assert (Ho : opts (manager
                 (fold_left markRemoved_resource (map ResourceName (Components conf))
                    (fold_left markRemoved_resource
                       (map (fun r => fromRemoteNameToRemoteNodeName (config.Name r))
                            (Remotes conf)) st0))) = opts m).
  { destruct (markRemoved_process_facts ap (Processes conf)
                (mkMarked m (newProcessManager (opts m)) [] [])) as (Hp & _).
    fold st0 in Hp. cbn [manager] in Hp.
    assert (Hgen : forall names st, opts (manager (fold_left markRemoved_resource names st))
                                    = opts (manager st)).
    { induction names as [|n names IHn]; intro st; [reflexivity|]. cbn [fold_left].
      rewrite IHn. now destruct (markRemoved_resource_facts st n) as (H & _). }
    now rewrite !Hgen. }
  now rewrite Ho.
Qed.

End RemovalRun.

(** X21. In an untrusted environment [markRemoved] takes no process out of
    the process manager and hands back a process manager that does nothing,
    and it passes over the shell services: it does what it does for the
    configuration without its processes and its shell services. *)
Theorem markRemoved_untrusted_policy :
  forall (addProcess : removal.AddProcess) (m : robotimpl.resourceManager)
         (conf : robotimpl.RobotConfig),
    robotimpl.untrustedEnv (robotimpl.opts m) = true ->
    removal.markRemoved addProcess m conf = removal.markRemoved addProcess m (permitted conf) /\
    robotimpl.processManager (removal.manager (removal.markRemoved addProcess m conf))
    = robotimpl.processManager m /\
    removal.processesToClose (removal.markRemoved addProcess m conf)
    = robotimpl.mkProcessManager true [].
Proof.
  intros ap m conf Hu.
  assert (Hrun : forall c,
            removal.markRemoved ap m c
            = fold_left removal.markRemoved_resource (removedNames m c)
                (removal.mkMarked m (robotimpl.newProcessManager (robotimpl.opts m)) [] [])).
  { intro c. rewrite markRemoved_as_names. now rewrite process_fold_untrusted by exact Hu. }
  split; [|split].
  - rewrite !Hrun. f_equal. unfold removedNames, permitted, withoutShell.
    cbn [robotimpl.Remotes robotimpl.Components robotimpl.Services]. rewrite Hu. cbn [andb].
    do 3 f_equal. induction (robotimpl.Services conf) as [|s ss IH]; [reflexivity|].
    cbn [filter]. destruct (isShellService s) eqn:E; cbn [negb]; [exact IH|].
    cbn [filter]. rewrite E. cbn [negb]. f_equal. exact IH.
  - rewrite Hrun.
    destruct (markRemoved_names_facts (removedNames m conf)
                (removal.mkMarked m (robotimpl.newProcessManager (robotimpl.opts m)) [] []))
      as (_ & Hp & _); [intros k []|]. exact Hp.
  - rewrite Hrun.
    destruct (markRemoved_names_facts (removedNames m conf)
                (removal.mkMarked m (robotimpl.newProcessManager (robotimpl.opts m)) [] []))
      as (_ & _ & Hc & _); [intros k []|]. rewrite Hc. cbn [removal.processesToClose].
    unfold robotimpl.newProcessManager. now rewrite Hu.
Qed.

Lemma markRemoved_untrusted_policy_witness :
  removal.markRemoved acceptProcess untrusted.manager
    (robotimpl.mkRobotConfig [untrusted.armConf] [untrusted.shellConf] [] [untrusted.process])
  = removal.markRemoved acceptProcess untrusted.manager
      (permitted (robotimpl.mkRobotConfig [untrusted.armConf] [untrusted.shellConf] []
                                          [untrusted.process])) /\
  robotimpl.processManager
    (removal.manager
       (removal.markRemoved acceptProcess untrusted.manager
          (robotimpl.mkRobotConfig [untrusted.armConf] [untrusted.shellConf] []
                                   [untrusted.process])))
  = robotimpl.processManager untrusted.manager /\
  removal.processesToClose
    (removal.markRemoved acceptProcess untrusted.manager
       (robotimpl.mkRobotConfig [untrusted.armConf] [untrusted.shellConf] []
                                [untrusted.process]))
  = robotimpl.mkProcessManager true [].
Proof.
  exact (markRemoved_untrusted_policy acceptProcess untrusted.manager
           (robotimpl.mkRobotConfig [untrusted.armConf] [untrusted.shellConf] []
                                    [untrusted.process]) eq_refl).
Defined.

(** X22. [markRemoved] only marks: the graph keeps its names and its edges,
    and every node is as it was or has got the removal mark. Every name it
    hands back as marked has a node, and that node has the mark. Every
    remote, component and service of the configuration (a shell service in
    an untrusted environment apart) that has a node is handed back both to
    be closed and as marked. *)
Theorem markRemoved_marks_what_it_lists :
  forall (addProcess : removal.AddProcess) (m : robotimpl.resourceManager)
         (conf : robotimpl.RobotConfig),
    sameShape (robotimpl.resources m)
              (robotimpl.resources (removal.manager (removal.markRemoved addProcess m conf))) /\
    (forall k nd, Graph.Node (robotimpl.resources m) k = Some nd ->
       exists nd',
         Graph.Node (robotimpl.resources (removal.manager (removal.markRemoved addProcess m conf))) k
         = Some nd' /\
         (nd' = nd \/ nd' = removal.markNode nd)) /\
    (forall k, In k (removal.markedResourceNames (removal.markRemoved addProcess m conf)) ->
       exists nd,
         Graph.Node (robotimpl.resources (removal.manager (removal.markRemoved addProcess m conf))) k
         = Some nd /\
         GraphNode.markedForRemoval nd = true) /\
    (forall k, In k (removedNames m conf) -> Graph.Node (robotimpl.resources m) k <> None ->
       In k (removal.resourcesToCloseBeforeComplete (removal.markRemoved addProcess m conf)) /\
       In k (removal.markedResourceNames (removal.markRemoved addProcess m conf))).
Proof.
  intros ap m conf. rewrite markRemoved_as_names.
  destruct (markRemoved_process_facts ap (robotimpl.Processes conf)
              (removal.mkMarked m (robotimpl.newProcessManager (robotimpl.opts m)) [] []))
    as (_ & Hg & _ & Hm).
  set (st0 := fold_left (removal.markRemoved_process ap) (robotimpl.Processes conf) _) in *.
  cbn [removal.manager removal.markedResourceNames] in Hg, Hm.
  destruct (markRemoved_names_facts (removedNames m conf) st0)
    as (_ & _ & _ & Hs & _ & _ & Hmarked & Hnode & Hlisted).
  { rewrite Hm. intros k []. }
  rewrite Hg in Hs, Hnode, Hlisted. auto.
Qed.

Section IdlePass.
Import resource robotimpl.

Lemma settled_configured : forall m,
  anyResourcesNotConfigured m = false <-> settled (resources m).
Proof.
  intros m. unfold anyResourcesNotConfigured, settled. split.
  - intros H n nd Hn. destruct (GraphNode.NeedsReconfigure nd) eqn:E; [|reflexivity].
    rewrite <- H. symmetry. apply existsb_exists. exists n. split.
    + now apply Node_in_Names with (nd := nd).
    + now rewrite Hn.
  - intros H. destruct (existsb _ _) eqn:E; [|reflexivity].
    apply existsb_exists in E. destruct E as (n & _ & Hn).
    destruct (Graph.Node (resources m) n) as [nd|] eqn:En; [|discriminate].
    now rewrite (H n nd En) in Hn.
Qed.

Lemma completeConfig_remote_idle : forall w m l,
  settled (resources m) -> fold_left (completeConfig_remote w) l m = m.
Proof.
  intros w m l H. induction l as [|n l IH]; [reflexivity|]. cbn [fold_left].
  assert (Hn : completeConfig_remote w m n = m).
  { unfold completeConfig_remote. destruct (Graph.Node (resources m) n) as [nd|] eqn:En;
      [|reflexivity]. now rewrite (H n nd En). }
  now rewrite Hn.
Qed.

Lemma completeConfig_resource_idle : forall w m l,
  settled (resources m) -> fold_left (completeConfig_resource w) l m = m.
Proof.
  intros w m l H. induction l as [|n l IH]; [reflexivity|]. cbn [fold_left].
  assert (Hn : completeConfig_resource w m n = m).
  { unfold completeConfig_resource. destruct (Graph.Node (resources m) n) as [nd|] eqn:En;
      [|reflexivity]. now rewrite (H n nd En). }
  now rewrite Hn.
Qed.

Lemma AddChild_nodes : forall g c p, Graph.nodes (fst (Graph.AddChild g c p)) = Graph.nodes g.
Proof.
  intros g c p. unfold Graph.AddChild.
  destruct (Name.eqb c p); [reflexivity|].
  destruct (Graph.mem p (Graph.dependents g c)); [reflexivity|].
  now destruct (Graph.hasEdge g c p).
Qed.

Lemma resolveOne_nodes : forall g n dep,
  Graph.nodes (fst (Graph.resolveOne g n dep)) = Graph.nodes g.
Proof.
  intros g n dep. unfold Graph.resolveOne.
  destruct (filter _ _) as [|k [|k' l]]; try reflexivity.
  pose proof (AddChild_nodes g n k) as H.
  destruct (Graph.AddChild g n k) as [g' [e|]]; [reflexivity | exact H].
Qed.

Lemma resolve_fold_nodes : forall n deps g un,
  Graph.nodes
    (fst (fold_left
            (fun acc dep =>
               let '(g1, un) := acc in
               match Graph.resolveOne g1 n dep with
               | (g2, true) => (g2, un)
               | (_, false) => (g1, un ++ [dep])
               end) deps (g, un)))
  = Graph.nodes g.
Proof.
  intros n. induction deps as [|dep deps IH]; intros g un; [reflexivity|].
  cbn [fold_left]. pose proof (resolveOne_nodes g n dep) as H.
  destruct (Graph.resolveOne g n dep) as [g2 [|]]; rewrite IH; [exact H | reflexivity].
Qed.

Lemma Node_nodes : forall g g' k, Graph.nodes g' = Graph.nodes g -> Graph.Node g' k = Graph.Node g k.
Proof. intros g g' k H. unfold Graph.Node. now rewrite H. Qed.

Lemma resolveNode_settled : forall (L : Type) (logger : error -> L) st n,
  settled (fst (fst st)) -> settled (fst (fst (Graph.resolveNode logger st n))).
Proof.
  intros L logger [[g errs] logged] n H. unfold Graph.resolveNode. cbn [fst] in H.
  destruct (Graph.Node g n) as [nd|] eqn:En; [|exact H].
  pose proof (resolve_fold_nodes n (GraphNode.unresolvedDependencies nd) g []) as Hn.
  destruct (fold_left _ _ _) as [g' unresolved]. cbn [fst] in Hn.
  assert (G : settled (Graph.setNode g' n
                         (GraphNode.mk (GraphNode.current nd) (GraphNode.currentModel nd)
                            (GraphNode.config nd) unresolved (GraphNode.needsReconfigure nd)
                            (GraphNode.needsUpdate nd) (GraphNode.lastErr nd)
                            (GraphNode.markedForRemoval nd)))).
  { intros k nd' Hk. destruct (Name.eqb k n) eqn:E.
    - apply Name_eqb_eq in E. subst k. rewrite Node_setNode_same in Hk.
      + injection Hk as <-. exact (H n nd En).
      + apply Node_in_Names with (nd := nd). now rewrite (Node_nodes g g' n Hn).
    - apply Name_eqb_neq in E. rewrite Node_setNode_other in Hk by exact E.
      rewrite (Node_nodes g g' k Hn) in Hk. exact (H k nd' Hk). }
  now destruct unresolved.
Qed.

Lemma ResolveDependencies_settled : forall (L : Type) (logger : error -> L) g,
  settled g -> settled (fst (fst (Graph.ResolveDependencies logger g))).
Proof.
  intros L logger g H. unfold Graph.ResolveDependencies.
  assert (G : forall l st, settled (fst (fst st)) ->
                           settled (fst (fst (fold_left (Graph.resolveNode logger) l st)))).
  { induction l as [|n l IH]; intros st Hst; [exact Hst|]. cbn [fold_left].
    apply IH. now apply resolveNode_settled. }
  now apply G.
Qed.

End IdlePass.

(** X23. A pass of [completeConfig] over a manager none of whose resources is
    waiting to be configured builds nothing, dials no remote and closes
    nothing: the process manager is as before, the graph is what the
    resolution of the dependencies makes of it, what is logged is what the
    resolver logs on its own and then, if the resolver returns an error, the
    debug line that carries this error, and afterwards no resource is
    waiting to be configured. *)
Theorem completeConfig_idle : forall (w : robotimpl.World) (m : robotimpl.resourceManager),
  robotimpl.anyResourcesNotConfigured m = false ->
  robotimpl.resources (robotimpl.completeConfig w m)
  = fst (fst (Graph.ResolveDependencies robotimpl.ResolverLog (robotimpl.resources m))) /\
  robotimpl.processManager (robotimpl.completeConfig w m) = robotimpl.processManager m /\
  robotimpl.trace (robotimpl.completeConfig w m)
  = robotimpl.trace m
    ++ snd (Graph.ResolveDependencies robotimpl.ResolverLog (robotimpl.resources m))
    ++ match robotimpl.multierr_error
               (snd (fst (Graph.ResolveDependencies robotimpl.ResolverLog
                            (robotimpl.resources m)))) with
       | None => []
       | Some err => [robotimpl.Debugw "error resolving dependencies"
                                       [("error", robotimpl.VError err)]]
       end /\
  robotimpl.anyResourcesNotConfigured (robotimpl.completeConfig w m) = false.
Proof.
  intros w m H. apply settled_configured in H.
  pose proof (ResolveDependencies_settled _ robotimpl.ResolverLog _ H) as Hg.
  unfold robotimpl.completeConfig. rewrite (completeConfig_remote_idle w m _ H).
  destruct (Graph.ResolveDependencies robotimpl.ResolverLog (robotimpl.resources m))
    as [[g errs] logged].
  cbn [fst snd] in Hg |- *.
  destruct (robotimpl.multierr_error errs) as [err|].
  - rewrite completeConfig_resource_idle by exact Hg. cbn.
    rewrite <- app_assoc. repeat split. now apply settled_configured.
  - rewrite completeConfig_resource_idle by exact Hg. cbn.
    rewrite app_nil_r. repeat split. now apply settled_configured.
Qed.

Lemma completeConfig_idle_witness :
  robotimpl.anyResourcesNotConfigured rebuild.configured = false /\
  robotimpl.resources (robotimpl.completeConfig scenario.world rebuild.configured)
  = fst (fst (Graph.ResolveDependencies robotimpl.ResolverLog
                (robotimpl.resources rebuild.configured))) /\
  robotimpl.processManager (robotimpl.completeConfig scenario.world rebuild.configured)
  = robotimpl.processManager rebuild.configured /\
  robotimpl.trace (robotimpl.completeConfig scenario.world rebuild.configured)
  = robotimpl.trace rebuild.configured
    ++ snd (Graph.ResolveDependencies robotimpl.ResolverLog
              (robotimpl.resources rebuild.configured))
    ++ match robotimpl.multierr_error
               (snd (fst (Graph.ResolveDependencies robotimpl.ResolverLog
                            (robotimpl.resources rebuild.configured)))) with
       | None => []
       | Some err => [robotimpl.Debugw "error resolving dependencies"
                                       [("error", robotimpl.VError err)]]
       end /\
  robotimpl.anyResourcesNotConfigured
    (robotimpl.completeConfig scenario.world rebuild.configured) = false.
Proof.
  refine (conj _ (completeConfig_idle scenario.world rebuild.configured _));
    vm_compute; reflexivity.
Defined.

(* ================================================================== *)
(** ** The graphs that the manager makes *)

Section ManagerGraphs.
Import resource robotimpl.

Lemma wellMade_setNode : forall g n nd',
  wellMade g ->
  (ofRemote n -> GraphNode.unresolvedDependencies nd' = []) ->
  wellMade (Graph.setNode g n nd').
Proof.
  intros g n nd' [Hs Hr] Hn. split; [exact Hs|].
  intros k nd Hk Hrem. destruct (Name.eqb k n) eqn:E.
  - apply Name_eqb_eq in E. subst k.
    rewrite Node_setNode_same in Hk.
    + injection Hk as <-. now apply Hn.
    + rewrite <- (Names_setNode g n nd'). now apply Node_in_Names with (nd := nd).
  - apply Name_eqb_neq in E. rewrite Node_setNode_other in Hk by exact E.
    now apply (Hr k nd).
Qed.

Lemma wellMade_write : forall g n nd nd',
  wellMade g -> Graph.Node g n = Some nd ->
  GraphNode.unresolvedDependencies nd' = GraphNode.unresolvedDependencies nd ->
  wellMade (Graph.setNode g n nd').
Proof.
  intros g n nd nd' H Hn E. apply wellMade_setNode; [exact H|].
  intro Hrem. rewrite E. destruct H as [_ Hr]. now apply (Hr n nd).
Qed.

Lemma wellMade_edges : forall g g',
  wellMade g -> Graph.nodes g' = Graph.nodes g -> incl (Graph.edges g') (Graph.edges g) ->
  wellMade g'.
Proof.
  intros g g' [Hs Hr] Hn He. split.
  - intros c p H. apply Hs. now apply He.
  - intros k nd Hk. rewrite (Node_nodes g g' k Hn) in Hk. now apply Hr.
Qed.

Lemma wellMade_AddChild : forall g c p,
  wellMade g ->
  (Name.ContainsRemoteNames c = true -> Name.api p = RemoteAPI) ->
  (Name.ContainsRemoteNames c = false -> Name.api c <> RemoteAPI) ->
  wellMade (fst (Graph.AddChild g c p)).
Proof.
  intros g c p H H1 H2. unfold Graph.AddChild.
  destruct (Name.eqb c p); [exact H|].
  destruct (Graph.mem p (Graph.dependents g c)); [exact H|].
  destruct (Graph.hasEdge g c p); [exact H|]. cbn [fst].
  destruct H as [Hs Hr]. split.
  - intros c' p' Hin. cbn [Graph.edges] in Hin. apply in_app_or in Hin.
    destruct Hin as [Hin|[Hin|[]]]; [now apply Hs|]. injection Hin as <- <-. now split.
  - intros k nd Hk. now apply Hr.
Qed.

Lemma wellMade_AddNode : forall g n nd,
  wellMade g ->
  (ofRemote n -> GraphNode.unresolvedDependencies nd = []) ->
  wellMade (fst (Graph.AddNode g n nd)).
Proof.
  intros g n nd H Hn. unfold Graph.AddNode.
  destruct (Graph.Node g n) eqn:E; [exact H|]. cbn [fst].
  destruct H as [Hs Hr]. split; [exact Hs|].
  intros k nd' Hk Hrem. unfold Graph.Node in Hk, E. cbn [Graph.nodes] in Hk.
  rewrite find_over_app in Hk.
  destruct (find (fun e => Name.eqb (fst e) k) (Graph.nodes g)) as [e|] eqn:Ek.
  - apply (Hr k nd'); [|exact Hrem]. unfold Graph.Node. now rewrite Ek.
  - cbn [find fst] in Hk. destruct (Name.eqb n k) eqn:Enk; [|discriminate].
    cbn [snd] in Hk. injection Hk as <-. apply Name_eqb_eq in Enk. subst k. now apply Hn.
Qed.

Lemma wellMade_RemoveChildren : forall n ps g,
  wellMade g -> wellMade (fold_left (fun g0 parent => Graph.RemoveChild g0 n parent) ps g).
Proof.
  intros n. induction ps as [|p ps IH]; intros g H; cbn [fold_left]; [exact H|].
  apply IH. apply (wellMade_edges g); [exact H | reflexivity |].
  intros e He. unfold Graph.RemoveChild in He. cbn [Graph.edges] in He.
  now apply filter_In in He.
Qed.

Lemma wellMade_markedGraph : forall g n conf deps,
  wellMade g -> (ofRemote n -> deps = []) -> wellMade (markedGraph g n conf deps).
Proof.
  intros g n conf deps H Hn. unfold markedGraph.
  destruct (Graph.Node g n) as [gNode|] eqn:E.
  - apply wellMade_RemoveChildren. now apply wellMade_setNode.
  - pose proof (wellMade_AddNode g n (GraphNode.NewUnconfiguredGraphNode conf deps) H Hn) as G.
    unfold Graph.AddNode in G. now rewrite E in G.
Qed.

Lemma wellMade_applyMarks : forall ms g,
  Forall (fun x : Mark => ofRemote (markName x) -> snd x = []) ms ->
  wellMade g -> wellMade (applyMarks ms g).
Proof.
  unfold applyMarks. induction ms as [|x ms IH]; intros g Hms H; cbn [fold_left]; [exact H|].
  inversion Hms as [|? ? Hx Hrest]; subst. apply IH; [exact Hrest|].
  now apply wellMade_markedGraph.
Qed.

Lemma addProcesses_resources : forall w ps m errs,
  resources (fst (updateResources_addProcesses w m errs ps)) = resources m.
Proof.
  intros w. induction ps as [|p ps IH]; intros m errs; cbn [updateResources_addProcesses];
    [reflexivity|].
  destruct (untrustedEnv (opts m)); [reflexivity|].
  destruct (AddProcessFromConfig w (processManager m) p) as [pm [e|]]; now rewrite IH.
Qed.

Lemma modifyProcesses_resources : forall w ps m errs,
  resources (fst (updateResources_modifyProcesses w m errs ps)) = resources m.
Proof.
  intros w. induction ps as [|p ps IH]; intros m errs; cbn [updateResources_modifyProcesses];
    [reflexivity|].
  destruct (untrustedEnv (opts m)); [reflexivity|].
  destruct (RemoveProcessByID (processManager m) (config.ID p)) as [pm [old|]].
  - destruct (Process_Stop w old) as [e|];
      match goal with
      | |- context [AddProcessFromConfig w ?pm0 p] =>
          destruct (AddProcessFromConfig w pm0 p) as [pm' [e'|]]
      end; now rewrite IH.
  - match goal with
    | |- context [AddProcessFromConfig w ?pm0 p] =>
        destruct (AddProcessFromConfig w pm0 p) as [pm' [e'|]]
    end; now rewrite IH.
Qed.

(** The graph after [updateResources] is the graph after the marks the diff
    asks for, those of the shell services apart in an untrusted environment. *)
Lemma updateResources_resources : forall w m d,
  resources (fst (updateResources w m d))
  = applyMarks (marksOf (if untrustedEnv (opts m) then permittedDiff d else d)) (resources m).
Proof.
  intros w m d. destruct (untrustedEnv (opts m)) eqn:Hu.
  - now rewrite (updateResources_untrusted w m d Hu).
  - unfold updateResources.
    rewrite fold_service_trusted by assumption.
    rewrite fold_component, fold_remote, fold_component.
    rewrite fold_service_trusted by assumption.
    rewrite fold_remote. cbn [fst snd].
    rewrite modifyProcesses_resources, addProcesses_resources. cbn [resources withResources].
    unfold marksOf. now rewrite !applyMarks_app.
Qed.

Lemma typed_marks : forall c,
  typedConfig c ->
  Forall (fun x : Mark => ofRemote (markName x) -> snd x = [])
         (map resourceMark (Services c)) /\
  Forall (fun x : Mark => ofRemote (markName x) -> snd x = [])
         (map resourceMark (Components c)) /\
  Forall (fun x : Mark => ofRemote (markName x) -> snd x = [])
         (map remoteMark (Remotes c)).
Proof.
  intros c [Hc Hs].
  assert (G : forall l, Forall (fun x => API.IsComponent (ConfAPI x) = true \/
                                        API.IsService (ConfAPI x) = true) l ->
              Forall (fun x : Mark => ofRemote (markName x) -> snd x = [])
                     (map resourceMark l)).
  { intros l Hl. apply Forall_forall. intros x Hx. apply in_map_iff in Hx.
    destruct Hx as (y & <- & Hy). rewrite Forall_forall in Hl. specialize (Hl y Hy).
    intros [Hrem|Hapi]; [discriminate Hrem|]. exfalso.
    unfold markName, resourceMark in Hapi. cbn in Hapi. rewrite Hapi in Hl.
    destruct Hl as [Hl|Hl]; discriminate Hl. }
  split; [|split].
  - apply G. eapply Forall_impl; [|exact Hs]. now right.
  - apply G. eapply Forall_impl; [|exact Hc]. now left.
  - apply Forall_forall. intros x Hx. apply in_map_iff in Hx.
    destruct Hx as (y & <- & _). reflexivity.
Qed.

Lemma typed_permitted : forall c, typedConfig c -> typedConfig (permitted c).
Proof.
  intros c [Hc Hs]. split; [exact Hc|]. unfold permitted, withoutShell. cbn [Services].
  apply Forall_forall. intros x Hx. apply filter_In in Hx. destruct Hx as [Hx _].
  rewrite Forall_forall in Hs. now apply Hs.
Qed.

Lemma updateResources_wellMade : forall w m d,
  typedConfig (Added d) -> typedConfig (Modified d) ->
  wellMade (resources m) -> wellMade (resources (fst (updateResources w m d))).
Proof.
  intros w m d Ha Hm H. rewrite updateResources_resources.
  apply wellMade_applyMarks; [|exact H].
  assert (G : forall d', typedConfig (Added d') -> typedConfig (Modified d') ->
              Forall (fun x : Mark => ofRemote (markName x) -> snd x = []) (marksOf d')).
  { intros d' Ha' Hm'. destruct (typed_marks _ Ha') as (A1 & A2 & A3).
    destruct (typed_marks _ Hm') as (M1 & M2 & M3).
    unfold marksOf. repeat (apply Forall_app; split); assumption. }
  destruct (untrustedEnv (opts m)).
  - apply G; cbn [permittedDiff Added Modified]; now apply typed_permitted.
  - now apply G.
Qed.

Lemma markStep_wellMade : forall rName m n,
  wellMade (resources m) -> wellMade (resources (markChildrenForUpdate_step rName m n)).
Proof.
  intros rName m n H. unfold markChildrenForUpdate_step.
  destruct (Name.eqb n rName || Name.ContainsRemoteNames n); [exact H|].
  destruct (Graph.Node (resources m) n) as [gNode|] eqn:E; [|exact H].
  cbn [resources record withResources]. now apply wellMade_write with (nd := gNode).
Qed.

Lemma markChildrenForUpdate_wellMade : forall m rName,
  wellMade (resources m) -> wellMade (resources (fst (markChildrenForUpdate m rName))).
Proof.
  intros m rName H. unfold markChildrenForUpdate.
  destruct (Graph.SubGraphFrom (resources m) rName) as [sg|err]; [|exact H]. cbn [fst].
  generalize (Graph.TopologicalSort sg). intro l. revert m H.
  induction l as [|n l IH]; intros m H; cbn [fold_left]; [exact H|].
  apply IH. now apply markStep_wellMade.
Qed.

Lemma new_step_wellMade : forall remote rr m active changed resName,
  Name.api remote = RemoteAPI -> wellMade (resources m) ->
  wellMade (resources (fst (fst (updateRemoteResourceNames_new remote rr
                                   (m, active, changed) resName)))).
Proof.
  intros remote rr m active changed resName Hapi H. unfold updateRemoteResourceNames_new.
  destruct (resource.ResourceByName rr resName) as [res|err]; [|exact H].
  set (rn := Name.PrependRemote resName (Name.name remote)).
  destruct (active_has active rn &&
            match Graph.Node (resources m) rn with
            | Some nd => negb (GraphNode.IsUninitialized nd)
            | None => false
            end); [exact H|].
  set (m1 := match Graph.Node (resources m) rn with Some _ => _ | None => _ end).
  assert (H1 : wellMade (resources m1)).
  { unfold m1. destruct (Graph.Node (resources m) rn) as [nd|] eqn:E.
    - cbn [resources withResources]. now apply wellMade_write with (nd := nd).
    - pose proof (wellMade_AddNode (resources m) rn
                    (GraphNode.NewConfiguredGraphNode emptyConfig (Driver res) unknownModel)
                    H (fun _ => eq_refl)) as G.
      destruct (Graph.AddNode (resources m) rn _) as [g [e|]]; exact G. }
  pose proof (wellMade_AddChild (resources m1) rn remote H1 (fun _ => Hapi)
                ltac:(intro E; discriminate E)) as G.
  destruct (Graph.AddChild (resources m1) rn remote) as [g [e|]]; exact G.
Qed.

Lemma new_fold_wellMade : forall remote rr news st,
  Name.api remote = RemoteAPI -> wellMade (resources (fst (fst st))) ->
  wellMade (resources (fst (fst (fold_left (updateRemoteResourceNames_new remote rr)
                                           news st)))).
Proof.
  intros remote rr. induction news as [|r news IH]; intros st Hapi H; cbn [fold_left];
    [exact H|].
  apply IH; [exact Hapi|]. destruct st as [[m active] changed]. now apply new_step_wellMade.
Qed.

Lemma old_step_wellMade : forall w st entry,
  wellMade (resources (fst st)) ->
  wellMade (resources (fst (updateRemoteResourceNames_old w st entry))).
Proof.
  intros w [m changed] [resName isActive] H. unfold updateRemoteResourceNames_old.
  destruct isActive; [exact H|].
  set (m0 := record m _).
  pose proof (markChildrenForUpdate_wellMade m0 resName H) as G.
  destruct (markChildrenForUpdate m0 resName) as [m1 [err|]]; cbn [fst] in G |- *; [exact G|].
  destruct (Graph.Node (resources m1) resName) as [gNode|] eqn:E; [|exact G].
  cbn [GraphNode.Close].
  assert (G' : wellMade (Graph.setNode (resources m1) resName
                           (GraphNode.mk None (GraphNode.currentModel gNode)
                              (GraphNode.config gNode) (GraphNode.unresolvedDependencies gNode)
                              (GraphNode.needsReconfigure gNode) (GraphNode.needsUpdate gNode)
                              (GraphNode.lastErr gNode) (GraphNode.markedForRemoval gNode))))
    by (now apply wellMade_write with (nd := gNode)).
  destruct (GraphNode.current gNode) as [res|]; [|exact G'].
  destruct (Resource_Close w res); exact G'.
Qed.

Lemma old_fold_wellMade : forall w l st,
  wellMade (resources (fst st)) ->
  wellMade (resources (fst (fold_left (updateRemoteResourceNames_old w) l st))).
Proof.
  intros w. induction l as [|e l IH]; intros st H; cbn [fold_left]; [exact H|].
  apply IH. now apply old_step_wellMade.
Qed.

(** A pull from a remote keeps the graph well made. *)
Lemma updateRemoteResourceNames_wellMade : forall w m remote rr,
  Name.api remote = RemoteAPI -> wellMade (resources m) ->
  wellMade (resources (fst (updateRemoteResourceNames w m remote rr))).
Proof.
  intros w m remote rr Hapi H. unfold updateRemoteResourceNames.
  set (m0 := record m _).
  assert (H0 : wellMade (resources (snd (remoteResourceNames m0 remote)))).
  { unfold remoteResourceNames. cbn [snd]. now destruct (Graph.Node (resources m0) remote). }
  destruct (remoteResourceNames m0 remote) as [olds m1]. cbn [snd] in H0.
  pose proof (new_fold_wellMade remote rr (resource.ResourceNames rr)
                (m1, fold_left (fun a res => active_set a res false) olds [], false)
                Hapi H0) as G.
  destruct (fold_left (updateRemoteResourceNames_new remote rr) _ _) as [[m2 active] changed].
  cbn [fst] in G. now apply old_fold_wellMade.
Qed.

Lemma updateRemotesResourceNames_wellMade : forall w m,
  wellMade (resources m) -> wellMade (resources (fst (updateRemotesResourceNames w m))).
Proof.
  intros w m H. unfold updateRemotesResourceNames.
  generalize (Graph.Names (resources m)). intro l.
  assert (G : forall st, wellMade (resources (fst st)) ->
              wellMade (resources (fst (fold_left (updateRemotesResourceNames_step w) l st)))).
  { induction l as [|n l IH]; intros st Hst; cbn [fold_left]; [exact Hst|].
    apply IH. destruct st as [m0 changed]. unfold updateRemotesResourceNames_step.
    destruct (API.eqb (Name.api n) RemoteAPI) eqn:Ea; [|exact Hst].
    destruct (Graph.Node (resources m0) n) as [gNode|]; [|exact Hst].
    destruct (GraphNode.Resource gNode) as [[h|rr]|err]; try exact Hst.
    destruct changed; [exact Hst|].
    apply updateRemoteResourceNames_wellMade; [now apply API_eqb_eq | exact Hst]. }
  now apply G.
Qed.

Lemma addRemote_wellMade : forall w m rr gNode c,
  wellMade (resources m) -> wellMade (resources (addRemote w m rr gNode c)).
Proof.
  intros w m rr gNode c H. unfold addRemote. destruct gNode as [key|].
  - apply updateRemoteResourceNames_wellMade; [reflexivity|].
    destruct (Graph.Node (resources m) key) as [nd|] eqn:E; [|exact H].
    cbn [resources withResources]. now apply wellMade_write with (nd := nd).
  - match goal with
    | |- context [Graph.AddNode ?g ?n ?nd] =>
        pose proof (wellMade_AddNode g n nd H (fun _ => eq_refl)) as G;
        destruct (Graph.AddNode g n nd) as [g' [e|]]
    end; [exact H|].
    apply updateRemoteResourceNames_wellMade; [reflexivity | exact G].
Qed.

Lemma onNode_wellMade : forall m key f,
  (forall nd, GraphNode.unresolvedDependencies (f nd) = GraphNode.unresolvedDependencies nd) ->
  wellMade (resources m) -> wellMade (resources (onNode m key f)).
Proof.
  intros m key f Hf H. unfold onNode.
  destruct (Graph.Node (resources m) key) as [nd|] eqn:E; [|exact H].
  cbn [resources withResources]. now apply wellMade_write with (nd := nd).
Qed.

Lemma completeConfig_remote_wellMade : forall w m resName,
  wellMade (resources m) -> wellMade (resources (completeConfig_remote w m resName)).
Proof.
  intros w m resName H. unfold completeConfig_remote.
  destruct (Graph.Node (resources m) resName) as [gNode|]; [|exact H].
  destruct (negb (GraphNode.NeedsReconfigure gNode)); [exact H|].
  destruct (API.eqb (Name.api resName) RemoteAPI); [|exact H].
  destruct (NativeConfig_Remote (GraphNode.Config gNode)) as [remConf|err]; [|exact H].
  destruct (Remote_Validate w remConf) as [err|].
  { apply onNode_wellMade; [reflexivity | exact H]. }
  set (m0 := record m _).
  assert (Hp : resources (fst (processRemote w m0 remConf)) = resources m).
  { unfold processRemote. now destruct (dialRobotClient w remConf _). }
  destruct (processRemote w m0 remConf) as [m1 [rr|err]]; cbn [fst] in Hp.
  - cbn [resources record]. apply addRemote_wellMade. now rewrite Hp.
  - apply onNode_wellMade; [reflexivity|]. cbn [resources record]. now rewrite Hp.
Qed.

Lemma resolveNode_wellMade : forall (L : Type) (logger : error -> L) st n,
  wellMade (fst (fst st)) -> wellMade (fst (fst (Graph.resolveNode logger st n))).
Proof.
  intros L logger [[g errs] logged] n H. unfold Graph.resolveNode. cbn [fst] in H.
  destruct (Graph.Node g n) as [nd|] eqn:En; [|exact H].
  set (step := fun (acc : Graph.t * list string) (dep : string) => _).
  assert (G : forall deps g0 un,
            wellMade g0 -> Graph.nodes g0 = Graph.nodes g ->
            (deps <> [] -> ~ ofRemote n) ->
            wellMade (fst (fold_left step deps (g0, un))) /\
            Graph.nodes (fst (fold_left step deps (g0, un))) = Graph.nodes g /\
            (deps = [] -> snd (fold_left step deps (g0, un)) = un)).
  { induction deps as [|dep deps IH]; intros g0 un H0 Hn0 Hloc; cbn [fold_left];
      [cbn [fst snd]; split; [exact H0|]; split; [exact Hn0 | reflexivity]|].
    assert (Hn : ~ ofRemote n) by (apply Hloc; discriminate).
    assert (H1 : wellMade (fst (Graph.resolveOne g0 n dep)) /\
                 Graph.nodes (fst (Graph.resolveOne g0 n dep)) = Graph.nodes g).
    { split; [|now rewrite resolveOne_nodes].
      unfold Graph.resolveOne. destruct (filter _ _) as [|k [|k' l]]; try exact H0.
      pose proof (wellMade_AddChild g0 n k H0) as G.
      destruct (Graph.AddChild g0 n k) as [g1 [e|]]; [exact H0|]. apply G.
      - intro E. exfalso. apply Hn. now left.
      - intros _ E. apply Hn. now right. }
    destruct (Graph.resolveOne g0 n dep) as [g2 b] eqn:Er; cbn [fst] in H1.
    assert (Es : step (g0, un) dep = if b then (g2, un) else (g0, un ++ [dep]))
      by (unfold step; now rewrite Er).
    rewrite Es. destruct b.
    - destruct (IH g2 un (proj1 H1) (proj2 H1) (fun _ => Hn)) as (A & B & _).
      split; [exact A|]. split; [exact B | discriminate].
    - destruct (IH g0 (un ++ [dep]) H0 Hn0 (fun _ => Hn)) as (A & B & _).
      split; [exact A|]. split; [exact B | discriminate]. }
  destruct (G (GraphNode.unresolvedDependencies nd) g [] H eq_refl) as (A & B & C).
  { intros Hne Hrem. apply Hne. destruct H as [_ Hr]. now apply (Hr n nd). }
  destruct (fold_left step (GraphNode.unresolvedDependencies nd) (g, [])) as [g' unresolved].
  cbn [fst snd] in A, B, C.
  assert (W : wellMade (Graph.setNode g' n
                          (GraphNode.mk (GraphNode.current nd) (GraphNode.currentModel nd)
                             (GraphNode.config nd) unresolved (GraphNode.needsReconfigure nd)
                             (GraphNode.needsUpdate nd) (GraphNode.lastErr nd)
                             (GraphNode.markedForRemoval nd)))).
  { apply wellMade_setNode; [exact A|]. intro Hrem. cbn [GraphNode.unresolvedDependencies].
    apply C. destruct H as [_ Hr]. now apply (Hr n nd). }
  now destruct unresolved.
Qed.

Lemma ResolveDependencies_wellMade : forall (L : Type) (logger : error -> L) g,
  wellMade g -> wellMade (fst (fst (Graph.ResolveDependencies logger g))).
Proof.
  intros L logger g H. unfold Graph.ResolveDependencies.
  assert (G : forall l st, wellMade (fst (fst st)) ->
                           wellMade (fst (fst (fold_left (Graph.resolveNode logger) l st)))).
  { induction l as [|n l IH]; intros st Hst; [exact Hst|]. cbn [fold_left].
    apply IH. now apply resolveNode_wellMade. }
  now apply G.
Qed.

Lemma completeConfig_resource_wellMade : forall w m resName,
  wellMade (resources m) -> wellMade (resources (completeConfig_resource w m resName)).
Proof.
  intros w m resName H. unfold completeConfig_resource.
  destruct (Graph.Node (resources m) resName) as [gNode|]; [|exact H].
  destruct (negb (GraphNode.NeedsReconfigure gNode)); [exact H|].
  destruct (negb (API.IsComponent (Name.api resName) || API.IsService (Name.api resName)));
    [exact H|].
  destruct (Config_Validate w (GraphNode.Config gNode) _) as [err|].
  { apply onNode_wellMade; [reflexivity | exact H]. }
  destruct (if Provides w (GraphNode.Config gNode)
            then ValidateConfig w (GraphNode.Config gNode) else None) as [err|].
  { apply onNode_wellMade; [reflexivity | exact H]. }
  set (m0 := record m _).
  destruct (processResource_frame w m0 (GraphNode.Config gNode) gNode) as (Hres & _).
  destruct (processResource w m0 (GraphNode.Config gNode) gNode) as [m1 [[newRes nb] err]].
  cbn [fst] in Hres.
  assert (H1 : wellMade (resources m1)) by (now rewrite Hres).
  set (m2 := if nb || match err with Some _ => true | None => false end then _ else m1).
  assert (H2 : wellMade (resources m2)).
  { unfold m2. destruct (nb || match err with Some _ => true | None => false end); [|exact H1].
    pose proof (markChildrenForUpdate_wellMade m1 resName H1) as G.
    destruct (markChildrenForUpdate m1 resName) as [m' [e|]]; exact G. }
  destruct err as [e|].
  - apply onNode_wellMade; [reflexivity | exact H2].
  - destruct newRes as [res|]; [|exact H2]. apply onNode_wellMade; [reflexivity | exact H2].
Qed.

(** A complete-config pass keeps the graph well made. *)
Lemma completeConfig_wellMade : forall w m,
  wellMade (resources m) -> wellMade (resources (completeConfig w m)).
Proof.
  intros w m H. unfold completeConfig.
  assert (F1 : forall l m0, wellMade (resources m0) ->
               wellMade (resources (fold_left (completeConfig_remote w) l m0))).
  { induction l as [|n l IH]; intros m0 H0; cbn [fold_left]; [exact H0|].
    apply IH. now apply completeConfig_remote_wellMade. }
  assert (F2 : forall l m0, wellMade (resources m0) ->
               wellMade (resources (fold_left (completeConfig_resource w) l m0))).
  { induction l as [|n l IH]; intros m0 H0; cbn [fold_left]; [exact H0|].
    apply IH. now apply completeConfig_resource_wellMade. }
  specialize (F1 (Graph.FindNodesByAPI (resources m) RemoteAPI) m H).
  set (m1 := fold_left (completeConfig_remote w) _ m) in *.
  pose proof (ResolveDependencies_wellMade _ ResolverLog _ F1) as G.
  destruct (Graph.ResolveDependencies ResolverLog (resources m1)) as [[g errs] logged].
  cbn [fst] in G. apply F2. now destruct (multierr_error errs).
Qed.

End ManagerGraphs.

(** X24. Every manager that is reached from a new one by [updateResources]
    on configurations whose components carry component APIs and whose
    services carry service APIs, by [completeConfig] and by
    [updateRemotesResourceNames] has a graph in which a remote-scoped node
    depends on remote nodes only and the node of a remote of this robot
    depends on nothing, and in which neither of the two names a dependency
    that waits to be resolved. *)
Theorem reachable_graph_is_remoteShaped :
  forall (w : robotimpl.World) (m : robotimpl.resourceManager),
    reachable w m ->
    remoteShaped (robotimpl.resources m) /\ remotesResolved (robotimpl.resources m).
Proof.
  intros w m H. change (wellMade (robotimpl.resources m)).
  induction H as [o | m d _ IH Ha Hm | m _ IH | m _ IH].
  - split.
    + intros c p [].
    + intros k nd Hk. discriminate Hk.
  - now apply updateResources_wellMade.
  - now apply completeConfig_wellMade.
  - now apply updateRemotesResourceNames_wellMade.
Qed.

Lemma reachable_graph_is_remoteShaped_witness :
  reachable scenario.world rebuild.manager /\
  remoteShaped (robotimpl.resources rebuild.manager) /\
  remotesResolved (robotimpl.resources rebuild.manager).
Proof.
  assert (R : reachable scenario.world rebuild.manager).
  { unfold rebuild.manager, rebuild.configured, rebuild.planned.
    apply reach_updateResources; [| split; repeat constructor | split; repeat constructor].
    apply reach_completeConfig.
    apply reach_updateResources; [| split; repeat constructor | split; repeat constructor].
    apply reach_new. }
  split; [exact R|]. exact (reachable_graph_is_remoteShaped scenario.world rebuild.manager R).
Defined.
